(** * Cornell notes: the PDF and Anki exporters

    A shallow embedding of [src/lib/export-utils.ts], [src/lib/link-utils.ts]
    and [src/lib/anki-export-utils.ts], and the properties of the export
    pipeline proved over it; with them the export and import of all the
    notes ([lib/export-import-utils]), the cleanup of the stored images
    ([src/lib/storage-utils.ts], [src/lib/image-storage.ts]) and the inputs
    that write the markup the exporters read ([src/components]: the table
    generator, the tag input, the link input, the image inserter).

    Conventions of the embedding.
    - A JavaScript string is a sequence of UTF-16 code units.  The embedding
      keeps the code units below 256 (ISO-8859-1), one [ascii] each, so that
      [String.length] is JavaScript's [length].
    - A JavaScript number is a double, kept as the rational [Q] it denotes:
      every [+], [-], [*] and [/] of the layout arithmetic rounds its exact
      result to the nearest double, ties to even ([Num.round]); comparisons
      are exact.  The exponent is not bounded (no infinity, no NaN, no
      subnormal number): the layout's magnitudes are far inside the range.
      A quotient by zero, an infinity or NaN in JavaScript, is 0 here; the
      properties of quotients are stated for positive divisors.
    - A regular expression literal is a value of [regex], run by a
      backtracking matcher with JavaScript's priorities (leftmost first,
      greedy and lazy quantifiers, captures).
    - The browser and jsPDF facilities the code calls (text measurement, page
      size, the image store, image decoding, clock and random source) are
      the fields of one record, [Env]. *)

From Stdlib Require Import Bool Arith List Ascii String ZArith QArith Qround Qpower Lia Lqa.
Import ListNotations.
Local Close Scope Q_scope.
Local Open Scope string_scope.
Local Open Scope list_scope.
Local Open Scope nat_scope.

Set Implicit Arguments.

(* ------------------------------------------------------------------ *)
(** * JavaScript strings *)

Module Js.

Definition LF : ascii := "010"%char.
Definition CR : ascii := "013"%char.
Definition TAB : ascii := "009"%char.
Definition nl : string := String LF "".
(** The double quote [dq], and the two quote characters of a class that
    holds the double and the single quote, written [[dq']] below. *)
Definition dq : string := String "034"%char "".
Definition quotes : string := String "034"%char (String "039"%char "").
(** Space and tab, the class [[ \t]]. *)
Definition blanks : string := String " "%char (String "009"%char "").

Definition code (c : ascii) : nat := nat_of_ascii c.

(** [WhiteSpace] and [LineTerminator] of ECMAScript, below 256: what
    [trim] strips and what [\s] matches. *)
Definition isWhite (c : ascii) : bool :=
  let n := code c in
  ((9 <=? n) && (n <=? 13)) || (n =? 32) || (n =? 160).

(** [LineTerminator]: what [.] refuses. *)
Definition isLineTerminator (c : ascii) : bool :=
  let n := code c in (n =? 10) || (n =? 13).

Definition isDigit (c : ascii) : bool :=
  let n := code c in (48 <=? n) && (n <=? 57).
Definition isLower (c : ascii) : bool :=
  let n := code c in (97 <=? n) && (n <=? 122).
Definition isUpper (c : ascii) : bool :=
  let n := code c in (65 <=? n) && (n <=? 90).
(** [\w] *)
Definition isWord (c : ascii) : bool :=
  isDigit c || isLower c || isUpper c || (code c =? 95).

Fixpoint mapChars (f : ascii -> ascii) (s : string) : string :=
  match s with
  | EmptyString => EmptyString
  | String c r => String (f c) (mapChars f r)
  end.

(** [toLowerCase] on ISO-8859-1: A-Z and the accented capitals
    (192-222 but the multiplication sign 215) move up by 32. *)
Definition lowerChar (c : ascii) : ascii :=
  let n := code c in
  if isUpper c then ascii_of_nat (n + 32)
  else if (192 <=? n) && (n <=? 222) && negb (n =? 215) then ascii_of_nat (n + 32)
  else c.
Definition toLowerCase : string -> string := mapChars lowerChar.

(** [toUpperCase], on the ASCII letters only (its one use compares the
    result with "JPEG", "JPG" and "PNG"). *)
Definition upperChar (c : ascii) : ascii :=
  if isLower c then ascii_of_nat (code c - 32) else c.
Definition toUpperCase : string -> string := mapChars upperChar.

Fixpoint rev_onto (s acc : string) : string :=
  match s with
  | EmptyString => acc
  | String c r => rev_onto r (String c acc)
  end.
Definition rev (s : string) : string := rev_onto s "".

Fixpoint trimStart (s : string) : string :=
  match s with
  | String c r => if isWhite c then trimStart r else s
  | EmptyString => EmptyString
  end.
Definition trimEnd (s : string) : string := rev (trimStart (rev s)).
Definition trim (s : string) : string := trimEnd (trimStart s).

(** A string is truthy when it is not empty. *)
Definition truthy (s : string) : bool :=
  match s with EmptyString => false | _ => true end.

Definition startsWith (p s : string) : bool := String.prefix p s.
Definition endsWith (p s : string) : bool := String.prefix (rev p) (rev s).

Fixpoint includes (p s : string) : bool :=
  String.prefix p s ||
  match s with
  | EmptyString => false
  | String _ r => includes p r
  end.

(** [s.indexOf(p)], [None] for -1. *)
Fixpoint indexOf (p s : string) : option nat :=
  if String.prefix p s then Some 0
  else match s with
       | EmptyString => None
       | String _ r => option_map S (indexOf p r)
       end.

(** [s.substring(n)] *)
Fixpoint substringFrom (n : nat) (s : string) : string :=
  match n, s with
  | O, _ => s
  | S n', String _ r => substringFrom n' r
  | S _, EmptyString => EmptyString
  end.

(** [s.split(sep)] for a separator of one character. *)
Fixpoint split (sep : ascii) (s : string) : list string :=
  match s with
  | EmptyString => [EmptyString]
  | String c r =>
      if Ascii.eqb c sep then EmptyString :: split sep r
      else match split sep r with
           | x :: xs => String c x :: xs
           | [] => [String c EmptyString]
           end
  end.

(** [a.join(sep)] *)
Definition join (sep : string) (a : list string) : string := String.concat sep a.

(** [a.slice(1, -1)] *)
Definition sliceInner {A} (a : list A) : list A := removelast (tl a).

(** [a[i] || d] on an array of strings. *)
Definition nthOr (a : list string) (i : nat) (d : string) : string :=
  match nth_error a i with
  | Some s => if truthy s then s else d
  | None => d
  end.

(** The longest prefix whose elements satisfy [p], and what follows it: a
    [while (i < lines.length && p(lines[i])) { ...; i++ }] loop. *)
Fixpoint takeWhile {A} (p : A -> bool) (l : list A) : list A :=
  match l with
  | x :: r => if p x then x :: takeWhile p r else []
  | [] => []
  end.
Fixpoint dropWhile {A} (p : A -> bool) (l : list A) : list A :=
  match l with
  | x :: r => if p x then dropWhile p r else l
  | [] => []
  end.

(** [s.substring(s.indexOf(p) + 1)] *)
Definition afterFirst (p s : string) : string :=
  match indexOf p s with
  | Some k => substringFrom (S k) s
  | None => s
  end.

(** [GetSubstitution] for a string pattern (no captures): [$$] is a
    dollar, [$&] the matched text, [$`] what stands before the match, [$']
    what stands after it; any other text is copied. *)
Fixpoint expand (matched before after repl : string) : string :=
  match repl with
  | EmptyString => EmptyString
  | String c r =>
      if Ascii.eqb c "$" then
        match r with
        | String d r' =>
            if Ascii.eqb d "$" then String "$" (expand matched before after r')
            else if Ascii.eqb d "&" then matched ++ expand matched before after r'
            else if Ascii.eqb d "`" then before ++ expand matched before after r'
            else if Ascii.eqb d "'" then after ++ expand matched before after r'
            else String c (expand matched before after r)
        | EmptyString => String c EmptyString
        end
      else String c (expand matched before after r)
  end.

(** [s.replace(pat, repl)] with a string pattern: the first occurrence
    only.  [seen] is the text before the current position, reversed. *)
Fixpoint replaceStrFrom (pat repl seen s : string) : string :=
  if String.prefix pat s then
    let after := substringFrom (String.length pat) s in
    expand pat (rev seen) after repl ++ after
  else match s with
       | EmptyString => EmptyString
       | String c s' => String c (replaceStrFrom pat repl (String c seen) s')
       end.
Definition replaceStr (pat repl s : string) : string := replaceStrFrom pat repl "" s.

(** Decimal rendering of a natural number ([`${n}`]). *)
Fixpoint digitsAux (fuel n : nat) (acc : string) : string :=
  match fuel with
  | O => acc
  | S f =>
      let acc' := String (ascii_of_nat (48 + n mod 10)) acc in
      if n / 10 =? 0 then acc' else digitsAux f (n / 10) acc'
  end.
Definition ofNat (n : nat) : string := digitsAux (S n) n "".

End Js.

(* ------------------------------------------------------------------ *)
(** * Regular expressions

    The regular expression literals of the sources are written as values of
    [regex] and run by [rmatch], a backtracking matcher in continuation
    style: alternatives are tried left to right, a greedy star tries one
    more iteration before it tries the continuation, a lazy star the other
    way round, and an iteration that consumes nothing is refused (as
    ECMAScript's RepeatMatcher does).  The star is bounded by the length of
    the remaining input, which every iteration shortens. *)

Module Re.

Inductive regex : Type :=
| Eps : regex
| Chr : (ascii -> bool) -> regex
| Cat : regex -> regex -> regex
| Alt : regex -> regex -> regex
| Star : bool -> regex -> regex      (* [true]: greedy, [false]: lazy *)
| Group : nat -> regex -> regex      (* capturing group number [n] *)
| Bol : bool -> regex                (* [^]; the flag is the [m] flag *)
| Eol : bool -> regex.               (* [$]; the flag is the [m] flag *)

(** The matcher's position: the character before it, the input still to
    read, and the captures made so far. *)
Record mstate : Type := MState {
  prev : option ascii;
  rest : string;
  caps : list (nat * string)
}.

Fixpoint takeN (n : nat) (s : string) : string :=
  match n, s with
  | S n', String c r => String c (takeN n' r)
  | _, _ => EmptyString
  end.

Fixpoint lastChar (p : option ascii) (s : string) : option ascii :=
  match s with
  | EmptyString => p
  | String c r => lastChar (Some c) r
  end.

(** The text read between two positions of one input. *)
Definition taken (before after : string) : string :=
  takeN (String.length before - String.length after) before.

Definition setCap (i : nat) (t : string) (c : list (nat * string)) : list (nat * string) :=
  (i, t) :: c.

Fixpoint getCap (i : nat) (c : list (nat * string)) : option string :=
  match c with
  | [] => None
  | (j, t) :: c' => if i =? j then Some t else getCap i c'
  end.

Definition atBol (m : bool) (st : mstate) : bool :=
  match prev st with
  | None => true
  | Some c => m && Js.isLineTerminator c
  end.

Definition atEol (m : bool) (st : mstate) : bool :=
  match rest st with
  | EmptyString => true
  | String c _ => m && Js.isLineTerminator c
  end.

(** The iterations of a star: [step] matches the starred expression once,
    [k] is what follows the star, [n] bounds the iterations left. *)
Definition starLoop (step : mstate -> (mstate -> option mstate) -> option mstate)
           (greedy : bool) (k : mstate -> option mstate)
  : nat -> mstate -> option mstate :=
  fix loop (n : nat) (st : mstate) {struct n} : option mstate :=
    match n with
    | O => k st
    | S n' =>
        let again :=
          step st (fun st' =>
            if String.length (rest st') <? String.length (rest st)
            then loop n' st' else None) in
        if greedy then
          match again with Some x => Some x | None => k st end
        else
          match k st with Some x => Some x | None => again end
    end.

Fixpoint rmatch (r : regex) (st : mstate) (k : mstate -> option mstate)
  {struct r} : option mstate :=
  match r with
  | Eps => k st
  | Chr p =>
      match rest st with
      | String c s' => if p c then k (MState (Some c) s' (caps st)) else None
      | EmptyString => None
      end
  | Cat a b => rmatch a st (fun st' => rmatch b st' k)
  | Alt a b =>
      match rmatch a st k with
      | Some x => Some x
      | None => rmatch b st k
      end
  | Star greedy a => starLoop (rmatch a) greedy k (String.length (rest st)) st
  | Group i a =>
      rmatch a st (fun st' =>
        k (MState (prev st') (rest st') (setCap i (taken (rest st) (rest st')) (caps st'))))
  | Bol m => if atBol m st then k st else None
  | Eol m => if atEol m st then k st else None
  end.

(** Derived forms. *)
Definition only (c : ascii) : ascii -> bool := Ascii.eqb c.
Definition isNot (c : ascii) : ascii -> bool := fun x => negb (Ascii.eqb c x).
Definition oneOf (cs : string) : ascii -> bool :=
  fun x => existsb (Ascii.eqb x) (list_ascii_of_string cs).
(** [.] *)
Definition dot : ascii -> bool := fun x => negb (Js.isLineTerminator x).

Fixpoint Lit (s : string) : regex :=
  match s with
  | EmptyString => Eps
  | String c r => Cat (Chr (only c)) (Lit r)
  end.
Definition Plus (greedy : bool) (r : regex) : regex := Cat r (Star greedy r).
Definition Opt (r : regex) : regex := Alt r Eps.
(** [r{0,n}], greedy *)
Fixpoint UpTo (n : nat) (r : regex) : regex :=
  match n with
  | O => Eps
  | S n' => Opt (Cat r (UpTo n' r))
  end.
(** [r{n}] followed by [tl] *)
Fixpoint Times (n : nat) (r tl : regex) : regex :=
  match n with
  | O => tl
  | S n' => Cat r (Times n' r tl)
  end.
(** [r{lo,hi}] *)
Definition Rep (lo hi : nat) (r : regex) : regex := Times lo r (UpTo (hi - lo) r).

Fixpoint Seq (rs : list regex) : regex :=
  match rs with
  | [] => Eps
  | [r] => r
  | r :: rs' => Cat r (Seq rs')
  end.

(** One match, as [exec] reports it. *)
Record Match : Type := MkMatch {
  m_index : nat;
  m_text : string;
  m_caps : list (nat * string)
}.

(** [$n] of a match; an unset group reads as the empty string in a
    replacement. *)
Definition group (i : nat) (m : Match) : string :=
  match getCap i (m_caps m) with Some t => t | None => EmptyString end.
(** [match[n]], [None] for [undefined]. *)
Definition groupOpt (i : nat) (m : Match) : option string := getCap i (m_caps m).

(** The match that starts exactly at the current position. *)
Definition matchAt (r : regex) (p : option ascii) (s : string) : option mstate :=
  rmatch r (MState p s []) Some.

Definition toMatch (idx : nat) (s : string) (st : mstate) : Match :=
  MkMatch idx (taken s (rest st)) (caps st).

(** The leftmost match at or after the current position ([idx] is the
    index of that position in the whole input). *)
Fixpoint search (r : regex) (idx : nat) (p : option ascii) (s : string) : option Match :=
  match matchAt r p s with
  | Some st => Some (toMatch idx s st)
  | None =>
      match s with
      | EmptyString => None
      | String c s' => search r (S idx) (Some c) s'
      end
  end.

(** [r.exec(s)] with [r.lastIndex = i] (global flag): the match and the new
    [lastIndex]. *)
Definition exec (r : regex) (i : nat) (s : string) : option Match :=
  if String.length s <? i then None
  else search r i (lastChar None (takeN i s)) (Js.substringFrom i s).

Definition lastIndexAfter (m : Match) : nat := m_index m + String.length (m_text m).

(** [r.test(s)], [s.match(r)] used as a condition (no global flag). *)
Definition test (r : regex) (s : string) : bool :=
  match search r 0 None s with Some _ => true | None => false end.

(** [s.replace(r, f)] with the global flag.  [skip] counts the characters
    of the last match that are still to be passed over; after an empty
    match the scan moves one character on. *)
Fixpoint replaceFrom (r : regex) (f : Match -> string)
         (skip idx : nat) (p : option ascii) (s : string) : string :=
  match skip with
  | S k =>
      match s with
      | String c s' => replaceFrom r f k (S idx) (Some c) s'
      | EmptyString => EmptyString
      end
  | O =>
      match matchAt r p s with
      | Some st =>
          let m := toMatch idx s st in
          f m ++
          match s with
          | EmptyString => EmptyString
          | String c s' =>
              match String.length (m_text m) with
              | O => String c (replaceFrom r f 0 (S idx) (Some c) s')
              | S k => replaceFrom r f k (S idx) (Some c) s'
              end
          end
      | None =>
          match s with
          | EmptyString => EmptyString
          | String c s' => String c (replaceFrom r f 0 (S idx) (Some c) s')
          end
      end
  end.
Definition replaceAll (r : regex) (f : Match -> string) (s : string) : string :=
  replaceFrom r f 0 0 None s.

(** [s.replace(r, f)] without the global flag: the first match only. *)
Fixpoint replaceOnceFrom (r : regex) (f : Match -> string)
         (idx : nat) (p : option ascii) (s : string) : string :=
  match matchAt r p s with
  | Some st => f (toMatch idx s st) ++ rest st
  | None =>
      match s with
      | EmptyString => EmptyString
      | String c s' => String c (replaceOnceFrom r f (S idx) (Some c) s')
      end
  end.
Definition replaceOnce (r : regex) (f : Match -> string) (s : string) : string :=
  replaceOnceFrom r f 0 None s.

(** All the matches of a global regex over one string: the successive
    results of [exec], or [matchAll]. *)
Fixpoint matchesFrom (r : regex) (skip idx : nat) (p : option ascii) (s : string)
  : list Match :=
  match skip with
  | S k =>
      match s with
      | String c s' => matchesFrom r k (S idx) (Some c) s'
      | EmptyString => []
      end
  | O =>
      match matchAt r p s with
      | Some st =>
          let m := toMatch idx s st in
          m ::
          match s with
          | EmptyString => []
          | String c s' => matchesFrom r (Nat.pred (String.length (m_text m))) (S idx) (Some c) s'
          end
      | None =>
          match s with
          | EmptyString => []
          | String c s' => matchesFrom r 0 (S idx) (Some c) s'
          end
      end
  end.
Definition matchAll (r : regex) (s : string) : list Match := matchesFrom r 0 0 None s.

End Re.

(* ------------------------------------------------------------------ *)
(** * Numbers *)

Module Num.
Local Open Scope Q_scope.

(** ** Rounding to a double

    The nearest integer, ties to the even one. *)
Definition nearestEven (s : Q) : Z :=
  let f := Qfloor s in
  match Qcompare (s - inject_Z f) (1 # 2) with
  | Lt => f
  | Gt => (f + 1)%Z
  | Eq => if Z.even f then f else (f + 1)%Z
  end.

(** The binary exponent of a positive number, the [k] with
    [2 ^ k <= q < 2 ^ (k + 1)]: the difference of the bit lengths of the
    numerator and the denominator, or one less. *)
Definition ilog2 (q : Q) : Z :=
  let g := (Z.log2 (Qnum q) - Z.log2 (Zpos (Qden q)))%Z in
  if Qle_bool (Qpower 2 g) q then g else (g - 1)%Z.

(** A positive number rounded to 53 significant bits: scaled to lie
    between [2 ^ 52] and [2 ^ 53], rounded to an integer, scaled back. *)
Definition roundPos (q : Q) : Q :=
  let e := (ilog2 q - 52)%Z in
  inject_Z (nearestEven (q * 2 ^ (- e))) * 2 ^ e.

(** The double nearest to a rational, ties to even, in lowest terms. *)
Definition round (q : Q) : Q :=
  let q := Qred q in
  Qred (match Qcompare q 0 with
        | Eq => 0
        | Gt => roundPos q
        | Lt => - roundPos (- q)
        end).

(** ** The operations of the sources

    [a + b], [a - b], [a * b], [a / b] on doubles, and a decimal literal. *)
Definition add (a b : Q) : Q := round (a + b).
Definition sub (a b : Q) : Q := round (a - b).
Definition mul (a b : Q) : Q := round (a * b).
Definition div (a b : Q) : Q := round (a / b).
Definition lit (q : Q) : Q := round q.

Definition ofNat (n : nat) : Q := inject_Z (Z.of_nat n).
Definition ofZ (z : Z) : Q := inject_Z z.

(** [a > b], [a === b] *)
Definition gtb (a b : Q) : bool := negb (Qle_bool a b).
Definition eqb (a b : Q) : bool := Qeq_bool a b.

(** [Math.min], [Math.max] *)
Definition min (a b : Q) : Q := if Qle_bool a b then a else b.
Definition max (a b : Q) : Q := if Qle_bool a b then b else a.

End Num.

(** The arithmetic of the sources is written as they write it: where a
    number is expected, [+], [-], [*] and [/] are the operations on
    doubles (the exact ones are those of [Q_scope], written [(a + b)%Q]
    where a number is expected). *)
Declare Scope num_scope.
Delimit Scope num_scope with num.
#[add_top] Bind Scope num_scope with Q.
Arguments Num.nearestEven s%_Q.
Arguments Num.ilog2 q%_Q.
Arguments Num.roundPos q%_Q.
Arguments Num.round q%_Q.
Arguments Num.lit q%_Q.
Infix "+" := Num.add : num_scope.
Infix "-" := Num.sub : num_scope.
Infix "*" := Num.mul : num_scope.
Infix "/" := Num.div : num_scope.

(* ------------------------------------------------------------------ *)
(** * The environment of an export

    What the exporters obtain from jsPDF, the browser and the image store.
    Text measurement depends on the font that is current in the document. *)

Record Font : Type := MkFont {
  fontName : string;
  fontStyle : string;
  fontSize : Q
}.

Record Env : Type := MkEnv {
  (** [doc.internal.pageSize.getHeight()], [getWidth()] *)
  pageHeight : Q;
  pageWidth : Q;
  (** [doc.splitTextToSize(text, width)], [doc.getTextWidth(text)] *)
  splitTextToSize : Font -> string -> Q -> list string;
  getTextWidth : Font -> string -> Q;
  (** [await getImage(id)]: [None] for [null] *)
  getImage : string -> option string;
  (** decoding a data URL in an [Image]: [Some (width, height)] when
      [onload] fires, [None] when [onerror] does *)
  imageSize : string -> option (Q * Q);
  (** whether [doc.addImage] throws on this payload *)
  addImageThrows : string -> bool;
  (** the [n]-th [img_<Date.now()>_<random>] key of an export *)
  imageKey : nat -> string;
  (** whether [fetch(dataUrl)] fails when the archive is packed *)
  fetchFails : string -> bool
}.

(** What an export call comes to: the error it throws, or the file it hands
    to [downloadBlob]. *)
Inductive Outcome (A : Type) : Type :=
| Threw (message : string)
| Downloaded (filename : string) (blob : A).
Arguments Threw {A} message.
Arguments Downloaded {A} filename blob.

(* ------------------------------------------------------------------ *)
(** * src/lib/link-utils.ts *)

Module Links.
Import Re.

(** [/\[\[([^\]]+)\]\]/g] *)
Definition linkRegex : regex :=
  Seq [Lit "[["; Group 1 (Plus true (Chr (isNot "]"%char))); Lit "]]"].

(** [[...new Set(links)]]: the first occurrence of each element, in order. *)
Fixpoint dedup (seen : list string) (l : list string) : list string :=
  match l with
  | [] => []
  | x :: r =>
      if existsb (String.eqb x) seen then dedup seen r
      else x :: dedup (x :: seen) r
  end.

Definition extractNoteLinks (content : string) : list string :=
  let links := map (fun m => Js.trim (group 1 m)) (matchAll linkRegex content) in
  dedup [] links.

End Links.

(* ------------------------------------------------------------------ *)
(** * src/lib/export-utils.ts *)

Module Pdf.
Import Re.
Local Open Scope Q_scope.
Local Open Scope num_scope.

Record Section_ : Type := MkSection {
  heading : string;
  content : string
}.

Record FontSettings : Type := MkFontSettings {
  titleFont : string;
  bodyFont : string;
  mixedMode : bool;
  titleFontSize : Q;
  bodyFontSize : Q;
  smallFontSize : Q
}.

Inductive FontChoice : Type := Sans | Serif | Mixed.

Definition getFontSettings (font : FontChoice) : FontSettings :=
  let titleFontSize := 14 in
  let bodyFontSize := 11 in
  let smallFontSize := 10 in
  match font with
  | Serif => MkFontSettings "times" "times" false titleFontSize bodyFontSize smallFontSize
  | Mixed => MkFontSettings "helvetica" "times" true titleFontSize bodyFontSize smallFontSize
  | Sans => MkFontSettings "helvetica" "helvetica" false titleFontSize bodyFontSize smallFontSize
  end.

(** ** The jsPDF document

    The document is its page count, its current page, its current font and
    the drawing commands issued so far, each with the page it went to.
    Colours and line widths are not recorded. *)

Inductive Op : Type :=
| OpText (page : nat) (lines : list string) (x y : Q) (f : Font) (align : string)
| OpLine (page : nat) (x1 y1 x2 y2 : Q)
| OpRect (page : nat) (x y w h : Q)
| OpImage (page : nat) (src format : string) (x y w h : Q).

Record Doc : Type := MkDoc {
  numPages : nat;
  curPage : nat;
  font : Font;
  ops : list Op
}.

(** [new jsPDF(...)]: one page, Helvetica 16. *)
Definition newDoc : Doc := MkDoc 1 1 (MkFont "helvetica" "normal" 16) [].

Definition addPage (d : Doc) : Doc :=
  MkDoc (S (numPages d)) (S (numPages d)) (font d) (ops d).
Definition setPage (n : nat) (d : Doc) : Doc :=
  MkDoc (numPages d) n (font d) (ops d).
Definition emit (o : Op) (d : Doc) : Doc :=
  MkDoc (numPages d) (curPage d) (font d) (ops d ++ [o]).
Definition setFontSize (sz : Q) (d : Doc) : Doc :=
  MkDoc (numPages d) (curPage d) (MkFont (fontName (font d)) (fontStyle (font d)) sz) (ops d).
Definition docSetFont (name style : string) (d : Doc) : Doc :=
  MkDoc (numPages d) (curPage d) (MkFont name style (fontSize (font d))) (ops d).
Definition text (t : string) (x y : Q) (align : string) (d : Doc) : Doc :=
  emit (OpText (curPage d) [t] x y (font d) align) d.
Definition textLines (t : list string) (x y : Q) (d : Doc) : Doc :=
  emit (OpText (curPage d) t x y (font d) "left") d.
Definition line (x1 y1 x2 y2 : Q) (d : Doc) : Doc :=
  emit (OpLine (curPage d) x1 y1 x2 y2) d.
Definition rect (x y w h : Q) (d : Doc) : Doc :=
  emit (OpRect (curPage d) x y w h) d.
Definition addImage (src format : string) (x y w h : Q) (d : Doc) : Doc :=
  emit (OpImage (curPage d) src format x y w h) d.

(** [setFont(doc, fontName, style)]: only the built-in fonts. *)
Definition setFont (fontName : string) (style : string) (d : Doc) : Doc :=
  let lower := Js.toLowerCase fontName in
  let safeFont :=
    if existsb (String.eqb lower) ["helvetica"; "times"; "courier"]
    then lower else "helvetica" in
  docSetFont safeFont (if String.eqb style "bold" then "bold" else "normal") d.

(** ** parseMarkdown *)

(** The body of the [forEach]: the sections pushed so far (in order), the
    current heading and the current content lines. *)
Fixpoint parseLines (lines : list string) (sections : list Section_)
         (currentHeading : string) (currentContent : list string)
  : list Section_ :=
  match lines with
  | [] =>
      if Js.truthy currentHeading
      then sections ++ [MkSection currentHeading (Js.join Js.nl currentContent)]
      else sections
  | line :: rest =>
      if Js.startsWith "# " line then
        let sections' :=
          if Js.truthy currentHeading
          then sections ++ [MkSection currentHeading (Js.join Js.nl currentContent)]
          else sections in
        parseLines rest sections' (Js.substringFrom 2 line) []
      else
        parseLines rest sections currentHeading (currentContent ++ [line])
  end.

Definition parseMarkdown (markdown : string) : list Section_ :=
  parseLines (Js.split Js.LF markdown) [] "" [].

(** ** processContentForExport *)

Section WithEnv.
Variable env : Env.

(** [/cornell-image:\/\/(.*?)[dq']/g] *)
Definition imageRegex : regex :=
  Seq [Lit "cornell-image://"; Group 1 (Star false (Chr dot)); Chr (oneOf Js.quotes)].

(** [new RegExp(`cornell-image://${imageId}[dq']`, 'g')].  The identifier is
    read as literal text: the identifiers of stored images are
    [img_<digits>_<letters and digits>], with no character that is special
    in a pattern; the payload put in its place is a data URL, with no
    dollar sign, so that the replacement is literal. *)
Definition imageIdRegex (imageId : string) : regex :=
  Seq [Lit ("cornell-image://" ++ imageId)%string; Chr (oneOf Js.quotes)].

(** The [for (const match of matches)] loop. *)
Fixpoint loadImages (matches : list Match) (processedContent : string) : string :=
  match matches with
  | [] => processedContent
  | m :: rest =>
      let imageId := group 1 m in
      if Js.truthy imageId then
        match getImage env imageId with
        | Some imageData =>
            if Js.truthy imageData then
              loadImages rest
                (replaceAll (imageIdRegex imageId) (fun _ => (imageData ++ Js.dq)%string) processedContent)
            else loadImages rest processedContent
        | None => loadImages rest processedContent
        end
      else loadImages rest processedContent
  end.

Definition processContentForExport (content : string) : string :=
  let processedContent := loadImages (matchAll imageRegex content) content in
  (* Remove [[ ]] from note links in the content for PDF display *)
  replaceAll Links.linkRegex (group 1) processedContent.

(** ** cleanMarkdown *)

(** [/\*\*(.*?)\*\*/g], [/\*(.*?)\*/g], [/`([^`]+)`/g] *)
Definition boldRegex : regex :=
  Seq [Lit "**"; Group 1 (Star false (Chr dot)); Lit "**"].
Definition italicRegex : regex :=
  Seq [Lit "*"; Group 1 (Star false (Chr dot)); Lit "*"].
Definition inlineCodeRegex : regex :=
  Seq [Lit "`"; Group 1 (Plus true (Chr (isNot "`"%char))); Lit "`"].

Definition cleanMarkdown (text : string) : string :=
  let cleaned := replaceAll italicRegex (group 1) (replaceAll boldRegex (group 1) text) in
  replaceAll inlineCodeRegex (group 1) cleaned.

(** ** renderTable *)

(** [line.trim().startsWith("|") && line.trim().endsWith("|")] *)
Definition isTableRow (line : string) : bool :=
  Js.startsWith "|" (Js.trim line) && Js.endsWith "|" (Js.trim line).

(** [row.split("|").slice(1, -1)] *)
Definition rawCells (row : string) : list string :=
  Js.sliceInner (Js.split "|"%char row).

(** The alignment read from the separator row for one column (the same
    lines of code stand in the header, the redrawn header and the cells). *)
Definition textAlignOf (separatorRow : string) (colIndex : nat) : string :=
  let separatorCells := rawCells separatorRow in
  let alignmentCell := Js.nthOr separatorCells colIndex "---" in
  if Js.startsWith ":" (Js.trim alignmentCell) && Js.endsWith ":" (Js.trim alignmentCell)
  then "center"
  else if Js.endsWith ":" (Js.trim alignmentCell) then "right"
  else "left".

Definition cellPadding : Q := 3.
Definition rowHeight : Q := 8.

(** The text position for an alignment. *)
Definition alignedX (textAlign : string) (currentX columnWidth : Q) : Q :=
  if String.eqb textAlign "center" then currentX + columnWidth / 2
  else if String.eqb textAlign "right" then currentX + columnWidth - cellPadding
  else currentX + cellPadding.

(** [columns.forEach((col, colIndex) => ...)] of the header. *)
Fixpoint drawHeaderCells (separatorRow : string) (columns : list string) (colIndex : nat)
         (currentX currentY columnWidth : Q) (doc : Doc) : Doc :=
  match columns with
  | [] => doc
  | col :: rest =>
      let colText := cleanMarkdown col in
      let textAlign := textAlignOf separatorRow colIndex in
      let textX := alignedX textAlign currentX columnWidth in
      let doc := text colText textX (currentY + rowHeight / 2 + 1) textAlign doc in
      drawHeaderCells separatorRow rest (S colIndex) (currentX + columnWidth) currentY columnWidth doc
  end.

(** [for (let i = 0; i < cellLines.length; i++) doc.text(...)] *)
Fixpoint drawCellLines (cellLines : list string) (i : nat) (textX textY : Q)
         (textAlign : string) (doc : Doc) : Doc :=
  match cellLines with
  | [] => doc
  | l :: rest =>
      drawCellLines rest (S i) textX textY textAlign
        (text l textX (textY + Num.ofNat i * 6) textAlign doc)
  end.

(** [cells.forEach((cell, colIndex) => ...)] of a content row. *)
Fixpoint drawCells (separatorRow : string) (nColumns : nat) (cells : list string)
         (colIndex : nat) (currentX currentY columnWidth : Q) (doc : Doc) : Doc :=
  match cells with
  | [] => doc
  | cell :: rest =>
      if (colIndex <? nColumns)%nat then
        let textAlign := textAlignOf separatorRow colIndex in
        let textX := alignedX textAlign currentX columnWidth in
        let cellText := cleanMarkdown cell in
        let cellLines :=
          splitTextToSize env (font doc) cellText (columnWidth - cellPadding * 2) in
        let textY := currentY + cellPadding in
        let doc := drawCellLines cellLines 0 textX textY textAlign doc in
        drawCells separatorRow nColumns rest (S colIndex) (currentX + columnWidth)
                  currentY columnWidth doc
      else
        drawCells separatorRow nColumns rest (S colIndex) currentX currentY columnWidth doc
  end.

(** The header row with its separator line, at the first page and again
    after each page break. *)
Definition drawHeader (fontSettings : FontSettings) (separatorRow : string)
           (columns : list string) (x currentY columnWidth totalWidth : Q) (doc : Doc)
  : Doc * Q :=
  let doc := setFontSize (bodyFontSize fontSettings) doc in
  let doc := setFont (titleFont fontSettings) "bold" doc in
  let doc := drawHeaderCells separatorRow columns 0 x currentY columnWidth doc in
  let doc := setFont (bodyFont fontSettings) "normal" doc in
  let doc := setFontSize (bodyFontSize fontSettings) doc in
  let currentY := currentY + rowHeight in
  let doc := line x currentY (x + totalWidth) currentY doc in
  (doc, currentY).

(** [for (let rowIndex = 0; rowIndex < contentRows.length; rowIndex++)] *)
Fixpoint drawRows (fontSettings : FontSettings) (separatorRow : string)
         (columns : list string) (contentRows : list string)
         (x columnWidth totalWidth pageHeight margin : Q)
         (doc : Doc) (currentY : Q) : Doc * Q :=
  match contentRows with
  | [] => (doc, currentY)
  | row :: rest =>
      let '(doc, currentY) :=
        if Num.gtb (currentY + rowHeight) (pageHeight - margin) then
          drawHeader fontSettings separatorRow columns x margin columnWidth totalWidth
                     (addPage doc)
        else (doc, currentY) in
      let cells := map Js.trim (rawCells row) in
      let doc := drawCells separatorRow (List.length columns) cells 0 x currentY columnWidth doc in
      let currentY := currentY + rowHeight in
      let doc :=
        match rest with
        | [] => doc
        | _ :: _ => line x currentY (x + totalWidth) currentY doc
        end in
      drawRows fontSettings separatorRow columns rest x columnWidth totalWidth
               pageHeight margin doc currentY
  end.

Definition renderTable (doc : Doc) (tableText : list string) (x y maxWidth pageHeight margin : Q)
           (fontSettings : FontSettings) : Doc * Q :=
  let tableRows := filter isTableRow tableText in
  match tableRows with
  | headerRow :: separatorRow :: contentRows =>
      let columns := map Js.trim (rawCells headerRow) in
      let totalWidth := maxWidth - 10 in
      let columnWidth := totalWidth / Num.ofNat (List.length columns) in
      let '(doc, currentY) :=
        if Num.gtb (y + rowHeight * 2) (pageHeight - margin)
        then (addPage doc, margin) else (doc, y) in
      let '(doc, currentY) :=
        drawHeader fontSettings separatorRow columns x currentY columnWidth totalWidth doc in
      let '(doc, currentY) :=
        drawRows fontSettings separatorRow columns contentRows x columnWidth totalWidth
                 pageHeight margin doc currentY in
      (doc, currentY + 4)
  | _ => (doc, y) (* Not enough rows for a table *)
  end.

(** ** renderList *)

Definition lineHeight : Q := 6.

(** The bullet of an unordered list, U+2022; it lies outside the code units
    kept here and is written as its Windows-1252 code, 149. *)
Definition bullet : string := String (ascii_of_nat 149) "".

(** A page break inside running text: [doc.addPage(); currentY = margin]
    and the body font set again. *)
Definition breakIfFull (fontName : string) (pageHeight margin : Q) (doc : Doc) (currentY : Q)
  : Doc * Q :=
  if Num.gtb (currentY + lineHeight) (pageHeight - margin)
  then (setFont fontName "normal" (addPage doc), margin)
  else (doc, currentY).

(** [for (let lineIndex = 0; lineIndex < textLines.length; lineIndex++)] *)
Fixpoint drawItemLines (fontSettings : FontSettings) (textLines : list string)
         (textX pageHeight margin : Q) (doc : Doc) (currentY : Q) : Doc * Q :=
  match textLines with
  | [] => (doc, currentY)
  | l :: rest =>
      let '(doc, currentY) := breakIfFull (bodyFont fontSettings) pageHeight margin doc currentY in
      let doc := text l textX (currentY + 2) "left" doc in
      drawItemLines fontSettings rest textX pageHeight margin doc (currentY + lineHeight)
  end.

(** [for (let index = 0; index < listItems.length; index++)] *)
Fixpoint drawItems (fontSettings : FontSettings) (listItems : list string) (index : nat)
         (x maxWidth : Q) (isNumbered : bool) (pageHeight margin : Q)
         (doc : Doc) (currentY : Q) : Doc * Q :=
  match listItems with
  | [] => (doc, currentY)
  | item :: rest =>
      let indent := 5 in
      let '(doc, currentY) := breakIfFull (bodyFont fontSettings) pageHeight margin doc currentY in
      let marker := if isNumbered then (Js.ofNat (S index) ++ ".")%string else bullet in
      let markerWidth :=
        getTextWidth env (font doc)
          (if isNumbered then (marker ++ " ")%string else (marker ++ "  ")%string) in
      let doc := text marker x (currentY + 2) "left" doc in
      let itemText := cleanMarkdown (Js.trim item) in
      let textLines := splitTextToSize env (font doc) itemText (maxWidth - markerWidth - indent) in
      let '(doc, currentY) :=
        drawItemLines fontSettings textLines (x + markerWidth + indent) pageHeight margin
                      doc currentY in
      drawItems fontSettings rest (S index) x maxWidth isNumbered pageHeight margin doc currentY
  end.

Definition renderList (doc : Doc) (listItems : list string) (x y maxWidth : Q)
           (isNumbered : bool) (pageHeight margin : Q) (fontSettings : FontSettings)
  : Doc * Q :=
  let doc := setFontSize (bodyFontSize fontSettings) doc in
  let doc := setFont (bodyFont fontSettings) "normal" doc in
  let '(doc, currentY) :=
    drawItems fontSettings listItems 0 x maxWidth isNumbered pageHeight margin doc y in
  (doc, currentY + 2).

(** ** renderCodeBlock *)

(** [for (let i = 0; i < codeLines.length; i++)]; [codeLines] is
    [codeLines.slice(i)], the lines still to draw. *)
Fixpoint drawCodeLines (codeLines : list string) (x maxWidth pageHeight margin : Q)
         (doc : Doc) (currentY : Q) : Doc * Q :=
  match codeLines with
  | [] => (doc, currentY)
  | l :: rest =>
      let '(doc, currentY) :=
        if Num.gtb (currentY + lineHeight) (pageHeight - margin) then
          let remainingLines := codeLines in
          let doc := addPage doc in
          let currentY := margin in
          let remainingHeight :=
            Num.min (Num.ofNat (List.length remainingLines) * lineHeight + 6)
                    (pageHeight - margin - currentY) in
          let doc := rect x currentY maxWidth remainingHeight doc in
          (setFont "courier" "normal" doc, currentY)
        else (doc, currentY) in
      let doc := text l (x + 3) (currentY + 5 + 2) "left" doc in
      drawCodeLines rest x maxWidth pageHeight margin doc (currentY + lineHeight)
  end.

Definition renderCodeBlock (doc : Doc) (codeLines : list string) (x y maxWidth pageHeight margin : Q)
           (fontSettings : FontSettings) : Doc * Q :=
  let '(doc, currentY) :=
    if Num.gtb (y + lineHeight * Num.ofNat (List.length codeLines) + 6) (pageHeight - margin)
    then (addPage doc, margin) else (doc, y) in
  let blockHeight :=
    Num.min (Num.ofNat (List.length codeLines) * lineHeight + 6) (pageHeight - margin - currentY) in
  let doc := rect x currentY maxWidth blockHeight doc in
  let doc := setFontSize (smallFontSize fontSettings) doc in
  let doc := setFont "courier" "normal" doc in
  let '(doc, currentY) := drawCodeLines codeLines x maxWidth pageHeight margin doc currentY in
  (doc, currentY + 2).

(** ** renderBlockquote *)

(** [for (let j = 0; j < textLines.length; j++)]; [startY] is the top of
    the quote bar of the current page. *)
Fixpoint drawQuoteText (fontSettings : FontSettings) (textLines : list string)
         (x pageHeight margin : Q) (doc : Doc) (currentY startY : Q) : Doc * Q * Q :=
  match textLines with
  | [] => (doc, currentY, startY)
  | l :: rest =>
      let '(doc, currentY, startY) :=
        if Num.gtb (currentY + lineHeight) (pageHeight - margin) then
          let doc := line x startY x currentY doc in
          let doc := addPage doc in
          (setFont (bodyFont fontSettings) "normal" doc, margin, margin)
        else (doc, currentY, startY) in
      let doc := text l (x + 5) (currentY + 2) "left" doc in
      drawQuoteText fontSettings rest x pageHeight margin doc (currentY + lineHeight) startY
  end.

(** [for (let i = 0; i < quoteLines.length; i++)] *)
Fixpoint drawQuoteLines (fontSettings : FontSettings) (quoteLines : list string)
         (x maxWidth pageHeight margin : Q) (doc : Doc) (currentY startY : Q) : Doc * Q * Q :=
  match quoteLines with
  | [] => (doc, currentY, startY)
  | l :: rest =>
      let textLines := splitTextToSize env (font doc) (cleanMarkdown (Js.trim l)) (maxWidth - 5) in
      let '(doc, currentY, startY) :=
        drawQuoteText fontSettings textLines x pageHeight margin doc currentY startY in
      drawQuoteLines fontSettings rest x maxWidth pageHeight margin doc currentY startY
  end.

Definition renderBlockquote (doc : Doc) (quoteLines : list string) (x y maxWidth pageHeight margin : Q)
           (fontSettings : FontSettings) : Doc * Q :=
  let '(doc, currentY, startY) :=
    if Num.gtb (y + lineHeight) (pageHeight - margin)
    then (addPage doc, margin, margin) else (doc, y, y) in
  let doc := setFontSize (bodyFontSize fontSettings) doc in
  let doc := setFont (bodyFont fontSettings) "normal" doc in
  let '(doc, currentY, startY) :=
    drawQuoteLines fontSettings quoteLines x maxWidth pageHeight margin doc currentY startY in
  let doc := line x startY x currentY doc in
  (doc, currentY + 2).

(** ** renderMarkdownContent *)

(** [/^[-*]\s/], [/^\d+\.\s/], [/^#{2,6}\s/] *)
Definition unorderedRegex : regex :=
  Seq [Bol false; Chr (oneOf "-*"); Chr Js.isWhite].
Definition orderedRegex : regex :=
  Seq [Bol false; Plus true (Chr Js.isDigit); Chr (only "."%char); Chr Js.isWhite].
Definition headingRegex : regex :=
  Seq [Bol false; Rep 2 6 (Chr (only "#"%char)); Chr Js.isWhite].

Definition isFence (l : string) : bool := Js.startsWith "```" (Js.trim l).
Definition isQuote (l : string) : bool := Js.startsWith ">" (Js.trim l).
Definition isUnordered (l : string) : bool := test unorderedRegex (Js.trim l).
Definition isOrdered (l : string) : bool := test orderedRegex (Js.trim l).
Definition isHeading (l : string) : bool := test headingRegex (Js.trim l).
Definition isHtmlImage (l : string) : bool := Js.includes "<img" l && Js.includes "src=" l.
Definition isMarkdownImage (l : string) : bool := Js.includes "![" l && Js.includes "](" l.

Record SectionInfo : Type := MkSectionInfo {
  currentSection : nat;
  totalSections : nat
}.

(** The page break of the content column before something of height [h]:
    a new page, the body font set again, and the divider between the two
    columns unless the section is the last one. *)
Definition breakWithDividerFor (h : Q) (sectionInfo : SectionInfo) (fontSettings : FontSettings)
           (pageHeight margin keyPointsWidth : Q) (doc : Doc) (currentY : Q) : Doc * Q :=
  if Num.gtb (currentY + h) (pageHeight - margin) then
    let doc := addPage doc in
    let doc := setFontSize (bodyFontSize fontSettings) doc in
    let doc := setFont (bodyFont fontSettings) "normal" doc in
    let doc :=
      if (currentSection sectionInfo <? totalSections sectionInfo - 1)%nat
      then line (margin + keyPointsWidth) margin (margin + keyPointsWidth) (pageHeight - margin) doc
      else doc in
    (doc, margin)
  else (doc, currentY).
Definition breakWithDivider := breakWithDividerFor lineHeight.

(** Regular paragraph text: [for (let j = 0; j < textLines.length; j++)] *)
Fixpoint drawParagraphLines (sectionInfo : SectionInfo) (fontSettings : FontSettings)
         (textLines : list string) (x pageHeight margin keyPointsWidth : Q)
         (doc : Doc) (currentY : Q) : Doc * Q :=
  match textLines with
  | [] => (doc, currentY)
  | l :: rest =>
      let '(doc, currentY) :=
        breakWithDivider sectionInfo fontSettings pageHeight margin keyPointsWidth doc currentY in
      let doc := text l x (currentY + 2) "left" doc in
      drawParagraphLines sectionInfo fontSettings rest x pageHeight margin keyPointsWidth
                         doc (currentY + lineHeight)
  end.

Definition renderParagraph (sectionInfo : SectionInfo) (fontSettings : FontSettings)
           (line : string) (x maxWidth pageHeight margin keyPointsWidth : Q)
           (doc : Doc) (currentY : Q) : Doc * Q :=
  let doc := setFontSize (bodyFontSize fontSettings) doc in
  let doc := setFont (bodyFont fontSettings) "normal" doc in
  let textLines := splitTextToSize env (font doc) (cleanMarkdown line) maxWidth in
  let '(doc, currentY) :=
    drawParagraphLines sectionInfo fontSettings textLines x pageHeight margin keyPointsWidth
                       doc currentY in
  (* Add a small gap between paragraphs *)
  (doc, currentY + lineHeight * Num.lit (1 # 10)).

(** A heading of level 2 to 6. *)
Definition renderHeading (fontSettings : FontSettings) (line : string)
           (x maxWidth pageHeight margin : Q) (doc : Doc) (currentY : Q) : Doc * Q :=
  let level : Z :=
    match Js.indexOf " " (Js.trim line) with
    | Some k => Z.of_nat k
    | None => (-1)%Z
    end in
  let headingText := Js.substringFrom (Z.to_nat (level + 1)) (Js.trim line) in
  let headingSize :=
    Num.max (titleFontSize fontSettings - (Num.ofZ level - 2) * 2) (bodyFontSize fontSettings) in
  let doc := setFontSize headingSize doc in
  let doc := setFont (titleFont fontSettings) "bold" doc in
  let textLines := splitTextToSize env (font doc) (cleanMarkdown headingText) maxWidth in
  let height := Num.ofNat (List.length textLines) * lineHeight + 2 in
  let '(doc, currentY) :=
    if Num.gtb (currentY + height) (pageHeight - margin)
    then (setFont (titleFont fontSettings) "bold" (addPage doc), margin)
    else (doc, currentY) in
  let doc := Pdf.textLines textLines x (currentY + 2) doc in
  let doc := setFont (bodyFont fontSettings) "normal" doc in
  let doc := setFontSize (bodyFontSize fontSettings) doc in
  (doc, currentY + height).

(** The [while (i < lines.length)] loop; [lines] holds [lines[i]] and what
    follows it.  Every turn moves [i] forward, so the number of lines is
    fuel enough; [None] is the fuel running out. *)
Fixpoint renderLines (fuel : nat) (sectionInfo : SectionInfo) (fontSettings : FontSettings)
         (lines : list string) (x maxWidth pageHeight margin keyPointsWidth : Q)
         (doc : Doc) (currentY : Q) {struct fuel} : option (Doc * Q) :=
  match lines with
  | [] => Some (doc, currentY)
  | line :: after =>
      match fuel with
      | O => None
      | S fuel =>
          let continue_ lines' r :=
            renderLines fuel sectionInfo fontSettings lines' x maxWidth pageHeight margin
                        keyPointsWidth (fst r) (snd r) in
          let '(doc, currentY) :=
            breakWithDivider sectionInfo fontSettings pageHeight margin keyPointsWidth
                             doc currentY in
          if String.eqb (Js.trim line) "" then
            (* Skip empty lines but add spacing *)
            continue_ after (doc, currentY + lineHeight / 3)
          else if isTableRow line then
            let tableLines := Js.takeWhile isTableRow lines in
            continue_ (Js.dropWhile isTableRow lines)
              (renderTable doc tableLines x currentY maxWidth pageHeight margin fontSettings)
          else if isFence line then
            let notFence l := negb (isFence l) in
            let codeLines := Js.takeWhile notFence after in
            (* i++ skips the closing fence *)
            continue_ (tl (Js.dropWhile notFence after))
              (renderCodeBlock doc codeLines x currentY maxWidth pageHeight margin fontSettings)
          else if isQuote line then
            let quoteLines := map (Js.afterFirst ">") (Js.takeWhile isQuote lines) in
            continue_ (Js.dropWhile isQuote lines)
              (renderBlockquote doc quoteLines x currentY maxWidth pageHeight margin fontSettings)
          else if isUnordered line then
            let listItems := map (Js.afterFirst " ") (Js.takeWhile isUnordered lines) in
            continue_ (Js.dropWhile isUnordered lines)
              (renderList doc listItems x currentY maxWidth false pageHeight margin fontSettings)
          else if isOrdered line then
            let listItems := map (Js.afterFirst ".") (Js.takeWhile isOrdered lines) in
            continue_ (Js.dropWhile isOrdered lines)
              (renderList doc listItems x currentY maxWidth true pageHeight margin fontSettings)
          else if isHeading line then
            continue_ after
              (renderHeading fontSettings line x maxWidth pageHeight margin doc currentY)
          else if isHtmlImage line then continue_ after (doc, currentY)
          else if isMarkdownImage line then continue_ after (doc, currentY)
          else
            continue_ after
              (renderParagraph sectionInfo fontSettings line x maxWidth pageHeight margin
                               keyPointsWidth doc currentY)
      end
  end.

Definition renderMarkdownContent (doc : Doc) (content : string)
           (x y maxWidth pageHeight margin keyPointsWidth : Q)
           (sectionInfo : SectionInfo) (fontSettings : FontSettings) : option (Doc * Q) :=
  let lines := Js.split Js.LF content in
  renderLines (List.length lines) sectionInfo fontSettings lines x maxWidth pageHeight margin
              keyPointsWidth doc y.

(** ** addImagesToPdf *)

(** [/<img.*?src=[dq'](.*?)[dq'].*?>/g] *)
Definition htmlImageRegex : regex :=
  Seq [Lit "<img"; Star false (Chr dot); Lit "src="; Chr (oneOf Js.quotes);
       Group 1 (Star false (Chr dot)); Chr (oneOf Js.quotes);
       Star false (Chr dot); Lit ">"].

Definition imageMargin : Q := 4.
Definition maxImageHeight : Q := 80.

(** The size an image is placed at ([img.onload]): [(finalWidth,
    finalHeight)] from the width of the notes column and the intrinsic
    width and height. *)
Definition imageDims (maxWidth width height : Q) : Q * Q :=
  let aspectRatio := width / height in
  let imgWidth := maxWidth in
  let imgHeight := imgWidth / aspectRatio in
  let finalHeight := Num.min imgHeight maxImageHeight in
  let finalWidth :=
    if Num.eqb finalHeight imgHeight then imgWidth else finalHeight * aspectRatio in
  (finalWidth, finalHeight).

Definition isPlaceholder (src : string) : bool :=
  Js.includes "/placeholder.svg" src || Js.includes "/generic-placeholder-icon.png" src.

(** [image.src.split(";")[0].split("/")[1].toUpperCase()]; [None] when the
    second piece is [undefined] and the call throws. *)
Definition formatOf (src : string) : option string :=
  match nth_error (Js.split "/"%char (hd EmptyString (Js.split ";"%char src))) 1 with
  | Some f => Some (Js.toUpperCase f)
  | None => None
  end.

(** The body of [for (const image of imagesToAdd)]. *)
Definition addOneImage (sectionInfo : SectionInfo) (fontSettings : FontSettings)
           (src : string) (x maxWidth pageHeight margin keyPointsWidth : Q)
           (doc : Doc) (currentY : Q) : Doc * Q :=
  let '(doc, currentY) :=
    breakWithDividerFor maxImageHeight sectionInfo fontSettings pageHeight margin
                        keyPointsWidth doc currentY in
  if isPlaceholder src then (doc, currentY)
  else
    let resolved :=
      if Js.startsWith "cornell-image://" src then
        match getImage env (Js.replaceStr "cornell-image://" "" src) with
        | Some imageData => if Js.truthy imageData then Some imageData else None
        | None => None
        end
      else Some src in
    match resolved with
    | None => (doc, currentY)
    | Some src =>
        if Js.startsWith "data:" src then
          match formatOf src with
          | None => (doc, currentY) (* the TypeError is caught and logged *)
          | Some format =>
              let validFormat :=
                if existsb (String.eqb format) ["JPEG"; "JPG"; "PNG"] then format else "JPEG" in
              match imageSize env src with
              | None => (doc, currentY) (* img.onerror *)
              | Some (width, height) =>
                  let '(finalWidth, finalHeight) := imageDims maxWidth width height in
                  let '(doc, currentY) :=
                    if Num.gtb (currentY + finalHeight + 10) (pageHeight - margin) then
                      let doc := addPage doc in
                      let doc :=
                        if (currentSection sectionInfo <? totalSections sectionInfo - 1)%nat
                        then line (margin + keyPointsWidth) margin
                                  (margin + keyPointsWidth) (pageHeight - margin) doc
                        else doc in
                      (doc, margin)
                    else (doc, currentY) in
                  if addImageThrows env src then (doc, currentY)
                  else
                    (addImage src validFormat x currentY finalWidth finalHeight doc,
                     currentY + finalHeight + imageMargin)
              end
          end
        else (doc, currentY)
    end.

Fixpoint addImageList (sectionInfo : SectionInfo) (fontSettings : FontSettings)
         (imagesToAdd : list string) (x maxWidth pageHeight margin keyPointsWidth : Q)
         (doc : Doc) (currentY : Q) : Doc * Q :=
  match imagesToAdd with
  | [] => (doc, currentY)
  | src :: rest =>
      let '(doc, currentY) :=
        addOneImage sectionInfo fontSettings src x maxWidth pageHeight margin keyPointsWidth
                    doc currentY in
      addImageList sectionInfo fontSettings rest x maxWidth pageHeight margin keyPointsWidth
                   doc currentY
  end.

Definition addImagesToPdf (doc : Doc) (content : string)
           (x y maxWidth pageHeight margin keyPointsWidth : Q)
           (sectionInfo : SectionInfo) (fontSettings : FontSettings) : Doc * Q :=
  let imagesToAdd :=
    filter Js.truthy (map (group 1) (matchAll htmlImageRegex content)) in
  addImageList sectionInfo fontSettings imagesToAdd x maxWidth pageHeight margin keyPointsWidth
               doc y.

(** ** exportToPdf *)

Definition margin : Q := 15.
Definition keyPointsWidth : Q := 45.
Definition contentWidth : Q := pageWidth env - margin - keyPointsWidth - margin.

Record Boundary : Type := MkBoundary {
  b_index : nat;
  b_startY : Q;
  b_startPage : nat;
  b_endY : Q;
  b_endPage : nat
}.

(** [for (let i = 0; i < lines.length; i++) doc.text(lines[i], x, y0 + i * 6 + 2)] *)
Fixpoint drawLinesFrom (lines : list string) (i : nat) (x y0 : Q) (doc : Doc) : Doc :=
  match lines with
  | [] => doc
  | l :: rest =>
      drawLinesFrom rest (S i) x y0 (text l x (y0 + Num.ofNat i * 6 + 2) "left" doc)
  end.

(** The pages [startPage], ..., [endPage]. *)
Definition pagesFromTo (startPage endPage : nat) : list nat :=
  seq startPage (S endPage - startPage).

(** The vertical divider between key points and notes, page by page. *)
Fixpoint drawDividers (pages : list nat) (startPage endPage : nat) (startY imagesEndY : Q)
         (doc : Doc) : Doc :=
  match pages with
  | [] => doc
  | pageNum :: rest =>
      let doc := setPage pageNum doc in
      let doc :=
        if (pageNum =? startPage)%nat then
          let endY := if (pageNum =? endPage)%nat then imagesEndY else pageHeight env - margin in
          line (margin + keyPointsWidth) startY (margin + keyPointsWidth) endY doc
        else if (pageNum =? endPage)%nat then
          line (margin + keyPointsWidth) margin (margin + keyPointsWidth) imagesEndY doc
        else
          line (margin + keyPointsWidth) margin (margin + keyPointsWidth) (pageHeight env - margin) doc in
      drawDividers rest startPage endPage startY imagesEndY doc
  end.

(** The state of the section loop. *)
Record LoopState : Type := MkLoopState {
  ls_doc : Doc;
  ls_y : Q;
  ls_boundaries : list Boundary;
  (** [continuationPages], a [Map]: the latest entry of a page first *)
  ls_continuation : list (nat * nat)
}.

(** [for (let index = 0; index < sections.length; index++)] *)
Fixpoint renderSections (fontSettings : FontSettings) (sections : list Section_)
         (index total : nat) (st : LoopState) : option LoopState :=
  match sections with
  | [] => Some st
  | section :: rest =>
      if negb (Js.truthy (Js.trim (content section))) then
        (* Skip sections with empty content *)
        renderSections fontSettings rest (S index) total st
      else
        let doc := ls_doc st in
        let y := ls_y st in
        let '(doc, y) :=
          if Num.gtb (y + 20) (pageHeight env - margin)
          then (addPage doc, margin + 8) else (doc, y) in
        let startY := y in
        let startPage := curPage doc in
        let doc := setFontSize (bodyFontSize fontSettings) doc in
        let doc := setFont (titleFont fontSettings) "bold" doc in
        let headingLines := splitTextToSize env (font doc) (heading section) (keyPointsWidth - 10) in
        let doc := drawLinesFrom headingLines 0 (margin + 5) (y + 5) doc in
        let contentStartX := margin + keyPointsWidth + 5 in
        let contentStartY := y + 5 in
        let sectionInfo := MkSectionInfo index total in
        let doc := setFontSize (bodyFontSize fontSettings) doc in
        let doc := setFont (bodyFont fontSettings) "normal" doc in
        match renderMarkdownContent doc (content section) contentStartX contentStartY
                (contentWidth - 10) (pageHeight env) margin keyPointsWidth
                sectionInfo fontSettings with
        | None => None
        | Some (doc, contentEndY) =>
            let '(doc, imagesEndY) :=
              addImagesToPdf doc (content section) contentStartX (contentEndY + 3)
                (contentWidth - 10) (pageHeight env) margin keyPointsWidth
                sectionInfo fontSettings in
            let endPage := curPage doc in
            let boundaries :=
              ls_boundaries st ++ [MkBoundary index startY startPage imagesEndY endPage] in
            let continuation :=
              fold_left (fun m pageNum => (pageNum, index) :: m)
                        (pagesFromTo (S startPage) endPage) (ls_continuation st) in
            let doc := drawDividers (pagesFromTo startPage endPage) startPage endPage
                                    startY imagesEndY doc in
            let doc := setPage endPage doc in
            renderSections fontSettings rest (S index) total
              (MkLoopState doc (imagesEndY + (1 # 2)) boundaries continuation)
        end
  end.

(** The horizontal line under every section but the last. *)
Fixpoint drawBottomLines (boundaries : list Boundary) (doc : Doc) : Doc :=
  match boundaries with
  | [] => doc
  | [_] => doc
  | b :: rest =>
      let doc := setPage (b_endPage b) doc in
      let doc := line margin (b_endY b) (margin + keyPointsWidth + contentWidth) (b_endY b) doc in
      drawBottomLines rest doc
  end.

Fixpoint lookupPage (pageNum : nat) (m : list (nat * nat)) : option nat :=
  match m with
  | [] => None
  | (p, i) :: r => if (p =? pageNum)%nat then Some i else lookupPage pageNum r
  end.

(** The key point repeated on the continuation pages. *)
Fixpoint drawContinuations (fontSettings : FontSettings) (sections : list Section_)
         (continuation : list (nat * nat)) (pages : list nat) (doc : Doc) : Doc :=
  match pages with
  | [] => doc
  | pageNum :: rest =>
      let doc :=
        match lookupPage pageNum continuation with
        | Some sectionIndex =>
            let section := nth sectionIndex sections (MkSection "" "") in
            let doc := setPage pageNum doc in
            let doc := setFontSize (bodyFontSize fontSettings) doc in
            let doc := setFont (titleFont fontSettings) "bold" doc in
            let headingLines :=
              splitTextToSize env (font doc) (heading section) (keyPointsWidth - 10) in
            drawLinesFrom headingLines 0 (margin + 5) (margin + 5) doc
        | None => doc
        end in
      drawContinuations fontSettings sections continuation rest doc
  end.

(** The entries of the Related Notes listing. *)
Fixpoint drawNoteLinks (fontSettings : FontSettings) (noteLinks : list string)
         (doc : Doc) (currentY : Q) : Doc * Q :=
  match noteLinks with
  | [] => (doc, currentY)
  | link :: rest =>
      let '(doc, currentY) :=
        breakIfFull (bodyFont fontSettings) (pageHeight env) margin doc currentY in
      let doc := text (bullet ++ " " ++ link)%string (margin + 5) currentY "left" doc in
      drawNoteLinks fontSettings rest doc (currentY + 6)
  end.

Definition drawRelatedNotes (fontSettings : FontSettings) (noteLinks : list string)
           (doc : Doc) (y : Q) : Doc :=
  match noteLinks with
  | [] => doc
  | _ :: _ =>
      let doc := setPage (numPages doc) doc in
      let currentY := y + 20 in
      let estimatedHeight := 20 + Num.ofNat (List.length noteLinks) * 6 in
      let '(doc, currentY) :=
        if Num.gtb (currentY + estimatedHeight) (pageHeight env - margin)
        then (addPage doc, margin + 10) else (doc, currentY) in
      let doc := setFontSize (titleFontSize fontSettings) doc in
      let doc := setFont (titleFont fontSettings) "bold" doc in
      let doc := text "Related Notes" margin currentY "left" doc in
      let currentY := currentY + 8 + 2 in
      let doc := setFontSize (bodyFontSize fontSettings) doc in
      let doc := setFont (bodyFont fontSettings) "normal" doc in
      fst (drawNoteLinks fontSettings noteLinks doc currentY)
  end.

(** [/\s+/g] *)
Definition spacesRegex : regex := Plus true (Chr Js.isWhite).

Definition pdfFilename (title : string) : string :=
  (Js.toLowerCase (replaceAll spacesRegex (fun _ => "-"%string) title) ++ ".pdf")%string.

(** The body of [exportToPdf] once the sections and the note links are
    known: the title, the summary, the sections, the lines under them, the
    repeated key points, the Related Notes and the download.  [None] is
    [renderLines] running out of fuel. *)
Definition renderDocument (title summary : string) (font : FontChoice)
           (sections : list Section_) (noteLinks : list string) : option (Outcome Doc) :=
  let doc := newDoc in
  let fontSettings := getFontSettings font in
  let doc := setFontSize 24 doc in
  let doc := setFont (titleFont fontSettings) "bold" doc in
  let doc := text title 15 20 "left" doc in
  let '(doc, y) :=
    if Js.truthy summary then
      let doc := setFontSize (bodyFontSize fontSettings) doc in
      let doc := setFont (bodyFont fontSettings) "normal" doc in
      let summaryLines := splitTextToSize env (Pdf.font doc) summary 180 in
      (drawLinesFrom summaryLines 0 15 30 doc,
       30 + Num.ofNat (List.length summaryLines) * 6 + 6)
    else (doc, 35) in
  let doc := line margin (y + 2) (margin + keyPointsWidth + contentWidth) (y + 2) doc in
  let y := y + 8 in
  match renderSections fontSettings sections 0 (List.length sections)
                       (MkLoopState doc y [] []) with
  | None => None
  | Some st =>
      let doc := drawBottomLines (ls_boundaries st) (ls_doc st) in
      let doc := drawContinuations fontSettings sections (ls_continuation st)
                                   (pagesFromTo 1 (numPages doc)) doc in
      let doc := drawRelatedNotes fontSettings noteLinks doc (ls_y st) in
      Some (Downloaded (pdfFilename title) doc)
  end.

(** The export.  No statement of the function throws; the calls into jsPDF
    are taken not to throw either (but [doc.addImage], see [Env]), so the
    [catch] that would rethrow as [Failed to generate PDF: ...] is never
    entered here. *)
Definition exportToPdf (title summary markdown : string) (font : FontChoice)
  : option (Outcome Doc) :=
  let processedMarkdown := processContentForExport markdown in
  let sections := parseMarkdown processedMarkdown in
  let noteLinks := Links.extractNoteLinks markdown in
  renderDocument title summary font sections noteLinks.

End WithEnv.

End Pdf.

(* ------------------------------------------------------------------ *)
(** * src/lib/anki-export-utils.ts *)

Module Anki.
Import Re.
Local Open Scope string_scope.

Record FlashCard : Type := MkFlashCard {
  front : string;
  back : string;
  (** [{ [key: string]: string }], in insertion order *)
  images : list (string * string)
}.

(** A string between double quotes. *)
Definition q (s : string) : string := Js.dq ++ s ++ Js.dq.

(** [obj[key] = value] *)
Fixpoint setKey (key value : string) (obj : list (string * string)) : list (string * string) :=
  match obj with
  | [] => [(key, value)]
  | (k, v) :: r => if String.eqb k key then (k, value) :: r else (k, v) :: setKey key value r
  end.
(** [Object.assign(target, source)] *)
Definition assign (target source : list (string * string)) : list (string * string) :=
  fold_left (fun t kv => setKey (fst kv) (snd kv) t) source target.

(** ** cleanMarkdownInCell *)

(** [/\*\*(.*?)\*\*/g], [/\*(.*?)\*/g], [/`([^`]+)`/g] *)
Definition boldRegex : regex :=
  Seq [Lit "**"; Group 1 (Star false (Chr dot)); Lit "**"].
Definition italicRegex : regex :=
  Seq [Lit "*"; Group 1 (Star false (Chr dot)); Lit "*"].
Definition inlineCodeRegex : regex :=
  Seq [Lit "`"; Group 1 (Plus true (Chr (isNot "`"%char))); Lit "`"].

Definition cleanMarkdownInCell (text : string) : string :=
  let t := replaceAll boldRegex (fun m => "<strong>" ++ group 1 m ++ "</strong>") text in
  let t := replaceAll italicRegex (fun m => "<em>" ++ group 1 m ++ "</em>") t in
  let t := replaceAll inlineCodeRegex (fun m => "<code>" ++ group 1 m ++ "</code>") t in
  Js.trim t.

(** ** convertTableToHtml *)

Definition isTableLine (line : string) : bool :=
  Js.startsWith "|" (Js.trim line) && Js.endsWith "|" (Js.trim line).

(** [row.split("|").slice(1, -1)] *)
Definition rawCells (row : string) : list string :=
  Js.sliceInner (Js.split "|"%char row).

(** The alignment of one cell of the separator row. *)
Definition alignmentOf (sep : string) : string :=
  let trimmed := Js.trim sep in
  if Js.startsWith ":" trimmed && Js.endsWith ":" trimmed then "center"
  else if Js.endsWith ":" trimmed then "right"
  else "left".

(** [alignments[i] || "left"] *)
Definition alignAt (alignments : list string) (i : nat) : string :=
  Js.nthOr alignments i "left".

Fixpoint headerCellsHtml (alignments headers : list string) (i : nat) : string :=
  match headers with
  | [] => ""
  | header :: rest =>
      "<th style=" ++ q ("padding: 8px; text-align: " ++ alignAt alignments i
                         ++ "; border: 1px solid #ddd; font-weight: bold;")
      ++ ">" ++ cleanMarkdownInCell header ++ "</th>"
      ++ headerCellsHtml alignments rest (S i)
  end.

Fixpoint rowCellsHtml (alignments cells : list string) (i : nat) : string :=
  match cells with
  | [] => ""
  | cell :: rest =>
      "<td style=" ++ q ("padding: 8px; text-align: " ++ alignAt alignments i
                         ++ "; border: 1px solid #ddd;")
      ++ ">" ++ cleanMarkdownInCell cell ++ "</td>"
      ++ rowCellsHtml alignments rest (S i)
  end.

Fixpoint rowsHtml (alignments dataRows : list string) : string :=
  match dataRows with
  | [] => ""
  | row :: rest =>
      "<tr>" ++ rowCellsHtml alignments (map Js.trim (rawCells row)) 0 ++ "</tr>"
      ++ rowsHtml alignments rest
  end.

Definition convertTableToHtml (tableText : string) : string :=
  let lines := filter isTableLine (Js.split Js.LF (Js.trim tableText)) in
  match lines with
  | headerRow :: separatorRow :: dataRows =>
      let headers := map Js.trim (rawCells headerRow) in
      let alignments := map alignmentOf (rawCells separatorRow) in
      let html :=
        "<table style="
        ++ q "border-collapse: collapse; width: 100%; margin: 10px 0; border: 1px solid #ddd;"
        ++ ">" in
      let html :=
        match headers with
        | [] => html
        | _ :: _ => html ++ "<thead><tr>" ++ headerCellsHtml alignments headers 0 ++ "</tr></thead>"
        end in
      let html :=
        match dataRows with
        | [] => html
        | _ :: _ => html ++ "<tbody>" ++ rowsHtml alignments dataRows ++ "</tbody>"
        end in
      html ++ "</table>"
  | _ => tableText
  end.

(** ** convertListToHtml *)

(** [/^\d+\./] *)
Definition orderedStart : regex :=
  Seq [Bol false; Plus true (Chr Js.isDigit); Chr (only "."%char)].

(** What the template [`${cleanMarkdownForAnki(content)}`] puts in the list
    item: the function is asynchronous and is not awaited, so the text is
    that of a pending promise, whatever the item says. *)
Definition pendingPromise : string := "[object Promise]".

Fixpoint listItemsHtml (lines : list string) : string :=
  match lines with
  | [] => ""
  | _ :: rest =>
      "<li style=" ++ q "margin: 5px 0;" ++ ">" ++ pendingPromise ++ "</li>"
      ++ listItemsHtml rest
  end.

Definition convertListToHtml (listText : string) : string :=
  let lines := filter (fun l => Js.truthy (Js.trim l)) (Js.split Js.LF listText) in
  match lines with
  | [] => ""
  | first :: _ =>
      let isOrdered := test orderedStart (Js.trim first) in
      let tag := if isOrdered then "ol" else "ul" in
      "<" ++ tag ++ " style=" ++ q "margin: 10px 0; padding-left: 20px;" ++ ">"
      ++ listItemsHtml lines
      ++ "</" ++ tag ++ ">"
  end.

Section WithEnv.
Variable env : Env.

(** ** processImagesForAnki *)

(** [/<img[^>]*src=[dq'](.*?)[dq'][^>]*(?:alt=[dq'](.*?)[dq'])?[^>]*>/g] *)
Definition htmlImageRegex : regex :=
  Seq [Lit "<img"; Star true (Chr (isNot ">"%char)); Lit "src="; Chr (oneOf Js.quotes);
       Group 1 (Star false (Chr dot)); Chr (oneOf Js.quotes);
       Star true (Chr (isNot ">"%char));
       Opt (Seq [Lit "alt="; Chr (oneOf Js.quotes); Group 2 (Star false (Chr dot));
                 Chr (oneOf Js.quotes)]);
       Star true (Chr (isNot ">"%char)); Lit ">"].

(** [/!\[(.*?)\]$$(.*?)$$/g], as the source has it: each [$] is the
    end-of-input assertion. *)
Definition markdownImageRegex : regex :=
  Seq [Lit "!["; Group 1 (Star false (Chr dot)); Lit "]"; Eol false; Eol false;
       Group 2 (Star false (Chr dot)); Eol false; Eol false].

Definition imgStyle : string := "max-width: 100%; height: auto; margin: 10px 0;".

(** [match[n] || "Image"] *)
Definition orImage (o : option string) : string :=
  match o with
  | Some a => if Js.truthy a then a else "Image"
  | None => "Image"
  end.

(** The [while] loop over the HTML images of [content]; [n] counts the
    keys drawn so far. *)
Fixpoint htmlImagesLoop (matches : list Match) (processedContent : string)
         (images : list (string * string)) (n : nat)
  : string * list (string * string) * nat :=
  match matches with
  | [] => (processedContent, images, n)
  | m :: rest =>
      let fullMatch := m_text m in
      let src := group 1 m in
      let alt := orImage (groupOpt 2 m) in
      let stored :=
        if Js.startsWith "cornell-image://" src then
          match getImage env (Js.replaceStr "cornell-image://" "" src) with
          | Some storedImage => if Js.truthy storedImage then Some storedImage else None
          | None => None
          end
        else Some src in
      match stored with
      | None =>
          htmlImagesLoop rest
            (Js.replaceStr fullMatch ("<p><em>[Image not found: " ++ alt ++ "]</em></p>")
                           processedContent) images n
      | Some imageData =>
          if Js.includes "/placeholder.svg" src || Js.includes "/generic-placeholder-icon.png" src
          then
            htmlImagesLoop rest
              (Js.replaceStr fullMatch ("<p><em>[Placeholder image: " ++ alt ++ "]</em></p>")
                             processedContent) images n
          else if Js.startsWith "data:" imageData then
            let extension := if Js.includes "data:image/png" imageData then "png" else "jpg" in
            let filename := imageKey env n ++ "." ++ extension in
            let ankiImg :=
              "<img src=" ++ q filename ++ " alt=" ++ q alt ++ " style=" ++ q imgStyle ++ ">" in
            htmlImagesLoop rest (Js.replaceStr fullMatch ankiImg processedContent)
                           (setKey filename imageData images) (S n)
          else
            let styledImg :=
              "<img src=" ++ q src ++ " alt=" ++ q alt ++ " style=" ++ q imgStyle ++ ">" in
            htmlImagesLoop rest (Js.replaceStr fullMatch styledImg processedContent) images n
      end
  end.

(** The [while] loop over the markdown images of [processedContent], which
    the loop rewrites while the regex keeps its [lastIndex].  [None] is the
    fuel running out. *)
Fixpoint markdownImagesLoop (fuel lastIndex : nat) (processedContent : string) : option string :=
  match fuel with
  | O => None
  | S fuel =>
      match exec markdownImageRegex lastIndex processedContent with
      | None => Some processedContent
      | Some m =>
          let fullMatch := m_text m in
          let alt := orImage (groupOpt 1 m) in
          let src := group 2 m in
          let htmlImg := "<img src=" ++ q src ++ " alt=" ++ q alt ++ ">" in
          markdownImagesLoop fuel (lastIndexAfter m)
                             (Js.replaceStr fullMatch htmlImg processedContent)
      end
  end.

Definition processImagesForAnki (content : string) (n : nat)
  : option (string * list (string * string) * nat) :=
  let '(processedContent, images, n) :=
    htmlImagesLoop (matchAll htmlImageRegex content) content [] n in
  match markdownImagesLoop (S (String.length processedContent)) 0 processedContent with
  | Some html => Some (html, images, n)
  | None => None
  end.

(** ** cleanMarkdownForAnki *)

(** [/(?:^\|.*\|[ \t]*$\n?)+/gm] *)
Definition tableRegex : regex :=
  Plus true (Seq [Bol true; Lit "|"; Star true (Chr dot); Lit "|";
                  Star true (Chr (oneOf Js.blanks)); Eol true; Opt (Lit Js.nl)]).

(** [/((?:^[ \t]*[-*][ \t]+.+\n?)+|(?:^[ \t]*\d+\.[ \t]+.+\n?)+)/gm] *)
Definition listRegex : regex :=
  Group 1
    (Alt (Plus true (Seq [Bol true; Star true (Chr (oneOf Js.blanks)); Chr (oneOf "-*");
                          Plus true (Chr (oneOf Js.blanks)); Plus true (Chr dot);
                          Opt (Lit Js.nl)]))
         (Plus true (Seq [Bol true; Star true (Chr (oneOf Js.blanks)); Plus true (Chr Js.isDigit);
                          Chr (only "."%char); Plus true (Chr (oneOf Js.blanks));
                          Plus true (Chr dot); Opt (Lit Js.nl)]))).

(** [/```[\s\S]*?```/g], [/```\w*\n?/g], [/```$/] *)
Definition codeBlockRegex : regex :=
  Seq [Lit "```"; Star false (Chr (fun _ => true)); Lit "```"].
Definition fenceOpenRegex : regex :=
  Seq [Lit "```"; Star true (Chr Js.isWord); Opt (Lit Js.nl)].
Definition fenceEndRegex : regex := Seq [Lit "```"; Eol false].

(** [/\[([^\]]+)\]$$([^)]+)$$/g], as the source has it. *)
Definition markdownLinkRegex : regex :=
  Seq [Lit "["; Group 1 (Plus true (Chr (isNot "]"%char))); Lit "]"; Eol false; Eol false;
       Group 2 (Plus true (Chr (isNot ")"%char))); Eol false; Eol false].

(** [/^> (.+)$/gm], [/^### (.+)$/gm], [/^## (.+)$/gm], [/^# (.+)$/gm] *)
Definition lineRegex (start : string) : regex :=
  Seq [Bol true; Lit start; Group 1 (Plus true (Chr dot)); Eol true].

Definition cleanMarkdownForAnki (text : string) (n : nat)
  : option (string * list (string * string) * nat) :=
  match processImagesForAnki text n with
  | None => None
  | Some (imageProcessedText, images, n) =>
      let cleaned := imageProcessedText in
      let cleaned := replaceAll tableRegex (fun m => convertTableToHtml (Js.trim (m_text m))) cleaned in
      let cleaned := replaceAll listRegex (fun m => convertListToHtml (m_text m)) cleaned in
      let cleaned := replaceAll boldRegex (fun m => "<strong>" ++ group 1 m ++ "</strong>") cleaned in
      let cleaned := replaceAll italicRegex (fun m => "<em>" ++ group 1 m ++ "</em>") cleaned in
      let cleaned :=
        replaceAll inlineCodeRegex
          (fun m => "<code style='background-color: #f0f0f0; padding: 2px 4px; border-radius: 3px;'>"
                    ++ group 1 m ++ "</code>") cleaned in
      let cleaned :=
        replaceAll codeBlockRegex
          (fun m =>
             let code :=
               replaceOnce fenceEndRegex (fun _ => "")
                 (replaceAll fenceOpenRegex (fun _ => "") (m_text m)) in
             "<pre style="
             ++ q "background-color: #f8f8f8; padding: 10px; border-radius: 5px; overflow-x: auto; margin: 10px 0;"
             ++ "><code>" ++ code ++ "</code></pre>") cleaned in
      let cleaned :=
        replaceAll markdownLinkRegex
          (fun m => "<a href=" ++ q (group 2 m) ++ " style=" ++ q "color: #0066cc;" ++ ">"
                    ++ group 1 m ++ "</a>") cleaned in
      let cleaned :=
        replaceAll Links.linkRegex (fun m => "<strong>" ++ group 1 m ++ "</strong>") cleaned in
      let cleaned :=
        replaceAll (lineRegex "> ")
          (fun m => "<blockquote style="
                    ++ q "border-left: 4px solid #ddd; margin: 10px 0; padding-left: 15px; color: #666;"
                    ++ ">" ++ group 1 m ++ "</blockquote>") cleaned in
      let cleaned :=
        replaceAll (lineRegex "### ")
          (fun m => "<h4 style=" ++ q "margin: 15px 0 10px 0; font-size: 1.1em;" ++ ">"
                    ++ group 1 m ++ "</h4>") cleaned in
      let cleaned :=
        replaceAll (lineRegex "## ")
          (fun m => "<h3 style=" ++ q "margin: 15px 0 10px 0; font-size: 1.2em;" ++ ">"
                    ++ group 1 m ++ "</h3>") cleaned in
      let cleaned :=
        replaceAll (lineRegex "# ")
          (fun m => "<h2 style=" ++ q "margin: 15px 0 10px 0; font-size: 1.3em;" ++ ">"
                    ++ group 1 m ++ "</h2>") cleaned in
      let cleaned := replaceAll (Lit (Js.nl ++ Js.nl)) (fun _ => "<br><br>") cleaned in
      let cleaned := replaceAll (Lit Js.nl) (fun _ => "<br>") cleaned in
      let cleaned := replaceAll (Plus true (Chr Js.isWhite)) (fun _ => " ") cleaned in
      Some (Js.trim cleaned, images, n)
  end.

(** ** parseNotesToFlashcards *)

(** The first pass over the lines, [lines.forEach(...)]: it pushes no card
    (the function it builds for a section is never called) and ends with
    the last heading and the lines of the last section in [currentHeading]
    and [currentContent]. *)
Fixpoint firstPass (lines : list string) (currentHeading : string)
         (currentContent : list string) : string * list string :=
  match lines with
  | [] => (currentHeading, currentContent)
  | line :: rest =>
      if Js.startsWith "# " line then
        firstPass rest (Js.trim (Js.substringFrom 2 line)) []
      else if Js.truthy currentHeading then
        firstPass rest currentHeading (currentContent ++ [line])%list
      else firstPass rest currentHeading currentContent
  end.

(** The state threaded through the cards: the cards pushed so far and the
    number of image keys drawn. *)
Definition Cards : Type := (list FlashCard * nat)%type.

(** [if (currentHeading && currentContent.length > 0) { ... flashcards.push(...) }] *)
Definition pushSection (currentHeading : string) (currentContent : list string)
           (st : Cards) : option Cards :=
  let '(flashcards, n) := st in
  if Js.truthy currentHeading && negb (List.length currentContent =? 0)%nat then
    let contentText := Js.trim (Js.join Js.nl currentContent) in
    if Js.truthy contentText then
      match cleanMarkdownForAnki contentText n with
      | None => None
      | Some (content, images, n) =>
          Some ((flashcards ++ [MkFlashCard currentHeading content images])%list, n)
      end
    else Some st
  else Some st.

(** The second pass, [for (let i = 0; i < lines.length; i++)], and the
    push of the last section after it.  It starts from the values the
    first pass left in [currentHeading] and [currentContent]. *)
Fixpoint secondPass (lines : list string) (currentHeading : string)
         (currentContent : list string) (st : Cards) : option Cards :=
  match lines with
  | [] => pushSection currentHeading currentContent st
  | line :: rest =>
      if Js.startsWith "# " line then
        match pushSection currentHeading currentContent st with
        | None => None
        | Some st => secondPass rest (Js.trim (Js.substringFrom 2 line)) [] st
        end
      else if Js.truthy currentHeading then
        secondPass rest currentHeading (currentContent ++ [line])%list st
      else secondPass rest currentHeading currentContent st
  end.

Definition parseNotesToFlashcards (title summary markdown : string)
  : option (list FlashCard) :=
  let summaryCards : option Cards :=
    if Js.truthy (Js.trim summary) then
      match cleanMarkdownForAnki summary 0 with
      | None => None
      | Some (content, images, n) =>
          Some ([MkFlashCard (title ++ " - Summary") content images], n)
      end
    else Some ([], 0) in
  match summaryCards with
  | None => None
  | Some st =>
      let lines := Js.split Js.LF markdown in
      let '(currentHeading, currentContent) := firstPass lines "" [] in
      option_map fst (secondPass lines currentHeading currentContent st)
  end.

(** ** generateAnkiTSV *)

(** [/\t/g], [/\r?\n/g] *)
Definition tabRegex : regex := Chr (only Js.TAB).
Definition newlineRegex : regex := Seq [Opt (Chr (only Js.CR)); Chr (only Js.LF)].

Definition generateAnkiTSV (flashcards : list FlashCard) : string :=
  Js.join Js.nl
    (map (fun card =>
            let front :=
              replaceAll newlineRegex (fun _ => " ")
                (replaceAll tabRegex (fun _ => " ") (front card)) in
            let back := replaceAll tabRegex (fun _ => " ") (back card) in
            front ++ String Js.TAB "" ++ back)
         flashcards).

(** ** exportToAnki *)

(** [/[^a-z0-9]/gi] *)
Definition nonAlnumRegex : regex :=
  Chr (fun c => negb (Js.isLower c || Js.isUpper c || Js.isDigit c)).

(** [title.replace(/[^a-z0-9]/gi, "-").toLowerCase()] *)
Definition slug (title : string) : string :=
  Js.toLowerCase (replaceAll nonAlnumRegex (fun _ => "-") title).

(** What goes into the archive. *)
Inductive ZipEntry : Type :=
| ZText (name content : string)
| ZBlob (name dataUrl : string)
(** README.txt, which states the number of cards and of images *)
| ZReadme (nCards nImages : nat).

Definition noCardsMessage : string :=
  "No flashcards could be generated from this note. Make sure you have headings (# sections) with content.".

(** [Object.entries(allImages).map(async ...)]: an image whose fetch fails
    is left out. *)
Fixpoint imageEntries (allImages : list (string * string)) : list ZipEntry :=
  match allImages with
  | [] => []
  | (filename, dataUrl) :: rest =>
      if fetchFails env dataUrl then imageEntries rest
      else ZBlob ("images/" ++ filename) dataUrl :: imageEntries rest
  end.

(** The export; [None] is [markdownImagesLoop] running out of fuel. *)
Definition exportToAnki (title summary markdown : string)
  : option (Outcome (list ZipEntry)) :=
  match parseNotesToFlashcards title summary markdown with
  | None => None
  | Some flashcards =>
      match flashcards with
      | [] => Some (Threw noCardsMessage)
      | _ :: _ =>
          let allImages := fold_left (fun all card => assign all (images card)) flashcards [] in
          let tsvContent := generateAnkiTSV flashcards in
          let filename := slug title ++ "-flashcards.txt" in
          let zip :=
            ([ZText filename tsvContent] ++ imageEntries allImages
             ++ [ZReadme (List.length flashcards) (List.length allImages)])%list in
          let zipFilename := slug title ++ "-anki-flashcards.zip" in
          Some (Downloaded zipFilename zip)
      end
  end.

(** [previewFlashcards] *)
Definition previewFlashcards := parseNotesToFlashcards.

End WithEnv.

End Anki.

(* ------------------------------------------------------------------ *)
(** * The stored notes

    [DocumentData] of the storage module, and the functions of
    [src/lib/link-utils.ts] that read the stored notes.  Each of them starts
    with [const allDocs = getAllDocuments()]; the list it gets is the
    parameter [allDocs] here. *)

Module Notes.
Import Re.
Local Open Scope string_scope.

Record DocumentData : Type := MkDocument {
  id : string;
  title : string;
  (** [summary?: string]: [None] for [undefined] *)
  summary : option string;
  content : string;
  tags : list string;
  createdAt : string;
  updatedAt : string;
  version : nat
}.

(** [links.some((link) => link.toLowerCase() === targetTitle.toLowerCase())] *)
Definition findBacklinks (allDocs : list DocumentData) (targetTitle : string)
  : list DocumentData :=
  filter (fun doc =>
            let links := Links.extractNoteLinks (content doc) in
            existsb (fun link => String.eqb (Js.toLowerCase link) (Js.toLowerCase targetTitle))
                    links)
         allDocs.

(** [links.forEach((linkTitle) => { const doc = allDocs.find(...); if (doc) linkedDocs.push(doc) })] *)
Fixpoint forwardDocs (allDocs : list DocumentData) (links : list string) : list DocumentData :=
  match links with
  | [] => []
  | linkTitle :: rest =>
      match find (fun d => String.eqb (Js.toLowerCase (title d)) (Js.toLowerCase linkTitle))
                 allDocs with
      | Some doc => doc :: forwardDocs allDocs rest
      | None => forwardDocs allDocs rest
      end
  end.

Definition findForwardLinks (allDocs : list DocumentData) (content : string)
  : list DocumentData :=
  let links := Links.extractNoteLinks content in
  forwardDocs allDocs links.

Record RelatedDocuments : Type := MkRelated {
  forwardLinks : list DocumentData;
  backlinks : list DocumentData
}.

Definition getRelatedDocuments (allDocs : list DocumentData) (document : DocumentData)
  : RelatedDocuments :=
  let forwardLinks := findForwardLinks allDocs (content document) in
  let backlinks := findBacklinks allDocs (title document) in
  MkRelated forwardLinks
            (* Exclude self *)
            (filter (fun doc => negb (String.eqb (id doc) (id document))) backlinks).

(** The [span] that stands for a link in the viewer. *)
Definition noteLinkSpan (trimmedTitle : string) : string :=
  "<span class=" ++ Anki.q "note-link" ++ " data-title=" ++ Anki.q trimmedTitle ++ ">"
  ++ trimmedTitle ++ "</span>".

(** [processNoteLinks(content, onLinkClick)]; the callback takes no part in
    the text that is returned. *)
Definition processNoteLinks (content : string) : string :=
  replaceAll Links.linkRegex (fun m => noteLinkSpan (Js.trim (group 1 m))) content.

Definition noteExists (allDocs : list DocumentData) (title_ : string) : bool :=
  existsb (fun doc => String.eqb (Js.toLowerCase (title doc)) (Js.toLowerCase title_)) allDocs.

Definition getNoteLinkSuggestions (allDocs : list DocumentData) (query : string) : list string :=
  firstn 5
    (map title
       (filter (fun doc => Js.includes (Js.toLowerCase query) (Js.toLowerCase (title doc)))
               allDocs)).

(** [src/components/note-link-input.tsx], [handleInsert]: the text put into
    the note for a chosen title. *)
Definition insertedLink (title_ : string) : string := "[[" ++ title_ ++ "]]".

End Notes.

(* ------------------------------------------------------------------ *)
(** * Export and import of all the notes ([lib/export-import-utils])

    [exportAllToZip] writes every stored note as a markdown file into the
    folder [notes] of an archive; [importMarkdownFiles] reads such files
    back and hands each to [saveDocument]. *)

Module ExportImport.
Import Re Notes.
Local Open Scope string_scope.

Section WithClock.
(** [new Date(createdAt).toLocaleDateString()] *)
Variable toLocaleDateString : string -> string.
(** [new Date().toISOString()] when the [n]-th file is read *)
Variable nowISO : nat -> string.

(** [`${doc.title.replace(/[^a-z0-9]/gi, "-").toLowerCase()}-${doc.id.substring(0, 8)}.md`] *)
Definition exportFilename (doc : DocumentData) : string :=
  Js.toLowerCase (replaceAll Anki.nonAlnumRegex (fun _ => "-") (title doc))
  ++ "-" ++ takeN 8 (id doc) ++ ".md".

(** The markdown written for one note. *)
Definition exportContent (doc : DocumentData) : string :=
  let content_ := "# " ++ title doc ++ Js.nl ++ Js.nl in
  let content_ :=
    match summary doc with
    | Some s => if Js.truthy s then content_ ++ "> " ++ s ++ Js.nl ++ Js.nl else content_
    | None => content_
    end in
  let content_ :=
    match tags doc with
    | [] => content_
    | _ :: _ => content_ ++ "Tags: " ++ Js.join ", " (tags doc) ++ Js.nl ++ Js.nl
    end in
  let content_ :=
    content_ ++ "Created: " ++ toLocaleDateString (createdAt doc) ++ Js.nl ++ Js.nl in
  let content_ := content_ ++ "---" ++ Js.nl ++ Js.nl in
  content_ ++ content doc.

(** [notesFolder.file(filename, content)] for every note: a file written
    under a name that is taken replaces the one that was there. *)
Definition exportFiles (documents : list DocumentData) : list (string * string) :=
  fold_left (fun folder doc => Anki.setKey (exportFilename doc) (exportContent doc) folder)
            documents [].

Definition exportAllToZip (documents : list DocumentData)
  : Outcome (list (string * string)) :=
  match documents with
  | [] => Threw "No documents to export"
  | _ :: _ => Downloaded "notes-export.zip" (exportFiles documents)
  end.

(** A file handed to the import: its name and its text ([None] when
    [file.text()] fails). *)
Record File : Type := MkFile {
  name : string;
  text : option string
}.

(** What [importMarkdownFiles] hands to [saveDocument]. *)
Record NewDocument : Type := MkNewDocument {
  new_title : string;
  new_summary : string;
  new_tags : list string;
  new_content : string;
  new_createdAt : string
}.

(** [/\.md$/], [/^# (.+)$/m], [/^> (.+)$/m], [/^Tags: (.+)$/m] *)
Definition mdRegex : regex := Seq [Lit ".md"; Eol false].
Definition metaRegex (start : string) : regex :=
  Seq [Bol true; Lit start; Group 1 (Plus true (Chr dot)); Eol true].
(** [/^# .+$/m] and the like, [/^---$/m] *)
Definition metaLine (start : string) : regex :=
  Seq [Bol true; Lit start; Plus true (Chr dot); Eol true].
Definition ruleRegex : regex := Seq [Bol true; Lit "---"; Eol true].

(** [content.match(r)] without the global flag: the first match. *)
Definition matchFirst (r : regex) (s : string) : option Match := search r 0 None s.

Definition blank (_ : Match) : string := "".

(** The body of the callback for one file whose text was read; [now] is
    the time it is given as its creation time. *)
Definition importText (now fileName content_ : string) : NewDocument :=
  let title_ := replaceOnce mdRegex blank fileName in
  let title_ :=
    match matchFirst (metaRegex "# ") content_ with
    | Some titleMatch => group 1 titleMatch
    | None => title_
    end in
  let summary_ :=
    match matchFirst (metaRegex "> ") content_ with
    | Some summaryMatch => group 1 summaryMatch
    | None => ""
    end in
  let tags_ :=
    match matchFirst (metaRegex "Tags: ") content_ with
    | Some tagsMatch => map Js.trim (Js.split ","%char (group 1 tagsMatch))
    | None => []
    end in
  let cleanContent :=
    Js.trim
      (replaceOnce ruleRegex blank
         (replaceOnce (metaLine "Created: ") blank
            (replaceOnce (metaLine "Tags: ") blank
               (replaceOnce (metaLine "> ") blank
                  (replaceOnce (metaLine "# ") blank content_))))) in
  MkNewDocument title_ summary_ tags_ cleanContent now.

(** One file, the [n]-th: [None] when it is passed over (not a markdown
    file, or its text could not be read). *)
Definition importFile (n : nat) (file : File) : option NewDocument :=
  if negb (Js.endsWith ".md" (name file)) then None
  else match text file with
       | Some content_ => Some (importText (nowISO n) (name file) content_)
       | None => None
       end.

(** The notes handed to [saveDocument], in the order of the files. *)
Fixpoint importedFrom (n : nat) (files : list File) : list NewDocument :=
  match files with
  | [] => []
  | file :: rest =>
      match importFile n file with
      | Some d => d :: importedFrom (S n) rest
      | None => importedFrom (S n) rest
      end
  end.

(** The notes handed to [saveDocument] and the number returned,
    [importedCount]. *)
Definition importMarkdownFiles (files : list File) : list NewDocument * nat :=
  let imported := importedFrom 0 files in
  (imported, List.length imported).

End WithClock.
End ExportImport.

(* ------------------------------------------------------------------ *)
(** * The table generator ([src/components/table-generator.tsx]) *)

Module TableGenerator.
Local Open Scope string_scope.

Inductive Alignment : Type := left | center | right.

(** [cellValues[i]?.[j] || ""] *)
Definition cellAt (cellValues : list (list string)) (i j : nat) : string :=
  match nth_error cellValues i with
  | Some row => Js.nthOr row j ""
  | None => ""
  end.

(** [for (let j = 0; j < columns; j++) markdown += piece(j)] *)
Fixpoint forColumns (piece : nat -> string) (j count : nat) : string :=
  match count with
  | O => ""
  | S count' => piece j ++ forColumns piece (S j) count'
  end.

(** [columnAlignments[j] || "left"] *)
Definition alignmentAt (columnAlignments : list Alignment) (j : nat) : Alignment :=
  match nth_error columnAlignments j with
  | Some a => a
  | None => left
  end.

Definition alignmentMark (a : Alignment) : string :=
  match a with
  | left => ":--- | "
  | center => ":---: | "
  | right => "---: | "
  end.

Definition rowOf (cellValues : list (list string)) (columns i : nat) : string :=
  "| " ++ forColumns (fun j => cellAt cellValues i j ++ " | ") 0 columns ++ Js.nl.

(** [for (let i = startRow; i < rows; i++)] with [startRow] 1. *)
Fixpoint dataRows (cellValues : list (list string)) (columns i count : nat) : string :=
  match count with
  | O => ""
  | S count' => rowOf cellValues columns i ++ dataRows cellValues columns (S i) count'
  end.


End TableGenerator.

(* ------------------------------------------------------------------ *)
(** * The tag input ([src/components/tag-input.tsx]) *)

Module TagInput.
Local Open Scope string_scope.

Inductive Key : Type := Enter | Backspace | OtherKey.

(** [handleKeyDown]: the tags and the text of the input after a key. *)
Definition handleKeyDown (key : Key) (tags : list string) (inputValue : string)
  : list string * string :=
  match key with
  | Enter =>
      if negb (String.eqb (Js.trim inputValue) "") then
        ((if negb (existsb (String.eqb (Js.trim inputValue)) tags)
          then (tags ++ [Js.trim inputValue])%list else tags),
         "")
      else (tags, inputValue)
  | Backspace =>
      if String.eqb inputValue "" && (0 <? List.length tags)%nat
      then (removelast tags, inputValue)
      else (tags, inputValue)
  | OtherKey => (tags, inputValue)
  end.

Definition removeTag (tagToRemove : string) (tags : list string) : list string :=
  filter (fun tag => negb (String.eqb tag tagToRemove)) tags.

End TagInput.

(* ------------------------------------------------------------------ *)
(** * Stored images ([src/lib/image-storage.ts], [src/lib/storage-utils.ts],
      [src/components/image-inserter.tsx])

    The images that are uploaded are kept in a database, under an
    identifier; a note refers to one by [cornell-image://<identifier>].
    [cleanupImages] deletes the images that no note refers to. *)

Module Images.
Import Re Notes.
Local Open Scope string_scope.

(** [/cornell-image:\/\/(.*?)[dq']/g] *)
Definition usedImageRegex : regex :=
  Seq [Lit "cornell-image://"; Group 1 (Star false (Chr dot)); Chr (oneOf Js.quotes)].

(** [extractImageIds]: the [while ((match = regex.exec(content)) !== null)]
    loop, with [if (match[1])]. *)
Definition extractImageIds (content_ : string) : list string :=
  filter Js.truthy (map (group 1) (matchAll usedImageRegex content_)).

Section WithDatabase.
(** Whether the database opens and gives its keys, and whether
    [store.delete(id)] succeeds. *)
Variable databaseOpens : bool.
Variable deleteSucceeds : string -> bool.

(** [for (const id of unusedImageIds)]: the images left and the count. *)
Fixpoint deleteEach (unusedImageIds : list string) (images : list (string * string))
         (deletedCount : nat) : list (string * string) * nat :=
  match unusedImageIds with
  | [] => (images, deletedCount)
  | id_ :: more =>
      if deleteSucceeds id_
      then deleteEach more (filter (fun kv => negb (String.eqb (fst kv) id_)) images)
                      (S deletedCount)
      else deleteEach more images deletedCount
  end.

(** [cleanupUnusedImages]: the images left in the database and the number
    returned. *)
Definition cleanupUnusedImages (usedImageIds : list string) (images : list (string * string))
  : list (string * string) * nat :=
  if negb databaseOpens then (images, 0)
  else
    let allImageIds := map fst images in
    let unusedImageIds :=
      filter (fun id_ => negb (existsb (String.eqb id_) usedImageIds)) allImageIds in
    deleteEach unusedImageIds images 0.

(** [cleanupImages], over the notes that [getAllDocuments] gives. *)
Definition cleanupImages (docs : list DocumentData) (images : list (string * string))
  : list (string * string) * nat :=
  let usedImageIds := flat_map (fun doc => extractImageIds (content doc)) docs in
  let uniqueImageIds := Links.dedup [] usedImageIds in
  cleanupUnusedImages uniqueImageIds images.

End WithDatabase.

(** [altText || uploadedFileName || "Uploaded image"] *)
Definition uploadAlt (altText uploadedFileName : string) : string :=
  if Js.truthy altText then altText
  else if Js.truthy uploadedFileName then uploadedFileName
  else "Uploaded image".

(** What [handleInsert] of the image inserter puts into the note for an
    uploaded image that was stored as [imageId]:
    [<img src=dq cornell-image://${imageId} dq alt=dq ... dq ${fullWidthClass} />\n],
    with [dq] for the double quote. *)
Definition uploadedImageTag (imageId altText uploadedFileName : string) (isFullWidth : bool)
  : string :=
  let fullWidthClass :=
    if isFullWidth then " class=" ++ Anki.q "full-width-image" else "" in
  "<img src=" ++ Js.dq ++ "cornell-image://" ++ imageId ++ Js.dq
  ++ " alt=" ++ Js.dq ++ uploadAlt altText uploadedFileName ++ Js.dq
  ++ fullWidthClass ++ " />" ++ Js.nl.

End Images.

(* ------------------------------------------------------------------ *)
(** * A concrete environment

    An A4 page (297 by 210), a text measure that never wraps and gives two
    units to a character, a store with one image, images of 400 by 300. *)

Module Demo.

Definition png : string := "data:image/png;base64,AAAA".

Definition env : Env :=
  MkEnv 297 210
        (fun _ s _ => [s])
        (fun _ s => Num.ofNat (String.length s) * 2)%Q
        (fun id => if String.eqb id "img_1_abc" then Some png else None)
        (fun _ => Some (400, 300)%Q)
        (fun _ => false)
        (fun n => ("img_17_" ++ Js.ofNat n)%string)
        (fun _ => false).

End Demo.

(* ------------------------------------------------------------------ *)
(** * Definitions that follow the specification's words *)

Module Spec.
Local Open Scope string_scope.





(** The file-name rule of the specification, read in its two ways: every
    maximal run of characters that are not ASCII letters or digits becomes
    one hyphen, or every such character becomes a hyphen. *)
Definition isAlnum (c : ascii) : bool := Js.isLower c || Js.isUpper c || Js.isDigit c.

Fixpoint hyphenateRuns (inRun : bool) (s : string) : string :=
  match s with
  | EmptyString => EmptyString
  | String c r =>
      if isAlnum c then String c (hyphenateRuns false r)
      else if inRun then hyphenateRuns true r
      else String "-" (hyphenateRuns true r)
  end.

Definition hyphenateChars (s : string) : string :=
  Js.mapChars (fun c => if isAlnum c then c else "-"%char) s.

(** Every maximal run of whitespace becomes one hyphen; nothing else
    changes. *)
Fixpoint hyphenateSpaces (inRun : bool) (s : string) : string :=
  match s with
  | EmptyString => EmptyString
  | String c r =>
      if Js.isWhite c then
        if inRun then hyphenateSpaces true r else String "-" (hyphenateSpaces true r)
      else String c (hyphenateSpaces false r)
  end.

(** A cross-note link token is [[[Title]]] with a title that is not empty
    and holds no closing bracket. *)
Fixpoint noCloseBracket (t : string) : bool :=
  match t with
  | EmptyString => true
  | String c r => negb (Ascii.eqb "]" c) && noCloseBracket r
  end.
Definition isTitle (t : string) : Prop := t <> EmptyString /\ noCloseBracket t = true.
Definition token (t : string) : string := "[[" ++ t ++ "]]".

Fixpoint noOpenBracket (t : string) : bool :=
  match t with
  | EmptyString => true
  | String c r => negb (Ascii.eqb "[" c) && noOpenBracket r
  end.

(** A text holds a link token when one starts somewhere in it. *)
Definition holdsToken (s : string) : Prop :=
  exists pre t rest, isTitle t /\ s = pre ++ token t ++ rest.

(** [Strips body out titles]: reading [body] from the left, [out] is [body]
    with every link token replaced by its title and every other character
    kept, and [titles] are the titles of the tokens, in order. *)
Inductive Strips : string -> string -> list string -> Prop :=
| Strips_end : Strips "" "" []
| Strips_link t rest out titles :
    isTitle t ->
    Strips rest out titles ->
    Strips (token t ++ rest) (t ++ out) (t :: titles)
| Strips_char c s out titles :
    (forall t rest, isTitle t -> String c s <> token t ++ rest) ->
    Strips s out titles ->
    Strips (String c s) (String c out) titles.

End Spec.

(* ------------------------------------------------------------------ *)
(** * Facts about strings *)

Module JsFacts.
Import Js.

Lemma rev_onto_app s acc : rev_onto s acc = (rev_onto s "" ++ acc)%string.
Proof.
  revert acc. induction s as [|c s IH]; intro acc; simpl.
  - reflexivity.
  - rewrite IH. rewrite (IH (String c "")).
    clear IH. induction (rev_onto s "") as [|d r IHr]; simpl.
    + reflexivity.
    + now rewrite IHr.
Qed.

Lemma rev_cons c s : rev (String c s) = (rev s ++ String c "")%string.
Proof. unfold rev. simpl. apply rev_onto_app. Qed.





End JsFacts.

(* ------------------------------------------------------------------ *)
(** * Table alignment in the two exporters *)

(* ------------------------------------------------------------------ *)
(** * Rounding to a double *)

Module NumFacts.
Import Num.
Local Open Scope Q_scope.

(** ** The nearest integer *)

Lemma nearestEven_cases s :
  let f := Qfloor s in
  (nearestEven s = f /\ s - inject_Z f <= 1 # 2
   /\ (s - inject_Z f == 1 # 2 -> Z.even f = true))
  \/ (nearestEven s = (f + 1)%Z /\ 1 # 2 <= s - inject_Z f
      /\ (s - inject_Z f == 1 # 2 -> Z.even f = false)).
Proof.
  cbv zeta. unfold nearestEven.
  destruct (Qcompare_spec (s - inject_Z (Qfloor s))%Q (1 # 2)) as [E|L|G].
  - destruct (Z.even (Qfloor s)) eqn:Hev.
    + left. split; [reflexivity|]. split; [rewrite E; apply Qle_refl|now intros _].
    + right. split; [reflexivity|]. split; [rewrite E; apply Qle_refl|now intros _].
  - left. split; [reflexivity|]. split; [now apply Qlt_le_weak|].
    intro E. rewrite E in L. now apply Qlt_irrefl in L.
  - right. split; [reflexivity|]. split; [now apply Qlt_le_weak|].
    intro E. rewrite E in G. now apply Qlt_irrefl in G.
Qed.

Lemma inject_Z_succ z : inject_Z (z + 1) == inject_Z z + 1.
Proof. rewrite inject_Z_plus. reflexivity. Qed.

Lemma nearestEven_error s :
  s - (1 # 2) <= inject_Z (nearestEven s) <= s + (1 # 2).
Proof.
  pose proof (Qfloor_le s) as Hl. pose proof (Qlt_floor s) as Hu.
  rewrite inject_Z_succ in Hu.
  destruct (nearestEven_cases s) as [(-> & H & _)|(-> & H & _)].
  - lra.
  - rewrite inject_Z_succ. lra.
Qed.

Lemma nearestEven_comp s t : s == t -> nearestEven s = nearestEven t.
Proof.
  intro E. unfold nearestEven. rewrite (Qfloor_comp _ _ E).
  assert (E2 : s - inject_Z (Qfloor t) == t - inject_Z (Qfloor t)) by (rewrite E; reflexivity).
  now rewrite E2.
Qed.

Lemma nearestEven_Z z : nearestEven (inject_Z z) = z.
Proof.
  unfold nearestEven. rewrite Qfloor_Z.
  assert (E : inject_Z z - inject_Z z == 0) by ring.
  rewrite E. reflexivity.
Qed.

Lemma inject_Z_le_succ a b : inject_Z a < inject_Z b -> inject_Z a + 1 <= inject_Z b.
Proof.
  intro H. rewrite <- Zlt_Qlt in H. rewrite <- inject_Z_succ, <- Zle_Qle. lia.
Qed.

Lemma nearestEven_mono s t : s <= t -> (nearestEven s <= nearestEven t)%Z.
Proof.
  intro Hst.
  destruct (Z_le_gt_dec (nearestEven s) (nearestEven t)) as [H|H]; [exact H|exfalso].
  assert (Hq : inject_Z (nearestEven t) + 1 <= inject_Z (nearestEven s)).
  { apply inject_Z_le_succ. rewrite <- Zlt_Qlt. lia. }
  pose proof (nearestEven_error s) as Hs. pose proof (nearestEven_error t) as Ht.
  assert (Est : s == t) by lra.
  apply nearestEven_comp in Est. lia.
Qed.

(** ** The binary exponent *)

Lemma two_pos z : 0 < 2 ^ z.
Proof. apply Qpower_0_lt. reflexivity. Qed.

Lemma two_succ z : 2 ^ (z + 1) == 2 * 2 ^ z.
Proof. rewrite Qpower_plus by discriminate. ring. Qed.

Lemma two_pred z : 2 ^ (z - 1) == 2 ^ z / 2.
Proof. rewrite Qpower_minus by discriminate. reflexivity. Qed.

Lemma two_lt a b : (a < b)%Z -> 2 ^ a < 2 ^ b.
Proof. intro H. apply Qpower_lt_compat_l; [exact H|reflexivity]. Qed.

Lemma two_le a b : (a <= b)%Z -> 2 ^ a <= 2 ^ b.
Proof. intro H. apply Qpower_le_compat_l; [exact H|discriminate]. Qed.

Lemma two_lt_inv a b : 2 ^ a < 2 ^ b -> (a < b)%Z.
Proof. intro H. apply Qpower_lt_compat_l_inv with (q := 2); [exact H|reflexivity]. Qed.

Lemma log2_bounds (n : Z) :
  (0 < n)%Z -> 2 ^ Z.log2 n <= inject_Z n < 2 ^ (Z.log2 n + 1).
Proof.
  intro Hn. pose proof (Z.log2_spec n Hn) as [Hl Hu].
  pose proof (Z.log2_nonneg n) as H0.
  split.
  - rewrite <- (Zpower_Qpower 2 (Z.log2 n)) by exact H0. now rewrite <- Zle_Qle.
  - rewrite <- (Zpower_Qpower 2 (Z.log2 n + 1)) by lia. rewrite <- Zlt_Qlt.
    now rewrite Z.add_1_r.
Qed.

Lemma ilog2_spec q : 0 < q -> 2 ^ ilog2 q <= q < 2 ^ (ilog2 q + 1).
Proof.
  intro Hq. unfold ilog2.
  set (g := (Z.log2 (Qnum q) - Z.log2 (Z.pos (Qden q)))%Z).
  assert (Hn : (0 < Qnum q)%Z).
  { destruct q as [n d]. unfold Qlt in Hq. cbn in *. lia. }
  pose proof (log2_bounds Hn) as [Hnl Hnu].
  pose proof (@log2_bounds (Z.pos (Qden q)) eq_refl) as [Hdl Hdu].
  assert (Eq_ : q == inject_Z (Qnum q) / inject_Z (Z.pos (Qden q))).
  { rewrite <- Qmake_Qdiv. destruct q; reflexivity. }
  set (a := Z.log2 (Qnum q)) in *. set (b := Z.log2 (Z.pos (Qden q))) in *.
  assert (Hd : 0 < inject_Z (Z.pos (Qden q))) by reflexivity.
  set (N := inject_Z (Qnum q)) in *. set (D := inject_Z (Z.pos (Qden q))) in *.
  assert (Hqd : q * D == N).
  { rewrite Eq_. field. intro E. rewrite E in Hd. now apply Qlt_irrefl in Hd. }
  (* 2^(g-1) < q < 2^(g+1) *)
  assert (Hlow : 2 ^ (g - 1) < q).
  { assert (E : 2 ^ (g - 1) * 2 ^ (b + 1) == 2 ^ a).
    { rewrite <- Qpower_plus by discriminate. unfold g.
      replace (a - b - 1 + (b + 1))%Z with a by lia. reflexivity. }
    apply Qmult_lt_r with D; [exact Hd|]. rewrite Hqd.
    apply Qlt_le_trans with (2 ^ (g - 1) * 2 ^ (b + 1)).
    - apply Qmult_lt_l; [apply two_pos|exact Hdu].
    - rewrite E. exact Hnl. }
  assert (Hup : q < 2 ^ (g + 1)).
  { assert (E : 2 ^ (g + 1) * 2 ^ b == 2 ^ (a + 1)).
    { rewrite <- Qpower_plus by discriminate. unfold g.
      replace (a - b + 1 + b)%Z with (a + 1)%Z by lia. reflexivity. }
    apply Qmult_lt_r with D; [exact Hd|]. rewrite Hqd.
    apply Qlt_le_trans with (2 ^ (g + 1) * 2 ^ b).
    - rewrite E. exact Hnu.
    - apply Qmult_le_l; [apply two_pos|exact Hdl]. }
  destruct (Qle_bool (2 ^ g) q) eqn:Hc.
  - apply Qle_bool_iff in Hc. split; assumption.
  - assert (Hlt : q < 2 ^ g).
    { apply Qnot_le_lt. intro H. apply Qle_bool_iff in H. congruence. }
    split; [now apply Qlt_le_weak|].
    replace (g - 1 + 1)%Z with g by lia. exact Hlt.
Qed.

Lemma ilog2_unique q k : 2 ^ k <= q < 2 ^ (k + 1) -> ilog2 q = k.
Proof.
  intros [Hl Hu].
  assert (Hq : 0 < q) by (eapply Qlt_le_trans; [apply (two_pos k)|exact Hl]).
  destruct (ilog2_spec Hq) as [Hl' Hu'].
  assert (H1 : (k < ilog2 q + 1)%Z).
  { apply two_lt_inv. eapply Qle_lt_trans; eassumption. }
  assert (H2 : (ilog2 q < k + 1)%Z).
  { apply two_lt_inv. eapply Qle_lt_trans; eassumption. }
  lia.
Qed.

(** ** Rounding a positive number *)

Lemma two_opp z : 2 ^ (- z) * 2 ^ z == 1.
Proof. rewrite <- Qpower_plus by discriminate. now replace (- z + z)%Z with 0%Z by lia. Qed.

(** The scaled value lies between [2^52] and [2^53]. *)
Lemma scaled_bounds q :
  0 < q ->
  let e := (ilog2 q - 52)%Z in
  2 ^ 52 <= q * 2 ^ (- e) < 2 ^ 53.
Proof.
  intros Hq e. destruct (ilog2_spec Hq) as [Hl Hu].
  assert (E1 : 2 ^ ilog2 q * 2 ^ (- e) == 2 ^ 52).
  { rewrite <- Qpower_plus by discriminate. unfold e.
    now replace (ilog2 q + - (ilog2 q - 52))%Z with 52%Z by lia. }
  assert (E2 : 2 ^ (ilog2 q + 1) * 2 ^ (- e) == 2 ^ 53).
  { rewrite <- Qpower_plus by discriminate. unfold e.
    now replace (ilog2 q + 1 + - (ilog2 q - 52))%Z with 53%Z by lia. }
  split.
  - rewrite <- E1. apply Qmult_le_r; [apply two_pos|exact Hl].
  - rewrite <- E2. apply Qmult_lt_r; [apply two_pos|exact Hu].
Qed.

Lemma significand_bounds q :
  0 < q ->
  let e := (ilog2 q - 52)%Z in
  (2 ^ 52 <= nearestEven (q * 2 ^ (- e)) <= 2 ^ 53)%Z.
Proof.
  intros Hq e. destruct (scaled_bounds Hq) as [Hl Hu]. fold e in Hl, Hu.
  split.
  - rewrite <- (nearestEven_Z (2 ^ 52)). apply nearestEven_mono.
    rewrite Zpower_Qpower by lia. exact Hl.
  - rewrite <- (nearestEven_Z (2 ^ 53)). apply nearestEven_mono.
    rewrite Zpower_Qpower by lia. now apply Qlt_le_weak.
Qed.

Lemma roundPos_bounds q :
  0 < q ->
  let e := (ilog2 q - 52)%Z in
  2 ^ (e + 52) <= roundPos q <= 2 ^ (e + 53).
Proof.
  intros Hq e. destruct (significand_bounds Hq) as [Hl Hu]. fold e in Hl, Hu.
  unfold roundPos. fold e.
  rewrite Zle_Qle, Zpower_Qpower in Hl by lia.
  rewrite Zle_Qle, Zpower_Qpower in Hu by lia.
  change (inject_Z 2) with 2 in *.
  split.
  - rewrite Z.add_comm, Qpower_plus by discriminate.
    apply Qmult_le_r; [apply two_pos|exact Hl].
  - rewrite Z.add_comm, Qpower_plus by discriminate.
    apply Qmult_le_r; [apply two_pos|exact Hu].
Qed.

Lemma roundPos_pos q : 0 < q -> 0 < roundPos q.
Proof.
  intro Hq. eapply Qlt_le_trans; [|apply (roundPos_bounds Hq)]. apply two_pos.
Qed.


Lemma roundPos_comp q r : q == r -> 0 < q -> roundPos q == roundPos r.
Proof.
  intros E Hq. assert (Hr : 0 < r) by now rewrite <- E.
  assert (El : ilog2 q = ilog2 r).
  { apply ilog2_unique. rewrite E. now apply ilog2_spec. }
  unfold roundPos. rewrite El.
  rewrite (@nearestEven_comp (q * 2 ^ (- (ilog2 r - 52)))%Q (r * 2 ^ (- (ilog2 r - 52)))%Q);
    [reflexivity|now rewrite E].
Qed.

Lemma roundPos_mono q r : 0 < q -> q <= r -> roundPos q <= roundPos r.
Proof.
  intros Hq Hqr. assert (Hr : 0 < r) by (eapply Qlt_le_trans; eassumption).
  destruct (ilog2_spec Hq) as [Hql Hqu]. destruct (ilog2_spec Hr) as [Hrl Hru].
  assert (Hle : (ilog2 q <= ilog2 r)%Z).
  { assert (H : (ilog2 q < ilog2 r + 1)%Z); [|lia].
    apply two_lt_inv. eapply Qle_lt_trans; [exact Hql|].
    eapply Qle_lt_trans; eassumption. }
  destruct (Z.eq_dec (ilog2 q) (ilog2 r)) as [E|N].
  - unfold roundPos. rewrite E. apply Qmult_le_r; [apply two_pos|].
    rewrite <- Zle_Qle. apply nearestEven_mono.
    apply Qmult_le_r; [apply two_pos|exact Hqr].
  - destruct (roundPos_bounds Hq) as [_ H1]. destruct (roundPos_bounds Hr) as [H2 _].
    eapply Qle_trans; [exact H1|]. eapply Qle_trans; [|exact H2].
    apply two_le. lia.
Qed.

(** A number that is a 53-bit significand times a power of two is kept. *)
Lemma roundPos_exact (m e : Z) :
  (2 ^ 52 <= m <= 2 ^ 53)%Z -> roundPos (inject_Z m * 2 ^ e) == inject_Z m * 2 ^ e.
Proof.
  intros [Hl Hu].
  assert (Hl' : 2 ^ 52 <= inject_Z m).
  { rewrite <- (Zpower_Qpower 2 52) by lia. now rewrite <- Zle_Qle. }
  destruct (Z.eq_dec m (2 ^ 53)) as [E|N].
  - subst m.
    assert (Ev : inject_Z (2 ^ 53) * 2 ^ e == 2 ^ (e + 53)).
    { rewrite Zpower_Qpower by lia. rewrite Z.add_comm, Qpower_plus by discriminate. reflexivity. }
    assert (El : ilog2 (inject_Z (2 ^ 53) * 2 ^ e)%Q = (e + 53)%Z).
    { apply ilog2_unique. rewrite Ev. split; [apply Qle_refl|apply two_lt; lia]. }
    unfold roundPos. rewrite El.
    rewrite (@nearestEven_comp _ (inject_Z (2 ^ 52))).
    + rewrite nearestEven_Z, Ev.
      replace (e + 53 - 52)%Z with (e + 1)%Z by lia.
      rewrite Zpower_Qpower by lia. rewrite <- Qpower_plus by discriminate.
      now replace (52 + (e + 1))%Z with (e + 53)%Z by lia.
    + rewrite Ev, <- Qpower_plus by discriminate.
      replace (e + 53 + - (e + 53 - 52))%Z with 52%Z by lia. reflexivity.
  - assert (Hu' : inject_Z m < 2 ^ 53).
    { rewrite <- (Zpower_Qpower 2 53) by lia. rewrite <- Zlt_Qlt. lia. }
    assert (El : ilog2 (inject_Z m * 2 ^ e)%Q = (e + 52)%Z).
    { apply ilog2_unique. split.
      - rewrite Z.add_comm, Qpower_plus by discriminate.
        apply Qmult_le_r; [apply two_pos|exact Hl'].
      - replace (e + 52 + 1)%Z with (53 + e)%Z by lia. rewrite Qpower_plus by discriminate.
        apply Qmult_lt_r; [apply two_pos|exact Hu']. }
    unfold roundPos. rewrite El. replace (e + 52 - 52)%Z with e by lia.
    rewrite (@nearestEven_comp _ (inject_Z m)).
    + now rewrite nearestEven_Z.
    + rewrite <- Qmult_assoc, (Qmult_comm (2 ^ e)), two_opp. ring.
Qed.

Lemma roundPos_idem q : 0 < q -> roundPos (roundPos q) == roundPos q.
Proof.
  intro Hq. unfold roundPos at 2 3. apply roundPos_exact. now apply significand_bounds.
Qed.

(** ** Rounding *)

Lemma round_comp q r : q == r -> round q = round r.
Proof. intro E. unfold round. now rewrite (Qred_complete _ _ E). Qed.

Lemma round_pos q : 0 < q -> round q == roundPos q.
Proof.
  intro Hq. unfold round. rewrite Qred_correct.
  assert (Hc : (Qred q ?= 0) = Gt).
  { rewrite <- Qgt_alt, Qred_correct. exact Hq. }
  rewrite Hc. apply roundPos_comp; [apply Qred_correct|now rewrite Qred_correct].
Qed.

Lemma round_neg q : q < 0 -> round q == - roundPos (- q).
Proof.
  intro Hq. unfold round. rewrite Qred_correct.
  assert (Hc : (Qred q ?= 0) = Lt).
  { rewrite <- Qlt_alt, Qred_correct. exact Hq. }
  rewrite Hc. apply Qopp_comp. apply roundPos_comp.
  - now rewrite Qred_correct.
  - rewrite Qred_correct. lra.
Qed.

Lemma round_zero q : q == 0 -> round q == 0.
Proof. intro E. rewrite (round_comp E). reflexivity. Qed.

Lemma round_cases q :
  (q < 0 /\ round q == - roundPos (- q)) \/ (q == 0 /\ round q == 0)
  \/ (0 < q /\ round q == roundPos q).
Proof.
  destruct (Q_dec q 0) as [[H|H]|H].
  - left. split; [exact H|now apply round_neg].
  - right. right. split; [exact H|now apply round_pos].
  - right. left. split; [exact H|now apply round_zero].
Qed.

Lemma round_nonneg q : 0 <= q -> 0 <= round q.
Proof.
  intro Hq. destruct (round_cases q) as [[H E]|[[H E]|[H E]]]; rewrite E.
  - lra.
  - apply Qle_refl.
  - apply Qlt_le_weak. now apply roundPos_pos.
Qed.

Lemma round_nonpos q : q <= 0 -> round q <= 0.
Proof.
  intro Hq. destruct (round_cases q) as [[H E]|[[H E]|[H E]]]; rewrite E.
  - assert (Hp : 0 < - q) by lra. pose proof (roundPos_pos Hp). lra.
  - apply Qle_refl.
  - lra.
Qed.


(** Rounding keeps the order. *)
Lemma round_mono q r : q <= r -> round q <= round r.
Proof.
  intro Hqr.
  destruct (round_cases q) as [[Hq Eq_]|[[Hq Eq_]|[Hq Eq_]]].
  - destruct (round_cases r) as [[Hr Er]|[[Hr Er]|[Hr Er]]].
    + rewrite Eq_, Er. apply Qopp_le_compat. apply roundPos_mono; lra.
    + rewrite Er. apply round_nonpos. lra.
    + apply Qle_trans with 0; [apply round_nonpos|apply round_nonneg]; lra.
  - rewrite Eq_. apply round_nonneg. lra.
  - assert (Hr : 0 < r) by lra.
    rewrite Eq_, (round_pos Hr). now apply roundPos_mono.
Qed.

Lemma round_canon q : Qred (round q) = round q.
Proof. unfold round. apply Qred_complete, Qred_correct. Qed.

(** A double is kept by rounding. *)
Lemma round_idem q : round (round q) = round q.
Proof.
  assert (E : round (round q) == round q).
  { destruct (round_cases q) as [[Hq Eq_]|[[Hq Eq_]|[Hq Eq_]]].
    - assert (Hp : 0 < - q) by lra. pose proof (roundPos_pos Hp) as Hpos.
      assert (Hn : round q < 0) by (rewrite Eq_; lra).
      assert (E1 : - round q == roundPos (- q)) by (rewrite Eq_; ring).
      assert (Hp2 : 0 < - round q) by lra.
      rewrite (round_neg Hn), (roundPos_comp E1 Hp2), (roundPos_idem Hp), Eq_. reflexivity.
    - rewrite (round_comp Eq_), Eq_. reflexivity.
    - pose proof (roundPos_pos Hq) as Hpos.
      assert (Hn : 0 < round q) by (rewrite Eq_; lra).
      rewrite (round_pos Hn), (roundPos_comp Eq_ Hn), (roundPos_idem Hq), Eq_. reflexivity. }
  transitivity (Qred (round (round q))); [symmetry; apply round_canon|].
  transitivity (Qred (round q)); [now apply Qred_complete|apply round_canon].
Qed.


End NumFacts.

Module AlignmentProofs.






End AlignmentProofs.

(* ------------------------------------------------------------------ *)
(** * Image scaling *)

Module ImageProofs.
Import Pdf.
Local Open Scope Q_scope.

Lemma gtb_true a b : Num.gtb a b = true <-> b < a.
Proof.
  unfold Num.gtb. rewrite negb_true_iff, <- not_true_iff_false, Qle_bool_iff.
  split; [apply Qnot_le_lt | apply Qlt_not_le].
Qed.

Lemma gtb_false a b : Num.gtb a b = false <-> a <= b.
Proof. unfold Num.gtb. now rewrite negb_false_iff, Qle_bool_iff. Qed.








Section WithEnv.
Variable env : Env.




End WithEnv.





End ImageProofs.

(* ------------------------------------------------------------------ *)
(** * The flashcards of a note *)

Module FlashcardProofs.
Import Anki.
Local Open Scope string_scope.

(** The note of the specification's scenario: two sections, A and B. *)
Definition twoSections : string :=
  Js.join Js.nl ["# A"; "Hello"; ""; "# B"; "- one"; "- two"].

(** What is left in [currentHeading] and [currentContent] when the first
    pass over the lines ends. *)
Lemma firstPass_twoSections :
  firstPass (Js.split Js.LF twoSections) "" [] = ("B", ["- one"; "- two"]).
Proof. vm_compute. reflexivity. Qed.

(** The second pass over a body that starts with a heading line: the
    heading and content left by the first pass are pushed as a card of
    their own, and then the pass goes as it would from a clean state. *)
Lemma secondPass_stale_state (env : Env) l rest h c st :
  Js.startsWith "# " l = true ->
  secondPass env (l :: rest) h c st
  = match pushSection env h c st with
    | Some st' => secondPass env (l :: rest) "" [] st'
    | None => None
    end.
Proof.
  intro Hl. cbn [secondPass]. rewrite Hl.
  destruct (pushSection env h c st) as [st'|]; [|reflexivity].
  destruct st' as [cards n]. reflexivity.
Qed.

(** C1.  On the note with the two non-empty sections A and B and no
    summary, [parseNotesToFlashcards] returns three cards, with fronts B, A
    and B: the second pass starts from the heading and content that the
    first pass left behind, so the last section is pushed once when the
    first heading line is met and once more at the end.  The claim gives
    two cards, A and B. *)
Theorem C1_last_section_pushed_twice (env : Env) :
  option_map (map front) (parseNotesToFlashcards env "Note" "" twoSections)
  = Some ["B"; "A"; "B"].
Proof. vm_compute. reflexivity. Qed.

(** C4.  A markdown image token is left as it is by [processImagesForAnki]:
    it is not turned into an [<img>] tag, its payload is not collected into
    the image map and no file name is drawn for it.  (The pattern of the
    markdown loop asks for the end of the input after the closing bracket,
    and the loop runs after the one that resolves and collects.) *)
Theorem C4_markdown_image_not_processed (env : Env) :
  processImagesForAnki env "![pic](data:image/png;base64,AAAA)" 0
  = Some ("![pic](data:image/png;base64,AAAA)", [], 0).
Proof. vm_compute. reflexivity. Qed.

(** The same payload in an HTML tag is collected under a generated name. *)
Lemma html_image_collected :
  processImagesForAnki Demo.env ("<img src=" ++ q "data:image/png;base64,AAAA" ++ ">") 0
  = Some ("<img src=" ++ q "img_17_0.png" ++ " alt=" ++ q "Image"
          ++ " style=" ++ q imgStyle ++ ">",
          [("img_17_0.png", "data:image/png;base64,AAAA")], 1).
Proof. vm_compute. reflexivity. Qed.

(** Where the markdown pattern does match, at the end of the input, the
    tag it writes has an empty source and goes through none of the steps
    of the HTML loop. *)
Lemma markdown_image_at_end (env : Env) :
  processImagesForAnki env "see ![pic]" 0
  = Some ("see <img src=" ++ q EmptyString ++ " alt=" ++ q "pic" ++ ">", [], 0).
Proof. vm_compute. reflexivity. Qed.

End FlashcardProofs.

(* ------------------------------------------------------------------ *)
(** * A lone pipe-bounded line in the PDF *)

Module TableGateProofs.
Import Pdf.
Local Open Scope Q_scope.

Section WithEnv.
Variable env : Env.

Lemma isTableRow_not_blank line :
  isTableRow line = true -> String.eqb (Js.trim line) "" = false.
Proof.
  unfold isTableRow. destruct (Js.trim line); simpl; [discriminate|reflexivity].
Qed.

(** A section whose content is one pipe-bounded line: the table branch of
    [renderMarkdownContent] takes the line, [renderTable] finds fewer than
    two rows and returns, and nothing is drawn for the line. *)
Lemma lone_table_row_dropped (line : string) doc x y maxWidth ph m k si fs :
  isTableRow line = true ->
  Js.split Js.LF line = [line] ->
  renderMarkdownContent env doc line x y maxWidth ph m k si fs
  = Some (breakWithDivider si fs ph m k doc y).
Proof.
  intros Hrow Hsplit. unfold renderMarkdownContent. rewrite Hsplit.
  cbn [List.length renderLines].
  destruct (breakWithDivider si fs ph m k doc y) as [d1 y1].
  rewrite (isTableRow_not_blank _ Hrow), Hrow.
  cbn [Js.takeWhile Js.dropWhile]. rewrite Hrow.
  unfold renderTable. cbn [filter]. rewrite Hrow. reflexivity.
Qed.

(** C3.  A section whose content is the single pipe-bounded line
    [| a | b |] is not drawn as a table, and it is not drawn as a
    paragraph either: [renderMarkdownContent] returns the document and the
    cursor that the page-break check at the top of the loop leaves, with
    no text drawn for the line.  The claim has the line fall through to
    paragraph text. *)
Theorem C3_lone_pipe_line_not_drawn doc x y maxWidth ph m k si fs :
  renderMarkdownContent env doc "| a | b |" x y maxWidth ph m k si fs
  = Some (breakWithDivider si fs ph m k doc y).
Proof. apply lone_table_row_dropped; vm_compute; reflexivity. Qed.

End WithEnv.

End TableGateProofs.

(* ------------------------------------------------------------------ *)
(** * Facts about the matcher *)

Module ReFacts.
Import Re.

(** The longest prefix of characters that satisfy [w], and the rest. *)
Fixpoint takeRun (w : ascii -> bool) (s : string) : string :=
  match s with
  | String c r => if w c then String c (takeRun w r) else EmptyString
  | EmptyString => EmptyString
  end.
Fixpoint dropRun (w : ascii -> bool) (s : string) : string :=
  match s with
  | String c r => if w c then dropRun w r else s
  | EmptyString => EmptyString
  end.

Lemma takeRun_dropRun w s : (takeRun w s ++ dropRun w s)%string = s.
Proof.
  induction s as [|c r IH]; simpl; [reflexivity|].
  destruct (w c); simpl; [now rewrite IH|reflexivity].
Qed.

Lemma length_append (a b : string) :
  String.length (a ++ b) = String.length a + String.length b.
Proof. induction a as [|c a IH]; simpl; [reflexivity|now rewrite IH]. Qed.

Lemma append_assoc (a b c : string) : (a ++ (b ++ c) = (a ++ b) ++ c)%string.
Proof. induction a as [|x a IH]; simpl; [reflexivity|now rewrite IH]. Qed.

Lemma takeN_append a b : takeN (String.length a) (a ++ b) = a.
Proof. induction a as [|c a IH]; simpl; [now destruct b|now rewrite IH]. Qed.

(** What was read between a position and a later one. *)
Lemma taken_append a b : taken (a ++ b) b = a.
Proof.
  unfold taken. rewrite length_append.
  replace (String.length a + String.length b - String.length b) with (String.length a) by lia.
  apply takeN_append.
Qed.

(** A greedy star over one character class reads the whole run of the
    class, provided that what follows the star, when it fails after the
    whole run, fails as well in front of any character of the class. *)
Lemma starLoop_chr_greedy (w : ascii -> bool) (k : mstate -> option mstate) (s : string) :
  forall (p0 : option ascii) (cs : list (nat * string)) (n : nat),
    String.length s <= n ->
    (k (MState (lastChar p0 (takeRun w s)) (dropRun w s) cs) = None ->
     forall c r p1, w c = true -> k (MState p1 (String c r) cs) = None) ->
    starLoop (rmatch (Chr w)) true k n (MState p0 s cs)
    = k (MState (lastChar p0 (takeRun w s)) (dropRun w s) cs).
Proof.
  induction s as [|c r IH]; intros p0 cs n Hn Hk.
  - destruct n; reflexivity.
  - destruct n as [|n]; [simpl in Hn; lia|].
    cbn [takeRun dropRun lastChar] in Hk |- *.
    cbn [starLoop rmatch rest caps].
    destruct (w c) eqn:Hc.
    + cbn [String.length lastChar] in Hk |- *.
      rewrite (proj2 (Nat.ltb_lt _ _) (Nat.lt_succ_diag_r _)).
      fold (starLoop (rmatch (Chr w)) true k).
      rewrite IH; [| simpl in Hn; lia | exact Hk].
      destruct (k (MState (lastChar (Some c) (takeRun w r)) (dropRun w r) cs)) eqn:Hlong.
      * reflexivity.
      * apply (Hk eq_refl c r p0 Hc).
    + reflexivity.
Qed.

End ReFacts.

(* ------------------------------------------------------------------ *)
(** * The names of the downloaded files *)

Module FilenameProofs.
Import Re ReFacts.
Local Open Scope string_scope.

Lemma matchAt_spaces p s :
  matchAt Pdf.spacesRegex p s
  = match s with
    | String c s' =>
        if Js.isWhite c
        then Some (MState (lastChar (Some c) (takeRun Js.isWhite s')) (dropRun Js.isWhite s') [])
        else None
    | EmptyString => None
    end.
Proof.
  unfold matchAt, Pdf.spacesRegex, Plus. cbn [rmatch rest caps].
  destruct s as [|c s']; [reflexivity|].
  destruct (Js.isWhite c); [|reflexivity].
  apply starLoop_chr_greedy; [cbn; lia|discriminate].
Qed.

Lemma text_of_run w c s' p :
  m_text (toMatch p (String c s') (MState (lastChar (Some c) (takeRun w s')) (dropRun w s') []))
  = String c (takeRun w s').
Proof.
  unfold toMatch. cbn [m_text rest].
  rewrite <- (takeRun_dropRun w s') at 1.
  change (String c (takeRun w s' ++ dropRun w s')) with (String c (takeRun w s') ++ dropRun w s').
  apply taken_append.
Qed.

(** [title.replace(/\s+/g, "-")] puts one hyphen for each maximal run of
    whitespace. *)
Lemma replace_spaces (s : string) :
  (forall idx p, replaceFrom Pdf.spacesRegex (fun _ => "-") 0 idx p s
                 = Spec.hyphenateSpaces false s)
  /\ (forall idx p, replaceFrom Pdf.spacesRegex (fun _ => "-")
                                (String.length (takeRun Js.isWhite s)) idx p s
                    = Spec.hyphenateSpaces true s).
Proof.
  induction s as [|c s' [IH0 IH1]].
  - split; intros; reflexivity.
  - assert (H0 : forall idx p,
               replaceFrom Pdf.spacesRegex (fun _ => "-") 0 idx p (String c s')
               = Spec.hyphenateSpaces false (String c s')).
    { intros idx p. cbn [replaceFrom Spec.hyphenateSpaces].
      rewrite matchAt_spaces. destruct (Js.isWhite c).
      - rewrite text_of_run. cbn [String.length]. rewrite IH1. reflexivity.
      - rewrite IH0. reflexivity. }
    split; [exact H0|].
    intros idx p. cbn [takeRun]. destruct (Js.isWhite c) eqn:Hc.
    + cbn [String.length replaceFrom Spec.hyphenateSpaces]. rewrite Hc. apply IH1.
    + cbn [String.length]. rewrite H0. cbn [Spec.hyphenateSpaces]. rewrite Hc. reflexivity.
Qed.

Lemma matchAt_nonAlnum p s :
  matchAt Anki.nonAlnumRegex p s
  = match s with
    | String c s' => if Spec.isAlnum c then None else Some (MState (Some c) s' [])
    | EmptyString => None
    end.
Proof.
  unfold matchAt, Anki.nonAlnumRegex. cbn [rmatch rest caps].
  destruct s as [|c s']; [reflexivity|].
  unfold Spec.isAlnum. destruct (Js.isLower c || Js.isUpper c || Js.isDigit c); reflexivity.
Qed.

(** [title.replace(/[^a-z0-9]/gi, "-")] puts one hyphen for each character
    that is not an ASCII letter or digit. *)
Lemma replace_nonAlnum (s : string) :
  forall idx p, replaceFrom Anki.nonAlnumRegex (fun _ => "-") 0 idx p s
                = Spec.hyphenateChars s.
Proof.
  induction s as [|c s' IH]; intros idx p.
  - reflexivity.
  - cbn [replaceFrom]. rewrite matchAt_nonAlnum.
    unfold Spec.hyphenateChars. cbn [Js.mapChars]. fold (Spec.hyphenateChars s').
    destruct (Spec.isAlnum c).
    + rewrite IH. reflexivity.
    + unfold toMatch. cbn [m_text rest].
      replace (taken (String c s') s') with (String c "").
      * cbn [String.length]. rewrite IH. reflexivity.
      * symmetry. apply (taken_append (String c "") s').
Qed.

(** The file name of the PDF export of the title [a.b]: the full stop, which
    is neither a letter nor a digit, is kept, so the name is not the one
    that the rule of the claim gives, in either of its readings. *)
Lemma C6_pdf_keeps_punctuation :
  Pdf.pdfFilename "a.b" = "a.b.pdf"
  /\ Pdf.pdfFilename "a.b" <> Js.toLowerCase (Spec.hyphenateRuns false "a.b") ++ ".pdf"
  /\ Pdf.pdfFilename "a.b" <> Js.toLowerCase (Spec.hyphenateChars "a.b") ++ ".pdf".
Proof. vm_compute. repeat split; discriminate. Qed.

(** C6, as amended.  For every title, the file name of the PDF export is
    the title with each maximal run of whitespace replaced by one hyphen
    and every other character kept, lowercased, followed by [.pdf]; the
    file name of the flashcard export is the title with each character
    that is not an ASCII letter or digit replaced by one hyphen,
    lowercased, followed by [-anki-flashcards.zip].  These are the names
    the two exports hand to the download helper. *)
Theorem C6_filenames (env : Env) (title summary markdown : string) (font : Pdf.FontChoice) :
  Pdf.pdfFilename title = Js.toLowerCase (Spec.hyphenateSpaces false title) ++ ".pdf"
  /\ Anki.slug title ++ "-anki-flashcards.zip"
     = Js.toLowerCase (Spec.hyphenateChars title) ++ "-anki-flashcards.zip"
  /\ (forall name doc,
         Pdf.exportToPdf env title summary markdown font = Some (Downloaded name doc) ->
         name = Pdf.pdfFilename title)
  /\ (forall name zip,
         Anki.exportToAnki env title summary markdown = Some (Downloaded name zip) ->
         name = Anki.slug title ++ "-anki-flashcards.zip").
Proof.
  split; [|split; [|split]].
  - unfold Pdf.pdfFilename, replaceAll. now rewrite (proj1 (replace_spaces title)).
  - unfold Anki.slug, replaceAll. now rewrite replace_nonAlnum.
  - intros name doc. unfold Pdf.exportToPdf, Pdf.renderDocument.
    repeat match goal with
           | |- context [let '(_, _) := ?e in _] => destruct e
           | |- context [match ?e with Some _ => _ | None => _ end] => destruct e
           end; intro H; inversion H; reflexivity.
  - intros name zip. unfold Anki.exportToAnki.
    destruct (Anki.parseNotesToFlashcards env title summary markdown) as [[|card cards]|];
      intro H; inversion H; reflexivity.
Qed.

End FilenameProofs.

(* ------------------------------------------------------------------ *)
(** * The sections of a note *)

Module SectionProofs.
Import Pdf.
Local Open Scope string_scope.

Definition notHeading (l : string) : bool := negb (Js.startsWith "# " l).

Lemma split_nonempty sep s : Js.split sep s <> [].
Proof.
  destruct s as [|c r]; simpl; [discriminate|].
  destruct (Ascii.eqb c sep); [discriminate|].
  destruct (Js.split sep r); discriminate.
Qed.

(** Splitting at a line feed splits the lines of both sides of it. *)
Lemma split_app_nl a b :
  Js.split Js.LF (a ++ String Js.LF b) = (Js.split Js.LF a ++ Js.split Js.LF b)%list.
Proof.
  induction a as [|c a IH].
  - reflexivity.
  - cbn [append Js.split]. destruct (Ascii.eqb c Js.LF).
    + now rewrite IH.
    + rewrite IH. pose proof (split_nonempty Js.LF a) as Hne.
      destruct (Js.split Js.LF a); [congruence|reflexivity].
Qed.

(** While no heading has been met, the lines gathered so far do not
    matter. *)
Lemma parseLines_no_heading lines :
  forall sections c c',
    parseLines lines sections "" c = parseLines lines sections "" c'.
Proof.
  induction lines as [|l lines IH]; intros sections c c'.
  - reflexivity.
  - cbn [parseLines]. destruct (Js.startsWith "# " l).
    + reflexivity.
    + apply IH.
Qed.

(** Lines without a heading, read before any heading, leave no trace. *)
Lemma parseLines_preamble pre :
  forall lines c,
    (forall l, In l pre -> Js.startsWith "# " l = false) ->
    parseLines (pre ++ lines) [] "" c = parseLines lines [] "" [].
Proof.
  induction pre as [|l pre IH]; intros lines c Hpre.
  - apply parseLines_no_heading.
  - cbn [app parseLines]. rewrite (Hpre l (or_introl eq_refl)).
    apply IH. intros l' Hl'. apply Hpre. now right.
Qed.

Lemma parseLines_only_preamble pre c :
  (forall l, In l pre -> Js.startsWith "# " l = false) ->
  parseLines pre [] "" c = [].
Proof.
  intro Hpre. rewrite <- (app_nil_r pre), parseLines_preamble by exact Hpre. reflexivity.
Qed.

Lemma dropWhile_split (p : string -> bool) (l : list string) :
  exists pre, l = (pre ++ Js.dropWhile p l)%list /\ forall x, In x pre -> p x = true.
Proof.
  induction l as [|x l (pre & Heq & Hpre)].
  - exists []. split; [reflexivity|intros x []].
  - cbn [Js.dropWhile]. destruct (p x) eqn:Hx.
    + exists (x :: pre). split; [cbn; now rewrite <- Heq|].
      intros y [<-|Hy]; [exact Hx|now apply Hpre].
    + exists []. split; [reflexivity|intros y []].
Qed.

End SectionProofs.

(* ------------------------------------------------------------------ *)
(** * Cross-note links in the PDF export *)

Module LinkProofs.
Import Re ReFacts.
Local Open Scope string_scope.

Definition notClose : ascii -> bool := isNot "]"%char.

(** The token that starts at the head of [s]: its title and what follows
    it. *)
Definition tokenAt (s : string) : option (string * string) :=
  match s with
  | String a (String b s1) =>
      if Ascii.eqb "[" a && Ascii.eqb "[" b then
        match takeRun notClose s1, dropRun notClose s1 with
        | String _ _, String c (String d rest) =>
            if Ascii.eqb "]" c && Ascii.eqb "]" d then Some (takeRun notClose s1, rest)
            else None
        | _, _ => None
        end
      else None
  | _ => None
  end.

Definition afterToken (tr : string * string) : mstate :=
  MState (Some "]"%char) (snd tr) [(1, fst tr)].

Lemma eqb_true_eq a b : Ascii.eqb a b = true -> a = b.
Proof. apply Ascii.eqb_eq. Qed.

Lemma takeRun_noClose s : Spec.noCloseBracket (takeRun notClose s) = true.
Proof.
  induction s as [|c r IH]; [reflexivity|].
  cbn [takeRun]. change (notClose c) with (negb (Ascii.eqb "]" c)).
  destruct (Ascii.eqb "]" c) eqn:Hc; cbn [negb]; [reflexivity|].
  cbn [Spec.noCloseBracket]. rewrite Hc. exact IH.
Qed.

(** A title followed by a closing bracket is the whole run in front of
    that bracket. *)
Lemma run_of_title t rest :
  Spec.noCloseBracket t = true ->
  takeRun notClose (t ++ String "]" rest) = t
  /\ dropRun notClose (t ++ String "]" rest) = String "]" rest.
Proof.
  induction t as [|c t IH]; intro Ht.
  - split; reflexivity.
  - cbn [Spec.noCloseBracket] in Ht. apply andb_true_iff in Ht. destruct Ht as [Hc Ht].
    cbn [append takeRun dropRun].
    change (notClose c) with (negb (Ascii.eqb "]" c)). rewrite Hc.
    destruct (IH Ht) as [H1 H2]. now rewrite H1, H2.
Qed.

Lemma tokenAt_sound s t rest :
  tokenAt s = Some (t, rest) -> s = Spec.token t ++ rest /\ Spec.isTitle t.
Proof.
  unfold tokenAt. destruct s as [|a [|b s1]]; try discriminate.
  destruct (Ascii.eqb "[" a) eqn:Ha; [|discriminate].
  destruct (Ascii.eqb "[" b) eqn:Hb; [|discriminate]. cbn [andb].
  apply eqb_true_eq in Ha, Hb. subst a b.
  pose proof (takeRun_dropRun notClose s1) as Hsplit.
  pose proof (takeRun_noClose s1) as Hno.
  destruct (takeRun notClose s1) as [|t0 tr] eqn:Ht; [discriminate|].
  destruct (dropRun notClose s1) as [|c [|d r]] eqn:Hd; try discriminate.
  destruct (Ascii.eqb "]" c) eqn:Hc; [|discriminate].
  destruct (Ascii.eqb "]" d) eqn:Hdd; [|discriminate]. cbn [andb].
  apply eqb_true_eq in Hc, Hdd. subst c d.
  intro H. inversion H; subst t rest. split.
  - unfold Spec.token. rewrite <- Hsplit.
    rewrite <- !append_assoc. reflexivity.
  - split; [discriminate|exact Hno].
Qed.

Lemma tokenAt_complete t rest :
  Spec.isTitle t -> tokenAt (Spec.token t ++ rest) = Some (t, rest).
Proof.
  intros [Hne Hno]. unfold Spec.token, tokenAt. cbn [append].
  rewrite !Ascii.eqb_refl. cbn [andb].
  replace ((t ++ "]]") ++ rest) with (t ++ String "]" (String "]" rest))
    by (now rewrite <- append_assoc).
  destruct (@run_of_title t (String "]" rest) Hno) as [H1 H2]. rewrite H1, H2.
  destruct t as [|c t]; [congruence|]. rewrite !Ascii.eqb_refl. reflexivity.
Qed.

(** The pattern of a link matches at a position exactly when a token
    starts there, and captures its title. *)
Lemma matchAt_link p s :
  matchAt Links.linkRegex p s = option_map afterToken (tokenAt s).
Proof.
  unfold matchAt, Links.linkRegex, Plus. cbn [Seq Lit rmatch rest caps prev].
  unfold tokenAt.
  destruct s as [|a [|b s1]]; try reflexivity.
  - unfold only. now destruct (Ascii.eqb "[" a).
  - unfold only at 1 2.
    destruct (Ascii.eqb "[" a); [|reflexivity].
    destruct (Ascii.eqb "[" b); [|reflexivity]. cbn [andb].
    destruct s1 as [|c r]; [reflexivity|].
    cbn [takeRun dropRun]. fold notClose.
    destruct (notClose c) eqn:Hc; [|reflexivity].
    etransitivity.
    { apply starLoop_chr_greedy with (w := notClose).
      - cbn. lia.
      - intros _ c' r' p1 Hc'. cbn [rest prev caps rmatch].
        change (notClose c') with (negb (Ascii.eqb "]" c')) in Hc'. unfold only.
        apply negb_true_iff in Hc'. now rewrite Hc'. }
    cbn [rest prev caps rmatch].
    pose proof (takeRun_dropRun notClose r) as Hsplit.
    destruct (dropRun notClose r) as [|x [|y rest]] eqn:Hd; try reflexivity.
    + unfold only. now destruct (Ascii.eqb "]" x).
    + unfold only at 1 2.
      destruct (Ascii.eqb "]" x); [|reflexivity].
      destruct (Ascii.eqb "]" y) eqn:Hy; [|reflexivity]. cbn [andb option_map].
      apply eqb_true_eq in Hy. subst y.
      unfold afterToken, setCap. cbn [fst snd].
      match goal with
      | |- context [taken ?u ?v] =>
          replace (taken u v) with (String c (takeRun notClose r)); [reflexivity|]
      end.
      rewrite <- Hsplit at 2.
      match goal with
      | |- _ = taken (String c (?u ++ ?v)) _ => change (String c (u ++ v)) with (String c u ++ v)
      end.
      symmetry. apply taken_append.
Qed.

(** Passing over the rest of a match. *)
Lemma replaceFrom_skip r f pre :
  forall idx p rest,
    replaceFrom r f (String.length pre) idx p (pre ++ rest)
    = replaceFrom r f 0 (idx + String.length pre) (lastChar p pre) rest.
Proof.
  induction pre as [|c pre IH]; intros idx p rest.
  - cbn [String.length append lastChar]. now rewrite Nat.add_0_r.
  - cbn [String.length append lastChar replaceFrom]. rewrite IH. f_equal. lia.
Qed.

Lemma matchesFrom_skip r pre :
  forall idx p rest,
    matchesFrom r (String.length pre) idx p (pre ++ rest)
    = matchesFrom r 0 (idx + String.length pre) (lastChar p pre) rest.
Proof.
  induction pre as [|c pre IH]; intros idx p rest.
  - cbn [String.length append lastChar]. now rewrite Nat.add_0_r.
  - cbn [String.length append lastChar matchesFrom]. rewrite IH. f_equal. lia.
Qed.

(** Replacing the links and listing them read the same tokens. *)
Lemma scan_links (n : nat) :
  forall s, String.length s <= n ->
  forall idx p,
    exists titles,
      Spec.Strips s (replaceFrom Links.linkRegex (group 1) 0 idx p s) titles
      /\ map (group 1) (matchesFrom Links.linkRegex 0 idx p s) = titles.
Proof.
  induction n as [|n IH]; intros s Hlen idx p.
  - destruct s; [|simpl in Hlen; lia].
    exists []. split; [apply Spec.Strips_end|reflexivity].
  - destruct s as [|c s'].
    + exists []. split; [apply Spec.Strips_end|reflexivity].
    + cbn [replaceFrom matchesFrom]. rewrite matchAt_link.
      destruct (tokenAt (String c s')) as [[t rest]|] eqn:Htok.
      * destruct (tokenAt_sound _ Htok) as [Hs Ht].
        cbn [option_map].
        assert (Htext : m_text (toMatch idx (String c s') (afterToken (t, rest))) = Spec.token t).
        { unfold toMatch, afterToken. cbn [m_text Re.rest snd]. rewrite Hs. apply taken_append. }
        assert (Hgroup : group 1 (toMatch idx (String c s') (afterToken (t, rest))) = t)
          by reflexivity.
        rewrite Htext, Hgroup.
        unfold Spec.token in Hs. cbn [append] in Hs. inversion Hs as [[Hc Hs']].
        change (String.length (Spec.token t))
          with (S (String.length (String "[" (t ++ "]]")))).
        cbn [Nat.pred].
        change (String "[" ((t ++ "]]") ++ rest)) with (String "[" (t ++ "]]") ++ rest).
        rewrite replaceFrom_skip, matchesFrom_skip.
        assert (Hrest : String.length rest <= n).
        { rewrite Hs in Hlen. cbn [String.length] in Hlen.
          rewrite length_append in Hlen. lia. }
        destruct (IH rest Hrest (S idx + String.length (String "[" (t ++ "]]")))
                     (lastChar (Some "["%char) (String "[" (t ++ "]]"))))
          as (titles & Hstrips & Hmap).
        exists (t :: titles). split.
        -- change (String "[" (String "[" (t ++ "]]") ++ rest)) with (Spec.token t ++ rest).
           now apply Spec.Strips_link.
        -- cbn [map]. rewrite Hmap. f_equal.
      * cbn [option_map].
        assert (Hrest : String.length s' <= n) by (cbn [String.length] in Hlen; lia).
        destruct (IH s' Hrest (S idx) (Some c)) as (titles & Hstrips & Hmap).
        exists titles. split; [|exact Hmap].
        apply Spec.Strips_char; [|exact Hstrips].
        intros t rest Ht Heq. rewrite Heq, tokenAt_complete in Htok by exact Ht.
        discriminate.
Qed.

(** ** No token is left *)

(** If what is left of the text starts with a run free of closing brackets
    and then two closing brackets, so did the original: either the same
    characters were kept, or a token came first. *)
Lemma strips_run s out ts :
  Spec.Strips s out ts ->
  forall u rest,
    Spec.noCloseBracket u = true ->
    out = u ++ "]]" ++ rest ->
    exists u' rest',
      s = u' ++ "]]" ++ rest'
      /\ Spec.noCloseBracket u' = true
      /\ (u <> EmptyString -> u' <> EmptyString).
Proof.
  induction 1 as [|t r out0 ts0 Ht Hs IH|c s0 out0 ts0 Hc Hs IH]; intros u rest Hu Hout.
  - destruct u; discriminate.
  - exists ("[[" ++ t), r. split; [|split].
    + unfold Spec.token. now rewrite <- !append_assoc.
    + cbn. apply Ht.
    + discriminate.
  - destruct u as [|c' u1].
    + cbn [append] in Hout. injection Hout as -> Hout0.
      inversion Hs as [E|t1 r1 out1 ts1 Ht1 Hs1 E1 E2|c1 s1 out1 ts1 Hc1 Hs1 E1 E2].
      * rewrite <- H0 in Hout0. discriminate.
      * exfalso. destruct Ht1 as [Hne Hno].
        rewrite <- E2 in Hout0.
        destruct t1 as [|x t1]; [congruence|].
        cbn [append] in Hout0. injection Hout0 as -> _.
        cbn in Hno. discriminate.
      * rewrite <- E2 in Hout0. injection Hout0 as -> _.
        exists EmptyString, s1. repeat split. intro; congruence.
    + cbn [append] in Hout. injection Hout as -> Hout0.
      cbn [Spec.noCloseBracket] in Hu. apply andb_true_iff in Hu. destruct Hu as [Hc' Hu1].
      destruct (IH u1 rest Hu1 Hout0) as (u' & rest' & -> & Hu' & _).
      exists (String c' u'), rest'. split; [reflexivity|split; [|discriminate]].
      cbn [Spec.noCloseBracket]. now rewrite Hc', Hu'.
Qed.

Lemma title_head t out rest :
  Spec.isTitle t -> Spec.noOpenBracket t = true -> (t ++ out)%string <> String "[" rest.
Proof.
  intros [Hne _] Ho. destruct t as [|c t]; [congruence|].
  cbn in Ho. apply andb_true_iff in Ho. destruct Ho as [Hc _].
  cbn [append]. intro E. injection E as -> _. cbn in Hc. discriminate.
Qed.

(** A token at the head of the stripped text was at the head of the
    original, when no title holds an opening bracket. *)
Lemma strips_token_head s out ts :
  Spec.Strips s out ts ->
  (forall t0, In t0 ts -> Spec.noOpenBracket t0 = true) ->
  forall t rest, tokenAt out = Some (t, rest) -> exists t' rest', tokenAt s = Some (t', rest').
Proof.
  intros Hs Hts t rest Htok.
  destruct (tokenAt_sound _ Htok) as [Hout [Hne Hno]].
  unfold Spec.token in Hout. rewrite <- !append_assoc in Hout. cbn [append] in Hout.
  destruct Hs as [|t1 r1 out1 ts1 Ht1 Hs1|c1 s1 out1 ts1 Hc1 Hs1].
  - discriminate.
  - exfalso. eapply title_head; [exact Ht1|apply Hts; left; reflexivity|exact Hout].
  - injection Hout as -> Hout1.
    destruct Hs1 as [|t2 r2 out2 ts2 Ht2 Hs2|c2 s2 out2 ts2 Hc2 Hs2].
    + discriminate.
    + exfalso. eapply title_head; [exact Ht2|apply Hts; left; reflexivity|exact Hout1].
    + injection Hout1 as -> Hout2.
      destruct (strips_run Hs2 t rest Hno Hout2) as (u' & rest' & -> & Hu' & Hne').
      exists u', rest'.
      replace (String "[" (String "[" (u' ++ "]]" ++ rest'))) with (Spec.token u' ++ rest')
        by (unfold Spec.token; now rewrite <- !append_assoc).
      apply tokenAt_complete. split; [now apply Hne'|exact Hu'].
Qed.

Lemma tokenAt_not_open s :
  match s with
  | String c _ => Ascii.eqb "[" c = false
  | EmptyString => True
  end -> tokenAt s = None.
Proof.
  destruct s as [|c s]; [reflexivity|]. intro Hc. unfold tokenAt.
  destruct s; [reflexivity|]. now rewrite Hc.
Qed.

Lemma noOpen_suffix a b : Spec.noOpenBracket (a ++ b) = true -> Spec.noOpenBracket b = true.
Proof.
  induction a as [|c a IH]; [trivial|].
  cbn [append Spec.noOpenBracket]. intro H. apply andb_true_iff in H. now apply IH.
Qed.

(** Where a position of [a ++ b] lies: inside [a], or in [b]. *)
Lemma split_position a b :
  forall pre suf,
    (a ++ b)%string = (pre ++ suf)%string ->
    (exists a1 a2, a = a1 ++ a2 /\ a2 <> EmptyString /\ suf = a2 ++ b)
    \/ (exists pre2, b = pre2 ++ suf).
Proof.
  induction a as [|c a IH]; intros pre suf E.
  - right. exists pre. exact E.
  - destruct pre as [|p pre].
    + left. exists EmptyString, (String c a). cbn [append] in *.
      split; [reflexivity|split; [discriminate|now symmetry]].
    + cbn [append] in E. injection E as -> E.
      destruct (IH pre suf E) as [(a1 & a2 & -> & Hne & ->)|(pre2 & ->)].
      * left. exists (String p a1), a2. repeat split. exact Hne.
      * right. now exists pre2.
Qed.

(** No token starts anywhere in the stripped text, when no title holds an
    opening bracket. *)
Lemma strips_token_free s out ts :
  Spec.Strips s out ts ->
  (forall t0, In t0 ts -> Spec.noOpenBracket t0 = true) ->
  forall pre suf, out = pre ++ suf -> tokenAt suf = None.
Proof.
  induction 1 as [|t r out0 ts0 Ht Hs IH|c s0 out0 ts0 Hc Hs IH]; intros Hts pre suf E.
  - destruct pre; [|discriminate]. cbn in E. now subst suf.
  - destruct (split_position t out0 pre suf E) as [(a1 & a2 & Ea & Hne & ->)|(pre2 & Eb)].
    + apply tokenAt_not_open.
      pose proof (Hts t (or_introl eq_refl)) as Ho. rewrite Ea in Ho.
      apply noOpen_suffix in Ho. destruct a2 as [|x a2]; [congruence|].
      cbn in Ho. apply andb_true_iff in Ho. destruct Ho as [Hx _].
      cbn [append]. now apply negb_true_iff in Hx.
    + apply (IH (fun t0 H0 => Hts t0 (or_intror H0)) pre2 suf Eb).
  - destruct pre as [|p pre].
    + cbn [append] in E. subst suf.
      destruct (tokenAt (String c out0)) as [[t rest]|] eqn:Htok; [|reflexivity].
      exfalso.
      destruct (strips_token_head (Spec.Strips_char Hc Hs) Hts Htok) as (t' & rest' & Htok').
      destruct (tokenAt_sound _ Htok') as [Es Ht'].
      exact (Hc t' rest' Ht' Es).
    + cbn [append] in E. injection E as -> E. apply (IH Hts pre suf E).
Qed.

Lemma strips_holds_no_token s out ts :
  Spec.Strips s out ts ->
  (forall t0, In t0 ts -> Spec.noOpenBracket t0 = true) ->
  ~ Spec.holdsToken out.
Proof.
  intros Hs Hts (pre & t & rest & Ht & E).
  pose proof (strips_token_free Hs Hts pre (Spec.token t ++ rest) E) as Hnone.
  rewrite tokenAt_complete in Hnone by exact Ht. discriminate.
Qed.

(** C10.  The body [[[[[a]]]]] holds the token [[[a]]] inside the token
    that the pattern reads first, [[[[[a]]] with the title [[[a]; only that
    one is replaced, and the processed text still holds a link token, with
    its brackets: [[[a]]]. *)
Lemma C10_nested_token_left :
  Pdf.processContentForExport Demo.env "[[[[a]]]]" = "[[a]]"
  /\ Spec.holdsToken "[[[[a]]]]"
  /\ Spec.holdsToken (Pdf.processContentForExport Demo.env "[[[[a]]]]")
  /\ Links.extractNoteLinks "[[[[a]]]]" = ["[[a"]
  /\ exists doc x y f,
       Pdf.exportToPdf Demo.env "T" "" ("# S" ++ Js.nl ++ "[[[[a]]]]") Pdf.Sans
       = Some (Downloaded "t.pdf" doc)
       /\ In (Pdf.OpText 1 ["[[a]]"] x y f "left") (Pdf.ops doc).
Proof.
  assert (Ha : Spec.isTitle "a") by (split; [discriminate|reflexivity]).
  split; [vm_compute; reflexivity|split; [|split; [|split]]].
  - exists "[[", "a", "]]". split; [exact Ha|reflexivity].
  - exists "", "a", "". split; [exact Ha|vm_compute; reflexivity].
  - vm_compute. reflexivity.
  - vm_compute. eexists. eexists. eexists. eexists. split; [reflexivity|].
    do 3 right. left. reflexivity.
Qed.

(** C10, as amended.  In [exportToPdf] the sections that are rendered come
    from [processContentForExport], which (after the stored images are put
    in) reads the text from the left and replaces every link token
    [[[Title]]] it meets by its title, keeping every other character, so
    that the brackets that delimit these tokens are gone before anything
    is drawn; when no title holds an opening bracket of its own, no link
    token is left in the text at all.  The Related Notes listing comes from
    [extractNoteLinks] on the original text, which reads the same tokens
    there: it lists their trimmed titles, each once, in order. *)
Theorem C10_links_stripped_before_rendering
        (env : Env) (title summary markdown : string) (font : Pdf.FontChoice) :
  let loaded := Pdf.loadImages env (matchAll Pdf.imageRegex markdown) markdown in
  (exists titles,
      Spec.Strips loaded (Pdf.processContentForExport env markdown) titles
      /\ ((forall t, In t titles -> Spec.noOpenBracket t = true) ->
          ~ Spec.holdsToken (Pdf.processContentForExport env markdown)))
  /\ (exists out titles,
         Spec.Strips markdown out titles
         /\ Links.extractNoteLinks markdown = Links.dedup [] (map Js.trim titles))
  /\ Pdf.exportToPdf env title summary markdown font
     = Pdf.renderDocument env title summary font
         (Pdf.parseMarkdown (Pdf.processContentForExport env markdown))
         (Links.extractNoteLinks markdown).
Proof.
  intro loaded. split; [|split].
  - destruct (@scan_links _ loaded (Nat.le_refl _) 0 None) as (titles & Hs & _).
    exists titles. split; [exact Hs|].
    intro Hts. exact (strips_holds_no_token Hs Hts).
  - destruct (@scan_links _ markdown (Nat.le_refl _) 0 None) as (titles & Hs & Hm).
    exists (replaceFrom Links.linkRegex (group 1) 0 0 None markdown), titles.
    split; [exact Hs|].
    unfold Links.extractNoteLinks, matchAll. rewrite <- Hm, map_map. reflexivity.
  - reflexivity.
Qed.

End LinkProofs.

(* ------------------------------------------------------------------ *)
(** * A note without headings *)

Module NoHeadingProofs.
Local Open Scope string_scope.

Definition noHeadingLine (markdown : string) : Prop :=
  forall l, In l (Js.split Js.LF markdown) -> Js.startsWith "# " l = false.

Section Flashcards.
Import Anki.
Variable env : Env.

Lemma firstPass_without_heading lines :
  (forall l, In l lines -> Js.startsWith "# " l = false) ->
  forall c, firstPass lines "" c = ("", c).
Proof.
  induction lines as [|l lines IH]; intros Hno c.
  - reflexivity.
  - cbn [firstPass]. rewrite (Hno l (or_introl eq_refl)). cbn [Js.truthy].
    apply IH. intros l' Hl'. apply Hno. now right.
Qed.

Lemma secondPass_without_heading lines :
  (forall l, In l lines -> Js.startsWith "# " l = false) ->
  forall c st, secondPass env lines "" c st = Some st.
Proof.
  induction lines as [|l lines IH]; intros Hno c st.
  - cbn [secondPass]. unfold pushSection. destruct st. reflexivity.
  - cbn [secondPass]. rewrite (Hno l (or_introl eq_refl)). cbn [Js.truthy].
    apply IH. intros l' Hl'. apply Hno. now right.
Qed.

(** Without a heading line the only card is that of the summary. *)
Lemma cards_without_heading title summary markdown :
  noHeadingLine markdown ->
  parseNotesToFlashcards env title summary markdown
  = if Js.truthy (Js.trim summary) then
      match cleanMarkdownForAnki env summary 0 with
      | Some (content, images, _) => Some [MkFlashCard (title ++ " - Summary") content images]
      | None => None
      end
    else Some [].
Proof.
  intro Hno. unfold parseNotesToFlashcards.
  rewrite (@firstPass_without_heading (Js.split Js.LF markdown) Hno).
  destruct (Js.truthy (Js.trim summary)).
  - destruct (cleanMarkdownForAnki env summary 0) as [[[content images] n]|]; [|reflexivity].
    now rewrite (@secondPass_without_heading (Js.split Js.LF markdown) Hno).
  - now rewrite (@secondPass_without_heading (Js.split Js.LF markdown) Hno).
Qed.

Lemma truthy_false_iff s : Js.truthy s = false <-> s = EmptyString.
Proof. destruct s; split; intro H; try reflexivity; discriminate. Qed.

End Flashcards.

Section Document.
Import Pdf.
Variable env : Env.

Lemma length_dropWhile {A} (p : A -> bool) (l : list A) :
  List.length (Js.dropWhile p l) <= List.length l.
Proof.
  induction l as [|x l IH]; [apply Nat.le_refl|].
  cbn [Js.dropWhile]. destruct (p x); cbn [List.length]; lia.
Qed.

Lemma length_dropWhile_head {A} (p : A -> bool) (x : A) (l : list A) :
  p x = true -> List.length (Js.dropWhile p (x :: l)) <= List.length l.
Proof. intro Hx. cbn [Js.dropWhile]. rewrite Hx. apply length_dropWhile. Qed.

Lemma length_tl_dropWhile {A} (p : A -> bool) (l : list A) :
  List.length (tl (Js.dropWhile p l)) <= List.length l.
Proof.
  pose proof (length_dropWhile p l) as H.
  destruct (Js.dropWhile p l); cbn [tl List.length] in *; lia.
Qed.

(** The loop of [renderMarkdownContent] ends: every turn takes at least one
    line, so the number of lines is fuel enough. *)
Lemma renderLines_total (fuel : nat) :
  forall si fs lines x maxWidth ph m k doc y,
    List.length lines <= fuel ->
    exists r, renderLines env fuel si fs lines x maxWidth ph m k doc y = Some r.
Proof.
  induction fuel as [|fuel IH]; intros si fs lines x maxWidth ph m k doc y Hlen.
  - destruct lines; [eexists; reflexivity|cbn [List.length] in Hlen; lia].
  - destruct lines as [|l after]; [eexists; reflexivity|].
    cbn [List.length] in Hlen. cbn [renderLines].
    destruct (breakWithDivider si fs ph m k doc y) as [d1 y1].
    repeat match goal with
           | |- exists r, (if ?c then _ else _) = Some r => destruct c eqn:?
           end;
      apply IH;
      first [ lia
            | apply Nat.le_trans with (List.length after);
              [ first [ apply length_dropWhile_head; assumption
                      | apply length_tl_dropWhile ]
              | lia ] ].
Qed.

Lemma renderMarkdownContent_total doc content x y maxWidth ph m k si fs :
  exists r, renderMarkdownContent env doc content x y maxWidth ph m k si fs = Some r.
Proof. unfold renderMarkdownContent. apply renderLines_total. apply Nat.le_refl. Qed.

Lemma renderSections_total fs sections :
  forall index total st, exists st', renderSections env fs sections index total st = Some st'.
Proof.
  induction sections as [|section rest IH]; intros index total st.
  - eexists. reflexivity.
  - cbn [renderSections].
    destruct (negb (Js.truthy (Js.trim (content section)))); [apply IH|].
    match goal with
    | |- context [if ?c then _ else _] => destruct c
    end;
      match goal with
      | |- context [renderMarkdownContent env ?d ?c ?x ?y ?w ?ph ?m ?k ?si ?fs] =>
          destruct (renderMarkdownContent_total d c x y w ph m k si fs) as [[d1 y1] Hr];
          rewrite Hr
      end;
      match goal with
      | |- context [addImagesToPdf env ?d ?c ?x ?y ?w ?ph ?m ?k ?si ?fs] =>
          destruct (addImagesToPdf env d c x y w ph m k si fs) as [d2 y2]
      end;
      apply IH.
Qed.

(** [exportToPdf] has no check on the number of sections: whatever the
    body, it ends with a download. *)
Lemma pdf_always_downloads title summary markdown font :
  exists doc,
    exportToPdf env title summary markdown font = Some (Downloaded (pdfFilename title) doc).
Proof.
  unfold exportToPdf, renderDocument.
  match goal with
  | |- context [let '(_, _) := ?e in _] => destruct e as [d0 y0]
  end.
  match goal with
  | |- context [renderSections env ?fs ?ss ?i ?t ?st] =>
      destruct (renderSections_total fs ss i t st) as [st' Hst]; rewrite Hst
  end.
  eexists. reflexivity.
Qed.

End Document.

(** A body without a heading, with and without a summary: [exportToPdf]
    does not throw, it downloads a PDF; and [exportToAnki] with a summary
    does not throw either, it downloads an archive. *)
Lemma C2_downloads_without_headings :
  Pdf.parseMarkdown "hello" = []
  /\ (exists doc, Pdf.exportToPdf Demo.env "T" "" "hello" Pdf.Sans
                  = Some (Downloaded "t.pdf" doc))
  /\ (forall message, Pdf.exportToPdf Demo.env "T" "" "hello" Pdf.Sans
                      <> Some (Threw message))
  /\ (exists zip, Anki.exportToAnki Demo.env "T" "a summary" "hello"
                  = Some (Downloaded "t-anki-flashcards.zip" zip))
  /\ (forall message, Anki.exportToAnki Demo.env "T" "a summary" "hello"
                      <> Some (Threw message)).
Proof.
  split; [|split; [|split; [|split]]].
  - vm_compute. reflexivity.
  - vm_compute. eexists. reflexivity.
  - intros message H. vm_compute in H. discriminate.
  - vm_compute. eexists. reflexivity.
  - intros message H. vm_compute in H. discriminate.
Qed.

End NoHeadingProofs.

(* ------------------------------------------------------------------ *)
(** * The cursor after a block *)

Module CursorProofs.
Import Pdf.
Local Open Scope Q_scope.

Lemma ofNat_nonneg n : 0 <= Num.ofNat n.
Proof.
  unfold Num.ofNat. change 0 with (inject_Z 0). rewrite <- Zle_Qle. apply Nat2Z.is_nonneg.
Qed.

(** ** Sums of doubles *)

(** A number that is a double: rounding keeps it. *)
Definition isDouble (q : Q) : Prop := Num.round q == q.

Lemma double_add a b : isDouble (Num.add a b).
Proof. unfold isDouble, Num.add. now rewrite NumFacts.round_idem. Qed.

Lemma double_sub a b : isDouble (Num.sub a b).
Proof. unfold isDouble, Num.sub. now rewrite NumFacts.round_idem. Qed.

Lemma add_le_l a b c : a <= b -> Num.add a c <= Num.add b c.
Proof. intro H. apply NumFacts.round_mono. lra. Qed.

Lemma add_le_r a b c : b <= c -> Num.add a b <= Num.add a c.
Proof. intro H. apply NumFacts.round_mono. lra. Qed.

(** Adding something that is not negative does not move a double down. *)
Lemma add_ge a c : isDouble a -> 0 <= c -> a <= Num.add a c.
Proof.
  intros Ha Hc. unfold isDouble in Ha. apply Qle_trans with (Num.round a).
  - rewrite Ha. apply Qle_refl.
  - apply NumFacts.round_mono. lra.
Qed.

Lemma add_lower m y c : isDouble m -> m <= y -> 0 <= c -> m <= Num.add y c.
Proof.
  intros Hm Hy Hc. unfold isDouble in Hm. apply Qle_trans with (Num.round m).
  - rewrite Hm. apply Qle_refl.
  - apply NumFacts.round_mono. lra.
Qed.

Lemma add_nonneg a b : 0 <= a -> 0 <= b -> 0 <= Num.add a b.
Proof. intros Ha Hb. apply NumFacts.round_nonneg. lra. Qed.

Lemma mul_nonneg a b : 0 <= a -> 0 <= b -> 0 <= Num.mul a b.
Proof. intros Ha Hb. apply NumFacts.round_nonneg. now apply Qmult_le_0_compat. Qed.

Section Page.
Variable env : Env.
Variables pageHeight margin : Q.

(** The bottom limit, as the code computes it. *)
Local Abbreviation limit := (Num.sub pageHeight margin).

(** The margin is a double, and the printable height holds what is placed
    in one piece: the header of a table with one row under it, and an
    image at its maximal height with its margin (the sums as the code
    computes them). *)
Hypothesis marginDouble : isDouble margin.
Hypothesis roomTable : Num.add (Num.add margin 8) 8 <= limit.
Hypothesis roomImage : Num.add (Num.add margin 80) 4 <= limit.

Lemma room8 : Num.add margin 8 <= limit.
Proof.
  eapply Qle_trans; [|exact roomTable]. apply add_ge; [apply double_add|discriminate].
Qed.

Lemma room6 : Num.add margin 6 <= limit.
Proof. eapply Qle_trans; [|exact room8]. apply add_le_r. discriminate. Qed.

Lemma room0 : margin <= limit.
Proof. eapply Qle_trans; [|exact room8]. apply add_ge; [exact marginDouble|discriminate]. Qed.

Lemma limit_add c : 0 <= c -> limit <= Num.add limit c.
Proof. intro Hc. apply add_ge; [apply double_sub|exact Hc]. Qed.

(** A cursor moved down by [c]: from a cursor on the page it stays above
    the margin, and it is on the page when the test before it passed or
    when it restarts from the margin with room for [c]. *)
Lemma step_lower y c : margin <= y -> 0 <= c -> margin <= Num.add y c.
Proof. intros Hy Hc. now apply add_lower. Qed.

Lemma snd_drawHeader fs sep cols x y cw tw d :
  snd (drawHeader fs sep cols x y cw tw d) = Num.add y rowHeight.
Proof. reflexivity. Qed.

Lemma drawRows_cursor fs sep cols x cw tw rows :
  forall d y,
    margin <= y <= limit ->
    margin <= snd (drawRows env fs sep cols rows x cw tw pageHeight margin d y) <= limit.
Proof.
  induction rows as [|row rest IH]; intros d y Hy.
  - exact Hy.
  - cbn [drawRows].
    destruct (Num.gtb (Num.add y rowHeight) limit) eqn:Hb.
    + pose proof (snd_drawHeader fs sep cols x margin cw tw (addPage d)) as Hh.
      destruct (drawHeader fs sep cols x margin cw tw (addPage d)) as [d1 y1].
      cbn [snd] in Hh. subst y1.
      apply IH. unfold rowHeight. split; [|exact roomTable].
      apply step_lower; [|discriminate]. apply step_lower; [apply Qle_refl|discriminate].
    + apply ImageProofs.gtb_false in Hb.
      apply IH. split; [|exact Hb]. apply step_lower; [tauto|discriminate].
Qed.

(** A table: the cursor stays on the page up to the gap of 4 that follows
    the last row. *)
Lemma renderTable_cursor d tableText x y maxWidth fs :
  margin <= y <= limit ->
  margin <= snd (renderTable env d tableText x y maxWidth pageHeight margin fs)
  <= Num.add limit 4.
Proof.
  intro Hy. unfold renderTable.
  assert (Hsame : margin <= y <= Num.add limit 4).
  { split; [tauto|]. eapply Qle_trans; [apply Hy|]. apply limit_add. discriminate. }
  destruct (filter isTableRow tableText) as [|headerRow [|separatorRow contentRows]];
    try exact Hsame.
  set (cols := map Js.trim (rawCells headerRow)).
  set (tw := Num.sub maxWidth 10).
  set (cw := Num.div tw (Num.ofNat (List.length cols))).
  destruct (Num.gtb (Num.add y (Num.mul rowHeight 2)) limit) eqn:Hb.
  - pose proof (snd_drawHeader fs separatorRow cols x margin cw tw (addPage d)) as Hh.
    destruct (drawHeader fs separatorRow cols x margin cw tw (addPage d)) as [d1 y1].
    cbn [snd] in Hh. subst y1.
    assert (Hin : margin <= Num.add margin rowHeight <= limit).
    { split; [apply step_lower; [apply Qle_refl|discriminate]|exact room8]. }
    pose proof (@drawRows_cursor fs separatorRow cols x cw tw contentRows d1 _ Hin) as Hr.
    destruct (drawRows env fs separatorRow cols contentRows x cw tw pageHeight margin d1
                       (Num.add margin rowHeight)) as [d2 y2].
    cbn [snd] in *. split; [apply step_lower; [tauto|discriminate]|apply add_le_l; tauto].
  - apply ImageProofs.gtb_false in Hb.
    pose proof (snd_drawHeader fs separatorRow cols x y cw tw d) as Hh.
    destruct (drawHeader fs separatorRow cols x y cw tw d) as [d1 y1].
    cbn [snd] in Hh. subst y1.
    assert (Hin : margin <= Num.add y rowHeight <= limit).
    { split; [apply step_lower; [tauto|discriminate]|].
      eapply Qle_trans; [|exact Hb]. apply add_le_r. vm_compute. discriminate. }
    pose proof (@drawRows_cursor fs separatorRow cols x cw tw contentRows d1 _ Hin) as Hr.
    destruct (drawRows env fs separatorRow cols contentRows x cw tw pageHeight margin d1
                       (Num.add y rowHeight)) as [d2 y2].
    cbn [snd] in *. split; [apply step_lower; [tauto|discriminate]|apply add_le_l; tauto].
Qed.

(** One line of running text: the test, the page break, the line. *)
Lemma line_step y :
  margin <= y <= limit ->
  margin <= Num.add (if Num.gtb (Num.add y lineHeight) limit then margin else y) lineHeight
  <= limit.
Proof.
  intro Hy. destruct (Num.gtb (Num.add y lineHeight) limit) eqn:Hb.
  - split; [apply step_lower; [apply Qle_refl|discriminate]|exact room6].
  - apply ImageProofs.gtb_false in Hb.
    split; [apply step_lower; [tauto|discriminate]|exact Hb].
Qed.

(** The lines of a code block. *)
Lemma drawCodeLines_cursor codeLines x maxWidth :
  forall d y,
    margin <= y <= limit ->
    margin <= snd (drawCodeLines codeLines x maxWidth pageHeight margin d y) <= limit.
Proof.
  induction codeLines as [|l rest IH]; intros d y Hy.
  - exact Hy.
  - cbn [drawCodeLines]. pose proof (line_step Hy) as Hs.
    destruct (Num.gtb (Num.add y lineHeight) limit); apply IH; exact Hs.
Qed.

Lemma renderCodeBlock_cursor d codeLines x y maxWidth fs :
  margin <= y <= limit ->
  margin <= snd (renderCodeBlock d codeLines x y maxWidth pageHeight margin fs)
  <= Num.add limit 2.
Proof.
  intro Hy. unfold renderCodeBlock.
  assert (Hm : margin <= margin <= limit) by (split; [apply Qle_refl|exact room0]).
  match goal with
  | |- context [if ?c then _ else _] => destruct c
  end;
    match goal with
    | |- context [drawCodeLines ?ls ?x ?w ?ph ?m ?d0 ?y0] =>
        pose proof (@drawCodeLines_cursor ls x w d0 y0) as Hr;
        destruct (drawCodeLines ls x w ph m d0 y0) as [d2 y2]
    end;
    cbn [snd] in *;
    (assert (Hin : margin <= y2 <= limit) by (apply Hr; assumption));
    (split; [apply step_lower; [tauto|discriminate]|apply add_le_l; tauto]).
Qed.

(** The lines of a list item, and the items of a list. *)
Lemma snd_breakIfFull name d y :
  snd (breakIfFull name pageHeight margin d y)
  = if Num.gtb (Num.add y lineHeight) limit then margin else y.
Proof. unfold breakIfFull. now destruct (Num.gtb _ _). Qed.

Lemma breakIfFull_cursor name d y :
  margin <= y <= limit ->
  margin <= snd (breakIfFull name pageHeight margin d y) <= limit.
Proof.
  intro Hy. rewrite snd_breakIfFull. destruct (Num.gtb _ _); [|exact Hy].
  split; [apply Qle_refl|exact room0].
Qed.

Lemma drawItemLines_cursor fs textLines textX :
  forall d y,
    margin <= y <= limit ->
    margin <= snd (drawItemLines fs textLines textX pageHeight margin d y) <= limit.
Proof.
  induction textLines as [|l rest IH]; intros d y Hy.
  - exact Hy.
  - cbn [drawItemLines].
    pose proof (snd_breakIfFull (bodyFont fs) d y) as Hb. pose proof (line_step Hy) as Hs.
    destruct (breakIfFull (bodyFont fs) pageHeight margin d y) as [d1 y1].
    cbn [snd] in Hb. subst y1. apply IH. exact Hs.
Qed.

Lemma drawItems_cursor fs listItems x maxWidth isNumbered :
  forall index d y,
    margin <= y <= limit ->
    margin <= snd (drawItems env fs listItems index x maxWidth isNumbered pageHeight margin d y)
    <= limit.
Proof.
  induction listItems as [|item rest IH]; intros index d y Hy.
  - exact Hy.
  - cbn [drawItems].
    pose proof (@breakIfFull_cursor (bodyFont fs) d y Hy) as Hb.
    destruct (breakIfFull (bodyFont fs) pageHeight margin d y) as [d1 y1].
    cbn [snd] in Hb.
    match goal with
    | |- context [drawItemLines ?fs0 ?ls ?tx ?ph ?m ?d0 ?y0] =>
        pose proof (@drawItemLines_cursor fs0 ls tx d0 y0 Hb) as Hr;
        destruct (drawItemLines fs0 ls tx ph m d0 y0) as [d2 y2]
    end.
    cbn [snd] in Hr. apply IH. exact Hr.
Qed.

Lemma renderList_cursor d listItems x y maxWidth isNumbered fs :
  margin <= y <= limit ->
  margin <= snd (renderList env d listItems x y maxWidth isNumbered pageHeight margin fs)
  <= Num.add limit 2.
Proof.
  intro Hy. unfold renderList.
  match goal with
  | |- context [drawItems env ?fs0 ?ls ?i ?x0 ?w ?b ?ph ?m ?d0 ?y0] =>
      pose proof (@drawItems_cursor fs0 ls x0 w b i d0 y0 Hy) as Hr;
      destruct (drawItems env fs0 ls i x0 w b ph m d0 y0) as [d2 y2]
  end.
  cbn [snd] in *. split; [apply step_lower; [tauto|discriminate]|apply add_le_l; tauto].
Qed.

(** The lines of a blockquote. *)
Lemma drawQuoteText_cursor fs textLines x :
  forall d y startY,
    margin <= y <= limit ->
    margin <= snd (fst (drawQuoteText fs textLines x pageHeight margin d y startY)) <= limit.
Proof.
  induction textLines as [|l rest IH]; intros d y startY Hy.
  - exact Hy.
  - cbn [drawQuoteText]. pose proof (line_step Hy) as Hs.
    destruct (Num.gtb (Num.add y lineHeight) limit); apply IH; exact Hs.
Qed.

Lemma drawQuoteLines_cursor fs quoteLines x maxWidth :
  forall d y startY,
    margin <= y <= limit ->
    margin <= snd (fst (drawQuoteLines env fs quoteLines x maxWidth pageHeight margin d y startY))
    <= limit.
Proof.
  induction quoteLines as [|l rest IH]; intros d y startY Hy.
  - exact Hy.
  - cbn [drawQuoteLines].
    match goal with
    | |- context [drawQuoteText ?fs0 ?ls ?x0 ?ph ?m ?d0 ?y0 ?s0] =>
        pose proof (@drawQuoteText_cursor fs0 ls x0 d0 y0 s0 Hy) as Hr;
        destruct (drawQuoteText fs0 ls x0 ph m d0 y0 s0) as [[d2 y2] s2]
    end.
    cbn [fst snd] in Hr. apply IH. exact Hr.
Qed.

Lemma renderBlockquote_cursor d quoteLines x y maxWidth fs :
  margin <= y <= limit ->
  margin <= snd (renderBlockquote env d quoteLines x y maxWidth pageHeight margin fs)
  <= Num.add limit 2.
Proof.
  intro Hy. unfold renderBlockquote.
  assert (Hm : margin <= margin <= limit) by (split; [apply Qle_refl|exact room0]).
  match goal with
  | |- context [if ?c then _ else _] => destruct c
  end;
    match goal with
    | |- context [drawQuoteLines env ?fs0 ?ls ?x0 ?w ?ph ?m ?d0 ?y0 ?s0] =>
        pose proof (@drawQuoteLines_cursor fs0 ls x0 w d0 y0 s0) as Hr;
        destruct (drawQuoteLines env fs0 ls x0 w ph m d0 y0 s0) as [[d2 y2] s2]
    end;
    cbn [fst snd] in *;
    (assert (Hin : margin <= y2 <= limit) by (apply Hr; assumption));
    (split; [apply step_lower; [tauto|discriminate]|apply add_le_l; tauto]).
Qed.

(** The page break of the content column. *)
Lemma snd_breakWithDividerFor h si fs k d y :
  snd (breakWithDividerFor h si fs pageHeight margin k d y)
  = if Num.gtb (Num.add y h) limit then margin else y.
Proof. unfold breakWithDividerFor. now destruct (Num.gtb _ _). Qed.


(** The lines of a paragraph. *)
Lemma drawParagraphLines_cursor si fs textLines x k :
  forall d y,
    margin <= y <= limit ->
    margin <= snd (drawParagraphLines si fs textLines x pageHeight margin k d y) <= limit.
Proof.
  induction textLines as [|l rest IH]; intros d y Hy.
  - exact Hy.
  - cbn [drawParagraphLines]. unfold breakWithDivider.
    pose proof (snd_breakWithDividerFor lineHeight si fs k d y) as Hb.
    pose proof (line_step Hy) as Hs.
    destruct (breakWithDividerFor lineHeight si fs pageHeight margin k d y) as [d1 y1].
    cbn [snd] in Hb. subst y1. apply IH. exact Hs.
Qed.

(** The gap after a paragraph, [lineHeight * 0.1] in doubles:
    0.6000000000000001. *)
Definition paragraphGap : Q := Num.mul lineHeight (Num.lit (1 # 10)).

Lemma renderParagraph_cursor si fs l x maxWidth k d y :
  margin <= y <= limit ->
  margin <= snd (renderParagraph env si fs l x maxWidth pageHeight margin k d y)
  <= Num.add limit paragraphGap.
Proof.
  intro Hy. unfold renderParagraph.
  match goal with
  | |- context [drawParagraphLines ?si0 ?fs0 ?ls ?x0 ?ph ?m ?k0 ?d0 ?y0] =>
      pose proof (@drawParagraphLines_cursor si0 fs0 ls x0 k0 d0 y0 Hy) as Hr;
      destruct (drawParagraphLines si0 fs0 ls x0 ph m k0 d0 y0) as [d2 y2]
  end.
  cbn [snd] in *. fold paragraphGap.
  split; [apply step_lower; [tauto|vm_compute; discriminate]|apply add_le_l; tauto].
Qed.

(** The wrapped lines of a heading and the height the code gives them. *)
Definition headingLines (fs : FontSettings) (line : string) (maxWidth : Q) (doc : Doc)
  : list string :=
  let level : Z :=
    match Js.indexOf " " (Js.trim line) with
    | Some k => Z.of_nat k
    | None => (-1)%Z
    end in
  let headingText := Js.substringFrom (Z.to_nat (level + 1)) (Js.trim line) in
  let headingSize :=
    Num.max (Num.sub (titleFontSize fs) (Num.mul (Num.sub (Num.ofZ level) 2) 2))
            (bodyFontSize fs) in
  let doc := setFontSize headingSize doc in
  let doc := setFont (titleFont fs) "bold" doc in
  splitTextToSize env (font doc) (cleanMarkdown headingText) maxWidth.

Definition headingHeight (fs : FontSettings) (line : string) (maxWidth : Q) (doc : Doc) : Q :=
  Num.add (Num.mul (Num.ofNat (List.length (headingLines fs line maxWidth doc))) lineHeight) 2.

(** A heading is drawn in one piece: its cursor stays on the page when its
    wrapped lines fit on one. *)
Lemma renderHeading_cursor fs l x maxWidth d y :
  Num.add margin (headingHeight fs l maxWidth d) <= limit ->
  margin <= y <= limit ->
  margin <= snd (renderHeading env fs l x maxWidth pageHeight margin d y) <= limit.
Proof.
  intros Hfit Hy. unfold renderHeading. cbv zeta.
  change (splitTextToSize env _ _ maxWidth) with (headingLines fs l maxWidth d).
  fold (headingHeight fs l maxWidth d).
  assert (Hh : 0 <= headingHeight fs l maxWidth d).
  { unfold headingHeight. apply add_nonneg; [|discriminate].
    apply mul_nonneg; [apply ofNat_nonneg|discriminate]. }
  destruct (Num.gtb (Num.add y (headingHeight fs l maxWidth d)) limit) eqn:Hb; cbn [snd].
  - split; [apply step_lower; [apply Qle_refl|exact Hh]|exact Hfit].
  - apply ImageProofs.gtb_false in Hb.
    split; [apply step_lower; [tauto|exact Hh]|exact Hb].
Qed.


(** ** The loop of [renderMarkdownContent] *)

(** What a block renderer returns is a double when the cursor it was
    given is one: it is that cursor, the margin, or a sum. *)
Ltac double_cursor :=
  repeat match goal with
         | |- context [match ?x with _ => _ end] => destruct x
         end;
  cbn [fst snd]; first [assumption | apply double_add].

Lemma renderTable_double d tableText x y maxWidth fs :
  isDouble y ->
  isDouble (snd (renderTable env d tableText x y maxWidth pageHeight margin fs)).
Proof. intro Hy. unfold renderTable. double_cursor. Qed.

Lemma renderCodeBlock_double d codeLines x y maxWidth fs :
  isDouble (snd (renderCodeBlock d codeLines x y maxWidth pageHeight margin fs)).
Proof. unfold renderCodeBlock. double_cursor. Qed.

Lemma renderList_double d listItems x y maxWidth isNumbered fs :
  isDouble (snd (renderList env d listItems x y maxWidth isNumbered pageHeight margin fs)).
Proof. unfold renderList. double_cursor. Qed.

Lemma renderBlockquote_double d quoteLines x y maxWidth fs :
  isDouble (snd (renderBlockquote env d quoteLines x y maxWidth pageHeight margin fs)).
Proof. unfold renderBlockquote. double_cursor. Qed.

Lemma renderParagraph_double si fs l x maxWidth k d y :
  isDouble (snd (renderParagraph env si fs l x maxWidth pageHeight margin k d y)).
Proof. unfold renderParagraph. double_cursor. Qed.

Lemma renderHeading_double fs l x maxWidth d y :
  isDouble (snd (renderHeading env fs l x maxWidth pageHeight margin d y)).
Proof. unfold renderHeading. double_cursor. Qed.

Lemma In_dropWhile {A} (p : A -> bool) (x : A) (l : list A) :
  In x (Js.dropWhile p l) -> In x l.
Proof.
  induction l as [|a l IH]; [easy|]. cbn [Js.dropWhile].
  destruct (p a); [intro H; right; now apply IH|easy].
Qed.

Lemma In_tl {A} (x : A) (l : list A) : In x (tl l) -> In x l.
Proof. destruct l; [easy|]. intro H. now right. Qed.

(** The loop hands every block a cursor on the page: the test at the top
    of the loop comes first.  So the cursor it returns is at most the
    largest gap, 4, below the bottom limit, when every heading of the
    content fits on a page. *)
Lemma renderLines_cursor (fuel : nat) si fs x maxWidth k :
  forall lines d y r,
    (forall l d', In l lines ->
                  Num.add margin (headingHeight fs l maxWidth d') <= limit) ->
    isDouble y ->
    margin <= y <= Num.add limit 4 ->
    renderLines env fuel si fs lines x maxWidth pageHeight margin k d y = Some r ->
    isDouble (snd r) /\ margin <= snd r <= Num.add limit 4.
Proof.
  induction fuel as [|fuel IH]; intros lines d y r Hfit Hd Hy Hr.
  - destruct lines; [|discriminate]. cbn in Hr. injection Hr as <-. now split.
  - destruct lines as [|l after]; [cbn in Hr; injection Hr as <-; now split|].
    cbn [renderLines] in Hr. unfold breakWithDivider in Hr.
    pose proof (snd_breakWithDividerFor lineHeight si fs k d y) as Hb.
    destruct (breakWithDividerFor lineHeight si fs pageHeight margin k d y) as [d1 y1].
    cbn [snd] in Hb.
    assert (Hd1 : isDouble y1).
    { subst y1. destruct (Num.gtb _ _); assumption. }
    assert (Hin : margin <= y1 <= limit).
    { subst y1. destruct (Num.gtb (Num.add y lineHeight) limit) eqn:Hg.
      - split; [apply Qle_refl|exact room0].
      - apply ImageProofs.gtb_false in Hg. split; [tauto|].
        eapply Qle_trans; [|exact Hg]. apply add_ge; [exact Hd|discriminate]. }
    assert (Hwide : forall g z, g <= 4 -> margin <= z <= Num.add limit g ->
                                margin <= z <= Num.add limit 4).
    { intros g z Hg [Hz1 Hz2]. split; [exact Hz1|].
      eapply Qle_trans; [exact Hz2|]. now apply add_le_r. }
    assert (Hafter : forall l' d', In l' after ->
                                   Num.add margin (headingHeight fs l' maxWidth d') <= limit).
    { intros l' d' Hl. apply Hfit. now right. }
    assert (Hdrop : forall p l' d', In l' (Js.dropWhile p (l :: after)) ->
                                    Num.add margin (headingHeight fs l' maxWidth d') <= limit).
    { intros p l' d' Hl. apply Hfit. eapply In_dropWhile. exact Hl. }
    repeat match type of Hr with
           | (if ?c then _ else _) = Some _ => destruct c
           end;
      (eapply IH; [| | |exact Hr]); cbn [fst snd].
    all: try solve [ exact Hafter
                   | apply Hdrop
                   | intros l' d' Hl; apply Hafter; eapply In_dropWhile; apply In_tl; exact Hl ].
    all: try solve [ exact Hd1
                   | apply double_add
                   | now apply renderTable_double
                   | apply renderCodeBlock_double
                   | apply renderBlockquote_double
                   | apply renderList_double
                   | apply renderHeading_double
                   | apply renderParagraph_double ].
    all: try solve [ apply (@Hwide 4); [apply Qle_refl|]; now apply renderTable_cursor
                   | apply (@Hwide 2); [discriminate|];
                     first [ now apply renderCodeBlock_cursor
                           | now apply renderBlockquote_cursor
                           | now apply renderList_cursor ]
                   | apply (@Hwide paragraphGap); [vm_compute; discriminate|];
                     now apply renderParagraph_cursor
                   | split; [tauto|]; eapply Qle_trans; [apply Hin|];
                     apply limit_add; discriminate ].
    + (* an empty line *)
      split; [apply step_lower; [tauto|vm_compute; discriminate]|].
      eapply Qle_trans;
        [|apply (@add_le_r limit (Num.div lineHeight 3) 4); vm_compute; discriminate].
      apply add_le_l. tauto.
    + (* a heading *)
      assert (Hh : margin <= snd (renderHeading env fs l x maxWidth pageHeight margin d1 y1)
                   <= limit).
      { apply renderHeading_cursor; [apply Hfit; now left|exact Hin]. }
      split; [tauto|]. eapply Qle_trans; [apply Hh|]. apply limit_add. discriminate.
Qed.

Lemma renderMarkdownContent_cursor d content x y maxWidth k si fs r :
  (forall l d', In l (Js.split Js.LF content) ->
                Num.add margin (headingHeight fs l maxWidth d') <= limit) ->
  isDouble y ->
  margin <= y <= Num.add limit 4 ->
  renderMarkdownContent env d content x y maxWidth pageHeight margin k si fs = Some r ->
  isDouble (snd r) /\ margin <= snd r <= Num.add limit 4.
Proof.
  intros Hfit Hd Hy Hr. unfold renderMarkdownContent in Hr.
  eapply renderLines_cursor; [exact Hfit|exact Hd|exact Hy|exact Hr].
Qed.

End Page.






End CursorProofs.

(* ------------------------------------------------------------------ *)
(** * The scenarios of the specification, run on the model *)

Module Scenarios.
Import Pdf.
Local Open Scope Q_scope.

(** A body with the same link twice lists it once. *)
Example related_notes_once :
  Links.extractNoteLinks "see [[Other Note]] and again [[Other Note]]" = ["Other Note"%string].
Proof. vm_compute. reflexivity. Qed.

(** A code block of two lines: a background of 2 * 6 + 6 and the two
    lines, the cursor 14 further down. *)
Example code_block_two_lines :
  renderCodeBlock newDoc ["line1"; "line2"]%string 65 48 115 297 15 (getFontSettings Sans)
  = (MkDoc 1 1 (MkFont "courier" "normal" 10)
           [OpRect 1 65 48 115 18;
            OpText 1 ["line1"%string] (65 + 3) (48 + 5 + 2) (MkFont "courier" "normal" 10) "left";
            OpText 1 ["line2"%string] (65 + 3) (48 + 6 + 5 + 2) (MkFont "courier" "normal" 10) "left"],
     48 + 6 + 6 + 2).
Proof. vm_compute. reflexivity. Qed.

(** The sections of the two-section note. *)
Example two_sections_parsed :
  parseMarkdown FlashcardProofs.twoSections
  = [MkSection "A" (Js.join Js.nl ["Hello"; ""]%string);
     MkSection "B" (Js.join Js.nl ["- one"; "- two"]%string)].
Proof. vm_compute. reflexivity. Qed.

End Scenarios.

Module StrFacts.
Import Js.
Local Open Scope string_scope.

(** Every character of a string satisfies [P]. *)
Fixpoint allChars (P : ascii -> bool) (s : string) : bool :=
  match s with
  | EmptyString => true
  | String c r => P c && allChars P r
  end.

Lemma allChars_app P a b : allChars P (a ++ b) = allChars P a && allChars P b.
Proof. induction a as [|c a IH]; simpl; [reflexivity|]. now rewrite IH, andb_assoc. Qed.

Lemma allChars_rev_onto P s : forall acc, allChars P (rev_onto s acc) = allChars P s && allChars P acc.
Proof.
  induction s as [|c s IH]; intro acc; simpl; [reflexivity|].
  rewrite IH. simpl. rewrite !andb_assoc. f_equal. apply andb_comm.
Qed.

Lemma allChars_rev P s : allChars P (rev s) = allChars P s.
Proof. unfold rev. rewrite allChars_rev_onto. simpl. apply andb_true_r. Qed.

Lemma allChars_trimStart P s : allChars P s = true -> allChars P (trimStart s) = true.
Proof.
  induction s as [|c s IH]; simpl; [trivial|]. intro H.
  destruct (isWhite c); [|exact H]. apply andb_true_iff in H. now apply IH.
Qed.

Lemma allChars_trim P s : allChars P s = true -> allChars P (trim s) = true.
Proof.
  intro H. unfold trim, trimEnd. rewrite allChars_rev. apply allChars_trimStart.
  rewrite allChars_rev. now apply allChars_trimStart.
Qed.

Lemma allChars_impl (P Q : ascii -> bool) s :
  (forall c, P c = true -> Q c = true) -> allChars P s = true -> allChars Q s = true.
Proof.
  intro H. induction s as [|c s IH]; simpl; [trivial|]. intro Hs.
  apply andb_true_iff in Hs. destruct Hs as [Hc Hs]. now rewrite (H c Hc), IH.
Qed.

Lemma append_nil_r s : s ++ "" = s.
Proof. induction s as [|c s IH]; simpl; [reflexivity|now rewrite IH]. Qed.

Lemma rev_app a b : rev (a ++ b) = rev b ++ rev a.
Proof.
  induction a as [|c a IH]; simpl.
  - change (rev "") with "". now rewrite append_nil_r.
  - rewrite !JsFacts.rev_cons, IH. now rewrite <- ReFacts.append_assoc.
Qed.

Lemma rev_involutive s : rev (rev s) = s.
Proof.
  induction s as [|c s IH]; [reflexivity|].
  rewrite JsFacts.rev_cons, rev_app, IH. reflexivity.
Qed.

Lemma trimStart_idem s : trimStart (trimStart s) = trimStart s.
Proof.
  induction s as [|c s IH]; simpl; [reflexivity|].
  destruct (isWhite c) eqn:Hc; [exact IH|]. simpl. now rewrite Hc.
Qed.

(** A string that does not start with whitespace still does not once
    whitespace is removed from its end. *)
Lemma trimStart_fix_iff s :
  trimStart s = s <-> match s with String c _ => isWhite c = false | EmptyString => True end.
Proof.
  destruct s as [|c s]; simpl; [tauto|].
  destruct (isWhite c) eqn:Hc; split; intro H; try reflexivity; try discriminate.
  exfalso.
  assert (Hlen : forall t, String.length (trimStart t) <= String.length t).
  { induction t as [|d t IHt]; simpl; [lia|]. destruct (isWhite d); simpl; lia. }
  pose proof (Hlen s) as Hl. rewrite H in Hl. simpl in Hl. lia.
Qed.

End StrFacts.

Module RegexFacts.
Import Re StrFacts.
Local Open Scope string_scope.

(** [t] is what is left of [s] at some later position. *)
Definition Suffix (t s : string) : Prop := exists pre, s = pre ++ t.

Lemma Suffix_refl s : Suffix s s.
Proof. now exists "". Qed.

Lemma Suffix_trans a b c : Suffix a b -> Suffix b c -> Suffix a c.
Proof.
  intros [p ->] [q ->]. exists (q ++ p). now rewrite <- ReFacts.append_assoc.
Qed.

Lemma Suffix_tail c s : Suffix s (String c s).
Proof. now exists (String c ""). Qed.

Lemma Suffix_length t s : Suffix t s -> String.length t <= String.length s.
Proof. intros [p ->]. rewrite ReFacts.length_append. lia. Qed.

Lemma allChars_suffix P t s : Suffix t s -> allChars P s = true -> allChars P t = true.
Proof.
  intros [p ->] H. rewrite allChars_app in H. now apply andb_true_iff in H.
Qed.

(** The matcher answers only through its continuation, and calls it at a
    position that is not before the one it started from. *)
Lemma rmatch_through r :
  forall st k x,
    rmatch r st k = Some x ->
    exists st', Suffix (rest st') (rest st) /\ k st' = Some x.
Proof.
  induction r as [|p|a IHa b IHb|a IHa b IHb|g a IHa|i a IHa|m|m]; intros st k x H;
    cbn [rmatch] in H.
  - exists st. split; [apply Suffix_refl|exact H].
  - destruct (rest st) as [|c s'] eqn:Hr; [discriminate|].
    destruct (p c); [|discriminate].
    eexists. split; [|exact H]. cbn [rest]. apply Suffix_tail.
  - apply IHa in H. destruct H as (st1 & Hs1 & H).
    apply IHb in H. destruct H as (st2 & Hs2 & H).
    exists st2. split; [eapply Suffix_trans; eassumption|exact H].
  - destruct (rmatch a st k) eqn:Ha.
    + injection H as <-. now apply IHa in Ha.
    + now apply IHb in H.
  - remember (String.length (rest st)) as n eqn:E. clear E. revert st x H.
    induction n as [|n IHn]; intros st x H.
    + cbn [starLoop] in H. exists st. split; [apply Suffix_refl|exact H].
    + cbn [starLoop] in H. fold (starLoop (rmatch a) g k) in H.
      assert (Hagain : forall y,
                 rmatch a st (fun st' =>
                   if (String.length (rest st') <? String.length (rest st))%nat
                   then starLoop (rmatch a) g k n st' else None) = Some y ->
                 exists st', Suffix (rest st') (rest st) /\ k st' = Some y).
      { intros y Hy. apply IHa in Hy. destruct Hy as (st1 & Hs1 & Hy).
        destruct (String.length (rest st1) <? String.length (rest st))%nat; [|discriminate].
        apply IHn in Hy. destruct Hy as (st2 & Hs2 & Hy).
        exists st2. split; [eapply Suffix_trans; eassumption|exact Hy]. }
      destruct g.
      * destruct (rmatch a st _) eqn:Ha.
        -- injection H as <-. now apply Hagain.
        -- exists st. split; [apply Suffix_refl|exact H].
      * destruct (k st) eqn:Hk.
        -- injection H as <-. exists st. split; [apply Suffix_refl|exact Hk].
        -- now apply Hagain.
  - apply IHa in H. destruct H as (st1 & Hs1 & H).
    eexists. split; [|exact H]. exact Hs1.
  - destruct (atBol m st); [|discriminate]. exists st. split; [apply Suffix_refl|exact H].
  - destruct (atEol m st); [|discriminate]. exists st. split; [apply Suffix_refl|exact H].
Qed.

(** ** Patterns that need a character the text does not have *)

Definition allAscii : list ascii := map ascii_of_nat (seq 0 256).

Lemma in_allAscii c : In c allAscii.
Proof.
  unfold allAscii. rewrite <- (ascii_nat_embedding c). apply in_map.
  apply in_seq. pose proof (nat_ascii_bounded c). lia.
Qed.

(** No character of the class [A] satisfies [p]. *)
Definition disjoint (A p : ascii -> bool) : bool :=
  forallb (fun c => negb (A c && p c)) allAscii.

Lemma disjoint_sound A p c : disjoint A p = true -> A c = true -> p c = false.
Proof.
  unfold disjoint. rewrite forallb_forall. intros H Hc.
  specialize (H c (in_allAscii c)). rewrite Hc in H. cbn in H.
  now apply negb_true_iff in H.
Qed.

(** [needsOutside A r]: every match of [r] reads a character that is not
    in [A]. *)
Fixpoint needsOutside (A : ascii -> bool) (r : regex) : bool :=
  match r with
  | Eps => false
  | Chr p => disjoint A p
  | Cat a b => needsOutside A a || needsOutside A b
  | Alt a b => needsOutside A a && needsOutside A b
  | Star _ _ => false
  | Group _ a => needsOutside A a
  | Bol _ => false
  | Eol _ => false
  end.

Lemma needsOutside_none A r :
  needsOutside A r = true ->
  forall st k, allChars A (rest st) = true -> rmatch r st k = None.
Proof.
  induction r as [|p|a IHa b IHb|a IHa b IHb|g a IHa|i a IHa|m|m]; intros Hn st k Hs;
    cbn [needsOutside] in Hn; try discriminate; cbn [rmatch].
  - destruct (rest st) as [|c s'] eqn:Hr; [reflexivity|].
    cbn [allChars] in Hs. apply andb_true_iff in Hs. destruct Hs as [Hc _].
    now rewrite (@disjoint_sound A p c Hn Hc).
  - apply orb_true_iff in Hn. destruct Hn as [Hn|Hn].
    + now apply IHa.
    + destruct (rmatch a st (fun st' => rmatch b st' k)) eqn:Hm; [|reflexivity].
      apply rmatch_through in Hm. destruct Hm as (st1 & Hs1 & Hm).
      rewrite IHb in Hm; [discriminate|exact Hn|].
      eapply allChars_suffix; eassumption.
  - apply andb_true_iff in Hn. destruct Hn as [Ha Hb].
    rewrite IHa by assumption. now apply IHb.
  - now apply IHa.
Qed.

Lemma matchAt_outside A r p s :
  needsOutside A r = true -> allChars A s = true -> matchAt r p s = None.
Proof. intros Hn Hs. unfold matchAt. now apply needsOutside_none with (A := A). Qed.

(** Such a pattern changes nothing in a text of characters of [A], and
    finds nothing in it. *)
Lemma replaceFrom_outside A r f s :
  needsOutside A r = true -> allChars A s = true ->
  forall idx p, replaceFrom r f 0 idx p s = s.
Proof.
  intros Hn. induction s as [|c s IH]; intros Hs idx p.
  - cbn [replaceFrom]. now rewrite (@matchAt_outside A r p _ Hn Hs).
  - cbn [replaceFrom]. rewrite (@matchAt_outside A r p _ Hn Hs).
    cbn [allChars] in Hs. apply andb_true_iff in Hs. now rewrite IH.
Qed.

Lemma replaceAll_outside A r f s :
  needsOutside A r = true -> allChars A s = true -> replaceAll r f s = s.
Proof. intros. unfold replaceAll. now apply replaceFrom_outside with (A := A). Qed.

Lemma matchesFrom_outside A r s :
  needsOutside A r = true -> allChars A s = true ->
  forall idx p, matchesFrom r 0 idx p s = [].
Proof.
  intros Hn. induction s as [|c s IH]; intros Hs idx p.
  - cbn [matchesFrom]. now rewrite (@matchAt_outside A r p _ Hn Hs).
  - cbn [matchesFrom]. rewrite (@matchAt_outside A r p _ Hn Hs).
    cbn [allChars] in Hs. apply andb_true_iff in Hs. now apply IH.
Qed.

Lemma matchAll_outside A r s :
  needsOutside A r = true -> allChars A s = true -> matchAll r s = [].
Proof. intros. unfold matchAll. now apply matchesFrom_outside with (A := A). Qed.

Lemma search_outside A r s :
  needsOutside A r = true -> allChars A s = true ->
  forall idx p, search r idx p s = None.
Proof.
  intros Hn. induction s as [|c s IH]; intros Hs idx p.
  - cbn [search]. now rewrite (@matchAt_outside A r p _ Hn Hs).
  - cbn [search]. rewrite (@matchAt_outside A r p _ Hn Hs).
    cbn [allChars] in Hs. apply andb_true_iff in Hs. now apply IH.
Qed.

(** ** The text a pattern has read *)

Lemma lit_inv w :
  forall p s cs k x,
    rmatch (Lit w) (MState p s cs) k = Some x ->
    exists s', s = w ++ s' /\ k (MState (lastChar p w) s' cs) = Some x.
Proof.
  induction w as [|c w IH]; intros p s cs k x H.
  - exists s. now split.
  - cbn [Lit rmatch rest caps] in H. destruct s as [|a s]; [discriminate|].
    unfold only in H. destruct (Ascii.eqb c a) eqn:E; [|discriminate].
    apply Ascii.eqb_eq in E. subst a.
    apply IH in H. destruct H as (s' & -> & H). exists s'. now split.
Qed.

End RegexFacts.

Module TrimFacts.
Import Js StrFacts.
Local Open Scope string_scope.

Lemma trimStart_snoc a c :
  isWhite c = false -> exists x, trimStart (a ++ String c "") = x ++ String c "".
Proof.
  intro Hc. induction a as [|d a IH]; cbn [append trimStart].
  - rewrite Hc. now exists "".
  - destruct (isWhite d); [exact IH|]. now exists (String d a).
Qed.

(** Removing whitespace at the end keeps a first character that is not
    whitespace. *)
Lemma trimEnd_head c s :
  isWhite c = false -> exists s', trimEnd (String c s) = String c s'.
Proof.
  intro Hc. unfold trimEnd. rewrite JsFacts.rev_cons.
  destruct (@trimStart_snoc (rev s) c Hc) as [x ->].
  rewrite rev_app. now exists (rev x).
Qed.

Lemma trimStart_head s :
  match trimStart s with String c _ => isWhite c = false | EmptyString => True end.
Proof.
  induction s as [|c s IH]; cbn [trimStart]; [exact I|].
  destruct (isWhite c) eqn:Hc; [exact IH|exact Hc].
Qed.

Lemma trimEnd_idem s : trimEnd (trimEnd s) = trimEnd s.
Proof. unfold trimEnd. now rewrite rev_involutive, trimStart_idem. Qed.

Lemma trimStart_trim s : trimStart (trim s) = trim s.
Proof.
  unfold trim. pose proof (trimStart_head s) as H.
  destruct (trimStart s) as [|c t]; [reflexivity|].
  destruct (@trimEnd_head c t H) as [t' ->]. cbn [trimStart]. now rewrite H.
Qed.

(** [trim] is idempotent. *)
Lemma trim_idem s : trim (trim s) = trim s.
Proof.
  unfold trim at 1. rewrite trimStart_trim. unfold trim. apply trimEnd_idem.
Qed.

End TrimFacts.

Module NoteLinkProofs.
Import Re Notes.
Local Open Scope string_scope.

Lemma dedup_spec l :
  forall seen,
    NoDup (Links.dedup seen l)
    /\ forall x, In x (Links.dedup seen l) <-> In x l /\ ~ In x seen.
Proof.
  induction l as [|a l IH]; intro seen; cbn [Links.dedup].
  - split; [constructor|]. intro x. cbn. tauto.
  - destruct (existsb (String.eqb a) seen) eqn:Hs.
    + destruct (IH seen) as [Hnd Hin]. split; [exact Hnd|].
      intro x. rewrite Hin. cbn [In]. split; [tauto|].
      intros [[<-|Hx] Hn]; [|tauto].
      exfalso. apply Hn. apply existsb_exists in Hs. destruct Hs as (y & Hy & E).
      apply String.eqb_eq in E. now subst y.
    + destruct (IH (a :: seen)) as [Hnd Hin]. split.
      * constructor; [|exact Hnd]. intro Ha. apply Hin in Ha. cbn [In] in Ha. tauto.
      * intro x. cbn [In]. rewrite Hin. cbn [In].
        assert (Hna : ~ In a seen).
        { intro Ha. assert (existsb (String.eqb a) seen = true); [|congruence].
          apply existsb_exists. exists a. split; [exact Ha|apply String.eqb_refl]. }
        split.
        -- intros [<-|[Hx Hn]]; [tauto|tauto].
        -- intros [[<-|Hx] Hn]; [tauto|].
           destruct (string_dec a x) as [->|Hne]; [tauto|]. right. tauto.
Qed.

(** X1.  [extractNoteLinks] lists no title twice, and every title it lists
    is trimmed: it is its own [trim]. *)
Theorem extractNoteLinks_distinct_trimmed (content : string) :
  NoDup (Links.extractNoteLinks content)
  /\ forall t, In t (Links.extractNoteLinks content) -> Js.trim t = t.
Proof.
  unfold Links.extractNoteLinks.
  destruct (dedup_spec (map (fun m => Js.trim (group 1 m)) (matchAll Links.linkRegex content)) [])
    as [Hnd Hin].
  split; [exact Hnd|].
  intros t Ht. apply Hin in Ht. destruct Ht as [Ht _].
  apply in_map_iff in Ht. destruct Ht as (m & <- & _). apply TrimFacts.trim_idem.
Qed.

Lemma in_firstn {A} n (l : list A) x : In x (firstn n l) -> In x l.
Proof.
  revert l. induction n as [|n IH]; intros l H; [destruct H|].
  destruct l as [|a l]; [destruct H|]. cbn in H. destruct H as [<-|H]; [now left|right; auto].
Qed.

(** X2.  [getNoteLinkSuggestions] offers at most five titles; each is the
    title of a stored note that holds the query (letter case apart), so
    [noteExists] is true of every suggestion. *)
Theorem suggestions_exist (allDocs : list DocumentData) (query : string) :
  List.length (getNoteLinkSuggestions allDocs query) <= 5
  /\ forall s, In s (getNoteLinkSuggestions allDocs query) ->
               noteExists allDocs s = true
               /\ Js.includes (Js.toLowerCase query) (Js.toLowerCase s) = true.
Proof.
  unfold getNoteLinkSuggestions. split; [apply firstn_le_length|].
  intros s Hs. apply in_firstn in Hs. apply in_map_iff in Hs.
  destruct Hs as (d & <- & Hd). apply filter_In in Hd. destruct Hd as [Hd Hq].
  split; [|exact Hq].
  unfold noteExists. apply existsb_exists. exists d. split; [exact Hd|apply String.eqb_refl].
Qed.

Lemma in_forwardDocs allDocs links b :
  In b (forwardDocs allDocs links) ->
  exists link, In link links /\ In b allDocs
               /\ Js.toLowerCase (title b) = Js.toLowerCase link.
Proof.
  induction links as [|l links IH]; cbn [forwardDocs]; [intros []|].
  destruct (find _ allDocs) as [d|] eqn:Hf.
  - intros [<-|Hb].
    + apply find_some in Hf. destruct Hf as [Hd He]. apply String.eqb_eq in He.
      exists l. split; [now left|split; assumption].
    + destruct (IH Hb) as (link & Hl & H). exists link. split; [now right|exact H].
  - intro Hb. destruct (IH Hb) as (link & Hl & H). exists link. split; [now right|exact H].
Qed.

(** X3.  Forward links and backlinks agree: when a stored note [a] has [b]
    among its forward links, [a] is among the backlinks of [b]'s title; and
    in [getRelatedDocuments], when the two notes have different
    identifiers, [a] is listed as a backlink of [b]. *)
Theorem forward_link_has_backlink (allDocs : list DocumentData) (a b : DocumentData) :
  In a allDocs ->
  In b (findForwardLinks allDocs (content a)) ->
  In b allDocs
  /\ In a (findBacklinks allDocs (title b))
  /\ (id a <> id b -> In a (backlinks (getRelatedDocuments allDocs b))).
Proof.
  intros Ha Hb. unfold findForwardLinks in Hb.
  destruct (@in_forwardDocs _ _ _ Hb) as (link & Hl & Hbd & He).
  assert (Hback : In a (findBacklinks allDocs (title b))).
  { unfold findBacklinks. apply filter_In. split; [exact Ha|].
    apply existsb_exists. exists link. split; [exact Hl|].
    rewrite He. apply String.eqb_refl. }
  split; [exact Hbd|split; [exact Hback|]].
  intro Hid. unfold getRelatedDocuments. cbn [backlinks]. apply filter_In.
  split; [exact Hback|]. apply negb_true_iff. now apply String.eqb_neq.
Qed.


(** ** A link put in by the link input *)

Lemma matchesFrom_no_open pre :
  Spec.noOpenBracket pre = true ->
  forall idx p rest,
    matchesFrom Links.linkRegex 0 idx p (pre ++ rest)
    = matchesFrom Links.linkRegex 0 (idx + String.length pre) (lastChar p pre) rest.
Proof.
  induction pre as [|c pre IH]; intros Hpre idx p rest.
  - cbn [append String.length lastChar]. now rewrite Nat.add_0_r.
  - cbn [Spec.noOpenBracket] in Hpre. apply andb_true_iff in Hpre. destruct Hpre as [Hc Hpre].
    cbn [append matchesFrom]. rewrite LinkProofs.matchAt_link.
    rewrite (@LinkProofs.tokenAt_not_open (String c (pre ++ rest)))
      by (now apply negb_true_iff in Hc).
    cbn [option_map String.length lastChar]. rewrite IH by exact Hpre. f_equal. lia.
Qed.

Lemma link_listed pre t post :
  Spec.noOpenBracket pre = true -> Spec.isTitle t ->
  In (Js.trim t) (Links.extractNoteLinks (pre ++ insertedLink t ++ post)).
Proof.
  intros Hpre Ht. unfold Links.extractNoteLinks.
  match goal with
  | |- In _ (Links.dedup [] ?l) => destruct (dedup_spec l []) as [_ Hin]
  end.
  apply Hin. split; [|cbn; tauto].
  apply in_map_iff.
  unfold matchAll. rewrite matchesFrom_no_open by exact Hpre.
  change (insertedLink t ++ post) with (String "[" (String "[" ((t ++ "]]") ++ post))).
  cbn [matchesFrom]. rewrite LinkProofs.matchAt_link.
  change (String "[" (String "[" ((t ++ "]]") ++ post))) with (Spec.token t ++ post).
  rewrite LinkProofs.tokenAt_complete by exact Ht. cbn [option_map].
  eexists. split; [|left; reflexivity]. reflexivity.
Qed.

Lemma forwardDocs_complete allDocs links link d :
  In link links ->
  find (fun d0 => String.eqb (Js.toLowerCase (title d0)) (Js.toLowerCase link)) allDocs = Some d ->
  In d (forwardDocs allDocs links).
Proof.
  induction links as [|l links IH]; [intros []|].
  intros [->|Hl] Hf; cbn [forwardDocs].
  - rewrite Hf. now left.
  - match goal with
    | |- In _ (match ?e with Some _ => _ | None => _ end) => destruct e
    end; [apply in_cons|]; now apply IH.
Qed.

Lemma noteExists_find allDocs t :
  noteExists allDocs t = true ->
  exists d, find (fun d0 => String.eqb (Js.toLowerCase (title d0)) (Js.toLowerCase t)) allDocs
            = Some d.
Proof.
  unfold noteExists. induction allDocs as [|a l IH]; cbn [existsb find]; [discriminate|].
  destruct (String.eqb (Js.toLowerCase (title a)) (Js.toLowerCase t)); [now exists a|].
  exact IH.
Qed.

(** X4.  A link put into a note by the link input resolves: when the text
    before it holds no opening bracket, the title is not empty and holds
    no closing bracket, and a note with that title (trimmed, letter case
    apart) is stored, [findForwardLinks] on the note's text returns a
    stored note of that title. *)
Theorem inserted_link_resolves (allDocs : list DocumentData) (pre t post : string) :
  Spec.noOpenBracket pre = true ->
  Spec.isTitle t ->
  noteExists allDocs (Js.trim t) = true ->
  exists d, In d (findForwardLinks allDocs (pre ++ insertedLink t ++ post))
            /\ In d allDocs
            /\ Js.toLowerCase (title d) = Js.toLowerCase (Js.trim t).
Proof.
  intros Hpre Ht He. destruct (noteExists_find _ _ He) as [d Hf].
  exists d. split; [|split].
  - unfold findForwardLinks. eapply forwardDocs_complete; [|exact Hf].
    now apply link_listed.
  - apply find_some in Hf. tauto.
  - apply find_some in Hf. destruct Hf as [_ Hf]. now apply String.eqb_eq in Hf.
Qed.

Definition noteB : DocumentData := MkDocument "2" "Beta" None "text" [] "" "" 1.

Lemma inserted_link_resolves_witness :
  exists d, In d (findForwardLinks [noteB] ("see " ++ insertedLink "beta" ++ "."))
            /\ In d [noteB]
            /\ Js.toLowerCase (title d) = Js.toLowerCase (Js.trim "beta").
Proof.
  apply (@inserted_link_resolves [noteB] "see " "beta" ".").
  - reflexivity.
  - split; [discriminate|reflexivity].
  - vm_compute. reflexivity.
Defined.

(** ** The links of the viewer *)

(** [Rewrites f body out titles]: reading [body] from the left, [out] is
    [body] with every link token replaced by [f] of its title and every
    other character kept, and [titles] are the titles of the tokens. *)
Inductive Rewrites (f : string -> string) : string -> string -> list string -> Prop :=
| Rewrites_end : Rewrites f "" "" []
| Rewrites_link t rest out titles :
    Spec.isTitle t ->
    Rewrites f rest out titles ->
    Rewrites f (Spec.token t ++ rest) (f t ++ out) (t :: titles)
| Rewrites_char c s out titles :
    (forall t rest, Spec.isTitle t -> String c s <> Spec.token t ++ rest) ->
    Rewrites f s out titles ->
    Rewrites f (String c s) (String c out) titles.

Lemma scan_rewrites (f : string -> string) (n : nat) :
  forall s, String.length s <= n ->
  forall idx p,
    Rewrites f s (replaceFrom Links.linkRegex (fun m => f (group 1 m)) 0 idx p s)
             (map (group 1) (matchesFrom Links.linkRegex 0 idx p s)).
Proof.
  induction n as [|n IH]; intros s Hlen idx p.
  - destruct s; [|simpl in Hlen; lia]. apply Rewrites_end.
  - destruct s as [|c s'].
    + apply Rewrites_end.
    + cbn [replaceFrom matchesFrom]. rewrite LinkProofs.matchAt_link.
      destruct (LinkProofs.tokenAt (String c s')) as [[t rest]|] eqn:Htok.
      * destruct (LinkProofs.tokenAt_sound _ Htok) as [Hs Ht].
        cbn [option_map].
        assert (Htext : m_text (toMatch idx (String c s') (LinkProofs.afterToken (t, rest)))
                        = Spec.token t).
        { unfold toMatch, LinkProofs.afterToken. cbn [m_text Re.rest snd]. rewrite Hs.
          apply ReFacts.taken_append. }
        assert (Hgroup : group 1 (toMatch idx (String c s') (LinkProofs.afterToken (t, rest))) = t)
          by reflexivity.
        cbv beta. cbn [map]. rewrite Htext, !Hgroup.
        unfold Spec.token in Hs. cbn [append] in Hs. inversion Hs as [[Hc Hs']].
        change (String.length (Spec.token t))
          with (S (String.length (String "[" (t ++ "]]")))).
        cbn [Nat.pred].
        change (String "[" ((t ++ "]]") ++ rest)) with (String "[" (t ++ "]]") ++ rest).
        rewrite LinkProofs.replaceFrom_skip, LinkProofs.matchesFrom_skip.
        assert (Hrest : String.length rest <= n).
        { rewrite Hs in Hlen. cbn [String.length] in Hlen.
          rewrite ReFacts.length_append in Hlen. lia. }
        change (String "[" (String "[" (t ++ "]]") ++ rest)) with (Spec.token t ++ rest).
        apply Rewrites_link; [exact Ht|]. now apply IH.
      * cbn [option_map].
        assert (Hrest : String.length s' <= n) by (cbn [String.length] in Hlen; lia).
        apply Rewrites_char; [|now apply IH].
        intros t rest Ht Heq. rewrite Heq, LinkProofs.tokenAt_complete in Htok by exact Ht.
        discriminate.
Qed.

(** X5.  The viewer, the PDF export and the Related Notes listing read the
    same links.  With [titles] the titles of the link tokens that the
    pattern meets in [content], from the left: [processNoteLinks] returns
    [content] with each of these tokens replaced by the [span] of its
    trimmed title and every other character kept; replacing the links by
    their titles, as [processContentForExport] does, returns it with each
    token replaced by its title; and [extractNoteLinks] returns the trimmed
    titles, each once. *)
Theorem links_read_alike (content : string) :
  let titles := map (group 1) (matchAll Links.linkRegex content) in
  Rewrites (fun t => noteLinkSpan (Js.trim t)) content (processNoteLinks content) titles
  /\ Rewrites (fun t => t) content (replaceAll Links.linkRegex (group 1) content) titles
  /\ Links.extractNoteLinks content = Links.dedup [] (map Js.trim titles).
Proof.
  intro titles. split; [|split].
  - apply (@scan_rewrites (fun t => noteLinkSpan (Js.trim t)) _ content (Nat.le_refl _) 0 None).
  - apply (@scan_rewrites (fun t => t) _ content (Nat.le_refl _) 0 None).
  - unfold Links.extractNoteLinks, titles. now rewrite map_map.
Qed.

Definition noteA : DocumentData := MkDocument "1" "Alpha" None "see [[beta]]" [] "" "" 1.

Lemma forward_link_has_backlink_witness :
  In noteB [noteA; noteB]
  /\ In noteA (findBacklinks [noteA; noteB] (title noteB))
  /\ (id noteA <> id noteB -> In noteA (backlinks (getRelatedDocuments [noteA; noteB] noteB))).
Proof.
  apply (@forward_link_has_backlink [noteA; noteB] noteA noteB).
  - simpl. left. reflexivity.
  - vm_compute. left. reflexivity.
Defined.

End NoteLinkProofs.

Module SectionShapeProofs.
Import Pdf.
Local Open Scope string_scope.

(** The lines of a body, section by section: each section is its heading
    line, [# ] and the heading, followed by its content lines. *)
Fixpoint assemble (secs : list (string * list string)) : list string :=
  match secs with
  | [] => []
  | (h, ls) :: r => ("# " ++ h) :: (ls ++ assemble r)%list
  end.

Definition toSection (s : string * list string) : Section_ :=
  MkSection (fst s) (Js.join Js.nl (snd s)).

Definition named (s : string * list string) : bool := Js.truthy (fst s).

Definition plain (ls : list string) : Prop :=
  forall l, In l ls -> Js.startsWith "# " l = false.

Lemma parseLines_content ls :
  plain ls ->
  forall rest acc h c,
    parseLines (ls ++ rest) acc h c = parseLines rest acc h (c ++ ls).
Proof.
  induction ls as [|l ls IH]; intros Hp rest acc h c.
  - now rewrite app_nil_r.
  - cbn [app parseLines]. rewrite (Hp l (or_introl eq_refl)).
    rewrite IH by (intros l' Hl'; apply Hp; now right).
    now rewrite <- app_assoc.
Qed.

Lemma parseLines_assemble secs :
  (forall s, In s secs -> plain (snd s)) ->
  forall acc h c,
    parseLines (assemble secs) acc h c
    = (acc ++ (if Js.truthy h then [MkSection h (Js.join Js.nl c)] else [])
           ++ map toSection (filter named secs))%list.
Proof.
  induction secs as [|[h' ls] r IH]; intros Hp acc h c.
  - cbn [assemble parseLines filter map]. rewrite app_nil_r.
    destruct (Js.truthy h); [reflexivity|now rewrite app_nil_r].
  - cbn [assemble parseLines]. change (Js.startsWith "# " ("# " ++ h')) with (String.prefix "" h').
    replace (String.prefix "" h') with true by (now destruct h').
    change (Js.substringFrom 2 ("# " ++ h')) with h'.
    rewrite parseLines_content by (apply (Hp (h', ls)); now left).
    rewrite IH by (intros s Hs; apply Hp; now right).
    cbn [app filter]. unfold named at 2. cbn [fst].
    destruct (Js.truthy h), (Js.truthy h'); cbn [map app];
      rewrite <- ?app_assoc; cbn [app]; try rewrite app_nil_r; reflexivity.
Qed.

Lemma heading_line l :
  Js.startsWith "# " l = true -> l = "# " ++ Js.substringFrom 2 l.
Proof.
  unfold Js.startsWith. destruct l as [|a [|b l]]; cbn [String.prefix Js.substringFrom append];
    intro H; try discriminate.
  - destruct (ascii_dec "#" a); discriminate.
  - destruct (ascii_dec "#" a) as [<-|]; [|discriminate].
    destruct (ascii_dec " " b) as [<-|]; [reflexivity|discriminate].
Qed.

(** Every list of lines is a preamble followed by sections. *)
Lemma lines_shape lines :
  exists pre secs,
    lines = (pre ++ assemble secs)%list
    /\ plain pre /\ forall s, In s secs -> plain (snd s).
Proof.
  induction lines as [|l lines (pre & secs & -> & Hpre & Hsecs)].
  - exists [], []. repeat split; intros ? [].
  - destruct (Js.startsWith "# " l) eqn:Hl.
    + exists [], ((Js.substringFrom 2 l, pre) :: secs).
      split; [|split].
      * cbn [app assemble]. now rewrite <- heading_line.
      * intros ? [].
      * intros s [<-|Hs]; [exact Hpre|now apply Hsecs].
    + exists (l :: pre), secs. split; [reflexivity|split; [|exact Hsecs]].
      intros l' [<-|Hl']; [exact Hl|now apply Hpre].
Qed.

(** X6.  What [parseMarkdown] returns, for every body.  The lines of a body
    are a preamble without a heading line followed by sections, each a
    heading line [# h] and content lines that are not heading lines;
    [parseMarkdown] returns one section for each of these whose heading [h]
    is not empty, in order, with heading [h] (untrimmed) and the content
    lines joined by line feeds.  A heading line with nothing after [# ]
    gives no section, and its content lines are in no section. *)
Theorem parseMarkdown_characterised (markdown : string) :
  (exists pre secs,
      Js.split Js.LF markdown = (pre ++ assemble secs)%list
      /\ plain pre /\ (forall s, In s secs -> plain (snd s)))
  /\ (forall pre secs,
         Js.split Js.LF markdown = (pre ++ assemble secs)%list ->
         plain pre -> (forall s, In s secs -> plain (snd s)) ->
         parseMarkdown markdown = map toSection (filter named secs)).
Proof.
  split; [apply lines_shape|].
  intros pre secs Hl Hpre Hsecs.
  unfold parseMarkdown. rewrite Hl.
  rewrite SectionProofs.parseLines_preamble by exact Hpre.
  rewrite parseLines_assemble by exact Hsecs. reflexivity.
Qed.

End SectionShapeProofs.

Module ReplaceFacts.
Import Re ReFacts StrFacts.
Local Open Scope string_scope.

(** [s] with [rep] in place of every character of the class [w]. *)
Fixpoint substClass (w : ascii -> bool) (rep : string) (s : string) : string :=
  match s with
  | EmptyString => EmptyString
  | String c r => if w c then rep ++ substClass w rep r else String c (substClass w rep r)
  end.

Lemma replace_class w rep s :
  forall idx p, replaceFrom (Chr w) (fun _ => rep) 0 idx p s = substClass w rep s.
Proof.
  induction s as [|c s IH]; intros idx p.
  - reflexivity.
  - cbn [replaceFrom substClass]. unfold matchAt. cbn [rmatch rest caps].
    destruct (w c).
    + unfold toMatch. cbn [m_text rest].
      replace (taken (String c s) s) with (String c "")
        by (symmetry; apply (taken_append (String c "") s)).
      cbn [String.length]. now rewrite IH.
    + now rewrite IH.
Qed.

Lemma allChars_substClass (P w : ascii -> bool) rep s :
  allChars P rep = true ->
  (forall c, In c (list_ascii_of_string s) -> w c = false -> P c = true) ->
  allChars P (substClass w rep s) = true.
Proof.
  intros Hrep. induction s as [|c s IH]; intro Hs; cbn [substClass].
  - reflexivity.
  - assert (IH' : allChars P (substClass w rep s) = true).
    { apply IH. intros d Hd. apply Hs. now right. }
    destruct (w c) eqn:Hc.
    + rewrite allChars_app, Hrep, IH'. reflexivity.
    + cbn [allChars]. rewrite IH', (Hs c (or_introl eq_refl) Hc). reflexivity.
Qed.

Lemma substClass_id w rep s : allChars (fun c => negb (w c)) s = true -> substClass w rep s = s.
Proof.
  induction s as [|c s IH]; cbn [allChars substClass]; [reflexivity|].
  intro H. apply andb_true_iff in H. destruct H as [Hc Hs].
  apply negb_true_iff in Hc. rewrite Hc, IH by exact Hs. reflexivity.
Qed.

(** [s] with [rep] in place of every maximal run of characters of [w]. *)
Fixpoint collapse (w : ascii -> bool) (rep : string) (inRun : bool) (s : string) : string :=
  match s with
  | EmptyString => EmptyString
  | String c r =>
      if w c then
        if inRun then collapse w rep true r else rep ++ collapse w rep true r
      else String c (collapse w rep false r)
  end.

Lemma matchAt_run w p s :
  matchAt (Plus true (Chr w)) p s
  = match s with
    | String c s' =>
        if w c
        then Some (MState (lastChar (Some c) (takeRun w s')) (dropRun w s') [])
        else None
    | EmptyString => None
    end.
Proof.
  unfold matchAt, Plus. cbn [rmatch rest caps].
  destruct s as [|c s']; [reflexivity|].
  destruct (w c); [|reflexivity].
  apply starLoop_chr_greedy; [cbn; lia|discriminate].
Qed.

Lemma replace_runs w rep (s : string) :
  (forall idx p, replaceFrom (Plus true (Chr w)) (fun _ => rep) 0 idx p s
                 = collapse w rep false s)
  /\ (forall idx p, replaceFrom (Plus true (Chr w)) (fun _ => rep)
                                (String.length (takeRun w s)) idx p s
                    = collapse w rep true s).
Proof.
  induction s as [|c s' [IH0 IH1]].
  - split; intros; reflexivity.
  - assert (H0 : forall idx p,
               replaceFrom (Plus true (Chr w)) (fun _ => rep) 0 idx p (String c s')
               = collapse w rep false (String c s')).
    { intros idx p. cbn [replaceFrom collapse].
      rewrite matchAt_run. destruct (w c).
      - rewrite FilenameProofs.text_of_run. cbn [String.length]. rewrite IH1. reflexivity.
      - rewrite IH0. reflexivity. }
    split; [exact H0|].
    intros idx p. cbn [takeRun]. destruct (w c) eqn:Hc.
    + cbn [String.length replaceFrom collapse]. rewrite Hc. apply IH1.
    + cbn [String.length]. rewrite H0. cbn [collapse]. rewrite Hc. reflexivity.
Qed.

Lemma allChars_collapse (P w : ascii -> bool) rep s :
  allChars P rep = true ->
  (forall c, w c = false -> P c = true) ->
  forall b, allChars P (collapse w rep b s) = true.
Proof.
  intros Hrep Hw. induction s as [|c s IH]; intro b; cbn [collapse].
  - reflexivity.
  - destruct (w c) eqn:Hc.
    + destruct b; [apply IH|]. rewrite allChars_app, Hrep. apply IH.
    + cbn [allChars]. rewrite (Hw c Hc). apply IH.
Qed.

(** ** Splitting and joining *)

Lemma split_one sep s :
  allChars (fun c => negb (Ascii.eqb c sep)) s = true -> Js.split sep s = [s].
Proof.
  induction s as [|c s IH]; cbn [allChars Js.split]; [reflexivity|].
  intro H. apply andb_true_iff in H. destruct H as [Hc Hs].
  apply negb_true_iff in Hc. rewrite Hc, IH by exact Hs. reflexivity.
Qed.

Lemma split_app_sep sep a b :
  Js.split sep (a ++ String sep b) = (Js.split sep a ++ Js.split sep b)%list.
Proof.
  induction a as [|c a IH].
  - cbn [append Js.split]. now rewrite Ascii.eqb_refl.
  - cbn [append Js.split]. destruct (Ascii.eqb c sep).
    + now rewrite IH.
    + rewrite IH. pose proof (SectionProofs.split_nonempty sep a) as Hne.
      destruct (Js.split sep a); [congruence|reflexivity].
Qed.

(** Lines without a line feed, joined by line feeds, split into
    themselves. *)
Lemma split_join sep (rows : list string) :
  rows <> [] ->
  (forall r, In r rows -> allChars (fun c => negb (Ascii.eqb c sep)) r = true) ->
  Js.split sep (Js.join (String sep "") rows) = rows.
Proof.
  induction rows as [|r rows IH]; [congruence|]. intros _ Hr.
  destruct rows as [|r' rows].
  - cbn [Js.join concat]. apply split_one. apply Hr. now left.
  - change (Js.join (String sep "") (r :: r' :: rows))
      with (r ++ String sep (Js.join (String sep "") (r' :: rows))).
    rewrite split_app_sep, IH; [|discriminate|intros x Hx; apply Hr; now right].
    rewrite split_one by (apply Hr; now left). reflexivity.
Qed.

End ReplaceFacts.

Module TsvProofs.
Import Re ReFacts StrFacts ReplaceFacts Anki.
Local Open Scope string_scope.

Definition notTab (c : ascii) : bool := negb (Ascii.eqb c Js.TAB).
Definition notLF (c : ascii) : bool := negb (Ascii.eqb c Js.LF).

(** The front and the back of a card as [generateAnkiTSV] writes them. *)
Definition tsvFront (card : FlashCard) : string :=
  replaceAll newlineRegex (fun _ => " ") (replaceAll tabRegex (fun _ => " ") (front card)).
Definition tsvBack (card : FlashCard) : string :=
  replaceAll tabRegex (fun _ => " ") (back card).

Lemma tabs_out s : replaceAll tabRegex (fun _ => " ") s = substClass (only Js.TAB) " " s.
Proof. apply replace_class. Qed.

Lemma no_tab_after s : allChars notTab (substClass (only Js.TAB) " " s) = true.
Proof.
  apply allChars_substClass; [reflexivity|].
  intros c _ Hc. unfold notTab, only in *. now rewrite Ascii.eqb_sym, Hc.
Qed.

Lemma matchAt_newline p s :
  matchAt newlineRegex p s
  = match s with
    | String c (String d r) =>
        if Ascii.eqb Js.CR c && Ascii.eqb Js.LF d then Some (MState (Some d) r [])
        else if Ascii.eqb Js.LF c then Some (MState (Some c) (String d r) [])
        else None
    | String c EmptyString =>
        if Ascii.eqb Js.LF c then Some (MState (Some c) EmptyString []) else None
    | EmptyString => None
    end.
Proof.
  unfold matchAt, newlineRegex, Opt, only. cbn [Seq rmatch rest caps prev].
  destruct s as [|c [|d r]]; [reflexivity| |].
  - destruct (Ascii.eqb Js.CR c) eqn:Hc; [|reflexivity].
    apply Ascii.eqb_eq in Hc. subst c. reflexivity.
  - destruct (Ascii.eqb Js.CR c) eqn:Hc.
    + destruct (Ascii.eqb Js.LF d); [reflexivity|].
      apply Ascii.eqb_eq in Hc. subst c. reflexivity.
    + reflexivity.
Qed.

(** Replacing the line breaks leaves no line feed, and brings no tab. *)
Lemma no_newline_after (n : nat) :
  forall s, String.length s <= n -> allChars notTab s = true ->
  forall idx p,
    allChars (fun c => notTab c && notLF c)
             (replaceFrom newlineRegex (fun _ => " ") 0 idx p s) = true.
Proof.
  induction n as [|n IH]; intros s Hlen Hs idx p.
  - destruct s; [reflexivity|simpl in Hlen; lia].
  - destruct s as [|c s']; [reflexivity|].
    cbn [String.length] in Hlen. cbn [allChars] in Hs.
    apply andb_true_iff in Hs. destruct Hs as [Hc Hs'].
    cbn [replaceFrom]. rewrite matchAt_newline.
    destruct s' as [|d r].
    + destruct (Ascii.eqb Js.LF c) eqn:Hlf.
      * reflexivity.
      * cbn [replaceFrom]. rewrite matchAt_newline. cbn [allChars].
        unfold notLF. rewrite Ascii.eqb_sym, Hlf, Hc. reflexivity.
    + cbn [String.length] in Hlen. cbn [allChars] in Hs'.
      apply andb_true_iff in Hs'. destruct Hs' as [Hd Hr].
      destruct (Ascii.eqb Js.CR c && Ascii.eqb Js.LF d) eqn:Hcrlf.
      * unfold toMatch. cbn [m_text rest].
        replace (taken (String c (String d r)) r) with (String c (String d ""))
          by (symmetry; apply (taken_append (String c (String d "")) r)).
        cbn [String.length append replaceFrom allChars].
        apply IH; [lia|exact Hr].
      * destruct (Ascii.eqb Js.LF c) eqn:Hlf.
        -- unfold toMatch. cbn [m_text rest].
           replace (taken (String c (String d r)) (String d r)) with (String c "")
             by (symmetry; apply (taken_append (String c "") (String d r))).
           cbn [String.length append allChars].
           apply IH; [cbn [String.length]; lia|].
           cbn [allChars]. now rewrite Hd, Hr.
        -- cbn [allChars]. unfold notLF at 1. rewrite Ascii.eqb_sym, Hlf, Hc. cbn [andb negb].
           apply IH; [cbn [String.length]; lia|].
           cbn [allChars]. now rewrite Hd, Hr.
Qed.

Lemma tsvFront_clean card :
  allChars notTab (tsvFront card) = true /\ allChars notLF (tsvFront card) = true.
Proof.
  unfold tsvFront. rewrite tabs_out.
  pose proof (@no_newline_after _ (substClass (only Js.TAB) " " (front card))
                                (Nat.le_refl _) (no_tab_after _) 0 None) as H.
  split; (eapply allChars_impl; [|exact H]); intros c Hc;
    apply andb_true_iff in Hc; tauto.
Qed.

Lemma tsvBack_clean card :
  allChars notLF (back card) = true ->
  allChars notTab (tsvBack card) = true /\ allChars notLF (tsvBack card) = true.
Proof.
  intro Hb. unfold tsvBack. rewrite tabs_out. split; [apply no_tab_after|].
  apply allChars_substClass; [reflexivity|].
  intros c Hc _. clear - Hb Hc. induction (back card) as [|d s IH]; [destruct Hc|].
  cbn [allChars] in Hb. apply andb_true_iff in Hb. destruct Hb as [Hd Hs].
  destruct Hc as [<-|Hc]; [exact Hd|now apply IH].
Qed.

Definition tsvRow (card : FlashCard) : string :=
  tsvFront card ++ String Js.TAB "" ++ tsvBack card.

Lemma generateAnkiTSV_rows cards : generateAnkiTSV cards = Js.join Js.nl (map tsvRow cards).
Proof. reflexivity. Qed.

(** X7.  The text [generateAnkiTSV] writes reads back as the cards.  For a
    non-empty list of cards whose backs hold no line feed, splitting the
    text at the line feeds and each line at the tabs gives, card by card,
    two fields: the front with its tabs and line breaks turned into
    spaces, and the back with its tabs turned into spaces, which is the
    back itself when it holds no tab. *)
Theorem tsv_reads_back (cards : list FlashCard) :
  cards <> [] ->
  (forall card, In card cards -> allChars notLF (back card) = true) ->
  map (Js.split Js.TAB) (Js.split Js.LF (generateAnkiTSV cards))
  = map (fun card => [tsvFront card; tsvBack card]) cards
  /\ (forall card, In card cards -> allChars notTab (back card) = true ->
                   tsvBack card = back card).
Proof.
  intros Hne Hb. split.
  - rewrite generateAnkiTSV_rows. unfold Js.nl.
    rewrite split_join.
    + rewrite map_map. apply map_ext_in. intros card Hc.
      unfold tsvRow. cbn [append].
      rewrite split_app_sep.
      destruct (tsvFront_clean card) as [Hf _].
      destruct (tsvBack_clean card (Hb card Hc)) as [Hbk _].
      now rewrite !split_one.
    + destruct cards; [congruence|discriminate].
    + intros r Hr. apply in_map_iff in Hr. destruct Hr as (card & <- & Hc).
      unfold tsvRow. rewrite !allChars_app.
      destruct (tsvFront_clean card) as [_ Hf].
      destruct (tsvBack_clean card (Hb card Hc)) as [_ Hbk].
      fold notLF. rewrite Hf, Hbk. reflexivity.
  - intros card _ Ht. unfold tsvBack. rewrite tabs_out. apply substClass_id.
    eapply allChars_impl; [|exact Ht]. intros c Hc. unfold notTab, only in *.
    now rewrite Ascii.eqb_sym.
Qed.

Definition cardT : FlashCard := MkFlashCard (String "f" (String Js.TAB "x")) "b" [].

Lemma tsv_reads_back_witness :
  map (Js.split Js.TAB) (Js.split Js.LF (generateAnkiTSV [cardT]))
  = map (fun card => [tsvFront card; tsvBack card]) [cardT]
  /\ (forall card, In card [cardT] -> StrFacts.allChars notTab (back card) = true ->
                   tsvBack card = back card).
Proof.
  apply (@tsv_reads_back [cardT]).
  - discriminate.
  - intros card [<-|[]]. vm_compute. reflexivity.
Defined.

End TsvProofs.

Module CardProofs.
Import Re ReFacts StrFacts RegexFacts ReplaceFacts TsvProofs Anki.
Local Open Scope string_scope.

(** A character that is not whitespace, or the space. *)
Definition spaceOrInk (c : ascii) : bool := negb (Js.isWhite c) || Ascii.eqb c " ".

Section WithEnv.
Variable env : Env.

(** The text of a card comes out of [cleanMarkdownForAnki] with single
    spaces for all its whitespace. *)
Lemma cleaned_spaces text n content images n' :
  cleanMarkdownForAnki env text n = Some (content, images, n') ->
  allChars spaceOrInk content = true /\ Js.trim content = content.
Proof.
  unfold cleanMarkdownForAnki.
  destruct (processImagesForAnki env text n) as [[[t imgs] k]|]; [|discriminate].
  intro H. injection H as <- _ _. split; [|apply TrimFacts.trim_idem].
  apply allChars_trim. unfold replaceAll at 1.
  rewrite (proj1 (replace_runs Js.isWhite " " _)).
  apply allChars_collapse; [reflexivity|].
  intros c Hc. unfold spaceOrInk. now rewrite Hc.
Qed.

Definition cleanBack (card : FlashCard) : Prop :=
  allChars spaceOrInk (back card) = true /\ Js.trim (back card) = back card.

Lemma pushSection_clean h c cards n cards' n' :
  pushSection env h c (cards, n) = Some (cards', n') ->
  (forall card, In card cards -> cleanBack card) ->
  forall card, In card cards' -> cleanBack card.
Proof.
  unfold pushSection.
  destruct (Js.truthy h && negb (List.length c =? 0)%nat).
  - destruct (Js.truthy (Js.trim (Js.join Js.nl c))).
    + destruct (cleanMarkdownForAnki env (Js.trim (Js.join Js.nl c)) n)
        as [[[content images] k]|] eqn:Hc; [|discriminate].
      intros H Hall card Hin. injection H as <- _.
      apply in_app_or in Hin. destruct Hin as [Hin|[<-|[]]]; [now apply Hall|].
      exact (cleaned_spaces _ _ Hc).
    + intros H Hall. injection H as <- _. exact Hall.
  - intros H Hall. injection H as <- _. exact Hall.
Qed.

Lemma secondPass_clean lines :
  forall h c cards n cards' n',
    secondPass env lines h c (cards, n) = Some (cards', n') ->
    (forall card, In card cards -> cleanBack card) ->
    forall card, In card cards' -> cleanBack card.
Proof.
  induction lines as [|l lines IH]; intros h c cards n cards' n' H Hall.
  - cbn [secondPass] in H. eapply pushSection_clean; eassumption.
  - cbn [secondPass] in H. destruct (Js.startsWith "# " l).
    + destruct (pushSection env h c (cards, n)) as [[cards1 n1]|] eqn:Hp; [|discriminate].
      eapply IH; [exact H|]. eapply pushSection_clean; eassumption.
    + destruct (Js.truthy h); eapply IH; eassumption.
Qed.

Lemma cards_clean title summary markdown cards :
  parseNotesToFlashcards env title summary markdown = Some cards ->
  forall card, In card cards -> cleanBack card.
Proof.
  unfold parseNotesToFlashcards.
  destruct (firstPass (Js.split Js.LF markdown) "" []) as [h c].
  destruct (Js.truthy (Js.trim summary)).
  - destruct (cleanMarkdownForAnki env summary 0) as [[[content images] k]|] eqn:Hs;
      [|discriminate].
    destruct (secondPass env _ h c _) as [[cards' n']|] eqn:Hp; [|discriminate].
    intro H. injection H as <-.
    eapply secondPass_clean; [exact Hp|].
    intros card [<-|[]]. exact (cleaned_spaces _ _ Hs).
  - destruct (secondPass env _ h c _) as [[cards' n']|] eqn:Hp; [|discriminate].
    intro H. injection H as <-.
    eapply secondPass_clean; [exact Hp|]. intros card [].
Qed.

Lemma ink_no_break c : spaceOrInk c = true -> notLF c = true /\ notTab c = true.
Proof.
  unfold spaceOrInk, notLF, notTab. intro H. apply orb_true_iff in H.
  destruct H as [H|H].
  - apply negb_true_iff in H.
    destruct (Ascii.eqb c Js.LF) eqn:E1; [apply Ascii.eqb_eq in E1; subst c; discriminate|].
    destruct (Ascii.eqb c Js.TAB) eqn:E2; [apply Ascii.eqb_eq in E2; subst c; discriminate|].
    now split.
  - apply Ascii.eqb_eq in H. subst c. now split.
Qed.

(** X8.  The cards of a note go into the tab-separated file one to a line.
    Every card [parseNotesToFlashcards] returns has a back that is trimmed
    and whose only white space is the space character (no tab, no line
    break); so, when there is a card at all, the
    text [generateAnkiTSV] makes of them splits at the line feeds into one
    line for each card, and each line at its tab into the front (tabs and
    line breaks turned into spaces) and the back as it is. *)
Theorem cards_one_per_line (title summary markdown : string) (cards : list FlashCard) :
  parseNotesToFlashcards env title summary markdown = Some cards ->
  (forall card, In card cards ->
                allChars spaceOrInk (back card) = true /\ Js.trim (back card) = back card)
  /\ (cards <> [] ->
      map (Js.split Js.TAB) (Js.split Js.LF (generateAnkiTSV cards))
      = map (fun card => [tsvFront card; back card]) cards).
Proof.
  intro H. pose proof (cards_clean _ _ _ H) as Hclean.
  split; [exact Hclean|].
  intro Hne.
  assert (Hlf : forall card, In card cards -> allChars notLF (back card) = true).
  { intros card Hc. destruct (Hclean card Hc) as [Hs _].
    eapply allChars_impl; [|exact Hs]. intros c Hc'. now apply ink_no_break. }
  destruct (tsv_reads_back Hne Hlf) as [-> Hback].
  apply map_ext_in. intros card Hc. rewrite Hback; [reflexivity|exact Hc|].
  destruct (Hclean card Hc) as [Hs _].
  eapply allChars_impl; [|exact Hs]. intros c Hc'. now apply ink_no_break.
Qed.

End WithEnv.

Lemma cards_one_per_line_witness :
  parseNotesToFlashcards Demo.env "Note" "a  summary" "# A
one	two"
  = Some [MkFlashCard "Note - Summary" "a summary" []; MkFlashCard "A" "one two" [];
          MkFlashCard "A" "one two" []]
  /\ map (Js.split Js.TAB)
         (Js.split Js.LF
            (generateAnkiTSV [MkFlashCard "Note - Summary" "a summary" [];
                              MkFlashCard "A" "one two" []; MkFlashCard "A" "one two" []]))
     = [["Note - Summary"; "a summary"]; ["A"; "one two"]; ["A"; "one two"]].
Proof.
  assert (H : parseNotesToFlashcards Demo.env "Note" "a  summary" "# A
one	two"
              = Some [MkFlashCard "Note - Summary" "a summary" []; MkFlashCard "A" "one two" [];
                      MkFlashCard "A" "one two" []])
    by (vm_compute; reflexivity).
  split; [exact H|].
  rewrite (proj2 (@cards_one_per_line Demo.env _ _ _ _ H)) by discriminate.
  vm_compute. reflexivity.
Defined.

(** ** The pattern of markdown links *)

Lemma after_end_nothing p2 r st k :
  rmatch (Cat (Eol false) (Cat (Eol false) (Cat (Group 2 (Plus true (Chr p2))) r))) st k = None.
Proof.
  cbn [rmatch]. unfold atEol. destruct (rest st) as [|c s] eqn:Hr; [|reflexivity].
  cbn [andb]. unfold Plus. cbn [rmatch]. now rewrite Hr.
Qed.

Lemma cat_dead a b :
  (forall st k, rmatch b st k = None) -> forall st k, rmatch (Cat a b) st k = None.
Proof.
  intros Hb st k. cbn [rmatch].
  destruct (rmatch a st (fun st' => rmatch b st' k)) eqn:Hm; [|reflexivity].
  apply rmatch_through in Hm. destruct Hm as (st1 & _ & Hm).
  rewrite Hb in Hm. discriminate.
Qed.

Lemma markdownLink_never p s : matchAt markdownLinkRegex p s = None.
Proof.
  unfold matchAt, markdownLinkRegex. cbn [Seq].
  do 3 apply cat_dead. intros st k. apply after_end_nothing.
Qed.

(** X9.  The flashcard text never gets an anchor for a markdown link: the
    pattern of that step, as the source has it, asks for the end of the
    text right after the closing bracket and for at least one more
    character after that, so it matches at no position of any text, and
    the step returns every text as it is. *)
Theorem markdown_links_never_converted (f : Match -> string) (s : string) :
  replaceAll markdownLinkRegex f s = s
  /\ matchAll markdownLinkRegex s = []
  /\ test markdownLinkRegex s = false.
Proof.
  assert (Hr : forall idx p, replaceFrom markdownLinkRegex f 0 idx p s = s).
  { induction s as [|c s IH]; intros idx p; cbn [replaceFrom]; rewrite markdownLink_never;
      [reflexivity|now rewrite IH]. }
  assert (Hm : forall idx p, matchesFrom markdownLinkRegex 0 idx p s = []).
  { clear Hr. induction s as [|c s IH]; intros idx p; cbn [matchesFrom]; rewrite markdownLink_never;
      [reflexivity|apply IH]. }
  assert (Hs : forall idx p, search markdownLinkRegex idx p s = None).
  { clear Hr Hm. induction s as [|c s IH]; intros idx p; cbn [search]; rewrite markdownLink_never;
      [reflexivity|apply IH]. }
  split; [apply Hr|split; [apply Hm|]]. unfold test. now rewrite Hs.
Qed.

End CardProofs.

Module StaleCardProofs.
Import Anki SectionShapeProofs.
Local Open Scope string_scope.

Section WithEnv.
Variable env : Env.

(** The card of the summary, as [parseNotesToFlashcards] makes it first. *)
Definition summaryCards (title summary : string) : option Cards :=
  if Js.truthy (Js.trim summary) then
    match cleanMarkdownForAnki env summary 0 with
    | None => None
    | Some (content, images, n) =>
        Some ([MkFlashCard (title ++ " - Summary") content images], n)
    end
  else Some ([], 0).

(** One push for each section, in order, with the heading trimmed. *)
Fixpoint pushAll (secs : list (string * list string)) (st : Cards) : option Cards :=
  match secs with
  | [] => Some st
  | (h, ls) :: r =>
      match pushSection env (Js.trim h) ls st with
      | Some st' => pushAll r st'
      | None => None
      end
  end.

Lemma pushSection_unnamed c st : pushSection env "" c st = Some st.
Proof. unfold pushSection. now destruct st. Qed.

Lemma pushSection_kept h ls st :
  pushSection env h (if Js.truthy h then ls else []) st = pushSection env h ls st.
Proof.
  destruct h; [|reflexivity]. now rewrite !pushSection_unnamed.
Qed.

Lemma firstPass_content ls :
  plain ls ->
  forall rest h c,
    firstPass (ls ++ rest) h c = firstPass rest h (if Js.truthy h then (c ++ ls)%list else c).
Proof.
  induction ls as [|l ls IH]; intros Hp rest h c.
  - rewrite app_nil_r. now destruct (Js.truthy h).
  - cbn [app firstPass]. rewrite (Hp l (or_introl eq_refl)).
    destruct (Js.truthy h) eqn:Hh;
      rewrite IH by (intros l' Hl'; apply Hp; now right); rewrite Hh;
      [now rewrite <- app_assoc|reflexivity].
Qed.

Lemma heading_read h' :
  Js.startsWith "# " ("# " ++ h') = true /\ Js.substringFrom 2 ("# " ++ h') = h'.
Proof.
  split; [|reflexivity].
  change (Js.startsWith "# " ("# " ++ h')) with (String.prefix "" h'). now destruct h'.
Qed.

Lemma firstPass_assemble secs hl tl :
  (forall s, In s (secs ++ [(hl, tl)])%list -> plain (snd s)) ->
  forall h c,
    firstPass (assemble (secs ++ [(hl, tl)])%list) h c
    = (Js.trim hl, if Js.truthy (Js.trim hl) then tl else []).
Proof.
  induction secs as [|[h' ls] r IH]; intros Hp h c.
  - cbn [app assemble firstPass]. rewrite (proj1 (heading_read hl)), (proj2 (heading_read hl)).
    rewrite app_nil_r.
    pose proof (@firstPass_content tl (Hp (hl, tl) (or_introl eq_refl)) [] (Js.trim hl) []) as H.
    rewrite app_nil_r in H. rewrite H. reflexivity.
  - cbn [app assemble firstPass]. rewrite (proj1 (heading_read h')), (proj2 (heading_read h')).
    rewrite firstPass_content by (apply (Hp (h', ls)); now left).
    apply IH. intros s Hs. apply Hp. now right.
Qed.

Lemma secondPass_content ls :
  plain ls ->
  forall rest h c st,
    secondPass env (ls ++ rest) h c st
    = secondPass env rest h (if Js.truthy h then (c ++ ls)%list else c) st.
Proof.
  induction ls as [|l ls IH]; intros Hp rest h c st.
  - rewrite app_nil_r. now destruct (Js.truthy h).
  - cbn [app secondPass]. rewrite (Hp l (or_introl eq_refl)).
    destruct (Js.truthy h) eqn:Hh;
      rewrite IH by (intros l' Hl'; apply Hp; now right); rewrite Hh;
      [now rewrite <- app_assoc|reflexivity].
Qed.

Lemma secondPass_assemble secs :
  (forall s, In s secs -> plain (snd s)) ->
  forall h c st,
    secondPass env (assemble secs) h c st
    = match pushSection env h c st with
      | Some st' => pushAll secs st'
      | None => None
      end.
Proof.
  induction secs as [|[h' ls] r IH]; intros Hp h c st.
  - cbn [assemble secondPass pushAll]. now destruct (pushSection env h c st).
  - cbn [assemble secondPass]. rewrite (proj1 (heading_read h')), (proj2 (heading_read h')).
    destruct (pushSection env h c st) as [st'|]; [|reflexivity].
    rewrite secondPass_content by (apply (Hp (h', ls)); now left).
    rewrite IH by (intros s Hs; apply Hp; now right).
    cbn [app pushAll]. now rewrite pushSection_kept.
Qed.

(** X10.  The cards of every note that has a heading line.  Let the lines
    of the body be a preamble [pre] without a heading line followed by
    sections (heading line, content lines), the last of them with heading
    [hl] and lines [tl].  Then [parseNotesToFlashcards] returns the card
    of the summary, then the cards of one push for each section in order,
    but with one more push in front of them: that of the last heading
    [hl] with the last section's lines followed by the preamble.  (A push
    makes a card when the trimmed heading is not empty and the trimmed
    content is not blank.)  So the last section gives a card twice, and the
    text before the first heading ends up in the first of the two. *)
Theorem cards_of_a_note (title summary markdown : string)
        (pre : list string) (secs : list (string * list string))
        (hl : string) (tl : list string) :
  Js.split Js.LF markdown = (pre ++ assemble (secs ++ [(hl, tl)]))%list ->
  plain pre ->
  (forall s, In s (secs ++ [(hl, tl)])%list -> plain (snd s)) ->
  parseNotesToFlashcards env title summary markdown
  = match summaryCards title summary with
    | Some st =>
        option_map fst (pushAll ((hl, (tl ++ pre)%list) :: (secs ++ [(hl, tl)])%list) st)
    | None => None
    end.
Proof.
  intros Hl Hpre Hsecs. unfold parseNotesToFlashcards. fold (summaryCards title summary).
  destruct (summaryCards title summary) as [st|]; [|reflexivity].
  rewrite Hl.
  pose proof (@firstPass_content pre Hpre (assemble (secs ++ [(hl, tl)])%list) "" []) as Hf.
  cbn [Js.truthy] in Hf. rewrite Hf, firstPass_assemble by exact Hsecs.
  rewrite secondPass_content by exact Hpre.
  rewrite secondPass_assemble by exact Hsecs.
  cbn [pushAll].
  replace (pushSection env (Js.trim hl)
             (if Js.truthy (Js.trim hl)
              then ((if Js.truthy (Js.trim hl) then tl else []) ++ pre)%list
              else if Js.truthy (Js.trim hl) then tl else []) st)
    with (pushSection env (Js.trim hl) (tl ++ pre)%list st).
  - now destruct (pushSection env (Js.trim hl) (tl ++ pre)%list st).
  - destruct (Js.trim hl); [|reflexivity]. now rewrite !pushSection_unnamed.
Qed.

End WithEnv.

Lemma cards_of_a_note_witness :
  Js.split Js.LF "intro
# A
x" = (["intro"] ++ assemble ([] ++ [("A", ["x"])]))%list
  /\ option_map (map (fun card => (front card, back card)))
                (parseNotesToFlashcards Demo.env "T" "" "intro
# A
x")
     = Some [("A", "x<br>intro"); ("A", "x")].
Proof.
  assert (Hl : Js.split Js.LF "intro
# A
x" = (["intro"] ++ assemble ([] ++ [("A", ["x"])]))%list) by reflexivity.
  split; [exact Hl|].
  rewrite (@cards_of_a_note Demo.env "T" "" _ ["intro"] [] "A" ["x"] Hl).
  - vm_compute. reflexivity.
  - intros l [<-|[]]. reflexivity.
  - intros s [<-|[]]. intros l [<-|[]]. reflexivity.
Defined.

End StaleCardProofs.

Module PageProofs.
Import Pdf.

(** The page a drawing command went to. *)
Definition opPage (o : Op) : nat :=
  match o with
  | OpText p _ _ _ _ _ => p
  | OpLine p _ _ _ _ => p
  | OpRect p _ _ _ _ => p
  | OpImage p _ _ _ _ _ _ => p
  end.

(** Every drawing command of the document went to one of its pages. *)
Definition onPages (d : Doc) : Prop :=
  Forall (fun o => 1 <= opPage o <= numPages d) (ops d).

(** The current page is one of the pages. *)
Definition pageSet (d : Doc) : Prop := 1 <= curPage d <= numPages d.

(** The current page is the last one. *)
Definition atLast (d : Doc) : Prop := 1 <= numPages d /\ curPage d = numPages d.

(** [Reach d d']: [d'] comes from [d] by adding pages, drawing on the
    current page and setting fonts. *)
Inductive Reach (d : Doc) : Doc -> Prop :=
| Reach_refl : Reach d d
| Reach_addPage d' : Reach d d' -> Reach d (addPage d')
| Reach_emit o d' : Reach d d' -> opPage o = curPage d' -> Reach d (emit o d')
| Reach_font f d' : Reach d d' -> Reach d (MkDoc (numPages d') (curPage d') f (ops d')).

Lemma Reach_trans a b c : Reach a b -> Reach b c -> Reach a c.
Proof. intros Hab Hbc. induction Hbc; [exact Hab| | |]; now constructor. Qed.

Lemma Reach_keeps d d' :
  Reach d d' -> atLast d -> onPages d ->
  atLast d' /\ onPages d' /\ numPages d <= numPages d'.
Proof.
  intros H Hl Ho. induction H as [|d' H IH|o d' H IH Hp|f d' H IH].
  - repeat split; try apply Hl; [exact Ho|lia].
  - destruct IH as ((H1 & H2) & H3 & H4). unfold atLast, onPages, addPage in *. cbn.
    repeat split; try lia.
    eapply Forall_impl; [|exact H3]. cbn. intros o Hop. lia.
  - destruct IH as ((H1 & H2) & H3 & H4). unfold atLast, onPages, emit in *. cbn.
    repeat split; try lia.
    apply Forall_app. split; [exact H3|]. constructor; [|constructor]. lia.
  - destruct IH as ((H1 & H2) & H3 & H4). unfold atLast, onPages in *. cbn.
    repeat split; try lia. exact H3.
Qed.

Lemma Reach_text t x y a d d' : Reach d d' -> Reach d (text t x y a d').
Proof. intro H. unfold text. now apply Reach_emit. Qed.
Lemma Reach_textLines t x y d d' : Reach d d' -> Reach d (textLines t x y d').
Proof. intro H. unfold textLines. now apply Reach_emit. Qed.
Lemma Reach_line a b c e d d' : Reach d d' -> Reach d (line a b c e d').
Proof. intro H. unfold line. now apply Reach_emit. Qed.
Lemma Reach_rect a b c e d d' : Reach d d' -> Reach d (rect a b c e d').
Proof. intro H. unfold rect. now apply Reach_emit. Qed.
Lemma Reach_addImage s f a b c e d d' : Reach d d' -> Reach d (addImage s f a b c e d').
Proof. intro H. unfold addImage. now apply Reach_emit. Qed.
Lemma Reach_setFontSize sz d d' : Reach d d' -> Reach d (setFontSize sz d').
Proof. intro H. unfold setFontSize. now apply Reach_font. Qed.
Lemma Reach_setFont n s d d' : Reach d d' -> Reach d (setFont n s d').
Proof. intro H. unfold setFont, docSetFont. now apply Reach_font. Qed.

Create HintDb reach.
#[local] Hint Resolve Reach_refl Reach_addPage Reach_text Reach_textLines Reach_line Reach_rect
  Reach_addImage Reach_setFontSize Reach_setFont : reach.

(** Taking a call apart: its result as a pair, with the fact known of it. *)
Ltac pair_of e H :=
  let d := fresh "d" in let y := fresh "y" in
  destruct e as [d y]; cbn [fst snd] in H |- *.

Section WithEnv.
Variable env : Env.

Lemma reach_drawHeaderCells sep cols :
  forall i x y w d0 d, Reach d0 d -> Reach d0 (drawHeaderCells sep cols i x y w d).
Proof.
  induction cols as [|c cols IH]; intros i x y w d0 d H; cbn [drawHeaderCells]; auto with reach.
Qed.

Lemma reach_drawCellLines ls :
  forall i x y a d0 d, Reach d0 d -> Reach d0 (drawCellLines ls i x y a d).
Proof.
  induction ls as [|l ls IH]; intros i x y a d0 d H; cbn [drawCellLines]; auto with reach.
Qed.

Lemma reach_drawCells sep n cells :
  forall i x y w d0 d, Reach d0 d -> Reach d0 (drawCells env sep n cells i x y w d).
Proof.
  induction cells as [|c cells IH]; intros i x y w d0 d H; cbn [drawCells]; [exact H|].
  destruct (i <? n); apply IH; [apply reach_drawCellLines|]; exact H.
Qed.

Lemma reach_drawHeader fs sep cols x y cw tw d0 d :
  Reach d0 d -> Reach d0 (fst (drawHeader fs sep cols x y cw tw d)).
Proof.
  intro H. unfold drawHeader. cbn [fst].
  apply Reach_line, Reach_setFontSize, Reach_setFont, reach_drawHeaderCells,
    Reach_setFont, Reach_setFontSize, H.
Qed.

Lemma reach_drawRows fs sep cols rows x cw tw ph m :
  forall d0 d y, Reach d0 d -> Reach d0 (fst (drawRows env fs sep cols rows x cw tw ph m d y)).
Proof.
  induction rows as [|row rest IH]; intros d0 d y H; cbn [drawRows]; [exact H|].
  destruct (Num.gtb _ _).
  - pose proof (@reach_drawHeader fs sep cols x m cw tw d0 (addPage d) (Reach_addPage H)) as Hh.
    destruct (drawHeader fs sep cols x m cw tw (addPage d)) as [d1 y1]. cbn [fst] in Hh.
    apply IH. destruct rest; [|apply Reach_line]; now apply reach_drawCells.
  - apply IH. destruct rest; [|apply Reach_line]; now apply reach_drawCells.
Qed.

Lemma reach_renderTable d0 d tableText x y maxWidth ph m fs :
  Reach d0 d -> Reach d0 (fst (renderTable env d tableText x y maxWidth ph m fs)).
Proof.
  intro H. unfold renderTable.
  destruct (filter isTableRow tableText) as [|headerRow [|separatorRow contentRows]];
    try exact H.
  destruct (Num.gtb _ _).
  - match goal with
    | |- context [drawHeader ?fs ?sep ?cols ?x ?y ?cw ?tw ?d1] =>
        pose proof (@reach_drawHeader fs sep cols x y cw tw d0 d1 (Reach_addPage H)) as Hh;
        destruct (drawHeader fs sep cols x y cw tw d1) as [d2 y2]; cbn [fst] in Hh
    end.
    match goal with
    | |- context [drawRows env ?fs ?sep ?cols ?rows ?x ?cw ?tw ?ph ?m ?d1 ?y1] =>
        pose proof (@reach_drawRows fs sep cols rows x cw tw ph m d0 d1 y1 Hh) as Hr;
        destruct (drawRows env fs sep cols rows x cw tw ph m d1 y1) as [d3 y3]; cbn [fst] in Hr
    end.
    exact Hr.
  - match goal with
    | |- context [drawHeader ?fs ?sep ?cols ?x ?y ?cw ?tw ?d1] =>
        pose proof (@reach_drawHeader fs sep cols x y cw tw d0 d1 H) as Hh;
        destruct (drawHeader fs sep cols x y cw tw d1) as [d2 y2]; cbn [fst] in Hh
    end.
    match goal with
    | |- context [drawRows env ?fs ?sep ?cols ?rows ?x ?cw ?tw ?ph ?m ?d1 ?y1] =>
        pose proof (@reach_drawRows fs sep cols rows x cw tw ph m d0 d1 y1 Hh) as Hr;
        destruct (drawRows env fs sep cols rows x cw tw ph m d1 y1) as [d3 y3]; cbn [fst] in Hr
    end.
    exact Hr.
Qed.

Lemma reach_breakIfFull name ph m d0 d y :
  Reach d0 d -> Reach d0 (fst (breakIfFull name ph m d y)).
Proof. intro H. unfold breakIfFull. destruct (Num.gtb _ _); cbn [fst]; auto with reach. Qed.

Lemma reach_drawItemLines fs ls x ph m :
  forall d0 d y, Reach d0 d -> Reach d0 (fst (drawItemLines fs ls x ph m d y)).
Proof.
  induction ls as [|l ls IH]; intros d0 d y H; cbn [drawItemLines]; [exact H|].
  pose proof (@reach_breakIfFull (bodyFont fs) ph m d0 d y H) as Hb.
  destruct (breakIfFull (bodyFont fs) ph m d y) as [d1 y1]. cbn [fst] in Hb.
  apply IH. auto with reach.
Qed.

Lemma reach_drawItems fs items x w b ph m :
  forall i d0 d y, Reach d0 d -> Reach d0 (fst (drawItems env fs items i x w b ph m d y)).
Proof.
  induction items as [|it items IH]; intros i d0 d y H; cbn [drawItems]; [exact H|].
  pose proof (@reach_breakIfFull (bodyFont fs) ph m d0 d y H) as Hb.
  destruct (breakIfFull (bodyFont fs) ph m d y) as [d1 y1]. cbn [fst] in Hb.
  match goal with
  | |- context [drawItemLines ?fs0 ?ls ?tx ?ph0 ?m0 ?d2 ?y2] =>
      pose proof (@reach_drawItemLines fs0 ls tx ph0 m0 d0 d2 y2) as Hr;
      destruct (drawItemLines fs0 ls tx ph0 m0 d2 y2) as [d3 y3]; cbn [fst] in Hr
  end.
  apply IH. apply Hr. auto with reach.
Qed.

Lemma reach_renderList d0 d items x y w b ph m fs :
  Reach d0 d -> Reach d0 (fst (renderList env d items x y w b ph m fs)).
Proof.
  intro H. unfold renderList.
  match goal with
  | |- context [drawItems env ?fs0 ?ls ?i ?x0 ?w0 ?b0 ?ph0 ?m0 ?d2 ?y2] =>
      pose proof (@reach_drawItems fs0 ls x0 w0 b0 ph0 m0 i d0 d2 y2) as Hr;
      destruct (drawItems env fs0 ls i x0 w0 b0 ph0 m0 d2 y2) as [d3 y3]; cbn [fst] in Hr
  end.
  cbn [fst]. apply Hr. auto with reach.
Qed.

Lemma reach_drawCodeLines ls x w ph m :
  forall d0 d y, Reach d0 d -> Reach d0 (fst (drawCodeLines ls x w ph m d y)).
Proof.
  induction ls as [|l ls IH]; intros d0 d y H; cbn [drawCodeLines]; [exact H|].
  destruct (Num.gtb _ _); apply IH; auto 10 with reach.
Qed.

Lemma reach_renderCodeBlock d0 d ls x y w ph m fs :
  Reach d0 d -> Reach d0 (fst (renderCodeBlock d ls x y w ph m fs)).
Proof.
  intro H. unfold renderCodeBlock.
  destruct (Num.gtb _ _);
    match goal with
    | |- context [drawCodeLines ?ls0 ?x0 ?w0 ?ph0 ?m0 ?d2 ?y2] =>
        pose proof (@reach_drawCodeLines ls0 x0 w0 ph0 m0 d0 d2 y2) as Hr;
        destruct (drawCodeLines ls0 x0 w0 ph0 m0 d2 y2) as [d3 y3]; cbn [fst] in Hr
    end;
    cbn [fst]; apply Hr; auto 10 with reach.
Qed.

Lemma reach_drawQuoteText fs ls x ph m :
  forall d0 d y s, Reach d0 d -> Reach d0 (fst (fst (drawQuoteText fs ls x ph m d y s))).
Proof.
  induction ls as [|l ls IH]; intros d0 d y s H; cbn [drawQuoteText]; [exact H|].
  destruct (Num.gtb _ _); apply IH; auto 10 with reach.
Qed.

Lemma reach_drawQuoteLines fs ls x w ph m :
  forall d0 d y s, Reach d0 d -> Reach d0 (fst (fst (drawQuoteLines env fs ls x w ph m d y s))).
Proof.
  induction ls as [|l ls IH]; intros d0 d y s H; cbn [drawQuoteLines]; [exact H|].
  match goal with
  | |- context [drawQuoteText ?fs0 ?ls0 ?x0 ?ph0 ?m0 ?d2 ?y2 ?s2] =>
      pose proof (@reach_drawQuoteText fs0 ls0 x0 ph0 m0 d0 d2 y2 s2 H) as Hr;
      destruct (drawQuoteText fs0 ls0 x0 ph0 m0 d2 y2 s2) as [[d3 y3] s3]; cbn [fst] in Hr
  end.
  now apply IH.
Qed.

Lemma reach_renderBlockquote d0 d ls x y w ph m fs :
  Reach d0 d -> Reach d0 (fst (renderBlockquote env d ls x y w ph m fs)).
Proof.
  intro H. unfold renderBlockquote.
  destruct (Num.gtb _ _);
    match goal with
    | |- context [drawQuoteLines env ?fs0 ?ls0 ?x0 ?w0 ?ph0 ?m0 ?d2 ?y2 ?s2] =>
        pose proof (@reach_drawQuoteLines fs0 ls0 x0 w0 ph0 m0 d0 d2 y2 s2) as Hr;
        destruct (drawQuoteLines env fs0 ls0 x0 w0 ph0 m0 d2 y2 s2) as [[d3 y3] s3];
        cbn [fst] in Hr
    end;
    cbn [fst]; apply Reach_line; apply Hr; auto 10 with reach.
Qed.

Lemma reach_breakWithDividerFor h si fs ph m k d0 d y :
  Reach d0 d -> Reach d0 (fst (breakWithDividerFor h si fs ph m k d y)).
Proof.
  intro H. unfold breakWithDividerFor. destruct (Num.gtb _ _); cbn [fst]; [|exact H].
  destruct (_ <? _); auto 10 with reach.
Qed.

Lemma reach_drawParagraphLines si fs ls x ph m k :
  forall d0 d y, Reach d0 d -> Reach d0 (fst (drawParagraphLines si fs ls x ph m k d y)).
Proof.
  induction ls as [|l ls IH]; intros d0 d y H; cbn [drawParagraphLines]; [exact H|].
  unfold breakWithDivider.
  pose proof (@reach_breakWithDividerFor lineHeight si fs ph m k d0 d y H) as Hb.
  destruct (breakWithDividerFor lineHeight si fs ph m k d y) as [d1 y1]. cbn [fst] in Hb.
  apply IH. auto with reach.
Qed.

Lemma reach_renderParagraph si fs l x w ph m k d0 d y :
  Reach d0 d -> Reach d0 (fst (renderParagraph env si fs l x w ph m k d y)).
Proof.
  intro H. unfold renderParagraph.
  match goal with
  | |- context [drawParagraphLines ?si0 ?fs0 ?ls0 ?x0 ?ph0 ?m0 ?k0 ?d2 ?y2] =>
      pose proof (@reach_drawParagraphLines si0 fs0 ls0 x0 ph0 m0 k0 d0 d2 y2) as Hr;
      destruct (drawParagraphLines si0 fs0 ls0 x0 ph0 m0 k0 d2 y2) as [d3 y3]; cbn [fst] in Hr
  end.
  cbn [fst]. apply Hr. auto with reach.
Qed.

Lemma reach_renderHeading fs l x w ph m d0 d y :
  Reach d0 d -> Reach d0 (fst (renderHeading env fs l x w ph m d y)).
Proof.
  intro H. unfold renderHeading. destruct (Num.gtb _ _); cbn [fst]; auto 10 with reach.
Qed.

Lemma reach_renderLines fuel si fs x w ph m k :
  forall lines d0 d y r,
    Reach d0 d ->
    renderLines env fuel si fs lines x w ph m k d y = Some r ->
    Reach d0 (fst r).
Proof.
  induction fuel as [|fuel IH]; intros lines d0 d y r H Hr.
  - destruct lines; [|discriminate]. cbn in Hr. injection Hr as <-. exact H.
  - destruct lines as [|l after]; [cbn in Hr; injection Hr as <-; exact H|].
    cbn [renderLines] in Hr. unfold breakWithDivider in Hr.
    pose proof (@reach_breakWithDividerFor lineHeight si fs ph m k d0 d y H) as Hb.
    destruct (breakWithDividerFor lineHeight si fs ph m k d y) as [d1 y1]. cbn [fst] in Hb.
    repeat match type of Hr with
           | (if ?c then _ else _) = Some _ => destruct c
           end;
      (eapply IH; [|exact Hr]); cbn [fst snd];
      first [ exact Hb
            | now apply reach_renderTable
            | now apply reach_renderCodeBlock
            | now apply reach_renderBlockquote
            | now apply reach_renderList
            | now apply reach_renderHeading
            | now apply reach_renderParagraph ].
Qed.

Lemma reach_addOneImage si fs src x w ph m k d0 d y :
  Reach d0 d -> Reach d0 (fst (addOneImage env si fs src x w ph m k d y)).
Proof.
  intro H. unfold addOneImage.
  pose proof (@reach_breakWithDividerFor maxImageHeight si fs ph m k d0 d y H) as Hb.
  destruct (breakWithDividerFor maxImageHeight si fs ph m k d y) as [d1 y1]. cbn [fst] in Hb.
  destruct (isPlaceholder src); [exact Hb|].
  match goal with
  | |- context [match ?r with Some _ => _ | None => _ end] =>
      destruct r as [src'|]; [|exact Hb]
  end.
  destruct (Js.startsWith "data:" src'); [|exact Hb].
  destruct (formatOf src') as [format|]; [|exact Hb].
  destruct (imageSize env src') as [[iw ih]|]; [|exact Hb].
  destruct (imageDims w iw ih) as [fw fh].
  destruct (Num.gtb _ _); [destruct (_ <? _)|];
    destruct (addImageThrows env src'); cbn [fst]; auto 10 with reach.
Qed.

Lemma reach_addImagesToPdf d0 d content x y w ph m k si fs :
  Reach d0 d -> Reach d0 (fst (addImagesToPdf env d content x y w ph m k si fs)).
Proof.
  unfold addImagesToPdf.
  generalize (filter Js.truthy (map (Re.group 1) (Re.matchAll htmlImageRegex content))).
  intros imgs. revert d y. induction imgs as [|src rest IH]; intros d y H; cbn [addImageList].
  - exact H.
  - pose proof (@reach_addOneImage si fs src x w ph m k d0 d y H) as Ho.
    destruct (addOneImage env si fs src x w ph m k d y) as [d1 y1]. cbn [fst] in Ho.
    now apply IH.
Qed.

End WithEnv.
End PageProofs.

Module DocumentPageProofs.
Import Pdf PageProofs.

#[local] Hint Resolve Reach_refl Reach_addPage Reach_text Reach_textLines Reach_line Reach_rect
  Reach_addImage Reach_setFontSize Reach_setFont : reach.

Section WithEnv.
Variable env : Env.

Lemma reach_drawLinesFrom ls :
  forall i x y d0 d, Reach d0 d -> Reach d0 (drawLinesFrom ls i x y d).
Proof.
  induction ls as [|l ls IH]; intros i x y d0 d H; cbn [drawLinesFrom]; auto with reach.
Qed.

(** Drawing on a page that was set by hand: the commands stay on the
    pages, the number of pages stays. *)
Lemma onPages_setPage n d : onPages d -> onPages (setPage n d).
Proof. trivial. Qed.

Lemma onPages_line a b c e d : pageSet d -> onPages d -> onPages (line a b c e d).
Proof.
  intros Hp Ho. unfold onPages, line, emit in *. cbn.
  apply Forall_app. split; [exact Ho|]. constructor; [exact Hp|constructor].
Qed.

Lemma onPages_text t x y a d : pageSet d -> onPages d -> onPages (text t x y a d).
Proof.
  intros Hp Ho. unfold onPages, text, emit in *. cbn.
  apply Forall_app. split; [exact Ho|]. constructor; [exact Hp|constructor].
Qed.

Lemma drawDividers_pages pages startPage endPage startY endY :
  forall d,
    (forall p, In p pages -> 1 <= p <= numPages d) ->
    onPages d ->
    onPages (drawDividers env pages startPage endPage startY endY d)
    /\ numPages (drawDividers env pages startPage endPage startY endY d) = numPages d.
Proof.
  induction pages as [|p pages IH]; intros d Hp Ho; cbn [drawDividers].
  - now split.
  - assert (Hset : pageSet (setPage p d)) by (apply Hp; now left).
    repeat match goal with
           | |- context [if ?c then _ else _] => destruct c
           end;
      (match goal with
       | |- onPages (drawDividers env pages _ _ _ _ ?d1) /\ _ =>
           destruct (IH d1) as [H1 H2];
           [ intros q Hq; apply Hp; now right
           | now apply onPages_line
           | split; [exact H1|exact H2] ]
       end).
Qed.

(** What holds of the state of the section loop at the top of every turn. *)
Definition Inv (st : LoopState) : Prop :=
  atLast (ls_doc st) /\ onPages (ls_doc st)
  /\ Forall (fun b => 1 <= b_endPage b <= numPages (ls_doc st)) (ls_boundaries st).

Lemma in_pagesFromTo p a b : In p (pagesFromTo a b) -> a <= p <= b.
Proof. unfold pagesFromTo. intro H. apply in_seq in H. lia. Qed.

Lemma renderSections_inv fs sections :
  forall index total st st',
    Inv st -> renderSections env fs sections index total st = Some st' -> Inv st'.
Proof.
  induction sections as [|section rest IH]; intros index total st st' Hinv H.
  - cbn in H. now injection H as <-.
  - cbn [renderSections] in H.
    destruct (negb (Js.truthy (Js.trim (content section)))); [eapply IH; eassumption|].
    destruct Hinv as (Hlast & Hon & Hb).
    cbv zeta in H.
    (* the page break in front of the section *)
    assert (Hstart : exists d1 y1,
               Reach (ls_doc st) d1
               /\ (if Num.gtb (ls_y st + 20) (pageHeight env - margin)
                   then (addPage (ls_doc st), (margin + 8)%num) else (ls_doc st, ls_y st))
                  = (d1, y1)).
    { destruct (Num.gtb _ _); eexists; eexists; (split; [|reflexivity]); auto with reach. }
    destruct Hstart as (d1 & y1 & Hreach1 & E). rewrite E in H. clear E.
    match type of H with
    | context [renderMarkdownContent env ?d ?c ?x ?y ?w ?ph ?m ?k ?si ?fs0] =>
        assert (HD : Reach d1 d)
          by (repeat first [apply Reach_setFont | apply Reach_setFontSize
                           | apply reach_drawLinesFrom]; apply Reach_refl);
        destruct (renderMarkdownContent env d c x y w ph m k si fs0) as [[d2 y2]|] eqn:Hr;
        [|discriminate]
    end.
    unfold renderMarkdownContent in Hr.
    eapply reach_renderLines in Hr; [|exact HD]. cbn [fst] in Hr.
    match type of H with
    | context [addImagesToPdf env ?d ?c ?x ?y ?w ?ph ?m ?k ?si ?fs0] =>
        pose proof (@reach_addImagesToPdf env d1 d c x y w ph m k si fs0 Hr) as Hi;
        destruct (addImagesToPdf env d c x y w ph m k si fs0) as [d3 y3]
    end.
    cbn [fst] in Hi.
    destruct (Reach_keeps Hreach1 Hlast Hon) as (Hlast1 & Hon1 & Hle1).
    destruct (Reach_keeps Hi Hlast1 Hon1) as (Hlast3 & Hon3 & Hle3).
    destruct Hlast1 as [H1a H1b]. destruct Hlast3 as [H3a H3b].
    match type of H with
    | context [drawDividers env ?pages ?sp ?ep ?sy ?ey d3] =>
        destruct (@drawDividers_pages pages sp ep sy ey d3) as [Hdiv Hnum];
        [ intros p Hp; apply in_pagesFromTo in Hp; lia
        | exact Hon3
        | ]
    end.
    eapply IH; [|exact H]. unfold Inv. cbn [ls_doc ls_boundaries].
    unfold atLast, setPage. cbn [numPages curPage]. unfold onPages in *. cbn [ops numPages].
    rewrite Hnum in Hdiv |- *. split; [split; [exact H3a|exact H3b]|split; [exact Hdiv|]].
    apply Forall_app. split.
    + eapply Forall_impl; [|exact Hb]. cbn. intros b Hb'. lia.
    + constructor; [|constructor]. cbn [b_endPage]. lia.
Qed.

Lemma drawBottomLines_pages boundaries :
  forall d,
    pageSet d -> onPages d ->
    Forall (fun b => 1 <= b_endPage b <= numPages d) boundaries ->
    pageSet (drawBottomLines env boundaries d)
    /\ onPages (drawBottomLines env boundaries d)
    /\ numPages (drawBottomLines env boundaries d) = numPages d.
Proof.
  induction boundaries as [|b rest IH]; intros d Hp Ho Hb; cbn [drawBottomLines].
  - split; [exact Hp|split; [exact Ho|reflexivity]].
  - destruct rest as [|b' rest']; [split; [exact Hp|split; [exact Ho|reflexivity]]|].
    inversion Hb as [|? ? Hb1 Hb2]; subst.
    match goal with
    | |- pageSet (drawBottomLines env _ ?d1) /\ _ =>
        destruct (IH d1) as (H1 & H2 & H3);
        [ exact Hb1
        | apply onPages_line; [exact Hb1|exact Ho]
        | exact Hb2
        | repeat split; [apply H1|apply H1|exact H2|exact H3] ]
    end.
Qed.

Lemma onPages_drawLinesFrom ls :
  forall i x y d, pageSet d -> onPages d ->
    pageSet (drawLinesFrom ls i x y d) /\ onPages (drawLinesFrom ls i x y d)
    /\ numPages (drawLinesFrom ls i x y d) = numPages d.
Proof.
  induction ls as [|l ls IH]; intros i x y d Hp Ho; cbn [drawLinesFrom].
  - split; [exact Hp|split; [exact Ho|reflexivity]].
  - match goal with
    | |- pageSet (drawLinesFrom ls ?i0 ?x0 ?y0 ?d1) /\ _ =>
        destruct (IH i0 x0 y0 d1) as (H1 & H2 & H3);
        [ exact Hp | now apply onPages_text | ]
    end.
    split; [exact H1|split; [exact H2|exact H3]].
Qed.

Lemma drawContinuations_pages fs sections continuation pages :
  forall d,
    pageSet d -> onPages d ->
    (forall p, In p pages -> 1 <= p <= numPages d) ->
    pageSet (drawContinuations env fs sections continuation pages d)
    /\ onPages (drawContinuations env fs sections continuation pages d)
    /\ numPages (drawContinuations env fs sections continuation pages d) = numPages d.
Proof.
  induction pages as [|p pages IH]; intros d Hp Ho Hin; cbn [drawContinuations].
  - split; [exact Hp|split; [exact Ho|reflexivity]].
  - destruct (lookupPage p continuation) as [i|].
    + match goal with
      | |- context [drawLinesFrom ?ls ?i0 ?x ?y ?d1] =>
          destruct (@onPages_drawLinesFrom ls i0 x y d1) as (H1 & H2 & H3);
          [ apply Hin; now left | exact Ho | ]
      end.
      match goal with
      | |- pageSet (drawContinuations env _ _ _ _ ?d2) /\ _ =>
          destruct (IH d2) as (K1 & K2 & K3);
          [ exact H1 | exact H2
          | intros q Hq; rewrite H3; apply Hin; now right
          | repeat split; [apply K1|apply K1|exact K2|rewrite K3; exact H3] ]
      end.
    + apply IH; [exact Hp|exact Ho|intros q Hq; apply Hin; now right].
Qed.

Lemma reach_drawNoteLinks fs links :
  forall d0 d y, Reach d0 d -> Reach d0 (fst (drawNoteLinks env fs links d y)).
Proof.
  induction links as [|l links IH]; intros d0 d y H; cbn [drawNoteLinks]; [exact H|].
  pose proof (@reach_breakIfFull (bodyFont fs) (pageHeight env) margin d0 d y H) as Hb.
  destruct (breakIfFull (bodyFont fs) (pageHeight env) margin d y) as [d1 y1]. cbn [fst] in Hb.
  apply IH. auto with reach.
Qed.

Lemma drawRelatedNotes_pages fs links d y :
  pageSet d -> onPages d ->
  pageSet (drawRelatedNotes env fs links d y) /\ onPages (drawRelatedNotes env fs links d y).
Proof.
  intros Hp Ho. unfold drawRelatedNotes. destruct links as [|l links]; [now split|].
  assert (Hlast : atLast (setPage (numPages d) d)).
  { unfold atLast, setPage. cbn. split; [|reflexivity]. unfold pageSet in Hp. lia. }
  assert (Hon : onPages (setPage (numPages d) d)) by exact Ho.
  destruct (Num.gtb _ _); cbv beta iota;
    (match goal with
     | |- pageSet (fst ?e) /\ _ =>
         assert (Hr : Reach (setPage (numPages d) d) (fst e))
           by (apply reach_drawNoteLinks; auto 10 with reach)
     end;
     destruct (Reach_keeps Hr Hlast Hon) as ((H1 & H2) & H3 & _);
     split; [|exact H3]; unfold pageSet; rewrite H2; lia).
Qed.

(** The document that is handed to the download. *)
Lemma start_inv d y : Reach newDoc d -> Inv (MkLoopState d y [] []).
Proof.
  intro Hr. unfold Inv. cbn [ls_doc ls_boundaries].
  assert (Hl0 : atLast newDoc) by (split; [apply Nat.le_refl|reflexivity]).
  assert (Ho0 : onPages newDoc) by constructor.
  destruct (Reach_keeps Hr Hl0 Ho0) as (H1 & H2 & _).
  split; [exact H1|split; [exact H2|constructor]].
Qed.

Lemma after_sections_pages fs sections noteLinks st :
  Inv st ->
  let doc := drawBottomLines env (ls_boundaries st) (ls_doc st) in
  let doc := drawContinuations env fs sections (ls_continuation st)
                               (pagesFromTo 1 (numPages doc)) doc in
  let doc := drawRelatedNotes env fs noteLinks doc (ls_y st) in
  pageSet doc /\ onPages doc.
Proof.
  intros ((Ha & Hb) & Hon & Hbs). cbv zeta.
  assert (Hp : pageSet (ls_doc st)) by (unfold pageSet; lia).
  destruct (@drawBottomLines_pages (ls_boundaries st) (ls_doc st) Hp Hon Hbs) as (B1 & B2 & B3).
  match goal with
  | |- context [drawContinuations env ?fs0 ?ss ?c ?pages ?d] =>
      destruct (@drawContinuations_pages fs0 ss c pages d B1 B2) as (C1 & C2 & C3);
      [intros p Hin; apply in_pagesFromTo in Hin; lia|]
  end.
  now apply drawRelatedNotes_pages.
Qed.

(** The document that is handed to the download. *)
Lemma renderDocument_pages title summary font sections noteLinks name doc :
  renderDocument env title summary font sections noteLinks = Some (Downloaded name doc) ->
  pageSet doc /\ onPages doc.
Proof.
  unfold renderDocument. cbv zeta.
  destruct (Js.truthy summary); cbv beta iota;
    (match goal with
     | |- context [renderSections env ?fs ?ss ?i ?t (MkLoopState ?d0 ?y0 [] [])] =>
         assert (Hinv : Inv (MkLoopState d0 y0 [] []))
           by (apply start_inv;
               repeat first [apply Reach_line | apply reach_drawLinesFrom | apply Reach_setFont
                            | apply Reach_setFontSize | apply Reach_text]; apply Reach_refl);
         destruct (renderSections env fs ss i t (MkLoopState d0 y0 [] [])) as [st'|] eqn:Hs;
         [|discriminate]
     end;
     apply renderSections_inv in Hs; [|exact Hinv];
     intro H; injection H as _ <-;
     now apply after_sections_pages).
Qed.

(** X11.  [exportToPdf] never draws on a page the document does not have.
    For every title, summary, body and font the export ends with the
    download of a document whose every drawing command (text, line,
    rectangle, image) went to a page between 1 and the number of pages,
    and whose current page is one of its pages. *)
Theorem pdf_draws_on_its_pages (title summary markdown : string) (font : FontChoice) :
  exists doc,
    exportToPdf env title summary markdown font = Some (Downloaded (pdfFilename title) doc)
    /\ Forall (fun o => 1 <= opPage o <= numPages doc) (ops doc)
    /\ 1 <= curPage doc <= numPages doc.
Proof.
  destruct (NoHeadingProofs.pdf_always_downloads env title summary markdown font) as [doc H].
  exists doc. split; [exact H|].
  unfold exportToPdf in H. apply renderDocument_pages in H.
  destruct H as [Hp Ho]. split; [exact Ho|exact Hp].
Qed.

End WithEnv.
End DocumentPageProofs.

Module LineFacts.
Import Re ReFacts StrFacts.
Local Open Scope string_scope.

(** A text without a line terminator. *)
Definition oneLine (s : string) : bool := allChars dot s.

(** What follows a line: nothing, or a line terminator. *)
Definition endsLine (s : string) : Prop :=
  match s with
  | EmptyString => True
  | String c _ => Js.isLineTerminator c = true
  end.

(** A position where a line can start. *)
Definition startsLine (p : option ascii) : Prop :=
  match p with
  | None => True
  | Some c => Js.isLineTerminator c = true
  end.

Lemma lit_app w :
  forall p s cs k,
    rmatch (Lit w) (MState p (w ++ s) cs) k = k (MState (lastChar p w) s cs).
Proof.
  induction w as [|c w IH]; intros p s cs k.
  - reflexivity.
  - cbn [Lit rmatch rest append caps]. unfold only. rewrite Ascii.eqb_refl. apply IH.
Qed.

Lemma run_line t rest' :
  oneLine t = true -> endsLine rest' ->
  takeRun dot (t ++ rest') = t /\ dropRun dot (t ++ rest') = rest'.
Proof.
  intros Ht He. induction t as [|c t IH].
  - cbn [append]. destruct rest' as [|d r]; [now split|].
    cbn [takeRun dropRun]. unfold dot. cbn in He. rewrite He. now split.
  - cbn [oneLine allChars] in Ht. apply andb_true_iff in Ht. destruct Ht as [Hc Ht].
    cbn [append takeRun dropRun]. rewrite Hc. destruct (IH Ht) as [-> ->]. now split.
Qed.

Lemma lastChar_app p a b : lastChar p (a ++ b) = lastChar (lastChar p a) b.
Proof. revert p. induction a as [|c a IH]; intro p; [reflexivity|apply IH]. Qed.

(** One or more characters of a line, up to its end, when what follows
    the pattern accepts the end of the line. *)
Lemma plus_line t rest' p cs k x :
  t <> EmptyString -> oneLine t = true -> endsLine rest' ->
  k (MState (lastChar p t) rest' cs) = Some x ->
  rmatch (Plus true (Chr dot)) (MState p (t ++ rest') cs) k = Some x.
Proof.
  intros Hne Ht He Hk. destruct t as [|c t]; [congruence|].
  cbn [oneLine allChars] in Ht. apply andb_true_iff in Ht. destruct Ht as [Hc Ht].
  unfold Plus. cbn [rmatch rest append caps]. rewrite Hc.
  destruct (run_line t rest' Ht He) as [Hrun Hdrop].
  etransitivity.
  { apply starLoop_chr_greedy with (w := dot).
    - cbn [rest]. apply Nat.le_refl.
    - rewrite Hrun, Hdrop. cbn [lastChar] in Hk. rewrite Hk. discriminate. }
  rewrite Hrun, Hdrop. exact Hk.
Qed.

Lemma atEol_line p rest' cs : endsLine rest' -> atEol true (MState p rest' cs) = true.
Proof. unfold atEol. cbn [rest]. destruct rest'; [reflexivity|]. cbn. now intros ->. Qed.

Lemma atBol_line p s cs : startsLine p -> atBol true (MState p s cs) = true.
Proof. unfold atBol. cbn [prev]. destruct p; [|reflexivity]. cbn. now intros ->. Qed.

(** A pattern for a whole line that starts with the text [start]. *)
Definition lineCapture (start : string) : regex :=
  Seq [Bol true; Lit start; Group 1 (Plus true (Chr dot)); Eol true].
Definition lineThrough (start : string) : regex :=
  Seq [Bol true; Lit start; Plus true (Chr dot); Eol true].

Lemma matchAt_lineCapture start t rest' p :
  startsLine p -> t <> EmptyString -> oneLine t = true -> endsLine rest' ->
  matchAt (lineCapture start) p (start ++ t ++ rest')
  = Some (MState (lastChar (lastChar p start) t) rest' [(1, t)]).
Proof.
  intros Hp Hne Ht He. unfold matchAt, lineCapture. cbn [Seq rmatch].
  rewrite atBol_line by exact Hp. rewrite lit_app. cbn [rest].
  apply plus_line; try assumption.
  cbn [rest prev caps]. rewrite atEol_line by exact He.
  unfold setCap. now rewrite taken_append.
Qed.

Lemma matchAt_lineThrough start t rest' p :
  startsLine p -> t <> EmptyString -> oneLine t = true -> endsLine rest' ->
  matchAt (lineThrough start) p (start ++ t ++ rest')
  = Some (MState (lastChar (lastChar p start) t) rest' []).
Proof.
  intros Hp Hne Ht He. unfold matchAt, lineThrough. cbn [Seq rmatch].
  rewrite atBol_line by exact Hp. rewrite lit_app.
  apply plus_line; try assumption.
  now rewrite atEol_line by exact He.
Qed.

(** ** Positions where a pattern anchored at a line start cannot match *)

(** [dead a p u]: at no position of [u] (read after the character [p]) does
    a line start with the character [a]. *)
Fixpoint dead (a : ascii) (p : option ascii) (u : string) : bool :=
  match u with
  | EmptyString => true
  | String c u' =>
      (match p with
       | Some q => negb (Js.isLineTerminator q)
       | None => false
       end || negb (Ascii.eqb a c))
      && dead a (Some c) u'
  end.

Lemma anchored_fails a start' r p c s :
  (match p with Some q => negb (Js.isLineTerminator q) | None => false end
   || negb (Ascii.eqb a c)) = true ->
  matchAt (Cat (Bol true) (Cat (Lit (String a start')) r)) p (String c s) = None.
Proof.
  intro H. unfold matchAt. cbn [rmatch Lit rest]. unfold atBol. cbn [prev].
  destruct p as [q|].
  - cbn [andb]. destruct (Js.isLineTerminator q); [|reflexivity].
    cbn in H. apply negb_true_iff in H. unfold only. now rewrite H.
  - cbn in H. apply negb_true_iff in H. unfold only. now rewrite H.
Qed.

Lemma search_dead a start' r u :
  forall idx p rest',
    dead a p u = true ->
    search (Cat (Bol true) (Cat (Lit (String a start')) r)) idx p (u ++ rest')
    = search (Cat (Bol true) (Cat (Lit (String a start')) r))
             (idx + String.length u) (lastChar p u) rest'.
Proof.
  induction u as [|c u IH]; intros idx p rest' Hd.
  - cbn [append String.length lastChar]. now rewrite Nat.add_0_r.
  - cbn [dead] in Hd. apply andb_true_iff in Hd. destruct Hd as [Hc Hd].
    cbn [append search]. rewrite anchored_fails by exact Hc.
    rewrite IH by exact Hd. cbn [String.length lastChar]. f_equal. lia.
Qed.

Lemma replaceOnce_dead a start' r f u :
  forall idx p rest',
    dead a p u = true ->
    replaceOnceFrom (Cat (Bol true) (Cat (Lit (String a start')) r)) f idx p (u ++ rest')
    = u ++ replaceOnceFrom (Cat (Bol true) (Cat (Lit (String a start')) r)) f
                           (idx + String.length u) (lastChar p u) rest'.
Proof.
  induction u as [|c u IH]; intros idx p rest' Hd.
  - cbn [append String.length lastChar]. now rewrite Nat.add_0_r.
  - cbn [dead] in Hd. apply andb_true_iff in Hd. destruct Hd as [Hc Hd].
    cbn [append replaceOnceFrom]. rewrite anchored_fails by exact Hc.
    rewrite IH by exact Hd. cbn [String.length lastChar]. rewrite Nat.add_succ_r. reflexivity.
Qed.

Lemma dead_app a u v :
  forall p, dead a p (u ++ v) = dead a p u && dead a (lastChar p u) v.
Proof.
  induction u as [|c u IH]; intro p.
  - reflexivity.
  - cbn [append dead lastChar]. rewrite IH. now rewrite andb_assoc.
Qed.

(** Inside a line, after its first character, no line starts. *)
Lemma dead_inside a c t : Js.isLineTerminator c = false -> oneLine t = true ->
  dead a (Some c) t = true.
Proof.
  revert c. induction t as [|d t IH]; intros c Hc Ht; [reflexivity|].
  cbn [oneLine allChars] in Ht. apply andb_true_iff in Ht. destruct Ht as [Hd Ht].
  cbn [dead]. rewrite Hc. cbn [negb orb andb]. apply IH; [|exact Ht].
  unfold dot in Hd. now apply negb_true_iff in Hd.
Qed.

Lemma lastChar_line c t :
  Js.isLineTerminator c = false -> oneLine t = true ->
  exists d, lastChar (Some c) t = Some d /\ Js.isLineTerminator d = false.
Proof.
  revert c. induction t as [|e t IH]; intros c Hc Ht.
  - now exists c.
  - cbn [oneLine allChars] in Ht. apply andb_true_iff in Ht. destruct Ht as [He Ht].
    cbn [lastChar]. apply IH; [|exact Ht]. unfold dot in He. now apply negb_true_iff in He.
Qed.

End LineFacts.

Module RoundTripProofs.
Import Re ReFacts StrFacts ReplaceFacts LineFacts Notes ExportImport.
Local Open Scope string_scope.

Definition nl2 : string := Js.nl ++ Js.nl.

(** Lines, each followed by an empty line. *)
Fixpoint blocks (ls : list string) : string :=
  match ls with
  | [] => ""
  | l :: r => l ++ nl2 ++ blocks r
  end.

Lemma blocks_app a b : blocks (a ++ b)%list = blocks a ++ blocks b.
Proof.
  induction a as [|l a IH]; [reflexivity|].
  cbn [app blocks]. rewrite IH. now rewrite <- !append_assoc.
Qed.

Definition firstOk (a : ascii) (l : string) : bool :=
  match l with
  | EmptyString => true
  | String c _ => negb (Ascii.eqb a c)
  end.

Lemma dead_blocks a ls :
  Ascii.eqb a Js.LF = false ->
  (forall l, In l ls -> oneLine l = true /\ firstOk a l = true) ->
  forall p, dead a p (blocks ls) = true.
Proof.
  intros Ha. induction ls as [|l ls IH]; intros Hl p; [reflexivity|].
  cbn [blocks]. destruct (Hl l (or_introl eq_refl)) as [Hone Hfirst].
  assert (IH' : forall q, dead a q (blocks ls) = true)
    by (apply IH; intros l' Hl'; apply Hl; now right).
  destruct l as [|c t].
  - cbn [append nl2 Js.nl dead]. rewrite Ha. cbn [negb]. rewrite !orb_true_r. cbn [andb].
    apply IH'.
  - cbn [oneLine allChars] in Hone. apply andb_true_iff in Hone. destruct Hone as [Hc Ht].
    unfold dot in Hc. apply negb_true_iff in Hc.
    cbn [firstOk] in Hfirst.
    cbn [append dead]. rewrite Hfirst, orb_true_r. cbn [andb].
    rewrite dead_app, (dead_inside a c t Hc Ht). cbn [andb].
    destruct (lastChar_line c t Hc Ht) as (d & -> & Hd).
    cbn [nl2 Js.nl append dead]. rewrite Hd, Ha. cbn [negb orb andb]. apply IH'.
Qed.

Lemma lastChar_blocks ls : forall p, startsLine p -> startsLine (lastChar p (blocks ls)).
Proof.
  induction ls as [|l ls IH]; intros p Hp; [exact Hp|].
  cbn [blocks]. rewrite !lastChar_app. apply IH.
  cbn [nl2 Js.nl append lastChar]. reflexivity.
Qed.

Lemma search_here r idx p s st :
  matchAt r p s = Some st -> search r idx p s = Some (toMatch idx s st).
Proof. intro H. destruct s; cbn [search]; now rewrite H. Qed.

Lemma replaceOnce_here r f idx p s st :
  matchAt r p s = Some st -> replaceOnceFrom r f idx p s = f (toMatch idx s st) ++ rest st.
Proof. intro H. destruct s; cbn [replaceOnceFrom]; now rewrite H. Qed.

(** The first line that starts with [start], after blocks of lines that do
    not: what the search captures, and what the replacement leaves. *)
Lemma find_line a start' t pre rest' :
  Ascii.eqb a Js.LF = false ->
  (forall l, In l pre -> oneLine l = true /\ firstOk a l = true) ->
  t <> EmptyString -> oneLine t = true -> endsLine rest' ->
  option_map (group 1)
    (search (lineCapture (String a start')) 0 None
            (blocks pre ++ String a start' ++ t ++ rest'))
  = Some t.
Proof.
  intros Ha Hpre Hne Ht He. unfold lineCapture. cbn [Seq].
  rewrite search_dead by (apply dead_blocks; assumption).
  erewrite search_here.
  2:{ apply (@matchAt_lineCapture (String a start') t rest').
      - apply lastChar_blocks. exact I.
      - exact Hne.
      - exact Ht.
      - exact He. }
  reflexivity.
Qed.

Lemma drop_line a start' t pre rest' :
  Ascii.eqb a Js.LF = false ->
  (forall l, In l pre -> oneLine l = true /\ firstOk a l = true) ->
  t <> EmptyString -> oneLine t = true -> endsLine rest' ->
  replaceOnce (lineThrough (String a start')) blank
              (blocks pre ++ String a start' ++ t ++ rest')
  = blocks pre ++ rest'.
Proof.
  intros Ha Hpre Hne Ht He. unfold replaceOnce, lineThrough. cbn [Seq].
  rewrite replaceOnce_dead by (apply dead_blocks; assumption).
  erewrite replaceOnce_here.
  2:{ apply (@matchAt_lineThrough (String a start') t rest').
      - apply lastChar_blocks. exact I.
      - exact Hne.
      - exact Ht.
      - exact He. }
  reflexivity.
Qed.

Lemma drop_rule pre rest' :
  (forall l, In l pre -> oneLine l = true /\ firstOk "-" l = true) ->
  endsLine rest' ->
  replaceOnce ruleRegex blank (blocks pre ++ "---" ++ rest') = blocks pre ++ rest'.
Proof.
  intros Hpre He. unfold replaceOnce, ruleRegex. cbn [Seq].
  rewrite replaceOnce_dead by (apply dead_blocks; [reflexivity|assumption]).
  erewrite replaceOnce_here.
  2:{ unfold matchAt. cbn [rmatch].
      rewrite atBol_line by (apply lastChar_blocks; exact I).
      rewrite lit_app. now rewrite atEol_line by exact He. }
  reflexivity.
Qed.

(** ** The tags *)

Definition noComma (c : ascii) : bool := negb (Ascii.eqb c ",").

Lemma trim_space s : Js.trim (String " " s) = Js.trim s.
Proof. reflexivity. Qed.

Lemma split_tags (ts : list string) :
  ts <> [] ->
  (forall t, In t ts -> allChars noComma t = true /\ Js.trim t = t) ->
  map Js.trim (Js.split "," (Js.join ", " ts)) = ts.
Proof.
  induction ts as [|t ts IH]; [congruence|]. intros _ Hts.
  destruct (Hts t (or_introl eq_refl)) as [Hc Htrim].
  destruct ts as [|t' ts'].
  - cbn [Js.join concat]. rewrite split_one by exact Hc. cbn [map]. now rewrite Htrim.
  - change (Js.join ", " (t :: t' :: ts'))
      with (t ++ String "," (String " " (Js.join ", " (t' :: ts')))).
    rewrite split_app_sep, split_one by exact Hc.
    cbn [app map]. rewrite Htrim. f_equal.
    cbn [Js.split]. change (Ascii.eqb " " ",") with false. cbv iota.
    specialize (IH ltac:(discriminate) (fun x Hx => Hts x (or_intror Hx))).
    pose proof (SectionProofs.split_nonempty "," (Js.join ", " (t' :: ts'))) as Hne.
    destruct (Js.split "," (Js.join ", " (t' :: ts'))) as [|x xs]; [congruence|].
    cbn [map] in IH |- *. now rewrite trim_space.
Qed.

Lemma oneLine_join ts :
  (forall t, In t ts -> oneLine t = true) -> oneLine (Js.join ", " ts) = true.
Proof.
  induction ts as [|t ts IH]; intro H; [reflexivity|].
  destruct ts as [|t' ts'].
  - cbn [Js.join concat]. apply H. now left.
  - change (Js.join ", " (t :: t' :: ts')) with (t ++ ", " ++ Js.join ", " (t' :: ts')).
    unfold oneLine in *. rewrite !allChars_app. rewrite (H t (or_introl eq_refl)).
    cbn [allChars andb]. apply IH. intros x Hx. apply H. now right.
Qed.

Lemma join_nonempty t ts : t <> EmptyString -> Js.join ", " (t :: ts) <> EmptyString.
Proof.
  intro Ht. destruct ts; cbn [Js.join concat]; destruct t; try congruence; discriminate.
Qed.

Lemma endsWith_app p s : Js.endsWith p (s ++ p) = true.
Proof.
  unfold Js.endsWith. rewrite rev_app. generalize (Js.rev s). generalize (Js.rev p).
  intros a b. induction a as [|c a IH]; cbn; [now destruct b|].
  destruct (ascii_dec c c); [exact IH|congruence].
Qed.

Lemma trim_newlines s : Js.trim (nl2 ++ s) = Js.trim s.
Proof. reflexivity. Qed.

Section WithClock.
Variable toLocaleDateString : string -> string.
Variable nowISO : nat -> string.

(** The text written for a note that has a summary and tags. *)
Lemma exportContent_blocks doc s t ts :
  summary doc = Some s -> s <> EmptyString -> tags doc = t :: ts ->
  exportContent toLocaleDateString doc
  = blocks ["# " ++ title doc; "> " ++ s; "Tags: " ++ Js.join ", " (tags doc);
            "Created: " ++ toLocaleDateString (createdAt doc); "---"]
    ++ content doc.
Proof.
  intros Hs Hne Ht. unfold exportContent. rewrite Hs, Ht.
  destruct s as [|c s]; [congruence|]. cbn [Js.truthy blocks nl2].
  rewrite <- !append_assoc. reflexivity.
Qed.

(** X12.  A note written by [exportAllToZip] and read by
    [importMarkdownFiles] comes back with its title, summary and tags, and
    with its content trimmed.  This is for a note whose title and summary
    are not empty and hold no line break, whose tags are not empty, are
    trimmed and hold no comma and no line break (there is one at least),
    and whose creation date is shown by the browser as a text that is not
    empty and holds no line break. *)
Theorem export_import_round_trip (doc : DocumentData) (s : string) (n : nat) :
  summary doc = Some s -> s <> EmptyString -> oneLine s = true ->
  title doc <> EmptyString -> oneLine (title doc) = true ->
  tags doc <> [] ->
  (forall t, In t (tags doc) ->
             t <> EmptyString /\ oneLine t = true /\ allChars noComma t = true
             /\ Js.trim t = t) ->
  toLocaleDateString (createdAt doc) <> EmptyString ->
  oneLine (toLocaleDateString (createdAt doc)) = true ->
  importFile nowISO n (MkFile (exportFilename doc)
                              (Some (exportContent toLocaleDateString doc)))
  = Some (MkNewDocument (title doc) s (tags doc) (Js.trim (content doc)) (nowISO n)).
Proof.
  intros Hs Hsne Hsl Htne Htl Htags Hts Hdne Hdl.
  destruct (tags doc) as [|t ts] eqn:Etags; [congruence|]. clear Htags.
  unfold importFile. cbn [name text].
  assert (Hmd : Js.endsWith ".md" (exportFilename doc) = true).
  { unfold exportFilename. rewrite !append_assoc. apply endsWith_app. }
  rewrite Hmd. cbn [negb].
  rewrite (@exportContent_blocks doc s t ts Hs Hsne Etags). rewrite Etags.
  set (G := Js.join ", " (t :: ts)).
  set (D := toLocaleDateString (createdAt doc)).
  assert (HG : G <> EmptyString) by (apply join_nonempty; apply (Hts t); now left).
  assert (HGl : oneLine G = true)
    by (apply oneLine_join; intros x Hx; now apply Hts).
  assert (Hend : forall x, endsLine (nl2 ++ x)) by (intro x; reflexivity).
  unfold importText.
  set (E := blocks ["# " ++ title doc; "> " ++ s; "Tags: " ++ G; "Created: " ++ D; "---"]
            ++ content doc).
  assert (S1 : E = blocks [] ++ "# " ++ title doc
                   ++ (nl2 ++ blocks ["> " ++ s; "Tags: " ++ G; "Created: " ++ D; "---"]
                           ++ content doc))
    by (unfold E; cbn [blocks]; rewrite <- !append_assoc; reflexivity).
  assert (S2 : E = blocks ["# " ++ title doc] ++ "> " ++ s
                   ++ (nl2 ++ blocks ["Tags: " ++ G; "Created: " ++ D; "---"] ++ content doc))
    by (unfold E; cbn [blocks]; rewrite <- !append_assoc; reflexivity).
  assert (S3 : E = blocks ["# " ++ title doc; "> " ++ s] ++ "Tags: " ++ G
                   ++ (nl2 ++ blocks ["Created: " ++ D; "---"] ++ content doc))
    by (unfold E; cbn [blocks]; rewrite <- !append_assoc; reflexivity).
  (* the title, the summary, the tags *)
  assert (E1 : option_map (group 1) (matchFirst (metaRegex "# ") E) = Some (title doc)).
  { rewrite S1. apply (@find_line "#" " " (title doc) [] _); try assumption; try reflexivity.
    intros l []. }
  assert (E2 : option_map (group 1) (matchFirst (metaRegex "> ") E) = Some s).
  { rewrite S2.
    apply (@find_line ">" " " s ["# " ++ title doc] _); try assumption; try reflexivity.
    intros l [<-|[]]. split; [|reflexivity]. exact Htl. }
  assert (E3 : option_map (group 1) (matchFirst (metaRegex "Tags: ") E) = Some G).
  { rewrite S3.
    apply (@find_line "T" "ags: " G ["# " ++ title doc; "> " ++ s] _);
      try assumption; try reflexivity.
    intros l [<-|[<-|[]]]; (split; [|reflexivity]); assumption. }
  (* the content *)
  assert (E4 : Js.trim
                 (replaceOnce ruleRegex blank
                    (replaceOnce (metaLine "Created: ") blank
                       (replaceOnce (metaLine "Tags: ") blank
                          (replaceOnce (metaLine "> ") blank
                             (replaceOnce (metaLine "# ") blank E)))))
               = Js.trim (content doc)).
  { assert (Hblank : forall a k l, In l (repeat "" k) -> oneLine l = true /\ firstOk a l = true).
    { intros a k l Hl. apply repeat_spec in Hl. subst l. split; reflexivity. }
    rewrite S1.
    rewrite (@drop_line "#" " " (title doc) (repeat "" 0) _ eq_refl (Hblank _ 0) Htne Htl
                        (Hend _)).
    replace (blocks (repeat "" 0) ++ nl2
             ++ blocks ["> " ++ s; "Tags: " ++ G; "Created: " ++ D; "---"] ++ content doc)
      with (blocks (repeat "" 1) ++ "> " ++ s
            ++ (nl2 ++ blocks ["Tags: " ++ G; "Created: " ++ D; "---"] ++ content doc))
      by (cbn [blocks repeat]; rewrite <- !append_assoc; reflexivity).
    rewrite (@drop_line ">" " " s (repeat "" 1) _ eq_refl (Hblank _ 1) Hsne Hsl (Hend _)).
    replace (blocks (repeat "" 1) ++ nl2 ++ blocks ["Tags: " ++ G; "Created: " ++ D; "---"]
             ++ content doc)
      with (blocks (repeat "" 2) ++ "Tags: " ++ G
            ++ (nl2 ++ blocks ["Created: " ++ D; "---"] ++ content doc))
      by (cbn [blocks repeat]; rewrite <- !append_assoc; reflexivity).
    rewrite (@drop_line "T" "ags: " G (repeat "" 2) _ eq_refl (Hblank _ 2) HG HGl (Hend _)).
    replace (blocks (repeat "" 2) ++ nl2 ++ blocks ["Created: " ++ D; "---"] ++ content doc)
      with (blocks (repeat "" 3) ++ "Created: " ++ D ++ (nl2 ++ blocks ["---"] ++ content doc))
      by (cbn [blocks repeat]; rewrite <- !append_assoc; reflexivity).
    rewrite (@drop_line "C" "reated: " D (repeat "" 3) _ eq_refl (Hblank _ 3) Hdne Hdl
                        (Hend _)).
    replace (blocks (repeat "" 3) ++ nl2 ++ blocks ["---"] ++ content doc)
      with (blocks (repeat "" 4) ++ "---" ++ (nl2 ++ content doc))
      by (cbn [blocks repeat]; rewrite <- !append_assoc; reflexivity).
    rewrite (@drop_rule (repeat "" 4) _ (Hblank _ 4) (Hend _)).
    reflexivity. }
  rewrite E4.
  destruct (matchFirst (metaRegex "# ") E) as [m1|]; [|discriminate].
  destruct (matchFirst (metaRegex "> ") E) as [m2|]; [|discriminate].
  destruct (matchFirst (metaRegex "Tags: ") E) as [m3|]; [|discriminate].
  cbn [option_map] in E1, E2, E3. injection E1 as ->. injection E2 as ->. injection E3 as ->.
  do 2 f_equal.
  unfold G. apply split_tags; [discriminate|]. intros x Hx. destruct (Hts x Hx). tauto.
Qed.

End WithClock.
Definition noteR : DocumentData :=
  MkDocument "doc_1700000000000_ab12cd3" "My Note" (Some "A summary") "Body text"
             ["x"; "y z"] "2024-01-02T03:04:05.000Z" "2024-01-02T03:04:05.000Z" 1.
Definition shownDate (_ : string) : string := "1/2/2024".
Definition clock (_ : nat) : string := "2024-02-03T00:00:00.000Z".

Lemma export_import_round_trip_witness :
  importFile clock 0 (MkFile (exportFilename noteR) (Some (exportContent shownDate noteR)))
  = Some (MkNewDocument (title noteR) "A summary" (tags noteR) (Js.trim (content noteR))
                        (clock 0)).
Proof.
  apply (@export_import_round_trip shownDate clock noteR "A summary" 0).
  - reflexivity.
  - discriminate.
  - vm_compute. reflexivity.
  - discriminate.
  - vm_compute. reflexivity.
  - discriminate.
  - intros t [<-|[<-|[]]]; (split; [discriminate|]); vm_compute; auto.
  - discriminate.
  - vm_compute. reflexivity.
Defined.

End RoundTripProofs.

Module ListFacts.

Lemma NoDup_snoc_iff {A} (l : list A) (x : A) :
  NoDup (l ++ [x]) <-> NoDup l /\ ~ In x l.
Proof.
  induction l as [|a l IH]; cbn [app].
  - split; [intros _; split; [constructor|tauto]|intros _; repeat constructor; tauto].
  - rewrite !NoDup_cons_iff, IH, in_app_iff. cbn [In]. intuition congruence.
Qed.

Lemma existsb_eqb_In k l : existsb (String.eqb k) l = true <-> In k l.
Proof.
  rewrite existsb_exists. split.
  - intros (x & Hx & E). apply String.eqb_eq in E. now subst.
  - intro H. exists k. split; [exact H|apply String.eqb_refl].
Qed.

End ListFacts.

Module ZipProofs.
Import Notes ExportImport ListFacts.
Local Open Scope string_scope.

(** The text of the file of a name, [folder.file(name)]. *)
Definition fileAt (name_ : string) (folder : list (string * string)) : option string :=
  option_map snd (find (fun kv => String.eqb (fst kv) name_) folder).

Lemma fileAt_setKey_same k v folder : fileAt k (Anki.setKey k v folder) = Some v.
Proof.
  unfold fileAt. induction folder as [|[k' v'] r IH]; cbn [Anki.setKey find fst].
  - now rewrite String.eqb_refl.
  - destruct (String.eqb k' k) eqn:E; cbn [find fst]; rewrite E; [reflexivity|exact IH].
Qed.

Lemma fileAt_setKey_other k k' v folder :
  k <> k' -> fileAt k' (Anki.setKey k v folder) = fileAt k' folder.
Proof.
  intro Hne. unfold fileAt. induction folder as [|[k0 v0] r IH]; cbn [Anki.setKey find fst].
  - apply String.eqb_neq in Hne. now rewrite Hne.
  - destruct (String.eqb k0 k) eqn:E; cbn [find fst].
    + apply String.eqb_eq in E. subst k0. apply String.eqb_neq in Hne. now rewrite Hne.
    + destruct (String.eqb k0 k'); [reflexivity|exact IH].
Qed.

Lemma keys_setKey k v folder :
  map fst (Anki.setKey k v folder)
  = if existsb (String.eqb k) (map fst folder) then map fst folder
    else (map fst folder ++ [k])%list.
Proof.
  induction folder as [|[k0 v0] r IH]; [reflexivity|].
  cbn [Anki.setKey map fst existsb]. rewrite (String.eqb_sym k k0).
  destruct (String.eqb k0 k) eqn:E; cbn [orb map fst]; [reflexivity|].
  rewrite IH. now destruct (existsb (String.eqb k) (map fst r)).
Qed.

Lemma exportFiles_snoc (toLocaleDateString : string -> string) docs d :
  exportFiles toLocaleDateString (docs ++ [d])
  = Anki.setKey (exportFilename d) (exportContent toLocaleDateString d)
                (exportFiles toLocaleDateString docs).
Proof. unfold exportFiles. now rewrite fold_left_app. Qed.

Section Archive.
Variable toLocaleDateString : string -> string.

Lemma archive_names docs :
  NoDup (map fst (exportFiles toLocaleDateString docs))
  /\ (forall n, In n (map fst (exportFiles toLocaleDateString docs))
                <-> In n (map exportFilename docs))
  /\ List.length (exportFiles toLocaleDateString docs) <= List.length docs
  /\ (List.length (exportFiles toLocaleDateString docs) = List.length docs
      <-> NoDup (map exportFilename docs)).
Proof.
  induction docs as [|d docs IH] using rev_ind.
  - cbn. repeat split; try constructor; tauto.
  - destruct IH as (Hnd & Hin & Hle & Hlen).
    rewrite exportFiles_snoc.
    assert (Hl : forall l : list (string * string), List.length l = List.length (map fst l))
      by (intro l; now rewrite length_map).
    rewrite (Hl (Anki.setKey _ _ _)), keys_setKey, map_app, length_app. cbn [map List.length].
    rewrite NoDup_snoc_iff.
    destruct (existsb (String.eqb (exportFilename d))
                      (map fst (exportFiles toLocaleDateString docs))) eqn:E.
    + apply existsb_eqb_In in E. rewrite <- Hl.
      split; [exact Hnd|]. split; [|split; [lia|]].
      * intro n. rewrite in_app_iff, Hin. cbn [In]. split; [tauto|].
        intros [H|[<-|[]]]; [exact H|now apply Hin].
      * split; [lia|]. intros [_ H]. exfalso. apply H. now apply Hin.
    + assert (Hni : ~ In (exportFilename d) (map fst (exportFiles toLocaleDateString docs))).
      { intro H. apply existsb_eqb_In in H. congruence. }
      rewrite length_app, <- Hl. cbn [List.length].
      split; [now apply NoDup_snoc_iff|]. split; [|split; [lia|]].
      * intro n. rewrite !in_app_iff, Hin. tauto.
      * split.
        -- intro H. split; [apply Hlen; lia|]. intro Hi. apply Hni. now apply Hin.
        -- intros [H _]. apply Hlen in H. lia.
Qed.

Lemma archive_last pre d post :
  (forall e, In e post -> exportFilename e <> exportFilename d) ->
  fileAt (exportFilename d) (exportFiles toLocaleDateString (pre ++ d :: post))
  = Some (exportContent toLocaleDateString d).
Proof.
  induction post as [|e post IH] using rev_ind; intro H.
  - rewrite exportFiles_snoc. apply fileAt_setKey_same.
  - replace (pre ++ d :: post ++ [e])%list with ((pre ++ d :: post) ++ [e])%list
      by (now rewrite <- app_assoc).
    rewrite exportFiles_snoc, fileAt_setKey_other.
    + apply IH. intros x Hx. apply H. apply in_or_app. now left.
    + apply H. apply in_or_app. right. now left.
Qed.

End Archive.

(** X13.  The archive of all the notes holds one file for each file name,
    and the file of a name is the one of the last note that has it: notes
    whose titles give the same slug and whose identifiers start with the
    same eight characters have the same file name, the names in the
    archive are those of the notes, without repetition, a name holds the
    markdown of the last note of that name, and the archive has as many
    files as there are notes exactly when no two notes share a name (with
    fewer files otherwise). *)
Theorem archive_keeps_last_note_of_a_name
        (toLocaleDateString : string -> string) (documents : list DocumentData) :
  let files := exportFiles toLocaleDateString documents in
  (forall d e, Anki.slug (title d) = Anki.slug (title e) ->
               Re.takeN 8 (id d) = Re.takeN 8 (id e) -> exportFilename d = exportFilename e)
  /\ NoDup (map fst files)
  /\ (forall n, In n (map fst files) <-> exists d, In d documents /\ exportFilename d = n)
  /\ (forall pre d post,
         documents = (pre ++ d :: post)%list ->
         (forall e, In e post -> exportFilename e <> exportFilename d) ->
         fileAt (exportFilename d) files = Some (exportContent toLocaleDateString d))
  /\ List.length files <= List.length documents
  /\ (List.length files = List.length documents <-> NoDup (map exportFilename documents)).
Proof.
  cbv zeta. destruct (archive_names toLocaleDateString documents) as (Hnd & Hin & Hle & Hlen).
  split; [|split; [exact Hnd|split; [|split; [|split; [exact Hle|exact Hlen]]]]].
  - intros d e Hs Hi. unfold exportFilename. fold (Anki.slug (title d)).
    fold (Anki.slug (title e)). now rewrite Hs, Hi.
  - intro n. rewrite Hin, in_map_iff. split; intros (d & H1 & H2); exists d; tauto.
  - intros pre d post -> H. now apply archive_last.
Qed.

End ZipProofs.

Module TagInputProofs.
Import StrFacts TagInput ListFacts.
Local Open Scope string_scope.

(** Tags as the input keeps them: no blank tag, no tag with white space
    around it, no tag twice. *)
Definition goodTags (tags : list string) : Prop :=
  NoDup tags /\ forall t, In t tags -> t <> "" /\ Js.trim t = t.

Lemma NoDup_removelast {A} (l : list A) : NoDup l -> NoDup (removelast l).
Proof.
  destruct l as [|a l] using rev_ind; [trivial|].
  intro H. rewrite removelast_last. now apply NoDup_app_remove_r in H.
Qed.

Lemma In_removelast {A} (l : list A) x : In x (removelast l) -> In x l.
Proof.
  destruct l as [|a l] using rev_ind; [trivial|].
  rewrite removelast_last. intro H. apply in_or_app. now left.
Qed.

(** X14.  The tag input keeps the tags well formed.  From tags that hold
    no blank tag, no tag with white space around it and no tag twice, a
    key press ([handleKeyDown]) and the removal of a tag ([removeTag])
    give tags that are so again; the tag that Enter adds is the trimmed
    text of the input, which is then emptied, and a removed tag is no
    longer among the tags. *)
Theorem tag_input_keeps_tags_well_formed (key : Key) (tags : list string)
        (inputValue tagToRemove : string) :
  goodTags tags ->
  goodTags (fst (handleKeyDown key tags inputValue))
  /\ goodTags (removeTag tagToRemove tags)
  /\ ~ In tagToRemove (removeTag tagToRemove tags)
  /\ (key = Enter -> Js.trim inputValue <> "" ->
      In (Js.trim inputValue) (fst (handleKeyDown key tags inputValue))
      /\ snd (handleKeyDown key tags inputValue) = "").
Proof.
  intros [Hnd Hgood]. split; [|split; [|split]].
  - destruct key; cbn [handleKeyDown].
    + destruct (String.eqb (Js.trim inputValue) "") eqn:E; cbn [negb fst]; [now split|].
      destruct (existsb (String.eqb (Js.trim inputValue)) tags) eqn:Ex; cbn [negb]; [now split|].
      split.
      * apply NoDup_snoc_iff. split; [exact Hnd|]. intro Hi.
        apply existsb_eqb_In in Hi. congruence.
      * intros t Ht. apply in_app_or in Ht. destruct Ht as [Ht|[<-|[]]]; [now apply Hgood|].
        split; [now apply String.eqb_neq|apply TrimFacts.trim_idem].
    + destruct (String.eqb inputValue "" && (0 <? List.length tags)%nat); cbn [fst]; [|now split].
      split; [now apply NoDup_removelast|]. intros t Ht. apply Hgood. now apply In_removelast.
    + now split.
  - unfold removeTag. split; [now apply NoDup_filter|].
    intros t Ht. apply filter_In in Ht. now apply Hgood.
  - unfold removeTag. intro H. apply filter_In in H. destruct H as [_ H].
    now rewrite String.eqb_refl in H.
  - intros -> Hne. cbn [handleKeyDown]. apply String.eqb_neq in Hne. rewrite Hne. cbn [negb fst snd].
    split; [|reflexivity].
    destruct (existsb (String.eqb (Js.trim inputValue)) tags) eqn:Ex; cbn [negb].
    + now apply existsb_eqb_In.
    + apply in_or_app. right. now left.
Qed.

Lemma tag_input_keeps_tags_well_formed_witness :
  goodTags (fst (handleKeyDown Enter ["a"] " b "))
  /\ goodTags (removeTag "a" ["a"])
  /\ ~ In "a" (removeTag "a" ["a"])
  /\ (Enter = Enter -> Js.trim " b " <> "" ->
      In (Js.trim " b ") (fst (handleKeyDown Enter ["a"] " b "))
      /\ snd (handleKeyDown Enter ["a"] " b ") = "").
Proof.
  apply (@tag_input_keeps_tags_well_formed Enter ["a"] " b " "a").
  split.
  - constructor; [simpl; tauto|constructor].
  - intros t [<-|[]]. split; [discriminate|vm_compute; reflexivity].
Defined.

End TagInputProofs.

Module TableGeneratorProofs.
Import StrFacts ReplaceFacts TableGenerator.
Local Open Scope string_scope.





(** The row of the cells [piece 0], ..., without its line feed. *)
Definition lineOf (piece : nat -> string) (columns : nat) : string :=
  "| " ++ forColumns piece 0 columns.

Definition cellPiece (cellValues : list (list string)) (i j : nat) : string :=
  cellAt cellValues i j ++ " | ".
Definition markPiece (columnAlignments : list Alignment) (j : nat) : string :=
  alignmentMark (alignmentAt columnAlignments j).
Definition plainPiece (_ : nat) : string := "--- | ".


(** The lines of a generated table: the first row, the separator row, the
    other rows. *)
Definition tableLines (rows columns : nat) (hasHeader : bool)
           (cellValues : list (list string)) (columnAlignments : list Alignment)
  : list string :=
  lineOf (cellPiece cellValues 0) columns
  :: lineOf (if hasHeader && (0 <? List.length cellValues)%nat
             then markPiece columnAlignments else plainPiece) columns
  :: map (fun k => lineOf (cellPiece cellValues k) columns) (seq 1 (rows - 1)).




(** ** The rows are table rows *)










(** ** The cells of the separator row *)









End TableGeneratorProofs.

Module ImageCleanupProofs.
Import Re StrFacts RegexFacts Notes Images.
Local Open Scope string_scope.

Definition quoteChar : ascii -> bool := oneOf Js.quotes.
Definition notQuote (c : ascii) : bool := negb (quoteChar c).
(** The characters of an identifier that can be referred to: no quote, no
    end of line. *)
Definition idChar (c : ascii) : bool := dot c && notQuote c.

Definition marker : string := "cornell-image://".
Definition dquote : ascii := "034"%char.

(** ** What the pattern matches *)

(** The lazy run up to the first quote, as a function of the input. *)
Fixpoint scanQuote (s0 s : string) (cs : list (nat * string)) : option mstate :=
  match s with
  | EmptyString => None
  | String c r =>
      if quoteChar c then Some (MState (Some c) r ((1, taken s0 s) :: cs))
      else if dot c then scanQuote s0 r cs
      else None
  end.

Definition afterRun (s0 : string) (st' : mstate) : option mstate :=
  rmatch (Chr quoteChar)
         (MState (prev st') (rest st') (setCap 1 (taken s0 (rest st')) (caps st'))) Some.

Lemma lazy_scan s0 :
  forall n s p cs,
    String.length s <= n ->
    starLoop (rmatch (Chr dot)) false (afterRun s0) n (MState p s cs) = scanQuote s0 s cs.
Proof.
  induction n as [|n IH]; intros s p cs Hn.
  - destruct s; [reflexivity|cbn in Hn; lia].
  - cbn [starLoop]. unfold afterRun at 1. cbn [rmatch rest prev caps].
    destruct s as [|c r]; [reflexivity|].
    cbn [scanQuote]. destruct (quoteChar c); [reflexivity|].
    destruct (dot c); [|reflexivity].
    cbn [rest String.length]. rewrite (proj2 (Nat.ltb_lt _ _) (Nat.lt_succ_diag_r _)).
    apply IH. cbn in Hn. lia.
Qed.

Lemma scanQuote_sound s0 :
  forall s cs st,
    scanQuote s0 s cs = Some st ->
    exists i qc, s = i ++ String qc (rest st)
                 /\ allChars notQuote i = true /\ quoteChar qc = true.
Proof.
  induction s as [|c r IH]; intros cs st H; [discriminate|].
  cbn [scanQuote] in H. destruct (quoteChar c) eqn:Q.
  - injection H as <-. exists "", c. now repeat split.
  - destruct (dot c); [|discriminate]. apply IH in H.
    destruct H as (i & qc & -> & Hi & Hq). exists (String c i), qc.
    cbn [append allChars]. unfold notQuote at 1. rewrite Q. now repeat split.
Qed.

Lemma scanQuote_complete i qc r cs :
  allChars idChar i = true -> quoteChar qc = true ->
  forall pre,
    scanQuote (pre ++ i ++ String qc r) (i ++ String qc r) cs
    = Some (MState (Some qc) r ((1, pre ++ i) :: cs)).
Proof.
  intros Hi Hq. induction i as [|c i IH]; intro pre.
  - cbn [append scanQuote]. rewrite Hq.
    change (String qc r) with ("" ++ String qc r) at 1.
    rewrite ReFacts.append_assoc, ReFacts.taken_append. cbn [append]. now rewrite append_nil_r.
  - cbn [allChars] in Hi. apply andb_true_iff in Hi. destruct Hi as [Hc Hi].
    unfold idChar, notQuote in Hc. apply andb_true_iff in Hc. destruct Hc as [Hd Hn].
    apply negb_true_iff in Hn.
    cbn [append scanQuote]. rewrite Hn, Hd.
    specialize (IH Hi (pre ++ String c "")).
    rewrite <- !ReFacts.append_assoc in IH. cbn [append] in IH. exact IH.
Qed.

Lemma image_found p i qc r :
  allChars idChar i = true -> quoteChar qc = true ->
  matchAt usedImageRegex p (marker ++ i ++ String qc r)
  = Some (MState (Some qc) r [(1, i)]).
Proof.
  intros Hi Hq. unfold matchAt, usedImageRegex. cbn [Seq]. cbn [rmatch].
  fold marker. rewrite LineFacts.lit_app.
  etransitivity.
  { apply (@lazy_scan (i ++ String qc r) (String.length (i ++ String qc r))
                      (i ++ String qc r) (lastChar p marker) []). lia. }
  apply (@scanQuote_complete i qc r [] Hi Hq "").
Qed.

Lemma image_match p s st :
  matchAt usedImageRegex p s = Some st ->
  exists i qc, s = (marker ++ i) ++ String qc (rest st)
               /\ allChars notQuote (marker ++ i) = true /\ quoteChar qc = true.
Proof.
  unfold matchAt, usedImageRegex. cbn [Seq]. cbn [rmatch]. fold marker. intro H.
  apply lit_inv in H. destruct H as (s' & -> & H).
  assert (H' : scanQuote s' s' [] = Some st).
  { rewrite <- H. symmetry.
    apply (@lazy_scan s' (String.length s') s' (lastChar p marker) []). lia. }
  clear H. rename H' into H.
  apply scanQuote_sound in H. destruct H as (i & qc & -> & Hi & Hq).
  exists i, qc. rewrite <- ReFacts.append_assoc. split; [reflexivity|]. split; [|exact Hq].
  rewrite allChars_app, Hi. reflexivity.
Qed.

(** The first quote of a text is where it is. *)
Lemma first_quote u :
  forall v a b r r',
    u ++ String a r = v ++ String b r' ->
    allChars notQuote u = true -> quoteChar b = true ->
    String.length u <= String.length v.
Proof.
  induction u as [|c u IH]; intros v a b r r' E Hu Hb; [cbn; lia|].
  cbn [allChars] in Hu. apply andb_true_iff in Hu. destruct Hu as [Hc Hu].
  destruct v as [|d v].
  - cbn [append] in E. injection E as -> _. unfold notQuote in Hc. now rewrite Hb in Hc.
  - cbn [append] in E. injection E as _ E. cbn [String.length].
    apply le_n_S. eapply IH; eassumption.
Qed.

(** ** The scan of a note finds the reference *)

Definition endsWithQuote (pre : string) : Prop :=
  pre = "" \/ exists x q0, pre = x ++ String q0 "" /\ quoteChar q0 = true.

Lemma endsWithQuote_tail c pre : endsWithQuote (String c pre) -> endsWithQuote pre.
Proof.
  intros [H|(x & q0 & E & Hq)]; [discriminate|].
  destruct x as [|d x]; cbn [append] in E; injection E as _ E.
  - left. exact E.
  - right. now exists x, q0.
Qed.

Lemma matchesFrom_skip_cons r k idx p c s :
  matchesFrom r (S k) idx p (String c s) = matchesFrom r k (S idx) (Some c) s.
Proof. reflexivity. Qed.

Lemma matchesFrom_zero_cons r idx p c s :
  matchesFrom r 0 idx p (String c s)
  = match matchAt r p (String c s) with
    | Some st =>
        toMatch idx (String c s) st
        :: matchesFrom r (Nat.pred (String.length (m_text (toMatch idx (String c s) st))))
                       (S idx) (Some c) s
    | None => matchesFrom r 0 (S idx) (Some c) s
    end.
Proof. reflexivity. Qed.

Lemma matchesFrom_found r idx p s st :
  matchAt r p s = Some st -> In (toMatch idx s st) (matchesFrom r 0 idx p s).
Proof. intro H. destruct s; cbn [matchesFrom]; rewrite H; now left. Qed.

Lemma group_toMatch idx s p r cs i :
  group 1 (toMatch idx s (MState p r ((1, i) :: cs))) = i.
Proof. reflexivity. Qed.

(** The length of a match that starts before the reference. *)
Lemma match_before_reference c pre t p idx st :
  endsWithQuote (String c pre) ->
  matchAt usedImageRegex p (String c (pre ++ t)) = Some st ->
  String.length (m_text (toMatch idx (String c (pre ++ t)) st)) <= S (String.length pre).
Proof.
  intros He M. apply image_match in M. destruct M as (j & qc' & E & Hj & Hq').
  unfold toMatch, m_text. rewrite E.
  replace ((marker ++ j) ++ String qc' (rest st))
    with (((marker ++ j) ++ String qc' "") ++ rest st)
    by (now rewrite <- !ReFacts.append_assoc).
  rewrite ReFacts.taken_append, ReFacts.length_append.
  destruct He as [He|(x & q0 & Ex & Hq0)]; [discriminate|].
  change (String c (pre ++ t)) with (String c pre ++ t) in E.
  rewrite Ex, <- ReFacts.append_assoc in E. cbn [append] in E.
  symmetry in E.
  assert (Hl := @first_quote _ _ _ _ _ _ E Hj Hq0).
  assert (Hp : String.length (String c pre) = S (String.length x)).
  { rewrite Ex, ReFacts.length_append. cbn. lia. }
  cbn [String.length] in Hp. change (String.length (String qc' "")) with 1. lia.
Qed.

Lemma scan_finds i qc post :
  allChars idChar i = true -> quoteChar qc = true ->
  forall pre skip idx p,
    endsWithQuote pre -> skip <= String.length pre ->
    exists m, In m (matchesFrom usedImageRegex skip idx p
                                (pre ++ marker ++ i ++ String qc post))
              /\ group 1 m = i.
Proof.
  intros Hi Hq. induction pre as [|c pre IH]; intros skip idx p He Hs.
  - cbn [String.length] in Hs. assert (skip = 0) by lia. subst skip.
    change ("" ++ marker ++ i ++ String qc post) with (marker ++ i ++ String qc post).
    eexists. split.
    + apply matchesFrom_found. apply (@image_found p i qc post Hi Hq).
    + apply group_toMatch.
  - assert (He' := endsWithQuote_tail He).
    change (String c pre ++ marker ++ i ++ String qc post)
      with (String c (pre ++ marker ++ i ++ String qc post)).
    destruct skip as [|k].
    + rewrite matchesFrom_zero_cons.
      destruct (matchAt usedImageRegex p (String c (pre ++ marker ++ i ++ String qc post)))
        as [st|] eqn:M.
      * assert (Hlen := @match_before_reference c pre _ p idx st He M).
        match goal with
        | |- exists m, In m (_ :: matchesFrom _ ?n _ _ _) /\ _ =>
            destruct (IH n (S idx) (Some c) He') as (m & Hm & Hg); [lia|]
        end.
        exists m. split; [now right|exact Hg].
      * destruct (IH 0 (S idx) (Some c) He') as (m & Hm & Hg); [lia|].
        exists m. now split.
    + rewrite matchesFrom_skip_cons. cbn [String.length] in Hs.
      apply IH; [exact He'|lia].
Qed.

(** ** The images that are deleted *)

Section Kept.
Variable databaseOpens : bool.
Variable deleteSucceeds : string -> bool.

Lemma deleteEach_keeps kv :
  forall unused images n,
    ~ In (fst kv) unused -> In kv images ->
    In kv (fst (deleteEach deleteSucceeds unused images n)).
Proof.
  induction unused as [|u unused IH]; intros images n Hn Hi; [exact Hi|].
  cbn [deleteEach]. destruct (deleteSucceeds u).
  - apply IH; [intro H; apply Hn; now right|].
    apply filter_In. split; [exact Hi|]. apply negb_true_iff, String.eqb_neq.
    intro E. apply Hn. now left.
  - apply IH; [intro H; apply Hn; now right|exact Hi].
Qed.

Lemma deleteEach_subset kv :
  forall unused images n,
    In kv (fst (deleteEach deleteSucceeds unused images n)) -> In kv images.
Proof.
  induction unused as [|u unused IH]; intros images n H; [exact H|].
  cbn [deleteEach] in H. destruct (deleteSucceeds u).
  - apply IH in H. now apply filter_In in H.
  - now apply IH in H.
Qed.

Lemma cleanup_keeps_used used images kv :
  In (fst kv) used -> In kv images ->
  In kv (fst (cleanupUnusedImages databaseOpens deleteSucceeds used images)).
Proof.
  intros Hu Hi. unfold cleanupUnusedImages.
  destruct databaseOpens; cbn [negb]; [|exact Hi].
  apply deleteEach_keeps; [|exact Hi].
  intro H. apply filter_In in H. destruct H as [_ H].
  apply negb_true_iff in H.
  assert (existsb (String.eqb (fst kv)) used = true); [|congruence].
  apply existsb_exists. exists (fst kv). split; [exact Hu|apply String.eqb_refl].
Qed.

End Kept.

(** X16.  The cleanup of the images never deletes an image that a note
    shows.  When a note holds, anywhere in its text, what the image
    inserter writes for an uploaded image (an [img] tag whose source is
    [cornell-image://] and the identifier), and the identifier is not empty
    and has no quote and no end of line in it (as the identifiers the store
    gives), then [extractImageIds] lists the identifier for the note, and
    [cleanupImages] leaves every image stored under it in the database,
    whether the database opens and whichever deletions succeed; and the
    cleanup adds no image. *)
Theorem cleanup_keeps_inserted_image
        (databaseOpens : bool) (deleteSucceeds : string -> bool)
        (docs : list DocumentData) (images : list (string * string))
        (doc : DocumentData) (before after imageId altText uploadedFileName : string)
        (isFullWidth : bool) :
  In doc docs ->
  content doc
  = before ++ uploadedImageTag imageId altText uploadedFileName isFullWidth ++ after ->
  imageId <> "" -> allChars idChar imageId = true ->
  In imageId (extractImageIds (content doc))
  /\ (forall kv, In kv images -> fst kv = imageId ->
                 In kv (fst (cleanupImages databaseOpens deleteSucceeds docs images)))
  /\ (forall kv, In kv (fst (cleanupImages databaseOpens deleteSucceeds docs images)) ->
                 In kv images).
Proof.
  intros Hdoc Hcontent Hne Hid.
  assert (Hlisted : In imageId (extractImageIds (content doc))).
  { rewrite Hcontent. unfold extractImageIds, uploadedImageTag. cbv zeta.
    set (tail := " alt=" ++ Js.dq ++ uploadAlt altText uploadedFileName ++ Js.dq
                 ++ (if isFullWidth then " class=" ++ Anki.q "full-width-image" else "")
                 ++ " />" ++ Js.nl).
    assert (E : before ++ ("<img src=" ++ Js.dq ++ "cornell-image://" ++ imageId ++ Js.dq ++ tail)
                          ++ after
                = (before ++ "<img src=" ++ Js.dq)
                    ++ marker ++ imageId ++ String dquote (tail ++ after)).
    { unfold marker, Js.dq, dquote. rewrite <- !ReFacts.append_assoc. cbn [append]. reflexivity. }
    rewrite E.
    destruct (@scan_finds imageId dquote (tail ++ after) Hid eq_refl
                          (before ++ "<img src=" ++ Js.dq) 0 0 None) as (m & Hm & Hg).
    - right. exists (before ++ "<img src="), dquote. split; [|reflexivity].
      unfold Js.dq, dquote. now rewrite <- !ReFacts.append_assoc.
    - lia.
    - apply filter_In. split.
      + apply in_map_iff. exists m. split; [exact Hg|exact Hm].
      + destruct imageId; [congruence|reflexivity]. }
  split; [exact Hlisted|]. split.
  - intros kv Hkv Hk. unfold cleanupImages. apply cleanup_keeps_used; [|exact Hkv].
    rewrite Hk. apply NoteLinkProofs.dedup_spec. split; [|intros []].
    apply in_flat_map. exists doc. now split.
  - intros kv H. unfold cleanupImages, cleanupUnusedImages in H.
    destruct databaseOpens; cbn [negb] in H; [|exact H].
    now apply deleteEach_subset in H.
Qed.

Definition noteI : DocumentData :=
  MkDocument "doc_1" "Pictures" None
             ("intro " ++ uploadedImageTag "img_17_ab" "" "cat.png" false ++ "outro")
             [] "" "" 1.

Lemma cleanup_keeps_inserted_image_witness :
  In "img_17_ab" (extractImageIds (content noteI))
  /\ (forall kv, In kv [("img_17_ab", "data:image/png;base64,AA"); ("img_9_zz", "data:,")] ->
                 fst kv = "img_17_ab" ->
                 In kv (fst (cleanupImages true (fun _ => true) [noteI]
                               [("img_17_ab", "data:image/png;base64,AA"); ("img_9_zz", "data:,")])))
  /\ (forall kv, In kv (fst (cleanupImages true (fun _ => true) [noteI]
                               [("img_17_ab", "data:image/png;base64,AA"); ("img_9_zz", "data:,")])) ->
                 In kv [("img_17_ab", "data:image/png;base64,AA"); ("img_9_zz", "data:,")]).
Proof.
  apply (@cleanup_keeps_inserted_image true (fun _ => true) [noteI]
           [("img_17_ab", "data:image/png;base64,AA"); ("img_9_zz", "data:,")]
           noteI "intro " "outro" "img_17_ab" "" "cat.png" false).
  - simpl. left. reflexivity.
  - reflexivity.
  - discriminate.
  - vm_compute. reflexivity.
Defined.

End ImageCleanupProofs.

Module MarkerProofs.
Import Re StrFacts RegexFacts Pdf.
Local Open Scope string_scope.

(** The characters of the emphasis and code markers. *)
Definition isMarker (c : ascii) : bool := Ascii.eqb c "*" || Ascii.eqb c "`".
Definition notMarker (c : ascii) : bool := negb (isMarker c).

(** [Del x y]: [y] is [x] with some of its marker characters taken out,
    and nothing else changed. *)
Inductive Del : string -> string -> Prop :=
| Del_nil : Del "" ""
| Del_keep c x y : Del x y -> Del (String c x) (String c y)
| Del_drop c x y : isMarker c = true -> Del x y -> Del (String c x) y.

Lemma Del_refl x : Del x x.
Proof. induction x; constructor; assumption. Qed.

Lemma Del_app x y x' y' : Del x y -> Del x' y' -> Del (x ++ x') (y ++ y').
Proof.
  intros H H'. induction H; cbn [append]; [exact H'| |]; constructor; assumption.
Qed.

Lemma Del_trans x y : Del x y -> forall z, Del y z -> Del x z.
Proof.
  induction 1 as [|c x y _ IH|c x y Hc _ IH]; intros z Hz.
  - exact Hz.
  - inversion Hz; subst; [apply Del_keep|apply Del_drop]; auto.
  - apply Del_drop; auto.
Qed.

Lemma Del_markers a : allChars isMarker a = true -> Del a "".
Proof.
  induction a as [|c a IH]; cbn [allChars]; intro H; [constructor|].
  apply andb_true_iff in H. destruct H as [Hc Ha]. apply Del_drop; auto.
Qed.

Lemma Del_empty y : Del "" y -> y = "".
Proof. intro H. now inversion H. Qed.

(** What is left is not longer, and holds the same characters that are not
    markers, in the same order. *)
Fixpoint ink (s : string) : string :=
  match s with
  | EmptyString => EmptyString
  | String c r => if isMarker c then ink r else String c (ink r)
  end.

Lemma Del_ink x y : Del x y -> ink x = ink y /\ String.length y <= String.length x.
Proof.
  induction 1 as [|c x y _ [IH1 IH2]|c x y Hc _ [IH1 IH2]]; cbn [ink String.length].
  - now split.
  - rewrite IH1. split; [reflexivity|lia].
  - rewrite Hc. split; [exact IH1|lia].
Qed.

(** ** A pattern between two literal ends *)

Lemma matchAt_suffix r p s st : matchAt r p s = Some st -> Suffix (rest st) s.
Proof.
  unfold matchAt. intro H. apply rmatch_through in H.
  destruct H as (st' & Hs & E). injection E as <-. exact Hs.
Qed.

Lemma wrapped_match (a b : string) (X : regex) p s st :
  matchAt (Seq [Lit a; Group 1 X; Lit b]) p s = Some st ->
  exists g, s = (a ++ g ++ b) ++ rest st /\ getCap 1 (caps st) = Some g.
Proof.
  unfold matchAt. cbn [Seq rmatch]. intro H.
  apply lit_inv in H. destruct H as (s1 & -> & H).
  apply rmatch_through in H. destruct H as (st' & Hs & H). cbn [rest] in Hs, H.
  apply lit_inv in H. destruct H as (s2 & E2 & H). injection H as <-.
  destruct Hs as [g Hg]. exists g. cbn [rest caps]. split.
  - rewrite Hg, E2, <- !ReFacts.append_assoc. reflexivity.
  - unfold setCap. cbn [getCap Nat.eqb]. rewrite Hg. now rewrite ReFacts.taken_append.
Qed.

(** ** Replacing every match by a part of it *)

Lemma replace_Del (r : regex) (f : Match -> string) :
  (forall idx p s st, matchAt r p s = Some st ->
                      Del (taken s (rest st)) (f (toMatch idx s st))) ->
  forall n s, String.length s <= n ->
  forall idx p, Del s (replaceFrom r f 0 idx p s).
Proof.
  intro Hf. induction n as [|n IH]; intros s Hn idx p.
  - destruct s; [|cbn in Hn; lia]. cbn [replaceFrom].
    destruct (matchAt r p "") as [st|] eqn:M; [|constructor].
    specialize (Hf idx p _ _ M). apply matchAt_suffix in M. destruct M as [u Hu].
    destruct u; [|discriminate]. cbn [append] in Hu.
    rewrite Hu in Hf at 1. change (rest st) with ("" ++ rest st) in Hf at 1.
    rewrite ReFacts.taken_append in Hf. apply Del_empty in Hf. rewrite Hf. constructor.
  - destruct s as [|c s'].
    { apply (IH ""); cbn; lia. }
    cbn [replaceFrom].
    destruct (matchAt r p (String c s')) as [st|] eqn:M.
    + specialize (Hf idx p _ _ M). assert (Hs := matchAt_suffix _ _ _ M).
      destruct Hs as [u Hu].
      assert (Ht : taken (String c s') (rest st) = u) by (rewrite Hu; apply ReFacts.taken_append).
      rewrite Ht in Hf. unfold toMatch at 2. cbn [m_text]. rewrite Ht.
      destruct u as [|d u].
      * apply Del_empty in Hf. rewrite Hf. cbn [String.length append].
        apply Del_keep. apply IH. cbn in Hn. lia.
      * cbn [append] in Hu. injection Hu as <- Hu. cbn [String.length].
        subst s'. rewrite LinkProofs.replaceFrom_skip.
        change (String c (u ++ rest st)) with (String c u ++ rest st).
        apply Del_app; [exact Hf|]. apply IH.
        cbn [String.length] in Hn. rewrite ReFacts.length_append in Hn. lia.
    + apply Del_keep. apply IH. cbn in Hn. lia.
Qed.

Lemma unwrap_Del (a b : string) (X : regex) s :
  allChars isMarker a = true -> allChars isMarker b = true ->
  Del s (replaceAll (Seq [Lit a; Group 1 X; Lit b]) (group 1) s).
Proof.
  intros Ha Hb. unfold replaceAll. apply replace_Del with (n := String.length s); [|lia].
  intros idx p t st M. apply wrapped_match in M. destruct M as (g & E & Hg).
  rewrite E at 1. rewrite ReFacts.taken_append.
  unfold group, toMatch. cbn [m_caps]. rewrite Hg.
  assert (Hd : Del (a ++ g ++ b) ("" ++ g ++ "")).
  { apply Del_app; [now apply Del_markers|].
    apply Del_app; [apply Del_refl|now apply Del_markers]. }
  cbn [append] in Hd. now rewrite append_nil_r in Hd.
Qed.

(** X17.  [cleanMarkdown] of the PDF export only ever takes asterisks and
    backquotes out of a text: what it returns is the text with some of
    these marker characters removed and every other character kept, in
    order (so it is not longer, and a text without them comes back as it
    is). *)
Theorem cleanMarkdown_only_removes_markers (text : string) :
  Del text (cleanMarkdown text)
  /\ ink (cleanMarkdown text) = ink text
  /\ String.length (cleanMarkdown text) <= String.length text
  /\ (allChars notMarker text = true -> cleanMarkdown text = text).
Proof.
  assert (H : Del text (cleanMarkdown text)).
  { unfold cleanMarkdown. cbv zeta.
    eapply Del_trans; [|apply (@unwrap_Del "`" "`"); reflexivity].
    eapply Del_trans; [|apply (@unwrap_Del "*" "*"); reflexivity].
    apply (@unwrap_Del "**" "**"); reflexivity. }
  split; [exact H|]. destruct (Del_ink H) as [Hi Hl].
  split; [now symmetry|]. split; [exact Hl|].
  intro Hp. unfold cleanMarkdown. cbv zeta.
  rewrite (@replaceAll_outside notMarker boldRegex) by (vm_compute; reflexivity || exact Hp).
  rewrite (@replaceAll_outside notMarker italicRegex) by (vm_compute; reflexivity || exact Hp).
  apply (@replaceAll_outside notMarker inlineCodeRegex); [vm_compute; reflexivity|exact Hp].
Qed.

End MarkerProofs.

Module PlainImportProofs.
Import Re StrFacts RegexFacts Notes ExportImport.
Local Open Scope string_scope.

(** A position where [^] holds with the [m] flag. *)
Definition atLineStart (p : option ascii) : bool :=
  match p with
  | None => true
  | Some q => Js.isLineTerminator q
  end.

(** [noLineStart start p u]: no line of [u] (read after the character
    [p]) starts with the text [start]. *)
Fixpoint noLineStart (start : string) (p : option ascii) (u : string) : bool :=
  match u with
  | EmptyString => true
  | String c u' =>
      (negb (atLineStart p) || negb (String.prefix start u))
      && noLineStart start (Some c) u'
  end.

(** The lines with which [exportAllToZip] starts a file. *)
Definition metaStarts : list string := ["# "; "> "; "Tags: "; "Created: "; "---"].

(** No line of the text starts as one of them. *)
Definition plainText (text_ : string) : bool :=
  forallb (fun start => noLineStart start None text_) metaStarts.

Lemma lit_none start :
  forall p s cs k, String.prefix start s = false -> rmatch (Lit start) (MState p s cs) k = None.
Proof.
  induction start as [|a w IH]; intros p s cs k H; [now destruct s|].
  cbn [Lit rmatch rest]. destruct s as [|c s]; [reflexivity|].
  cbn [String.prefix] in H. unfold only.
  destruct (ascii_dec a c) as [->|Hne].
  - rewrite Ascii.eqb_refl. now apply IH.
  - apply Ascii.eqb_neq in Hne. now rewrite Hne.
Qed.

Lemma anchored_none start r p s :
  negb (atLineStart p) || negb (String.prefix start s) = true ->
  matchAt (Cat (Bol true) (Cat (Lit start) r)) p s = None.
Proof.
  intro H. unfold matchAt. cbn [rmatch]. unfold atBol. cbn [prev].
  apply orb_true_iff in H. destruct H as [H|H]; apply negb_true_iff in H.
  - destruct p as [q|]; [|discriminate]. cbn [atLineStart] in H. now rewrite H.
  - destruct (match p with Some c => true && Js.isLineTerminator c | None => true end);
      [|reflexivity].
    now apply lit_none.
Qed.

Lemma search_none start r u :
  start <> "" ->
  forall idx p, noLineStart start p u = true ->
                search (Cat (Bol true) (Cat (Lit start) r)) idx p u = None.
Proof.
  intro Hne. induction u as [|c u IH]; intros idx p Hd.
  - cbn [search]. rewrite anchored_none; [reflexivity|].
    destruct start; [congruence|]. cbn [String.prefix]. apply orb_true_r.
  - cbn [noLineStart] in Hd. apply andb_true_iff in Hd. destruct Hd as [Hc Hd].
    cbn [search]. rewrite anchored_none by exact Hc. now apply IH.
Qed.

Lemma replaceOnce_none start r f u :
  start <> "" ->
  forall idx p, noLineStart start p u = true ->
                replaceOnceFrom (Cat (Bol true) (Cat (Lit start) r)) f idx p u = u.
Proof.
  intro Hne. induction u as [|c u IH]; intros idx p Hd.
  - cbn [replaceOnceFrom]. rewrite anchored_none; [reflexivity|].
    destruct start; [congruence|]. cbn [String.prefix]. apply orb_true_r.
  - cbn [noLineStart] in Hd. apply andb_true_iff in Hd. destruct Hd as [Hc Hd].
    cbn [replaceOnceFrom]. rewrite anchored_none by exact Hc. now rewrite IH.
Qed.

(** ** The name of the file without its ending *)

Lemma md_only_at_end p s st :
  matchAt mdRegex p s = Some st -> s = ".md" /\ rest st = "".
Proof.
  unfold matchAt, mdRegex. cbn [Seq rmatch]. intro H.
  apply lit_inv in H. destruct H as (s' & -> & H).
  unfold atEol in H. cbn [rest] in H.
  destruct s' as [|c s']; [|discriminate]. injection H as <-. now split.
Qed.

Lemma md_at_end p : matchAt mdRegex p ".md" = Some (MState (Some "d"%char) "" []).
Proof. reflexivity. Qed.

Lemma base_name base :
  forall idx p, replaceOnceFrom mdRegex blank idx p (base ++ ".md") = base.
Proof.
  induction base as [|c base IH]; intros idx p.
  - cbn [append]. rewrite (@RoundTripProofs.replaceOnce_here _ _ _ _ _ _ (md_at_end p)).
    reflexivity.
  - cbn [append replaceOnceFrom].
    destruct (matchAt mdRegex p (String c (base ++ ".md"))) as [st|] eqn:M.
    + apply md_only_at_end in M. destruct M as [E _]. exfalso.
      apply (f_equal String.length) in E. cbn [String.length] in E.
      rewrite ReFacts.length_append in E. cbn [String.length] in E. lia.
    + now rewrite IH.
Qed.

(** X18.  A markdown file without the lines of an export is imported
    whole.  When no line of the file's text starts with [# ], [> ],
    [Tags: ], [Created: ] or [---], [importMarkdownFiles] hands over, for
    the file [base.md], a note whose title is [base], whose summary and
    tags are empty and whose content is the trimmed text. *)
Theorem plain_file_imported_whole (nowISO : nat -> string) (n : nat) (base text_ : string) :
  plainText text_ = true ->
  importFile nowISO n (MkFile (base ++ ".md") (Some text_))
  = Some (MkNewDocument base "" [] (Js.trim text_) (nowISO n)).
Proof.
  intro Hp. unfold plainText, metaStarts in Hp. cbn [forallb] in Hp.
  repeat (apply andb_true_iff in Hp; destruct Hp as [? Hp]).
  unfold importFile. cbn [name text].
  rewrite RoundTripProofs.endsWith_app. cbn [negb].
  unfold importText, matchFirst, replaceOnce, metaRegex, metaLine, ruleRegex. cbn [Seq].
  rewrite base_name.
  rewrite !(fun start r ne => @search_none start r text_ ne 0 None)
    by (assumption || discriminate).
  rewrite (fun r ne => @replaceOnce_none "# " r blank text_ ne 0 None)
    by (assumption || discriminate).
  rewrite (fun r ne => @replaceOnce_none "> " r blank text_ ne 0 None)
    by (assumption || discriminate).
  rewrite (fun r ne => @replaceOnce_none "Tags: " r blank text_ ne 0 None)
    by (assumption || discriminate).
  rewrite (fun r ne => @replaceOnce_none "Created: " r blank text_ ne 0 None)
    by (assumption || discriminate).
  rewrite (fun r ne => @replaceOnce_none "---" r blank text_ ne 0 None)
    by (assumption || discriminate).
  reflexivity.
Qed.

Lemma plain_file_imported_whole_witness :
  importFile (fun _ => "2024-02-03T00:00:00.000Z") 0
             (MkFile ("shopping" ++ ".md") (Some (" The list" ++ Js.nl ++ "- eggs # two" ++ Js.nl)))
  = Some (MkNewDocument "shopping" "" [] (Js.trim (" The list" ++ Js.nl ++ "- eggs # two" ++ Js.nl))
                        "2024-02-03T00:00:00.000Z").
Proof.
  apply (@plain_file_imported_whole (fun _ => "2024-02-03T00:00:00.000Z") 0 "shopping"
           (" The list" ++ Js.nl ++ "- eggs # two" ++ Js.nl)).
  vm_compute. reflexivity.
Defined.

End PlainImportProofs.

(* ------------------------------------------------------------------ *)
(** * Patterns that start with a literal *)

Module LiteralFacts.
Import Re StrFacts RegexFacts.
Local Open Scope string_scope.

(** Every match of [r] starts with the text [w]. *)
Definition LiteralHead (w : string) (r : regex) : Prop :=
  forall p s cs k x, rmatch r (MState p s cs) k = Some x -> exists s', s = w ++ s'.

Lemma literalHead_lit w v b : LiteralHead w (Cat (Lit (w ++ v)) b).
Proof.
  intros p s cs k x H. cbn [rmatch] in H. apply lit_inv in H.
  destruct H as (s' & -> & _). exists (v ++ s'). symmetry. apply ReFacts.append_assoc.
Qed.

Lemma prefix_nil s : String.prefix "" s = true.
Proof. now destruct s. Qed.

Lemma prefix_cons a w b s :
  String.prefix (String a w) (String b s) = Ascii.eqb a b && String.prefix w s.
Proof.
  cbn [String.prefix]. destruct (ascii_dec a b) as [->|N].
  - now rewrite Ascii.eqb_refl.
  - apply Ascii.eqb_neq in N. now rewrite N.
Qed.

Lemma prefix_append w : forall s, String.prefix w (w ++ s) = true.
Proof.
  induction w as [|a w IH]; intro s.
  - apply prefix_nil.
  - cbn [append]. now rewrite prefix_cons, Ascii.eqb_refl, IH.
Qed.

Lemma matchAt_headless w r p s :
  LiteralHead w r -> String.prefix w s = false -> matchAt r p s = None.
Proof.
  intros Hr Hp. unfold matchAt.
  destruct (rmatch r (MState p s []) Some) eqn:E; [|reflexivity].
  apply Hr in E. destruct E as [s' ->]. rewrite prefix_append in Hp. discriminate.
Qed.

Lemma includes_prefix w s : Js.includes w s = false -> String.prefix w s = false.
Proof. destruct s; cbn [Js.includes]; intro H; now apply orb_false_iff in H. Qed.

Lemma includes_tail w c s : Js.includes w (String c s) = false -> Js.includes w s = false.
Proof. cbn [Js.includes]. intro H. now apply orb_false_iff in H. Qed.

(** ** A text without the literal *)

Lemma replaceFrom_absent w r f s :
  LiteralHead w r -> Js.includes w s = false ->
  forall idx p, replaceFrom r f 0 idx p s = s.
Proof.
  intro Hr. induction s as [|c s IH]; intros Hs idx p; cbn [replaceFrom];
    rewrite (@matchAt_headless w r p _ Hr (@includes_prefix _ _ Hs)); [reflexivity|].
  now rewrite (IH (@includes_tail _ _ _ Hs)).
Qed.

Lemma replaceAll_absent w r f s :
  LiteralHead w r -> Js.includes w s = false -> replaceAll r f s = s.
Proof. intros. unfold replaceAll. now apply replaceFrom_absent with (w := w). Qed.

Lemma matchesFrom_absent w r s :
  LiteralHead w r -> Js.includes w s = false ->
  forall idx p, matchesFrom r 0 idx p s = [].
Proof.
  intro Hr. induction s as [|c s IH]; intros Hs idx p; cbn [matchesFrom];
    rewrite (@matchAt_headless w r p _ Hr (@includes_prefix _ _ Hs)); [reflexivity|].
  now apply IH, (@includes_tail w c s).
Qed.

Lemma matchAll_absent w r s :
  LiteralHead w r -> Js.includes w s = false -> matchAll r s = [].
Proof. intros. unfold matchAll. now apply matchesFrom_absent with (w := w). Qed.

Lemma search_absent w r s :
  LiteralHead w r -> Js.includes w s = false ->
  forall idx p, search r idx p s = None.
Proof.
  intro Hr. induction s as [|c s IH]; intros Hs idx p; cbn [search];
    rewrite (@matchAt_headless w r p _ Hr (@includes_prefix _ _ Hs)); [reflexivity|].
  now apply IH, (@includes_tail w c s).
Qed.

Lemma exec_absent w r s :
  LiteralHead w r -> Js.includes w s = false -> exec r 0 s = None.
Proof.
  intros Hr Hs. unfold exec. cbn [Nat.ltb Nat.leb].
  change (Js.substringFrom 0 s) with s.
  now apply search_absent with (w := w).
Qed.

(** ** Lines without the literal in front of a text *)

(** A literal without a line feed that starts [u], a line feed and more,
    starts [u]. *)
Lemma prefix_before_newline w :
  allChars TsvProofs.notLF w = true ->
  forall u t s', u ++ String Js.LF t = w ++ s' -> String.prefix w u = true.
Proof.
  induction w as [|a w IH]; intros Hw u t s' E.
  - apply prefix_nil.
  - cbn [allChars] in Hw. apply andb_true_iff in Hw. destruct Hw as [Ha Hw].
    destruct u as [|b u]; cbn [append] in E.
    + injection E as <- _. discriminate.
    + injection E as -> E. rewrite prefix_cons, Ascii.eqb_refl. cbn [andb].
      now apply IH with t s'.
Qed.

Lemma matchAt_before_newline w r p u t :
  LiteralHead w r -> allChars TsvProofs.notLF w = true ->
  String.prefix w u = false ->
  matchAt r p (u ++ String Js.LF t) = None.
Proof.
  intros Hr Hw Hp. unfold matchAt.
  destruct (rmatch r (MState p (u ++ String Js.LF t) []) Some) eqn:E; [|reflexivity].
  apply Hr in E. destruct E as [s' E].
  rewrite (@prefix_before_newline w Hw _ _ _ E) in Hp. discriminate.
Qed.

(** Replacing the matches of such a pattern keeps the lines in front that
    do not hold the literal. *)
Lemma replaceFrom_preamble w r f pre t :
  LiteralHead w r -> allChars TsvProofs.notLF w = true ->
  Js.includes w pre = false ->
  forall idx p, exists t',
    replaceFrom r f 0 idx p (pre ++ String Js.LF t) = pre ++ String Js.LF t'.
Proof.
  intros Hr Hw. induction pre as [|c pre IH]; intros Hpre idx p.
  - pose proof (@matchAt_before_newline w r p "" t Hr Hw (@includes_prefix _ _ Hpre)) as M.
    cbn [append] in M |- *. cbn [replaceFrom]. rewrite M.
    eexists. reflexivity.
  - pose proof (@matchAt_before_newline w r p (String c pre) t Hr Hw
                                        (@includes_prefix _ _ Hpre)) as M.
    cbn [append] in M |- *. cbn [replaceFrom]. rewrite M.
    destruct (IH (@includes_tail _ _ _ Hpre) (S idx) (Some c)) as [t' E].
    exists t'. now rewrite E.
Qed.

Lemma replaceAll_preamble w r f pre t :
  LiteralHead w r -> allChars TsvProofs.notLF w = true ->
  Js.includes w pre = false ->
  exists t', replaceAll r f (pre ++ String Js.LF t) = pre ++ String Js.LF t'.
Proof. intros. unfold replaceAll. now apply replaceFrom_preamble with (w := w). Qed.

End LiteralFacts.

(* ------------------------------------------------------------------ *)
(** * The lines before the first heading *)

Module PreambleProofs.
Import Re Pdf LiteralFacts.
Local Open Scope string_scope.

Lemma linkRegex_head : LiteralHead "[[" Links.linkRegex.
Proof. exact (@literalHead_lit "[[" "" _). Qed.

Lemma imageRegex_head : LiteralHead "cornell-image://" imageRegex.
Proof. exact (@literalHead_lit "cornell-image://" "" _). Qed.

(** The text given to [parseMarkdown] keeps the lines in front of the body
    that hold no note link, when the body refers to no stored image. *)
Lemma processContentForExport_preamble env pre rest :
  Js.includes "[[" pre = false ->
  Js.includes "cornell-image://" (pre ++ Js.nl ++ rest) = false ->
  exists rest',
    processContentForExport env (pre ++ Js.nl ++ rest) = pre ++ Js.nl ++ rest'.
Proof.
  intros Hl Hi. unfold processContentForExport.
  rewrite (@matchAll_absent _ _ _ imageRegex_head Hi). cbn [loadImages].
  unfold Js.nl. cbn [append].
  exact (@replaceAll_preamble "[[" Links.linkRegex (group 1) pre rest linkRegex_head eq_refl Hl).
Qed.

(** A body without note link and without reference to a stored image is
    given to [parseMarkdown] as it is, and lists no related note. *)
Lemma processContentForExport_plain env markdown :
  Js.includes "[[" markdown = false ->
  Js.includes "cornell-image://" markdown = false ->
  processContentForExport env markdown = markdown
  /\ Links.extractNoteLinks markdown = [].
Proof.
  intros Hl Hi. unfold processContentForExport, Links.extractNoteLinks.
  rewrite (@matchAll_absent _ _ _ imageRegex_head Hi). cbn [loadImages].
  rewrite (@replaceAll_absent _ _ (group 1) _ linkRegex_head Hl).
  rewrite (@matchAll_absent _ _ _ linkRegex_head Hl). split; reflexivity.
Qed.

(** C9.  The body whose first line is the note link [[[# X]]]: its lines
    [[[# X]]] and [hello] come before its first heading line, [# Real],
    and [parseMarkdown] of the body has the one section [Real].  But
    [exportToPdf] parses the processed text, in which the link has become
    the heading line [# X]: the section [X] holds [hello], and [hello] is
    drawn in the notes column of the PDF. *)
Lemma C9_preamble_line_drawn :
  let body := "[[# X]]" ++ Js.nl ++ "hello" ++ Js.nl ++ "# Real" ++ Js.nl ++ "content" in
  Js.split Js.LF body = ["[[# X]]"; "hello"; "# Real"; "content"]
  /\ Js.startsWith "# " "[[# X]]" = false
  /\ Js.startsWith "# " "hello" = false
  /\ parseMarkdown body = [MkSection "Real" "content"]
  /\ processContentForExport Demo.env body
     = "# X" ++ Js.nl ++ "hello" ++ Js.nl ++ "# Real" ++ Js.nl ++ "content"
  /\ parseMarkdown (processContentForExport Demo.env body)
     = [MkSection "X" "hello"; MkSection "Real" "content"]
  /\ exists doc,
       exportToPdf Demo.env "T" "" body Sans = Some (Downloaded "t.pdf" doc)
       /\ In (OpText 1 ["hello"] 65 50 (MkFont "helvetica" "normal" 11) "left") (ops doc).
Proof.
  cbv zeta.
  split; [vm_compute; reflexivity|].
  split; [vm_compute; reflexivity|].
  split; [vm_compute; reflexivity|].
  split; [vm_compute; reflexivity|].
  split; [vm_compute; reflexivity|].
  split; [vm_compute; reflexivity|].
  eexists. split; [vm_compute; reflexivity|].
  cbn [ops In]. do 3 right. left. reflexivity.
Qed.

(** C9, as amended.  [parseMarkdown] assigns the lines that come before
    the first top-level heading line of the text it is given to no
    section: with a preamble none of whose lines starts with [# ] in
    front, it returns the sections of what follows the preamble, the same
    whatever the preamble says; a text with no heading line at all has no
    section; in general the sections of a text are those of its lines
    from the first heading line on.  [exportToPdf] gives it the processed
    text (the stored images loaded, the brackets of the note links
    removed), so what it renders are the sections of the processed text
    from its first heading line on; the preamble of the body itself is
    left out when it holds no note link and the body refers to no stored
    image, for then the processed text starts with the same preamble. *)
Theorem C9_preamble_in_no_section (preamble rest : string) :
  (forall l, In l (Js.split Js.LF preamble) -> Js.startsWith "# " l = false) ->
  parseMarkdown (preamble ++ Js.nl ++ rest) = parseMarkdown rest
  /\ parseMarkdown preamble = []
  /\ (forall body,
         parseMarkdown body
         = parseLines (Js.dropWhile SectionProofs.notHeading (Js.split Js.LF body)) [] "" [])
  /\ (forall env title summary markdown font,
         exportToPdf env title summary markdown font
         = renderDocument env title summary font
             (parseLines (Js.dropWhile SectionProofs.notHeading
                            (Js.split Js.LF (processContentForExport env markdown)))
                         [] "" [])
             (Links.extractNoteLinks markdown))
  /\ (forall env title summary font,
         Js.includes "[[" preamble = false ->
         Js.includes "cornell-image://" (preamble ++ Js.nl ++ rest) = false ->
         exists rest',
           processContentForExport env (preamble ++ Js.nl ++ rest)
           = preamble ++ Js.nl ++ rest'
           /\ exportToPdf env title summary (preamble ++ Js.nl ++ rest) font
              = renderDocument env title summary font (parseMarkdown rest')
                               (Links.extractNoteLinks (preamble ++ Js.nl ++ rest))).
Proof.
  intro Hpre.
  assert (H1 : forall t, parseMarkdown (preamble ++ Js.nl ++ t) = parseMarkdown t).
  { intro t. unfold parseMarkdown, Js.nl. cbn [append].
    rewrite SectionProofs.split_app_nl. now apply SectionProofs.parseLines_preamble. }
  assert (H3 : forall body,
             parseMarkdown body
             = parseLines (Js.dropWhile SectionProofs.notHeading (Js.split Js.LF body)) [] "" []).
  { intro body. unfold parseMarkdown.
    destruct (SectionProofs.dropWhile_split SectionProofs.notHeading (Js.split Js.LF body))
      as (pre & Heq & Hp).
    rewrite Heq at 1. apply SectionProofs.parseLines_preamble.
    intros l Hl. apply Hp in Hl. unfold SectionProofs.notHeading in Hl.
    now apply negb_true_iff in Hl. }
  split; [apply H1|]. split; [|split; [exact H3|split]].
  - unfold parseMarkdown. now apply SectionProofs.parseLines_only_preamble.
  - intros env title summary markdown font. unfold exportToPdf. now rewrite H3.
  - intros env title summary font Hl Hi.
    destruct (@processContentForExport_preamble env preamble rest Hl Hi) as [rest' E].
    exists rest'. split; [exact E|].
    unfold exportToPdf. now rewrite E, H1.
Qed.

Lemma C9_witness :
  (forall l, In l (Js.split Js.LF "intro") -> Js.startsWith "# " l = false)
  /\ parseMarkdown ("intro" ++ Js.nl ++ "# A" ++ Js.nl ++ "x")
     = parseMarkdown ("# A" ++ Js.nl ++ "x")
  /\ exists rest',
       processContentForExport Demo.env ("intro" ++ Js.nl ++ "# A" ++ Js.nl ++ "x")
       = "intro" ++ Js.nl ++ rest'
       /\ exportToPdf Demo.env "T" "" ("intro" ++ Js.nl ++ "# A" ++ Js.nl ++ "x") Sans
          = renderDocument Demo.env "T" "" Sans (parseMarkdown rest')
                           (Links.extractNoteLinks ("intro" ++ Js.nl ++ "# A" ++ Js.nl ++ "x")).
Proof.
  assert (H : forall l, In l (Js.split Js.LF "intro") -> Js.startsWith "# " l = false).
  { intros l [<-|[]]. vm_compute. reflexivity. }
  destruct (@C9_preamble_in_no_section "intro" ("# A" ++ Js.nl ++ "x") H)
    as (H1 & _ & _ & _ & H5).
  split; [exact H|split; [exact H1|]].
  apply H5; vm_compute; reflexivity.
Defined.

End PreambleProofs.

(* ------------------------------------------------------------------ *)
(** * A summary whose image loop does not end *)

Module ImageLoopProofs.
Import Re StrFacts RegexFacts Anki.
Local Open Scope string_scope.

(** ** What a match of the markdown image pattern looks like *)

(** A star over a class of characters reads characters of the class. *)
Lemma starLoop_chr_reads (P : ascii -> bool) (g : bool) (k : mstate -> option mstate) :
  forall n st x,
    starLoop (rmatch (Chr P)) g k n st = Some x ->
    exists v st', rest st = v ++ rest st' /\ allChars P v = true /\ k st' = Some x.
Proof.
  induction n as [|n IH]; intros st x H.
  - cbn [starLoop] in H. exists "", st. now repeat split.
  - cbn [starLoop] in H. fold (starLoop (rmatch (Chr P)) g k) in H.
    assert (Hagain : forall y,
               rmatch (Chr P) st (fun st' =>
                 if (String.length (rest st') <? String.length (rest st))%nat
                 then starLoop (rmatch (Chr P)) g k n st' else None) = Some y ->
               exists v st', rest st = v ++ rest st' /\ allChars P v = true /\ k st' = Some y).
    { intros y Hy. cbn [rmatch] in Hy.
      destruct (rest st) as [|c s'] eqn:Hr; [discriminate|].
      destruct (P c) eqn:Hc; [|discriminate].
      cbn [rest] in Hy.
      destruct (String.length s' <? String.length (String c s'))%nat; [|discriminate].
      apply IH in Hy. destruct Hy as (v & st' & Hv & Ha & Hk). cbn [rest] in Hv.
      exists (String c v), st'. cbn [append allChars]. rewrite Hv, Hc, Ha. now repeat split. }
    destruct g.
    + destruct (rmatch (Chr P) st _) eqn:Ha.
      * injection H as <-. now apply Hagain.
      * exists "", st. now repeat split.
    + destruct (k st) eqn:Hk.
      * injection H as <-. exists "", st. now repeat split.
      * now apply Hagain.
Qed.

Lemma group_star_reads i g P st k x :
  rmatch (Group i (Star g (Chr P))) st k = Some x ->
  exists v s', rest st = v ++ s' /\ allChars P v = true
               /\ exists p cs, k (MState p s' cs) = Some x.
Proof.
  intro H. cbn [rmatch] in H. apply starLoop_chr_reads in H.
  destruct H as (v & st' & Hv & Ha & Hk).
  exists v, (rest st'). split; [exact Hv|split; [exact Ha|]]. eauto.
Qed.

(** The tail of the pattern, after the closing bracket. *)
Definition afterBracket : regex :=
  Seq [Eol false; Eol false; Group 2 (Star false (Chr dot)); Eol false; Eol false].

Lemma markdownImageRegex_eq :
  markdownImageRegex
  = Cat (Lit "![") (Cat (Group 1 (Star false (Chr dot))) (Cat (Lit "]") afterBracket)).
Proof. reflexivity. Qed.

Lemma afterBracket_end st k x : rmatch afterBracket st k = Some x -> rest st = "".
Proof.
  unfold afterBracket. cbn [Seq rmatch]. unfold atEol.
  destruct (rest st); [reflexivity|discriminate].
Qed.

(** A match is [![], characters of one line, and []] at the end of the
    input. *)
Lemma markdownImage_shape p s x :
  matchAt markdownImageRegex p s = Some x ->
  exists v, s = "![" ++ v ++ "]" /\ allChars dot v = true.
Proof.
  unfold matchAt. rewrite markdownImageRegex_eq. intro H.
  change (rmatch (Lit "![") (MState p s [])
            (fun st1 =>
               rmatch (Group 1 (Star false (Chr dot))) st1
                 (fun st2 => rmatch (Lit "]") st2
                               (fun st3 => rmatch afterBracket st3 Some))) = Some x) in H.
  apply lit_inv in H. destruct H as (s1 & -> & H).
  apply group_star_reads in H. destruct H as (v & s2 & Hv & Ha & p2 & cs2 & H).
  cbn [rest] in Hv. subst s1.
  apply lit_inv in H. destruct H as (s3 & -> & H).
  apply afterBracket_end in H. cbn [rest] in H. subst s3.
  exists v. split; [reflexivity|exact Ha].
Qed.

Lemma dot_not_newline s : allChars dot s = true -> allChars TsvProofs.notLF s = true.
Proof.
  apply allChars_impl. intros c Hc. unfold dot, Js.isLineTerminator in Hc.
  unfold TsvProofs.notLF.
  destruct (Ascii.eqb c Js.LF) eqn:E; [|reflexivity].
  apply Ascii.eqb_eq in E. subst c. discriminate.
Qed.

(** No match starts on a line that is not the last one. *)
Lemma no_match_before_newline p u t :
  matchAt markdownImageRegex p (u ++ String Js.LF t) = None.
Proof.
  destruct (matchAt markdownImageRegex p (u ++ String Js.LF t)) eqn:E; [|reflexivity].
  apply markdownImage_shape in E. destruct E as (v & E & Hv).
  assert (Hall : allChars dot ("![" ++ v ++ "]") = true).
  { rewrite !allChars_app, Hv. reflexivity. }
  rewrite <- E, allChars_app in Hall. cbn [allChars] in Hall.
  apply andb_true_iff in Hall. destruct Hall as [_ Hall]. discriminate.
Qed.

(** ** The text the loop rewrites *)

Definition imageToken : string := "![$&]".
Definition opening : string := "<img src=" ++ Js.dq ++ Js.dq ++ " alt=" ++ Js.dq.
Definition closing : string := Js.dq ++ ">".

Fixpoint before (k : nat) : string :=
  match k with O => "" | S k' => before k' ++ opening end.
Fixpoint behind (k : nat) : string :=
  match k with O => "" | S k' => closing ++ behind k' end.

(** The first line after [k] turns: the token inside [k] image tags. *)
Definition grown (k : nat) : string := before k ++ imageToken ++ behind k.

Lemma before_chars P k : allChars P opening = true -> allChars P (before k) = true.
Proof.
  intro H. induction k as [|k IH]; [reflexivity|].
  cbn [before]. now rewrite allChars_app, IH, H.
Qed.

Lemma behind_chars P k : allChars P closing = true -> allChars P (behind k) = true.
Proof.
  intro H. induction k as [|k IH]; [reflexivity|].
  cbn [behind]. now rewrite allChars_app, IH, H.
Qed.

Lemma grown_dot k : allChars dot (grown k) = true.
Proof.
  unfold grown. rewrite !allChars_app, before_chars, behind_chars; reflexivity.
Qed.

Lemma grown_length k : String.length (grown (S k)) = String.length (grown k) + 19.
Proof.
  unfold grown. cbn [before behind]. rewrite !ReFacts.length_append.
  change (String.length opening) with 17. change (String.length closing) with 2. lia.
Qed.

(** ** One turn of the loop *)

Lemma search_found r idx p s st :
  matchAt r p s = Some st -> search r idx p s = Some (toMatch idx s st).
Proof. intro H. destruct s; cbn [search]; now rewrite H. Qed.

Lemma search_next r idx p c s :
  matchAt r p (String c s) = None -> search r idx p (String c s) = search r (S idx) (Some c) s.
Proof. intro H. cbn [search]. now rewrite H. Qed.

Lemma token_matches p :
  matchAt markdownImageRegex p imageToken = Some (MState (Some "]"%char) "" [(2, ""); (1, "$&")]).
Proof. destruct p; vm_compute; reflexivity. Qed.

Lemma search_token idx p :
  search markdownImageRegex idx p imageToken = Some (MkMatch idx imageToken [(2, ""); (1, "$&")]).
Proof. rewrite (@search_found _ idx _ _ _ (token_matches p)). reflexivity. Qed.

(** The leftmost match in what is left of the first line and the token
    on the second line is that token. *)
Lemma search_last_line u :
  forall idx p,
    search markdownImageRegex idx p (u ++ String Js.LF imageToken)
    = Some (MkMatch (idx + String.length u + 1) imageToken [(2, ""); (1, "$&")]).
Proof.
  induction u as [|c u IH]; intros idx p.
  - pose proof (no_match_before_newline p "" imageToken) as M. cbn [append] in M |- *.
    rewrite (@search_next _ idx _ _ _ M), search_token. cbn [String.length].
    do 2 f_equal. lia.
  - pose proof (no_match_before_newline p (String c u) imageToken) as M. cbn [append] in M |- *.
    rewrite (@search_next _ idx _ _ _ M), IH. cbn [String.length]. do 2 f_equal. lia.
Qed.

Lemma substringFrom_app i : forall g t,
  i <= String.length g ->
  Js.substringFrom i (g ++ t) = Js.substringFrom i g ++ t
  /\ String.length (Js.substringFrom i g) + i = String.length g.
Proof.
  induction i as [|i IH]; intros g t Hi.
  - destruct g; cbn; split; reflexivity || lia.
  - destruct g as [|c g]; [cbn in Hi; lia|]. cbn [String.length] in Hi.
    cbn [append Js.substringFrom String.length].
    destruct (IH g t) as [E L]; [lia|]. split; [exact E|lia].
Qed.

Lemma substringFrom_all g : forall t, Js.substringFrom (String.length g) (g ++ t) = t.
Proof. induction g as [|c g IH]; intro t; [now destruct t|apply IH]. Qed.

(** [exec] from an index up to the start of the second line finds the
    token of the second line. *)
Lemma exec_last_line g idx :
  idx <= S (String.length g) ->
  exec markdownImageRegex idx (g ++ String Js.LF imageToken)
  = Some (MkMatch (S (String.length g)) imageToken [(2, ""); (1, "$&")]).
Proof.
  intro Hi. unfold exec.
  assert (Hlen : (String.length (g ++ String Js.LF imageToken) <? idx)%nat = false).
  { apply Nat.ltb_ge. rewrite ReFacts.length_append. cbn [String.length]. lia. }
  rewrite Hlen.
  destruct (Nat.eq_dec idx (S (String.length g))) as [->|N].
  - assert (E : Js.substringFrom (S (String.length g)) (g ++ String Js.LF imageToken) = imageToken).
    { change (S (String.length g)) with (String.length (String Js.LF g)).
      clear. induction g as [|c g IH]; [reflexivity|]. cbn [append String.length Js.substringFrom] in *.
      exact IH. }
    rewrite E.
    apply search_token.
  - destruct (@substringFrom_app idx g (String Js.LF imageToken)) as [E L]; [lia|].
    rewrite E, search_last_line. do 2 f_equal. lia.
Qed.

(** The replacement of the first token: the pattern [$&] of the
    alternative text is expanded to the token itself. *)
Lemma replace_first_token pre rest' :
  allChars (isNot "!"%char) pre = true ->
  forall seen,
    Js.replaceStrFrom imageToken (opening ++ "$&" ++ closing) seen (pre ++ imageToken ++ rest')
    = pre ++ opening ++ imageToken ++ closing ++ rest'.
Proof.
  induction pre as [|c pre IH]; intros Hpre seen.
  - cbn [append]. unfold imageToken at 1 2. cbn [Js.replaceStrFrom append].
    assert (Hp : String.prefix "![$&]" (String "!" (String "[" (String "$" (String "&" (String "]" rest')))))
                 = true) by (exact (LiteralFacts.prefix_append "![$&]" rest')).
    rewrite Hp. reflexivity.
  - cbn [allChars] in Hpre. apply andb_true_iff in Hpre. destruct Hpre as [Hc Hpre].
    cbn [append Js.replaceStrFrom].
    assert (Hp : String.prefix imageToken (String c (pre ++ imageToken ++ rest')) = false).
    { unfold imageToken. rewrite LiteralFacts.prefix_cons.
      unfold isNot in Hc. apply negb_true_iff in Hc. now rewrite Hc. }
    rewrite Hp, IH by exact Hpre. reflexivity.
Qed.

Lemma replace_in_grown k :
  Js.replaceStr imageToken (opening ++ "$&" ++ closing) (grown k ++ String Js.LF imageToken)
  = grown (S k) ++ String Js.LF imageToken.
Proof.
  unfold Js.replaceStr, grown. cbn [before behind].
  rewrite <- !ReFacts.append_assoc.
  rewrite replace_first_token by (apply before_chars; reflexivity).
  reflexivity.
Qed.

(** The loop never ends on the summary of two such tokens: every turn
    finds the token of the second line and wraps the token of the first
    line in one more image tag. *)
Lemma loop_never_ends (fuel : nat) :
  forall k idx,
    idx <= S (String.length (grown k)) ->
    markdownImagesLoop fuel idx (grown k ++ String Js.LF imageToken) = None.
Proof.
  induction fuel as [|fuel IH]; intros k idx Hi; [reflexivity|].
  cbn [markdownImagesLoop]. rewrite (exec_last_line _ Hi).
  cbn [m_text groupOpt group getCap m_caps Nat.eqb orImage Js.truthy].
  change ("<img src=" ++ q "" ++ " alt=" ++ q "$&" ++ ">") with (opening ++ "$&" ++ closing).
  rewrite replace_in_grown. apply IH.
  unfold lastIndexAfter. cbn [m_index m_text]. rewrite grown_length.
  change (String.length imageToken) with 5. lia.
Qed.

End ImageLoopProofs.

(* ------------------------------------------------------------------ *)
(** * The exports of a body without heading *)

Module NoHeadingOutcomes.
Import Re LiteralFacts.
Local Open Scope string_scope.

Section Flashcards.
Import Anki.
Variable env : Env.

Lemma htmlImageRegex_head : LiteralHead "<img" htmlImageRegex.
Proof. exact (@literalHead_lit "<img" "" _). Qed.

Lemma markdownImageRegex_head : LiteralHead "![" markdownImageRegex.
Proof. exact (@literalHead_lit "![" "" _). Qed.

(** A text without image is left as it is, at once. *)
Lemma processImagesForAnki_plain text n :
  Js.includes "<img" text = false -> Js.includes "![" text = false ->
  processImagesForAnki env text n = Some (text, [], n).
Proof.
  intros Hh Hm. unfold processImagesForAnki.
  rewrite (@matchAll_absent _ _ _ htmlImageRegex_head Hh). cbn [htmlImagesLoop markdownImagesLoop].
  now rewrite (@exec_absent _ _ _ markdownImageRegex_head Hm).
Qed.

(** The card of the summary, and the archive made of it alone. *)
Definition summaryCard (title content : string) (images : list (string * string)) : FlashCard :=
  MkFlashCard (title ++ " - Summary") content images.

Definition summaryArchive (title content : string) (images : list (string * string))
  : list ZipEntry :=
  ([ZText (slug title ++ "-flashcards.txt") (generateAnkiTSV [summaryCard title content images])]
   ++ imageEntries env (assign [] images)
   ++ [ZReadme 1 (List.length (assign [] images))])%list.

Lemma anki_without_heading title summary markdown :
  NoHeadingProofs.noHeadingLine markdown ->
  exportToAnki env title summary markdown
  = if Js.truthy (Js.trim summary) then
      match cleanMarkdownForAnki env summary 0 with
      | Some (content, images, _) =>
          Some (Downloaded (slug title ++ "-anki-flashcards.zip")
                           (summaryArchive title content images))
      | None => None
      end
    else Some (Threw noCardsMessage).
Proof.
  intro Hno. unfold exportToAnki.
  rewrite (@NoHeadingProofs.cards_without_heading env title summary markdown Hno).
  destruct (Js.truthy (Js.trim summary)); [|reflexivity].
  destruct (cleanMarkdownForAnki env summary 0) as [[[content images] n]|]; reflexivity.
Qed.

End Flashcards.

Section Document.
Import Pdf.
Variable env : Env.

(** The texts [drawLinesFrom] draws. *)
Fixpoint lineTexts (lines : list string) (i : nat) (x y0 : Q) (page : nat) (f : Font)
  : list Op :=
  match lines with
  | [] => []
  | l :: rest =>
      OpText page [l] x (y0 + Num.ofNat i * 6 + 2)%num f "left"
      :: lineTexts rest (S i) x y0 page f
  end.

Lemma drawLinesFrom_ops lines :
  forall i x y0 d,
    drawLinesFrom lines i x y0 d
    = MkDoc (numPages d) (curPage d) (font d)
            (ops d ++ lineTexts lines i x y0 (curPage d) (font d)).
Proof.
  induction lines as [|l rest IH]; intros i x y0 d.
  - cbn [drawLinesFrom lineTexts]. rewrite app_nil_r. now destruct d.
  - cbn [drawLinesFrom lineTexts]. rewrite IH. unfold text, emit.
    cbn [numPages curPage font ops]. now rewrite <- app_assoc.
Qed.

(** The document of a note without section and without related note: one
    page with the title, the wrapped lines of the summary when there is
    one, and the rule under them. *)
Definition frontPage (title summary : string) (font : FontChoice) : Doc :=
  let fs := getFontSettings font in
  let titleF := MkFont (titleFont fs) "bold" 24 in
  let bodyF := MkFont (bodyFont fs) "normal" (bodyFontSize fs) in
  let right := (margin + keyPointsWidth + contentWidth env)%num in
  if Js.truthy summary then
    let lines := splitTextToSize env bodyF summary 180 in
    let y := (30 + Num.ofNat (List.length lines) * 6 + 6)%num in
    MkDoc 1 1 bodyF
          (OpText 1 [title] 15 20 titleF "left"
           :: lineTexts lines 0 15 30 1 bodyF
           ++ [OpLine 1 margin (y + 2)%num right (y + 2)%num])
  else
    MkDoc 1 1 titleF
          [OpText 1 [title] 15 20 titleF "left";
           OpLine 1 margin (35 + 2)%num right (35 + 2)%num].

Lemma renderDocument_frontPage title summary font :
  renderDocument env title summary font [] []
  = Some (Downloaded (pdfFilename title) (frontPage title summary font)).
Proof.
  unfold renderDocument, frontPage. cbn [renderSections List.length].
  destruct (Js.truthy summary).
  - rewrite drawLinesFrom_ops. destruct font; reflexivity.
  - destruct font; reflexivity.
Qed.

End Document.

(** The summary of two markdown image tokens whose alternative text is the
    replacement pattern for the matched text, [$&]. *)
Definition loopSummary : string := "![$&]" ++ Js.nl ++ "![$&]".

Lemma loopSummary_never_ends fuel : Anki.markdownImagesLoop fuel 0 loopSummary = None.
Proof. apply (@ImageLoopProofs.loop_never_ends fuel 0 0). apply Nat.le_0_l. Qed.

(** C2, as amended.  For every body with no top-level heading line:
    [exportToAnki] throws the no-flashcards error (and hands nothing to the
    download helper) when the trimmed summary is empty.  When the summary
    is not blank it reports no structural error: it returns exactly when
    the image loops of the summary end, and then with the download of the
    archive made of one card, that of the summary (the TSV of that card,
    its images, the README counting one card); the loops end at once for
    a summary that holds neither [<img] nor [![], and the markdown image
    loop never ends, whatever the number of turns, for the summary
    [loopSummary], where the export returns nothing.  [exportToPdf] has no structural
    check: it always returns the download of a PDF; when the processed
    text has no heading line either, that PDF is the one rendered from no
    section, and for a body without note link and stored image it is one
    page with the title, the summary and the rule under them. *)
Theorem C2_no_heading_outcomes (env : Env) (title summary markdown : string)
        (font : Pdf.FontChoice) :
  NoHeadingProofs.noHeadingLine markdown ->
  (Js.trim summary = EmptyString ->
   Anki.exportToAnki env title summary markdown = Some (Threw Anki.noCardsMessage))
  /\ (Js.trim summary <> EmptyString ->
      (forall content images n,
          Anki.cleanMarkdownForAnki env summary 0 = Some (content, images, n) ->
          Anki.exportToAnki env title summary markdown
          = Some (Downloaded (Anki.slug title ++ "-anki-flashcards.zip")
                             (summaryArchive env title content images)))
      /\ (Anki.cleanMarkdownForAnki env summary 0 = None ->
          Anki.exportToAnki env title summary markdown = None)
      /\ (Js.includes "<img" summary = false -> Js.includes "![" summary = false ->
          exists content,
            Anki.cleanMarkdownForAnki env summary 0 = Some (content, [], 0)
            /\ Anki.exportToAnki env title summary markdown
               = Some (Downloaded (Anki.slug title ++ "-anki-flashcards.zip")
                                  [Anki.ZText (Anki.slug title ++ "-flashcards.txt")
                                     (Anki.generateAnkiTSV [summaryCard title content []]);
                                   Anki.ZReadme 1 0])))
  /\ ((forall fuel, Anki.markdownImagesLoop fuel 0 loopSummary = None)
      /\ Anki.exportToAnki env title loopSummary markdown = None)
  /\ (exists doc,
         Pdf.exportToPdf env title summary markdown font
         = Some (Downloaded (Pdf.pdfFilename title) doc))
  /\ (NoHeadingProofs.noHeadingLine (Pdf.processContentForExport env markdown) ->
      Pdf.exportToPdf env title summary markdown font
      = Pdf.renderDocument env title summary font [] (Links.extractNoteLinks markdown))
  /\ (Js.includes "[[" markdown = false ->
      Js.includes "cornell-image://" markdown = false ->
      Pdf.exportToPdf env title summary markdown font
      = Some (Downloaded (Pdf.pdfFilename title) (frontPage env title summary font))).
Proof.
  intro Hno.
  pose proof (@anki_without_heading env title summary markdown Hno) as Ha.
  assert (Hpdf : NoHeadingProofs.noHeadingLine (Pdf.processContentForExport env markdown) ->
                 Pdf.exportToPdf env title summary markdown font
                 = Pdf.renderDocument env title summary font [] (Links.extractNoteLinks markdown)).
  { intro Hp. unfold Pdf.exportToPdf, Pdf.parseMarkdown.
    now rewrite SectionProofs.parseLines_only_preamble by exact Hp. }
  split; [|split; [|split; [|split; [|split]]]].
  - intro Hs. rewrite Ha, Hs. reflexivity.
  - intro Hs.
    assert (Ht : Js.truthy (Js.trim summary) = true).
    { revert Hs. destruct (Js.trim summary); [intro Hs; now elim Hs|reflexivity]. }
    rewrite Ht in Ha. split; [|split].
    + intros content images n E. now rewrite Ha, E.
    + intro E. now rewrite Ha, E.
    + intros Hh Hm. unfold Anki.cleanMarkdownForAnki in Ha |- *.
      rewrite (@processImagesForAnki_plain env summary 0 Hh Hm) in Ha |- *.
      eexists. split; [reflexivity|]. rewrite Ha. reflexivity.
  - split; [exact loopSummary_never_ends|].
    rewrite (@anki_without_heading env title loopSummary markdown Hno).
    change (Js.truthy (Js.trim loopSummary)) with true. cbv iota.
    unfold Anki.cleanMarkdownForAnki, Anki.processImagesForAnki.
    change (matchAll Anki.htmlImageRegex loopSummary) with (@nil Match).
    cbn [Anki.htmlImagesLoop]. now rewrite loopSummary_never_ends.
  - apply NoHeadingProofs.pdf_always_downloads.
  - exact Hpdf.
  - intros Hl Hi.
    destruct (@PreambleProofs.processContentForExport_plain env markdown Hl Hi) as [Ep El].
    rewrite Hpdf, El by (rewrite Ep; exact Hno).
    apply renderDocument_frontPage.
Qed.

Lemma C2_witness :
  NoHeadingProofs.noHeadingLine "hello"
  /\ Anki.exportToAnki Demo.env "T" "" "hello" = Some (Threw Anki.noCardsMessage)
  /\ (exists content,
         Anki.cleanMarkdownForAnki Demo.env "a summary" 0 = Some (content, [], 0)
         /\ Anki.exportToAnki Demo.env "T" "a summary" "hello"
            = Some (Downloaded (Anki.slug "T" ++ "-anki-flashcards.zip")
                               [Anki.ZText (Anki.slug "T" ++ "-flashcards.txt")
                                  (Anki.generateAnkiTSV [summaryCard "T" content []]);
                                Anki.ZReadme 1 0]))
  /\ Pdf.exportToPdf Demo.env "T" "a summary" "hello" Pdf.Sans
     = Some (Downloaded (Pdf.pdfFilename "T") (frontPage Demo.env "T" "a summary" Pdf.Sans)).
Proof.
  assert (H : NoHeadingProofs.noHeadingLine "hello").
  { intros l [<-|[]]. vm_compute. reflexivity. }
  split; [exact H|].
  split.
  - destruct (@C2_no_heading_outcomes Demo.env "T" "" "hello" Pdf.Sans H) as (H1 & _).
    apply H1. vm_compute. reflexivity.
  - destruct (@C2_no_heading_outcomes Demo.env "T" "a summary" "hello" Pdf.Sans H)
      as (_ & H2 & _ & _ & _ & H6).
    split.
    + apply H2; [vm_compute; discriminate|vm_compute; reflexivity|vm_compute; reflexivity].
    + apply H6; vm_compute; reflexivity.
Defined.

End NoHeadingOutcomes.
